(** * yuzu: guest memory, GPU memory manager, 2D blit engine, resource pool,
      scheduler chunks and texture cache

    A shallow embedding of the parts of the emulator core that the
    specification makes statements about, followed by the statements
    themselves.  Unsigned machine integers are values of [Z] with the
    wrap-around written out ([u32], [u64]); containers indexed by an address
    or a page number are finite maps of stdpp; objects held through shared
    pointers live in a store indexed by a handle. *)

From Stdlib Require Import ZArith Lia List Bool.
From Stdlib Require Import Sorting.Permutation Sorting.Sorted.
From stdpp Require Import base option list gmap.

Local Open Scope Z_scope.

(** ** Machine integers *)

Module Machine.

Definition u8 (x : Z) : Z := x mod 2 ^ 8.
Definition u16 (x : Z) : Z := x mod 2 ^ 16.
Definition u32 (x : Z) : Z := x mod 2 ^ 32.
Definition u64 (x : Z) : Z := x mod 2 ^ 64.

(** [static_cast<s32>] of a 32-bit pattern. *)
Definition s32 (x : Z) : Z :=
  let y := u32 x in if y <? 2 ^ 31 then y else y - 2 ^ 32.

End Machine.

(** ** The 2D blit engine: video_core/engines/fermi_2d.cpp *)

Module Fermi2D.
Import Machine.

(** Modelled from the spec: the enumerations and the register file of
    video_core/engines/fermi_2d.h (not in src).  Only the registers that
    [HandleSurfaceCopy] reads are kept; the 64-bit ones are the 32.32
    fixed-point registers the code shifts right by 32. *)
Inductive Origin := Center | Corner.
Inductive Filter := PointSample | Linear.
Inductive Operation :=
  SrcCopyAnd | ROPAnd | Blend | SrcCopy | ROP | SrcCopyPremult | BlendPremult.

Record Surface := { width : Z; height : Z }.

Record Regs := {
  operation : Operation;
  src : Surface;
  dst : Surface;
  blit_control_origin : Origin;
  blit_control_filter : Filter;
  blit_dst_x : Z;
  blit_dst_y : Z;
  blit_dst_width : Z;
  blit_dst_height : Z;
  blit_du_dx : Z;
  blit_dv_dy : Z;
  blit_src_x : Z;
  blit_src_y : Z
}.

(** [Common::Rectangle<u32>{left, top, right, bottom}]. *)
Record Rectangle := { left : Z; top : Z; right : Z; bottom : Z }.

Record Config := {
  cfg_operation : Operation;
  cfg_filter : Filter;
  src_rect : Rectangle;
  dst_rect : Rectangle
}.

Definition Operation_eqb (a b : Operation) : bool :=
  match a, b with
  | SrcCopyAnd, SrcCopyAnd | ROPAnd, ROPAnd | Blend, Blend | SrcCopy, SrcCopy
  | ROP, ROP | SrcCopyPremult, SrcCopyPremult | BlendPremult, BlendPremult => true
  | _, _ => false
  end.

(** [DelimitLine]: all arithmetic is on [u32]; [std::max<s32>] converts the
    32-bit difference to a signed value first.  A zero [line_a] makes the
    C++ division undefined: the model has no result there. *)
Definition DelimitLine (src_1 src_2 dst_1 dst_2 src_line : Z) : option (Z * Z) :=
  let line_a := u32 (src_2 - src_1) in
  let line_b := u32 (dst_2 - dst_1) in
  let excess := u32 (Z.max 0 (s32 (line_a - src_line + src_1))) in
  if line_a =? 0 then None
  else Some (u32 (line_b - u32 (excess * line_b) / line_a), excess).

(** [HandleSurfaceCopy] up to the call of the rasterizer: the result is the
    [Config] handed to [AccelerateSurfaceCopy]; [None] is the failed
    [ASSERT] on the operation or an undefined division. *)
Definition HandleSurfaceCopy (regs : Regs) : option Config :=
  if negb (Operation_eqb (operation regs) SrcCopy) then None else
  let src_blit_x1 := u32 (Z.shiftr (blit_src_x regs) 32) in
  let src_blit_y1 := u32 (Z.shiftr (blit_src_y regs) 32) in
  let '(src_blit_x2, src_blit_y2) :=
    match blit_control_origin regs with
    | Corner =>
        (u32 (Z.shiftr (u64 (blit_src_x regs
                             + u64 (blit_du_dx regs * blit_dst_width regs))) 32),
         u32 (Z.shiftr (u64 (blit_src_y regs
                             + u64 (blit_dv_dy regs * blit_dst_height regs))) 32))
    | Center =>
        (u32 (u64 (Z.shiftr (blit_src_x regs) 32 + blit_dst_width regs)),
         u32 (u64 (Z.shiftr (blit_src_y regs) 32 + blit_dst_height regs)))
    end in
  let dst_blit_x2 := u32 (blit_dst_x regs + blit_dst_width regs) in
  let dst_blit_y2 := u32 (blit_dst_y regs + blit_dst_height regs) in
  '(new_dst_w, src_excess_x) ←
    DelimitLine src_blit_x1 src_blit_x2 (blit_dst_x regs) dst_blit_x2 (width (src regs));
  '(new_dst_h, src_excess_y) ←
    DelimitLine src_blit_y1 src_blit_y2 (blit_dst_y regs) dst_blit_y2 (height (src regs));
  let dst_blit_x2 := u32 (new_dst_w + blit_dst_x regs) in
  let src_blit_x2 := u32 (src_blit_x2 - src_excess_x) in
  let dst_blit_y2 := u32 (new_dst_h + blit_dst_y regs) in
  let src_blit_y2 := u32 (src_blit_y2 - src_excess_y) in
  '(new_src_w, dst_excess_x) ←
    DelimitLine (blit_dst_x regs) dst_blit_x2 src_blit_x1 src_blit_x2 (width (dst regs));
  '(new_src_h, dst_excess_y) ←
    DelimitLine (blit_dst_y regs) dst_blit_y2 src_blit_y1 src_blit_y2 (height (dst regs));
  let src_blit_x2 := u32 (new_src_w + src_blit_x1) in
  let dst_blit_x2 := u32 (dst_blit_x2 - dst_excess_x) in
  let src_blit_y2 := u32 (new_src_h + src_blit_y1) in
  let dst_blit_y2 := u32 (dst_blit_y2 - dst_excess_y) in
  Some {| cfg_operation := operation regs;
          cfg_filter := blit_control_filter regs;
          src_rect := {| left := src_blit_x1; top := src_blit_y1;
                         right := src_blit_x2; bottom := src_blit_y2 |};
          dst_rect := {| left := blit_dst_x regs; top := blit_dst_y regs;
                         right := dst_blit_x2; bottom := dst_blit_y2 |} |}.

(** The corners of the source rectangle as [HandleSurfaceCopy] first
    computes them, before any clipping. *)
Definition src_blit_x1 (regs : Regs) : Z := u32 (Z.shiftr (blit_src_x regs) 32).
Definition src_blit_y1 (regs : Regs) : Z := u32 (Z.shiftr (blit_src_y regs) 32).

Definition src_blit_x2 (regs : Regs) : Z :=
  match blit_control_origin regs with
  | Corner =>
      u32 (Z.shiftr (u64 (blit_src_x regs
                          + u64 (blit_du_dx regs * blit_dst_width regs))) 32)
  | Center => u32 (u64 (Z.shiftr (blit_src_x regs) 32 + blit_dst_width regs))
  end.

Definition src_blit_y2 (regs : Regs) : Z :=
  match blit_control_origin regs with
  | Corner =>
      u32 (Z.shiftr (u64 (blit_src_y regs
                          + u64 (blit_dv_dy regs * blit_dst_height regs))) 32)
  | Center => u32 (u64 (Z.shiftr (blit_src_y regs) 32 + blit_dst_height regs))
  end.

(** One axis of a blit is in range when the source line starts inside the
    source surface and is not empty, the destination line starts inside
    the destination surface and is not empty, everything fits a signed
    32-bit value and the product of the two lengths fits [u32]. *)
Definition axis_in_range (s1 s2 d1 len s_line d_line : Z) : Prop :=
  0 ≤ s1 < s2 ∧ s2 < 2 ^ 31 ∧ s1 ≤ s_line < 2 ^ 31
  ∧ 0 ≤ d1 ∧ 0 < len ∧ d1 + len < 2 ^ 31 ∧ d1 ≤ d_line < 2 ^ 31
  ∧ (s2 - s1) * len < 2 ^ 32.

(** A 64x64 source blitted one to one from the corner into the middle of a
    48x48 destination: both rectangles are cut. *)
Definition cut_regs : Regs :=
  {| operation := SrcCopy;
     src := {| width := 40; height := 40 |};
     dst := {| width := 48; height := 48 |};
     blit_control_origin := Corner;
     blit_control_filter := PointSample;
     blit_dst_x := 16; blit_dst_y := 16;
     blit_dst_width := 64; blit_dst_height := 64;
     blit_du_dx := 2 ^ 32; blit_dv_dy := 2 ^ 32;
     blit_src_x := 0; blit_src_y := 0 |}.

(** The same blit with the source rectangle starting at the right edge of
    the source surface. *)
Definition edge_regs : Regs :=
  {| operation := SrcCopy;
     src := {| width := 40; height := 40 |};
     dst := {| width := 48; height := 48 |};
     blit_control_origin := Corner;
     blit_control_filter := PointSample;
     blit_dst_x := 16; blit_dst_y := 16;
     blit_dst_width := 64; blit_dst_height := 64;
     blit_du_dx := 2 ^ 32; blit_dv_dy := 2 ^ 32;
     blit_src_x := 40 * 2 ^ 32; blit_src_y := 0 |}.


End Fermi2D.

(** ** The resource pool: video_core/renderer_vulkan/vk_resource_pool.cpp *)

Module ResourcePool.

(** [MasterSemaphore] of vk_master_semaphore.h: the known GPU tick and the
    logical tick.  The counter of the host timeline semaphore is an input of
    [Refresh]. *)
Record MasterSemaphore := { gpu_tick : Z; current_tick : Z }.

Definition CurrentTick (sem : MasterSemaphore) : Z := current_tick sem.

Definition IsFree (sem : MasterSemaphore) (tick : Z) : bool := tick <=? gpu_tick sem.

Definition NextTick (sem : MasterSemaphore) : MasterSemaphore :=
  {| gpu_tick := gpu_tick sem; current_tick := Machine.u64 (current_tick sem + 1) |}.

Definition Refresh (counter : Z) (sem : MasterSemaphore) : MasterSemaphore :=
  {| gpu_tick := counter; current_tick := current_tick sem |}.

(** The pool.  [Allocate] is pure virtual: the calls it receives are kept
    in [allocate_calls], oldest first. *)
Record t := {
  grow_step : nat;
  free_iterator : nat;
  ticks : list Z;
  allocate_calls : list (nat * nat)
}.

Definition set_ticks (pool : t) (l : list Z) : t :=
  {| grow_step := grow_step pool; free_iterator := free_iterator pool;
     ticks := l; allocate_calls := allocate_calls pool |}.

Definition set_free_iterator (pool : t) (i : nat) : t :=
  {| grow_step := grow_step pool; free_iterator := i;
     ticks := ticks pool; allocate_calls := allocate_calls pool |}.

(** The [search] lambda of [CommitResource], run for [steps] iterations
    from [iterator].  The outer [None] is an index outside the vector. *)
Fixpoint search_loop (sem : MasterSemaphore) (tks : list Z) (iterator steps : nat)
  : option (option nat * list Z) :=
  match steps with
  | O => Some (None, tks)
  | S n =>
      match tks !! iterator with
      | None => None
      | Some tick =>
          if IsFree sem tick
          then Some (Some iterator, <[iterator := CurrentTick sem]> tks)
          else search_loop sem tks (S iterator) n
      end
  end.

Definition search (sem : MasterSemaphore) (tks : list Z) (begin_ end_ : nat)
  : option (option nat * list Z) :=
  search_loop sem tks begin_ (end_ - begin_)%nat.

(** [ticks.resize(old_capacity + grow_step)] value-initialises the new
    ticks to zero. *)
Definition Grow (pool : t) : t :=
  let old_capacity := length (ticks pool) in
  {| grow_step := grow_step pool; free_iterator := free_iterator pool;
     ticks := ticks pool ++ replicate (grow_step pool) 0;
     allocate_calls :=
       allocate_calls pool ++ [(old_capacity, (old_capacity + grow_step pool)%nat)] |}.

Definition ManageOverflow (pool : t) : nat * t :=
  let old_capacity := length (ticks pool) in
  (old_capacity, Grow pool).

(** [CommitResource]; [counter] is what the host semaphore reports to
    [Refresh].  [None] is undefined behaviour of the C++: a tick written
    outside the vector or the remainder by an empty vector's size. *)
Definition CommitResource (counter : Z) (sem : MasterSemaphore) (pool : t)
  : option (nat * MasterSemaphore * t) :=
  let sem := Refresh counter sem in
  '(found, tks) ← search sem (ticks pool) (free_iterator pool) (length (ticks pool));
  '(found, pool) ←
    match found with
    | Some i => Some (i, set_ticks pool tks)
    | None =>
        '(found, tks) ← search sem tks 0 (free_iterator pool);
        match found with
        | Some i => Some (i, set_ticks pool tks)
        | None =>
            let '(free_resource, pool) := ManageOverflow (set_ticks pool tks) in
            if decide (free_resource < length (ticks pool))%nat
            then Some (free_resource,
                       set_ticks pool (<[free_resource := CurrentTick sem]> (ticks pool)))
            else None
        end
    end;
  if decide (length (ticks pool) = 0%nat) then None
  else Some (found, sem,
             set_free_iterator pool ((found + 1) mod length (ticks pool))%nat).

(** A pool of four slots whose ticks are all still pending. *)
Definition busy_pool : t :=
  {| grow_step := 2; free_iterator := 1; ticks := [5; 6; 7; 8]; allocate_calls := [] |}.

(** A pool whose only free slot lies before the hint. *)
Definition wrapping_pool : t :=
  {| grow_step := 2; free_iterator := 2; ticks := [5; 9; 9; 9]; allocate_calls := [] |}.

End ResourcePool.

(** ** Command chunks of the scheduler:
       video_core/renderer_vulkan/vk_scheduler.h *)

Module VKScheduler.

(** A recorded closure: [sizeof_FuncType] is [sizeof(TypedCommand<T>)] of its
    type, [closure] stands for the lambda itself. *)
Record Command := { sizeof_FuncType : Z; closure : nat }.

(** [sizeof(data)] of [std::array<u8, 0x8000>]. *)
Definition sizeof_data : Z := 32768.

(** A chunk: the intrusive list [first]..[last] is the list [commands] in
    recording order, [command_offset] the fill level of the arena. *)
Record CommandChunk := { commands : list Command; command_offset : Z }.

Definition fresh_chunk : CommandChunk := {| commands := []; command_offset := 0 |}.

Definition Empty (c : CommandChunk) : bool := command_offset c =? 0.

(** [CommandChunk::Record]; the subtraction is on [size_t]. *)
Definition CommandChunk_Record (command : Command) (c : CommandChunk)
  : bool * CommandChunk :=
  if Machine.u64 (sizeof_data - sizeof_FuncType command) <? command_offset c
  then (false, c)
  else (true,
        {| commands := commands c ++ [command];
           command_offset := command_offset c + sizeof_FuncType command |}).

(** The part of the scheduler that recording touches: the chunk being
    filled and the queue of chunks handed to the worker, oldest first. *)
Record t := { chunk : CommandChunk; chunk_queue : list CommandChunk }.

(** Modelled from the spec: [VKScheduler::DispatchWork] of vk_scheduler.cpp
    (not in src): the chunk is handed to the worker queue and a fresh chunk
    is acquired.  Nothing in it waits for the worker. *)
Definition DispatchWork (s : t) : t :=
  {| chunk := fresh_chunk; chunk_queue := chunk_queue s ++ [chunk s] |}.

(** [VKScheduler::Record]; the boolean tells whether the command is in the
    current chunk when the function returns (the source discards the result
    of the second attempt). *)
Definition Record_ (command : Command) (s : t) : bool * t :=
  let '(ok, c) := CommandChunk_Record command (chunk s) in
  if ok then (true, {| chunk := c; chunk_queue := chunk_queue s |})
  else
    let s := DispatchWork s in
    let '(ok, c) := CommandChunk_Record command (chunk s) in
    (ok, {| chunk := c; chunk_queue := chunk_queue s |}).

(** Every command the scheduler holds, in recording order. *)
Definition recorded (s : t) : list Command :=
  concat (map commands (chunk_queue s)) ++ commands (chunk s).

(** The fill level of a chunk is the total size of the commands placed in
    its arena, and the arena holds them all. *)
Definition arena_ok (c : CommandChunk) : Prop :=
  command_offset c = foldr (fun cmd acc => sizeof_FuncType cmd + acc) 0 (commands c)
  ∧ 0 ≤ command_offset c ≤ sizeof_data.

Definition nearly_full : t :=
  {| chunk := {| commands := [ {| sizeof_FuncType := 32760; closure := 1 |} ];
                 command_offset := 32760 |};
     chunk_queue := [] |}.

End VKScheduler.

(** ** The guest memory core: core/memory.cpp *)

Module CoreMemory.
Import Machine.

(** Host memory: a byte for every host address.  A [u8*] is its address;
    the null pointer is address [0]. *)
Definition HostMemory := Z → Z.

(** Modelled from the spec: the page attributes of common/page_table.h (not
    in src). *)
Inductive PageType := Unmapped | Memory | RasterizerCachedMemory | Special.

Definition PageType_eqb (a b : PageType) : bool :=
  match a, b with
  | Unmapped, Unmapped | Memory, Memory
  | RasterizerCachedMemory, RasterizerCachedMemory | Special, Special => true
  | _, _ => false
  end.

(** What the memory core reaches through [Core::System&]: the page size of
    core/memory.h, the device memory, the GPU and the rasterizer.  These are
    collaborators outside core/memory.cpp; a flush may write guest memory
    back, so it transforms the host memory together with the GPU state. *)
Class System := {
  PAGE_BITS : Z;
  GPU : Type;
  IsPoweredOn : bool;
  DeviceMemory_GetPointer : Z → Z;
  GPU_FlushRegion : Z → Z → GPU * HostMemory → GPU * HostMemory;
  GPU_InvalidateRegion : Z → Z → GPU → GPU;
  GPU_FlushAndInvalidateRegion : Z → Z → GPU * HostMemory → GPU * HostMemory;
  Rasterizer_FlushRegion : Z → Z → GPU * HostMemory → GPU * HostMemory;
  Rasterizer_InvalidateRegion : Z → Z → GPU → GPU
}.

(** [Common::PageTable]: three parallel vectors of [table_size] entries,
    value-initialised (null pointer, [Unmapped], no backing address).  An
    index outside the vectors has no entry. *)
Record PageTable := {
  pointers : gmap Z Z;
  attributes : gmap Z PageType;
  backing_addr : gmap Z Z;
  table_size : Z
}.

Definition in_table (pt : PageTable) (page : Z) : bool :=
  (0 <=? page) && (page <? table_size pt).

Definition pointer_at (pt : PageTable) (page : Z) : option Z :=
  if in_table pt page then Some (default 0 (pointers pt !! page)) else None.

Definition attribute_at (pt : PageTable) (page : Z) : option PageType :=
  if in_table pt page then Some (default Unmapped (attributes pt !! page)) else None.

Definition backing_addr_at (pt : PageTable) (page : Z) : option Z :=
  if in_table pt page then Some (default 0 (backing_addr pt !! page)) else None.

Definition set_entry (pt : PageTable) (page : Z) (ptr : Z) (type : PageType) (back : Z)
  : PageTable :=
  {| pointers := <[page := ptr]> (pointers pt);
     attributes := <[page := type]> (attributes pt);
     backing_addr := <[page := back]> (backing_addr pt);
     table_size := table_size pt |}.

Definition set_pointer_and_type (pt : PageTable) (page : Z) (ptr : Z) (type : PageType)
  : PageTable :=
  {| pointers := <[page := ptr]> (pointers pt);
     attributes := <[page := type]> (attributes pt);
     backing_addr := backing_addr pt;
     table_size := table_size pt |}.

Definition set_type (pt : PageTable) (page : Z) (type : PageType) : PageTable :=
  {| pointers := pointers pt;
     attributes := <[page := type]> (attributes pt);
     backing_addr := backing_addr pt;
     table_size := table_size pt |}.

Definition empty_table (size : Z) : PageTable :=
  {| pointers := ∅; attributes := ∅; backing_addr := ∅; table_size := size |}.

(** What [LOG_ERROR] receives. *)
Inductive LogEntry :=
| UnmappedRead (bits vaddr : Z)
| UnmappedWrite (bits data vaddr : Z)
| UnmappedReadBlock (current_vaddr src_addr size : Z).

(** [little-endian] [std::memcpy] of [n] bytes out of and into host
    memory. *)
Fixpoint load (mem : HostMemory) (ptr : Z) (n : nat) : Z :=
  match n with
  | O => 0
  | S k => Z.lor (u8 (mem ptr)) (Z.shiftl (load mem (u64 (ptr + 1)) k) 8)
  end.

Definition poke (mem : HostMemory) (ptr : Z) (byte : Z) : HostMemory :=
  fun a => if a =? ptr then byte else mem a.

Fixpoint store (mem : HostMemory) (ptr : Z) (n : nat) (value : Z) : HostMemory :=
  match n with
  | O => mem
  | S k => store (poke mem ptr (u8 value)) (u64 (ptr + 1)) k (Z.shiftr value 8)
  end.

Fixpoint load_bytes (mem : HostMemory) (ptr : Z) (n : nat) : list Z :=
  match n with
  | O => []
  | S k => u8 (mem ptr) :: load_bytes mem (u64 (ptr + 1)) k
  end.

(** [std::memcpy] of a host buffer into host memory. *)
Fixpoint store_bytes (mem : HostMemory) (ptr : Z) (bytes : list Z) : HostMemory :=
  match bytes with
  | [] => mem
  | b :: rest => store_bytes (poke mem ptr (u8 b)) (u64 (ptr + 1)) rest
  end.

(** What [LOG_ERROR] receives from the block writers. *)
Inductive BlockLogEntry :=
| UnmappedWriteBlock (current_vaddr dest_addr size : Z)
| UnmappedZeroBlock (current_vaddr dest_addr size : Z)
| UnmappedCopyBlock (current_vaddr src_addr size : Z).

(** The line [ZeroBlock] logs where [WriteBlock] logs its own. *)
Definition as_ZeroBlock (line : BlockLogEntry) : BlockLogEntry :=
  match line with
  | UnmappedWriteBlock current_vaddr dest_addr size =>
      UnmappedZeroBlock current_vaddr dest_addr size
  | _ => line
  end.

(** [std::memcpy] of [n] bytes from one place of host memory to another;
    it has no result when the two buffers overlap. *)
Definition buffers_overlap (dest src n : Z) : bool :=
  (u64 (dest - src) <? n) || (u64 (src - dest) <? n).

Definition copy_bytes (mem : HostMemory) (dest src n : Z) : option HostMemory :=
  if buffers_overlap dest src n then None
  else Some (store_bytes mem dest (load_bytes mem src (Z.to_nat n))).

(** The value of an [n]-byte unsigned integer. *)
Definition truncate (n : nat) (x : Z) : Z := x mod 2 ^ (8 * Z.of_nat n).

(** Modelled from the spec: [Common::AtomicCompareAndSwap] of
    common/atomic_ops.h (not in src), a compare-and-swap on the [n] bytes at
    the host pointer that returns true only if the swap succeeded. *)
Definition AtomicCompareAndSwap (mem : HostMemory) (pointer : Z) (n : nat)
  (value expected : Z) : bool * HostMemory :=
  if load mem pointer n =? truncate n expected
  then (true, store mem pointer n value)
  else (false, mem).

Section WithSystem.
Context `{System}.

Definition PAGE_SIZE : Z := Z.shiftl 1 PAGE_BITS.
Definition PAGE_MASK : Z := PAGE_SIZE - 1.

Record State := {
  current_page_table : PageTable;
  host : HostMemory;
  gpu : GPU;
  log : list LogEntry
}.

Definition set_table (st : State) (pt : PageTable) : State :=
  {| current_page_table := pt; host := host st; gpu := gpu st; log := log st |}.

Definition set_host (st : State) (mem : HostMemory) : State :=
  {| current_page_table := current_page_table st; host := mem;
     gpu := gpu st; log := log st |}.

Definition set_gpu_host (st : State) (gh : GPU * HostMemory) : State :=
  {| current_page_table := current_page_table st; host := snd gh;
     gpu := fst gh; log := log st |}.

Definition set_gpu (st : State) (g : GPU) : State :=
  {| current_page_table := current_page_table st; host := host st;
     gpu := g; log := log st |}.

Definition log_error (st : State) (e : LogEntry) : State :=
  {| current_page_table := current_page_table st; host := host st;
     gpu := gpu st; log := log st ++ [e] |}.

(** [GetPointerFromRasterizerCachedMemory]; the outer [None] is an index
    outside the table. *)
Definition GetPointerFromRasterizerCachedMemory (st : State) (vaddr : Z) : option Z :=
  paddr ← backing_addr_at (current_page_table st) (Z.shiftr vaddr PAGE_BITS);
  if paddr =? 0 then Some 0
  else Some (u64 (DeviceMemory_GetPointer paddr + vaddr)).

(** [Read<T>] for a [T] of [n] bytes.  [None]: an index outside the table,
    a failed assertion, the unreachable default, or a copy from the null
    pointer. *)
Definition Read (n : nat) (vaddr : Z) (st : State) : option (Z * State) :=
  page_pointer ← pointer_at (current_page_table st) (Z.shiftr vaddr PAGE_BITS);
  if negb (page_pointer =? 0) then
    Some (load (host st) (u64 (page_pointer + vaddr)) n, st)
  else
    type ← attribute_at (current_page_table st) (Z.shiftr vaddr PAGE_BITS);
    match type with
    | Unmapped => Some (0, log_error st (UnmappedRead (8 * Z.of_nat n) vaddr))
    | Memory => None
    | RasterizerCachedMemory =>
        host_ptr ← GetPointerFromRasterizerCachedMemory st vaddr;
        let st := set_gpu_host st (GPU_FlushRegion vaddr (Z.of_nat n) (gpu st, host st)) in
        if host_ptr =? 0 then None
        else Some (load (host st) host_ptr n, st)
    | Special => None
    end.

(** [Write<T>]. *)
Definition Write (n : nat) (vaddr data : Z) (st : State) : option State :=
  page_pointer ← pointer_at (current_page_table st) (Z.shiftr vaddr PAGE_BITS);
  if negb (page_pointer =? 0) then
    Some (set_host st (store (host st) (u64 (page_pointer + vaddr)) n data))
  else
    type ← attribute_at (current_page_table st) (Z.shiftr vaddr PAGE_BITS);
    match type with
    | Unmapped =>
        Some (log_error st (UnmappedWrite (8 * Z.of_nat n) (u32 data) vaddr))
    | Memory => None
    | RasterizerCachedMemory =>
        host_ptr ← GetPointerFromRasterizerCachedMemory st vaddr;
        let st := set_gpu st (GPU_InvalidateRegion vaddr (Z.of_nat n) (gpu st)) in
        if host_ptr =? 0 then None
        else Some (set_host st (store (host st) host_ptr n data))
    | Special => None
    end.

(** [WriteExclusive<T>].  On a rasterizer-cached page the source applies the
    compare-and-swap to [&host_ptr], the local variable that holds the
    pointer: its low [n] bytes are compared and guest memory is left
    alone. *)
Definition WriteExclusive (n : nat) (vaddr data expected : Z) (st : State)
  : option (bool * State) :=
  page_pointer ← pointer_at (current_page_table st) (Z.shiftr vaddr PAGE_BITS);
  if negb (page_pointer =? 0) then
    let '(ok, mem) :=
      AtomicCompareAndSwap (host st) (u64 (page_pointer + vaddr)) n data expected in
    Some (ok, set_host st mem)
  else
    type ← attribute_at (current_page_table st) (Z.shiftr vaddr PAGE_BITS);
    match type with
    | Unmapped =>
        Some (true, log_error st (UnmappedWrite (8 * Z.of_nat n) (u32 data) vaddr))
    | Memory => None
    | RasterizerCachedMemory =>
        host_ptr ← GetPointerFromRasterizerCachedMemory st vaddr;
        let st := set_gpu st (GPU_InvalidateRegion vaddr (Z.of_nat n) (gpu st)) in
        Some (truncate n host_ptr =? truncate n expected, st)
    | Special => None
    end.

Definition Read8 (addr : Z) (st : State) : option (Z * State) := Read 1 addr st.

Definition Read16 (addr : Z) (st : State) : option (Z * State) :=
  if Z.land addr 1 =? 0 then Read 2 addr st
  else
    '(a, st) ← Read 1 addr st;
    '(b, st) ← Read 1 (u64 (addr + 1)) st;
    Some (u16 (Z.lor (Z.shiftl b 8) a), st).

Definition Read32 (addr : Z) (st : State) : option (Z * State) :=
  if Z.land addr 3 =? 0 then Read 4 addr st
  else
    '(a, st) ← Read16 addr st;
    '(b, st) ← Read16 (u64 (addr + 2)) st;
    Some (u32 (Z.lor (Z.shiftl b 16) a), st).

Definition Read64 (addr : Z) (st : State) : option (Z * State) :=
  if Z.land addr 7 =? 0 then Read 8 addr st
  else
    '(a, st) ← Read32 addr st;
    '(b, st) ← Read32 (u64 (addr + 4)) st;
    Some (u64 (Z.lor (Z.shiftl b 32) a), st).

Definition Write8 (addr data : Z) (st : State) : option State := Write 1 addr data st.

Definition Write16 (addr data : Z) (st : State) : option State :=
  if Z.land addr 1 =? 0 then Write 2 addr data st
  else
    st ← Write 1 addr (u8 data) st;
    Write 1 (u64 (addr + 1)) (u8 (Z.shiftr data 8)) st.

Definition Write32 (addr data : Z) (st : State) : option State :=
  if Z.land addr 3 =? 0 then Write 4 addr data st
  else
    st ← Write16 addr (u16 data) st;
    Write16 (u64 (addr + 2)) (u16 (Z.shiftr data 16)) st.

Definition Write64 (addr data : Z) (st : State) : option State :=
  if Z.land addr 7 =? 0 then Write 8 addr data st
  else
    st ← Write32 addr (u32 data) st;
    Write32 (u64 (addr + 4)) (u32 (Z.shiftr data 32)) st.

(** [ReadN] and [WriteN] of the specification: the accessor of [n] bytes,
    for [n] one of 1, 2, 4 and 8. *)
Definition ReadN (n : nat) : Z → State → option (Z * State) :=
  match n with
  | 1%nat => Read8
  | 2%nat => Read16
  | 4%nat => Read32
  | _ => Read64
  end.

Definition WriteN (n : nat) : Z → Z → State → option State :=
  match n with
  | 1%nat => Write8
  | 2%nat => Write16
  | 4%nat => Write32
  | _ => Write64
  end.

Definition WriteExclusive8 := WriteExclusive 1.
Definition WriteExclusive16 := WriteExclusive 2.
Definition WriteExclusive32 := WriteExclusive 4.
Definition WriteExclusive64 := WriteExclusive 8.

(** The first loop of [MapPages]: when the system is powered on, every page
    of the range that is rasterizer cached is flushed and invalidated. *)
Fixpoint MapPages_flush (count : nat) (page : Z) (st : State) : option State :=
  match count with
  | O => Some st
  | S k =>
      type ← attribute_at (current_page_table st) page;
      let st :=
        if PageType_eqb type RasterizerCachedMemory
        then set_gpu_host st
               (GPU_FlushAndInvalidateRegion (u64 (Z.shiftl page PAGE_BITS)) PAGE_SIZE
                  (gpu st, host st))
        else st in
      MapPages_flush k (u64 (page + 1)) st
  end.

(** The loop of [MapPages] without a target. *)
Fixpoint MapPages_clear (count : nat) (base : Z) (type : PageType) (pt : PageTable)
  : option PageTable :=
  match count with
  | O => Some pt
  | S k =>
      if in_table pt base
      then MapPages_clear k (u64 (base + 1)) type (set_entry pt base 0 type 0)
      else None
  end.

(** The loop of [MapPages] with a target; the pointer stored for a page is
    biased by the page's address, and must not come out null. *)
Fixpoint MapPages_fill (count : nat) (base target : Z) (type : PageType) (pt : PageTable)
  : option PageTable :=
  match count with
  | O => Some pt
  | S k =>
      if in_table pt base then
        let ptr := u64 (DeviceMemory_GetPointer target - Z.shiftl base PAGE_BITS) in
        let back := u64 (target - Z.shiftl base PAGE_BITS) in
        if ptr =? 0 then None
        else MapPages_fill k (u64 (base + 1)) (u64 (target + PAGE_SIZE)) type
               (set_entry pt base ptr type back)
      else None
  end.

(** [MapPages]; [base] and [size] count pages. *)
Definition MapPages (base size target : Z) (type : PageType) (st : State) : option State :=
  st ← (if IsPoweredOn then MapPages_flush (Z.to_nat size) base st else Some st);
  let end_ := u64 (base + size) in
  if table_size (current_page_table st) <? end_ then None
  else if target =? 0 then
    if PageType_eqb type Memory then None
    else pt ← MapPages_clear (Z.to_nat size) base type (current_page_table st);
         Some (set_table st pt)
  else pt ← MapPages_fill (Z.to_nat size) base target type (current_page_table st);
       Some (set_table st pt).

Definition MapMemoryRegion (base size target : Z) (st : State) : option State :=
  if negb (Z.land size PAGE_MASK =? 0) then None
  else if negb (Z.land base PAGE_MASK =? 0) then None
  else MapPages (base / PAGE_SIZE) (size / PAGE_SIZE) target Memory st.

Definition UnmapRegion (base size : Z) (st : State) : option State :=
  if negb (Z.land size PAGE_MASK =? 0) then None
  else if negb (Z.land base PAGE_MASK =? 0) then None
  else MapPages (base / PAGE_SIZE) (size / PAGE_SIZE) 0 Unmapped st.

(** One iteration of the loop of [RasterizerMarkRegionCached]. *)
Definition mark_page (vaddr : Z) (cached : bool) (st : State) : option State :=
  let page := Z.shiftr vaddr PAGE_BITS in
  page_type ← attribute_at (current_page_table st) page;
  if cached then
    match page_type with
    | Unmapped => Some st
    | Memory =>
        Some (set_table st
                (set_pointer_and_type (current_page_table st) page 0
                   RasterizerCachedMemory))
    | RasterizerCachedMemory => Some st
    | Special => None
    end
  else
    match page_type with
    | Unmapped => Some st
    | Memory => Some st
    | RasterizerCachedMemory =>
        let page_start := Z.land vaddr (u64 (Z.lnot PAGE_MASK)) in
        pointer ← GetPointerFromRasterizerCachedMemory st page_start;
        if pointer =? 0
        then Some (set_table st (set_type (current_page_table st) page Unmapped))
        else Some (set_table st
                     (set_pointer_and_type (current_page_table st) page
                        (u64 (pointer - page_start)) Memory))
    | Special => None
    end.

Fixpoint mark_pages (count : nat) (vaddr : Z) (cached : bool) (st : State) : option State :=
  match count with
  | O => Some st
  | S k => st ← mark_page vaddr cached st; mark_pages k (u64 (vaddr + PAGE_SIZE)) cached st
  end.

Definition RasterizerMarkRegionCached (vaddr size : Z) (cached : bool) (st : State)
  : option State :=
  if vaddr =? 0 then Some st
  else
    let num_pages :=
      u64 (Z.shiftr (u64 (vaddr + size - 1)) PAGE_BITS - Z.shiftr vaddr PAGE_BITS + 1) in
    mark_pages (Z.to_nat num_pages) vaddr cached st.

(** The loop of [ReadBlockUnsafe]: the bytes copied to the destination, in
    order.  Every branch fills its whole chunk.  [fuel] bounds the number of
    chunks; [None] is also exhausted fuel. *)
Fixpoint ReadBlockUnsafe_loop (fuel : nat) (src_addr size : Z)
  (page_index page_offset remaining_size : Z) (st : State) : option (list Z * State) :=
  if remaining_size <=? 0 then Some ([], st)
  else
    match fuel with
    | O => None
    | S fuel =>
        let copy_amount := Z.min (u64 (PAGE_SIZE - page_offset)) remaining_size in
        let current_vaddr := u64 (Z.shiftl page_index PAGE_BITS + page_offset) in
        type ← attribute_at (current_page_table st) page_index;
        '(chunk, st) ←
          match type with
          | Unmapped =>
              Some (replicate (Z.to_nat copy_amount) 0,
                    log_error st (UnmappedReadBlock current_vaddr src_addr size))
          | Memory =>
              ptr ← pointer_at (current_page_table st) page_index;
              let src_ptr := u64 (ptr + page_offset + Z.shiftl page_index PAGE_BITS) in
              Some (load_bytes (host st) src_ptr (Z.to_nat copy_amount), st)
          | RasterizerCachedMemory =>
              host_ptr ← GetPointerFromRasterizerCachedMemory st current_vaddr;
              if host_ptr =? 0 then None
              else Some (load_bytes (host st) host_ptr (Z.to_nat copy_amount), st)
          | Special => None
          end;
        '(rest, st) ←
          ReadBlockUnsafe_loop fuel src_addr size (u64 (page_index + 1)) 0
            (remaining_size - copy_amount) st;
        Some (chunk ++ rest, st)
    end.

Definition ReadBlockUnsafe (src_addr size : Z) (st : State) : option (list Z * State) :=
  ReadBlockUnsafe_loop (Z.to_nat size) src_addr size
    (Z.shiftr src_addr PAGE_BITS) (Z.land src_addr PAGE_MASK) size st.

(** The loop shared by [WriteBlock] and [WriteBlockUnsafe], which differ in
    one call: on a rasterizer-cached page [WriteBlock] invalidates the
    region in the GPU before it copies ([invalidate]).  [src_buffer] is what
    is left of the source buffer; the lines logged are returned in order.
    [fuel] bounds the number of chunks; [None] is also exhausted fuel. *)
Fixpoint WriteBlock_loop (invalidate : bool) (fuel : nat) (dest_addr size : Z)
  (page_index page_offset remaining_size : Z) (src_buffer : list Z) (st : State)
  : option (list BlockLogEntry * State) :=
  if remaining_size <=? 0 then Some ([], st)
  else
    match fuel with
    | O => None
    | S fuel =>
        let copy_amount := Z.min (u64 (PAGE_SIZE - page_offset)) remaining_size in
        let current_vaddr := u64 (Z.shiftl page_index PAGE_BITS + page_offset) in
        let chunk := take (Z.to_nat copy_amount) src_buffer in
        type ← attribute_at (current_page_table st) page_index;
        '(lines, st) ←
          match type with
          | Unmapped => Some ([UnmappedWriteBlock current_vaddr dest_addr size], st)
          | Memory =>
              ptr ← pointer_at (current_page_table st) page_index;
              let dest_ptr := u64 (ptr + page_offset + Z.shiftl page_index PAGE_BITS) in
              Some ([], set_host st (store_bytes (host st) dest_ptr chunk))
          | RasterizerCachedMemory =>
              host_ptr ← GetPointerFromRasterizerCachedMemory st current_vaddr;
              let st :=
                if invalidate
                then set_gpu st (GPU_InvalidateRegion current_vaddr copy_amount (gpu st))
                else st in
              if host_ptr =? 0 then None
              else Some ([], set_host st (store_bytes (host st) host_ptr chunk))
          | Special => None
          end;
        '(rest, st) ←
          WriteBlock_loop invalidate fuel dest_addr size (u64 (page_index + 1)) 0
            (remaining_size - copy_amount) (drop (Z.to_nat copy_amount) src_buffer) st;
        Some (lines ++ rest, st)
    end.

(** [WriteBlock] and [WriteBlockUnsafe]; a source buffer shorter than
    [size] would be read past its end, which has no result. *)
Definition WriteBlock (dest_addr : Z) (src_buffer : list Z) (size : Z) (st : State)
  : option (list BlockLogEntry * State) :=
  if decide (Z.to_nat size ≤ length src_buffer)%nat then
    WriteBlock_loop true (Z.to_nat size) dest_addr size
      (Z.shiftr dest_addr PAGE_BITS) (Z.land dest_addr PAGE_MASK) size src_buffer st
  else None.

Definition WriteBlockUnsafe (dest_addr : Z) (src_buffer : list Z) (size : Z) (st : State)
  : option (list BlockLogEntry * State) :=
  if decide (Z.to_nat size ≤ length src_buffer)%nat then
    WriteBlock_loop false (Z.to_nat size) dest_addr size
      (Z.shiftr dest_addr PAGE_BITS) (Z.land dest_addr PAGE_MASK) size src_buffer st
  else None.

(** The loop of [ReadBlock]: that of [ReadBlockUnsafe] with a flush of the
    chunk out of the GPU on a rasterizer-cached page. *)
Fixpoint ReadBlock_loop (fuel : nat) (src_addr size : Z)
  (page_index page_offset remaining_size : Z) (st : State) : option (list Z * State) :=
  if remaining_size <=? 0 then Some ([], st)
  else
    match fuel with
    | O => None
    | S fuel =>
        let copy_amount := Z.min (u64 (PAGE_SIZE - page_offset)) remaining_size in
        let current_vaddr := u64 (Z.shiftl page_index PAGE_BITS + page_offset) in
        type ← attribute_at (current_page_table st) page_index;
        '(chunk, st) ←
          match type with
          | Unmapped =>
              Some (replicate (Z.to_nat copy_amount) 0,
                    log_error st (UnmappedReadBlock current_vaddr src_addr size))
          | Memory =>
              ptr ← pointer_at (current_page_table st) page_index;
              let src_ptr := u64 (ptr + page_offset + Z.shiftl page_index PAGE_BITS) in
              Some (load_bytes (host st) src_ptr (Z.to_nat copy_amount), st)
          | RasterizerCachedMemory =>
              host_ptr ← GetPointerFromRasterizerCachedMemory st current_vaddr;
              let st :=
                set_gpu_host st (GPU_FlushRegion current_vaddr copy_amount (gpu st, host st)) in
              if host_ptr =? 0 then None
              else Some (load_bytes (host st) host_ptr (Z.to_nat copy_amount), st)
          | Special => None
          end;
        '(rest, st) ←
          ReadBlock_loop fuel src_addr size (u64 (page_index + 1)) 0
            (remaining_size - copy_amount) st;
        Some (chunk ++ rest, st)
    end.

Definition ReadBlock (src_addr size : Z) (st : State) : option (list Z * State) :=
  ReadBlock_loop (Z.to_nat size) src_addr size
    (Z.shiftr src_addr PAGE_BITS) (Z.land src_addr PAGE_MASK) size st.

(** The loop of [ZeroBlock]; [std::memset] stores one zero for every byte
    of the chunk. *)
Fixpoint ZeroBlock_loop (fuel : nat) (dest_addr size : Z)
  (page_index page_offset remaining_size : Z) (st : State)
  : option (list BlockLogEntry * State) :=
  if remaining_size <=? 0 then Some ([], st)
  else
    match fuel with
    | O => None
    | S fuel =>
        let copy_amount := Z.min (u64 (PAGE_SIZE - page_offset)) remaining_size in
        let current_vaddr := u64 (Z.shiftl page_index PAGE_BITS + page_offset) in
        let zeros := replicate (Z.to_nat copy_amount) 0 in
        type ← attribute_at (current_page_table st) page_index;
        '(lines, st) ←
          match type with
          | Unmapped => Some ([UnmappedZeroBlock current_vaddr dest_addr size], st)
          | Memory =>
              ptr ← pointer_at (current_page_table st) page_index;
              let dest_ptr := u64 (ptr + page_offset + Z.shiftl page_index PAGE_BITS) in
              Some ([], set_host st (store_bytes (host st) dest_ptr zeros))
          | RasterizerCachedMemory =>
              host_ptr ← GetPointerFromRasterizerCachedMemory st current_vaddr;
              let st := set_gpu st (GPU_InvalidateRegion current_vaddr copy_amount (gpu st)) in
              if host_ptr =? 0 then None
              else Some ([], set_host st (store_bytes (host st) host_ptr zeros))
          | Special => None
          end;
        '(rest, st) ←
          ZeroBlock_loop fuel dest_addr size (u64 (page_index + 1)) 0
            (remaining_size - copy_amount) st;
        Some (lines ++ rest, st)
    end.

Definition ZeroBlock (dest_addr size : Z) (st : State)
  : option (list BlockLogEntry * State) :=
  ZeroBlock_loop (Z.to_nat size) dest_addr size
    (Z.shiftr dest_addr PAGE_BITS) (Z.land dest_addr PAGE_MASK) size st.

(** [WriteBlock] as [CopyBlock] calls it, with a source buffer that lies in
    host memory: [src_buffer] is a host pointer, and every chunk is copied
    out of host memory as it is when the chunk's turn comes. *)
Fixpoint WriteBlock_host_loop (fuel : nat) (dest_addr size : Z)
  (page_index page_offset remaining_size : Z) (src_buffer : Z) (st : State)
  : option (list BlockLogEntry * State) :=
  if remaining_size <=? 0 then Some ([], st)
  else
    match fuel with
    | O => None
    | S fuel =>
        let copy_amount := Z.min (u64 (PAGE_SIZE - page_offset)) remaining_size in
        let current_vaddr := u64 (Z.shiftl page_index PAGE_BITS + page_offset) in
        type ← attribute_at (current_page_table st) page_index;
        '(lines, st) ←
          match type with
          | Unmapped => Some ([UnmappedWriteBlock current_vaddr dest_addr size], st)
          | Memory =>
              ptr ← pointer_at (current_page_table st) page_index;
              let dest_ptr := u64 (ptr + page_offset + Z.shiftl page_index PAGE_BITS) in
              mem ← copy_bytes (host st) dest_ptr src_buffer copy_amount;
              Some ([], set_host st mem)
          | RasterizerCachedMemory =>
              host_ptr ← GetPointerFromRasterizerCachedMemory st current_vaddr;
              let st := set_gpu st (GPU_InvalidateRegion current_vaddr copy_amount (gpu st)) in
              if host_ptr =? 0 then None
              else
                mem ← copy_bytes (host st) host_ptr src_buffer copy_amount;
                Some ([], set_host st mem)
          | Special => None
          end;
        '(rest, st) ←
          WriteBlock_host_loop fuel dest_addr size (u64 (page_index + 1)) 0
            (remaining_size - copy_amount) (u64 (src_buffer + copy_amount)) st;
        Some (lines ++ rest, st)
    end.

Definition WriteBlock_host (dest_addr src_buffer size : Z) (st : State)
  : option (list BlockLogEntry * State) :=
  WriteBlock_host_loop (Z.to_nat size) dest_addr size
    (Z.shiftr dest_addr PAGE_BITS) (Z.land dest_addr PAGE_MASK) size src_buffer st.

(** The result of [WriteBlock] with the lines that [ZeroBlock] logs. *)
Definition zero_lines (r : list BlockLogEntry * State) : list BlockLogEntry * State :=
  (as_ZeroBlock <$> r.1, r.2).

(** The loop of [CopyBlock], which walks the pages of the source and hands
    every chunk to [WriteBlock] or [ZeroBlock].  [dest_addr] and [src_addr]
    are the parameters the loop advances, so the start address in a logged
    line is that of the chunk.  A null source pointer is undefined
    behaviour, at the latest when [WriteBlock] advances it. *)
Fixpoint CopyBlock_loop (fuel : nat) (size : Z) (dest_addr src_addr : Z)
  (page_index page_offset remaining_size : Z) (st : State)
  : option (list BlockLogEntry * State) :=
  if remaining_size <=? 0 then Some ([], st)
  else
    match fuel with
    | O => None
    | S fuel =>
        let copy_amount := Z.min (u64 (PAGE_SIZE - page_offset)) remaining_size in
        let current_vaddr := u64 (Z.shiftl page_index PAGE_BITS + page_offset) in
        type ← attribute_at (current_page_table st) page_index;
        '(lines, st) ←
          match type with
          | Unmapped =>
              '(lines, st) ← ZeroBlock dest_addr copy_amount st;
              Some (UnmappedCopyBlock current_vaddr src_addr size :: lines, st)
          | Memory =>
              ptr ← pointer_at (current_page_table st) page_index;
              let src_ptr := u64 (ptr + page_offset + Z.shiftl page_index PAGE_BITS) in
              WriteBlock_host dest_addr src_ptr copy_amount st
          | RasterizerCachedMemory =>
              host_ptr ← GetPointerFromRasterizerCachedMemory st current_vaddr;
              let st :=
                set_gpu_host st (GPU_FlushRegion current_vaddr copy_amount (gpu st, host st)) in
              if host_ptr =? 0 then None
              else WriteBlock_host dest_addr host_ptr copy_amount st
          | Special => None
          end;
        '(rest, st) ←
          CopyBlock_loop fuel size (u64 (dest_addr + copy_amount))
            (u64 (src_addr + copy_amount)) (u64 (page_index + 1)) 0
            (remaining_size - copy_amount) st;
        Some (lines ++ rest, st)
    end.

Definition CopyBlock (dest_addr src_addr size : Z) (st : State)
  : option (list BlockLogEntry * State) :=
  CopyBlock_loop (Z.to_nat size) size dest_addr src_addr
    (Z.shiftr src_addr PAGE_BITS) (Z.land src_addr PAGE_MASK) size st.

(** Every byte of the block lies in a [Memory] page whose entry holds the
    pointer [ptr]; every byte of the block lies in an unmapped page. *)
Definition block_through (ptr : Z) (st : State) (addr size : Z) : Prop :=
  ∀ i, 0 ≤ i < size →
       attribute_at (current_page_table st) (Z.shiftr (addr + i) PAGE_BITS) = Some Memory
       ∧ pointer_at (current_page_table st) (Z.shiftr (addr + i) PAGE_BITS) = Some ptr.

Definition block_unmapped (st : State) (addr size : Z) : Prop :=
  ∀ i, 0 ≤ i < size →
       attribute_at (current_page_table st) (Z.shiftr (addr + i) PAGE_BITS) = Some Unmapped.


(** [IsValidVirtualAddress] on the table of a process. *)
Definition IsValidVirtualAddress (page_table : PageTable) (vaddr : Z) : option bool :=
  page_pointer ← pointer_at page_table (Z.shiftr vaddr PAGE_BITS);
  if negb (page_pointer =? 0) then Some true
  else
    type ← attribute_at page_table (Z.shiftr vaddr PAGE_BITS);
    if PageType_eqb type RasterizerCachedMemory then Some true
    else if negb (PageType_eqb type Special) then Some false
    else Some false.

(** [GetPointer]: the host address of a guest address, or null. *)
Definition GetPointer (st : State) (vaddr : Z) : option Z :=
  page_pointer ← pointer_at (current_page_table st) (Z.shiftr vaddr PAGE_BITS);
  if negb (page_pointer =? 0) then Some (u64 (page_pointer + vaddr))
  else
    type ← attribute_at (current_page_table st) (Z.shiftr vaddr PAGE_BITS);
    if PageType_eqb type RasterizerCachedMemory
    then GetPointerFromRasterizerCachedMemory st vaddr
    else Some 0.

(** The loop of [ReadCString]: the characters pushed to the string. *)
Fixpoint ReadCString_loop (count : nat) (vaddr : Z) (st : State)
  : option (list Z * State) :=
  match count with
  | O => Some ([], st)
  | S k =>
      '(c, st) ← Read8 vaddr st;
      if c =? 0 then Some ([], st)
      else
        '(rest, st) ← ReadCString_loop k (u64 (vaddr + 1)) st;
        Some (c :: rest, st)
  end.

Definition ReadCString (vaddr max_length : Z) (st : State) : option (list Z * State) :=
  ReadCString_loop (Z.to_nat max_length) vaddr st.

(** A page-table entry that holds a pointer is a [Memory] page: what
    [MapPages] and [RasterizerMarkRegionCached] maintain. *)
Definition pointers_are_memory (pt : PageTable) : Prop :=
  ∀ page, default 0 (pointers pt !! page) ≠ 0 →
          default Unmapped (attributes pt !! page) = Memory.

(** [st'] is [st] with more lines in the log and nothing else changed. *)
Definition only_logged (st st' : State) : Prop :=
  current_page_table st' = current_page_table st
  ∧ host st' = host st ∧ gpu st' = gpu st
  ∧ ∃ entries, entries ≠ [] ∧ log st' = log st ++ entries.

(** Every byte of the [n]-byte access at [addr] lies in a page with the
    attribute [type]. *)
Definition bytes_in (type : PageType) (st : State) (addr : Z) (n : nat) : Prop :=
  ∀ i, 0 ≤ i < Z.of_nat n →
       attribute_at (current_page_table st)
         (Z.shiftr (u64 (addr + i)) PAGE_BITS) = Some type.

(** A reader of [n] bytes that, in a well-formed table, returns zero and
    only logs when all its bytes are unmapped; the same for a writer. *)
Definition reads_nothing (read : Z → State → option (Z * State)) (n : nat) : Prop :=
  ∀ st addr,
    pointers_are_memory (current_page_table st) →
    0 ≤ addr < 2 ^ 64 →
    bytes_in Unmapped st addr n →
    ∃ st', read addr st = Some (0, st') ∧ only_logged st st'.

Definition writes_nothing (write : Z → Z → State → option State) (n : nat) : Prop :=
  ∀ st addr data,
    pointers_are_memory (current_page_table st) →
    0 ≤ addr < 2 ^ 64 →
    bytes_in Unmapped st addr n →
    ∃ st', write addr data st = Some st' ∧ only_logged st st'.

(** Every byte of the access lies in a page whose entry holds the pointer
    [ptr]: one page, or pages mapped in one run. *)
Definition bytes_through (ptr : Z) (st : State) (addr : Z) (n : nat) : Prop :=
  ∀ i, 0 ≤ i < Z.of_nat n →
       pointer_at (current_page_table st)
         (Z.shiftr (u64 (addr + i)) PAGE_BITS) = Some ptr.

(** A reader of [n] bytes that behaves as a load through the pointer of the
    page entries, and a writer that behaves as a store. *)
Definition reads_memory (read : Z → State → option (Z * State)) (n : nat) : Prop :=
  ∀ st addr ptr,
    ptr ≠ 0 → 0 ≤ addr < 2 ^ 64 →
    bytes_through ptr st addr n →
    read addr st = Some (load (host st) (u64 (ptr + addr)) n, st).

Definition writes_memory (write : Z → Z → State → option State) (n : nat) : Prop :=
  ∀ st addr data ptr,
    ptr ≠ 0 → 0 ≤ addr < 2 ^ 64 →
    bytes_through ptr st addr n →
    write addr data st
    = Some (set_host st (store (host st) (u64 (ptr + addr)) n data)).

(** Two states that hold the same guest memory: they may differ in the
    state of the GPU. *)
Definition same_guest (st1 st2 : State) : Prop :=
  current_page_table st1 = current_page_table st2
  ∧ host st1 = host st2 ∧ log st1 = log st2.

(** Two results of a block read with the same bytes, in states with the same
    guest memory. *)
Definition same_bytes (r1 r2 : option (list Z * State)) : Prop :=
  match r1, r2 with
  | Some (bytes1, st1), Some (bytes2, st2) => bytes1 = bytes2 ∧ same_guest st1 st2
  | None, None => True
  | _, _ => False
  end.

End WithSystem.

End CoreMemory.

(** ** The GPU memory manager: video_core/memory_manager.cpp *)

Module MemoryManager.
Import Machine.

(** Modelled from the spec: [PageEntry] of video_core/memory_manager.h (not
    in src): either [Unmapped], an [Allocated] placeholder, or a CPU address.
    An offset added to a placeholder leaves it as it is, which is what
    [Unmap] and [AllocateFixed] rely on when they hand a state to
    [UpdateRange]. *)
Inductive PageEntry := Unmapped | Allocated | Valid (addr : Z).

Definition IsUnmapped (e : PageEntry) : bool :=
  match e with Unmapped => true | _ => false end.

Definition IsAllocated (e : PageEntry) : bool :=
  match e with Allocated => true | _ => false end.

Definition IsValid (e : PageEntry) : bool := negb (IsUnmapped e) && negb (IsAllocated e).

Definition ToAddress (e : PageEntry) : Z :=
  match e with Valid addr => addr | _ => 0 end.

Definition PageEntry_plus (e : PageEntry) (offset : Z) : PageEntry :=
  match e with Valid addr => Valid (u64 (addr + offset)) | _ => e end.

(** The page size of the GPU address space, a constant of
    video_core/memory_manager.h. *)
Class Layout := { page_bits : Z }.

(** The bounds of the GPU address space, constants of
    video_core/memory_manager.h, and [Common::AlignUp] of
    common/alignment.h.  Neither file is in src: they are parameters. *)
Class AddressSpace := {
  address_space_start : Z;
  address_space_size : Z;
  AlignUp : Z → Z → Z
}.

Section WithLayout.
Context `{Layout}.

Definition page_size : Z := Z.shiftl 1 page_bits.
Definition page_mask : Z := page_size - 1.

(** Modelled from the spec: the table is indexed by
    [gpu_addr >> page_bits]. *)
Definition PageEntryIndex (gpu_addr : Z) : Z := Z.shiftr gpu_addr page_bits.

(** The manager's page table; a page that was never set holds the default
    entry. *)
Record t := { page_table : gmap Z PageEntry }.

Definition GetPageEntry (m : t) (gpu_addr : Z) : PageEntry :=
  default Unmapped (page_table m !! PageEntryIndex gpu_addr).

(** [SetPageEntry]; [size] is unused since the locking is commented out. *)
Definition SetPageEntry (gpu_addr : Z) (page_entry : PageEntry) (size : Z) (m : t) : t :=
  {| page_table := <[PageEntryIndex gpu_addr := page_entry]> (page_table m) |}.

(** The loop of [UpdateRange]; [None] is exhausted fuel. *)
Fixpoint UpdateRange_loop (fuel : nat) (gpu_addr : Z) (page_entry : PageEntry) (size : Z)
  (offset remaining_size : Z) (m : t) : option t :=
  if offset <? size then
    match fuel with
    | O => None
    | S fuel =>
        let m :=
          if remaining_size <? page_size
          then SetPageEntry (u64 (gpu_addr + offset)) (PageEntry_plus page_entry offset)
                 remaining_size m
          else SetPageEntry (u64 (gpu_addr + offset)) (PageEntry_plus page_entry offset)
                 page_size m in
        UpdateRange_loop fuel gpu_addr page_entry size
          (u64 (offset + page_size)) (u64 (remaining_size - page_size)) m
    end
  else Some m.

Definition UpdateRange (gpu_addr : Z) (page_entry : PageEntry) (size : Z) (m : t)
  : option (Z * t) :=
  m ← UpdateRange_loop (Z.to_nat size) gpu_addr page_entry size 0 size m;
  Some (gpu_addr, m).

Definition Map (cpu_addr gpu_addr size : Z) (m : t) : option (Z * t) :=
  UpdateRange gpu_addr (Valid cpu_addr) size m.

Definition GpuToCpuAddress (m : t) (gpu_addr : Z) : option Z :=
  let page_entry := GetPageEntry m gpu_addr in
  if negb (IsValid page_entry) then None
  else Some (u64 (ToAddress page_entry + Z.land gpu_addr page_mask)).

(** The loop of [AllocateFixed]: [Some false] is the early
    [return std::nullopt]; [None] is exhausted fuel. *)
Fixpoint AllocateFixed_loop (fuel : nat) (gpu_addr size offset : Z) (m : t) : option bool :=
  if offset <? size then
    match fuel with
    | O => None
    | S fuel =>
        if negb (IsUnmapped (GetPageEntry m (u64 (gpu_addr + offset)))) then Some false
        else AllocateFixed_loop fuel gpu_addr size (u64 (offset + page_size)) m
    end
  else Some true.

(** [AllocateFixed]: the inner option is the returned [std::optional]. *)
Definition AllocateFixed (gpu_addr size : Z) (m : t) : option (option Z * t) :=
  free ← AllocateFixed_loop (Z.to_nat size) gpu_addr size 0 m;
  if (free : bool) then
    '(addr, m) ← UpdateRange gpu_addr Allocated size m;
    Some (Some addr, m)
  else Some (None, m).

(** How a call can end without a result. *)
Inductive Failure := EmptyOptionalDereferenced | NoResult.

(** Overwrite [dest] from position [pos] on; writing past the end of the
    buffer has no result. *)
Definition write_at (dest : list Z) (pos : nat) (bytes : list Z) : option (list Z) :=
  if decide (pos + length bytes ≤ length dest)%nat
  then Some (take pos dest ++ bytes ++ drop (pos + length bytes) dest)
  else None.

Section WithAddressSpace.
Context `{AddressSpace}.

(** The loop of [FindFreeRange]; the inner option is the returned
    [std::optional].  A zero [align] makes the C++ remainder undefined.
    [None] is that, or exhausted fuel. *)
Fixpoint FindFreeRange_loop (fuel : nat) (m : t) (size align : Z)
  (gpu_addr available_size : Z) : option (option Z) :=
  if u64 (gpu_addr + available_size) <? address_space_size then
    match fuel with
    | O => None
    | S fuel =>
        if IsUnmapped (GetPageEntry m (u64 (gpu_addr + available_size))) then
          let available_size := u64 (available_size + page_size) in
          if size <=? available_size then Some (Some gpu_addr)
          else FindFreeRange_loop fuel m size align gpu_addr available_size
        else
          let gpu_addr := u64 (gpu_addr + u64 (available_size + page_size)) in
          if align =? 0 then None
          else
            let remainder := gpu_addr mod align in
            let gpu_addr :=
              if negb (remainder =? 0) then u64 (u64 (gpu_addr - remainder) + align)
              else gpu_addr in
            FindFreeRange_loop fuel m size align gpu_addr 0
    end
  else Some None.

Definition FindFreeRange (size align : Z) (m : t) : option (option Z) :=
  let align := if align =? 0 then page_size else AlignUp align page_size in
  FindFreeRange_loop (Z.to_nat address_space_size) m size align address_space_start 0.

(** [MapAllocate] and [Allocate] dereference the optionals they are
    handed. *)
Definition MapAllocate (cpu_addr size align : Z) (m : t) : Failure + (Z * t) :=
  match FindFreeRange size align m with
  | None => inl NoResult
  | Some None => inl EmptyOptionalDereferenced
  | Some (Some gpu_addr) =>
      match Map cpu_addr gpu_addr size m with
      | None => inl NoResult
      | Some r => inr r
      end
  end.

Definition Allocate (size align : Z) (m : t) : Failure + (Z * t) :=
  match FindFreeRange size align m with
  | None => inl NoResult
  | Some None => inl EmptyOptionalDereferenced
  | Some (Some gpu_addr) =>
      match AllocateFixed gpu_addr size m with
      | None => inl NoResult
      | Some (None, _) => inl EmptyOptionalDereferenced
      | Some (Some addr, m) => inr (addr, m)
      end
  end.

End WithAddressSpace.

Section WithSystem.
Context `{CoreMemory.System}.

(** [Unmap]: [*GpuToCpuAddress(gpu_addr)] is evaluated for every non-zero
    size; dereferencing the empty optional is the error outcome. *)
Definition Unmap (gpu_addr size : Z) (m : t) (st : CoreMemory.State)
  : Failure + (t * CoreMemory.State) :=
  if size =? 0 then inr (m, st)
  else
    match GpuToCpuAddress m gpu_addr with
    | None => inl EmptyOptionalDereferenced
    | Some cpu_addr =>
        let st :=
          CoreMemory.set_gpu_host st
            (CoreMemory.GPU_FlushAndInvalidateRegion cpu_addr size
               (CoreMemory.gpu st, CoreMemory.host st)) in
        match UpdateRange gpu_addr Unmapped size m with
        | None => inl NoResult
        | Some (_, m) => inr (m, st)
        end
    end.

(** [IsGranularRange]: whether the range stays within one CPU page. *)
Definition IsGranularRange (m : t) (gpu_addr size : Z) : bool :=
  match GpuToCpuAddress m gpu_addr with
  | None => false
  | Some cpu_addr =>
      let page := u64 (Z.land cpu_addr CoreMemory.PAGE_MASK + size) in
      page <=? CoreMemory.PAGE_SIZE
  end.

(** The loop of [ReadBlock]: [dest] is the destination buffer and [pos] the
    offset [dest_buffer] has been advanced by.  A page without a CPU address
    is skipped. *)
Fixpoint ReadBlock_loop (fuel : nat) (m : t) (page_index page_offset remaining_size : Z)
  (pos : nat) (dest : list Z) (st : CoreMemory.State)
  : option (list Z * CoreMemory.State) :=
  if remaining_size <=? 0 then Some (dest, st)
  else
    match fuel with
    | O => None
    | S fuel =>
        let copy_amount := Z.min (u64 (page_size - page_offset)) remaining_size in
        '(dest, st) ←
          match GpuToCpuAddress m (u64 (Z.shiftl page_index page_bits)) with
          | Some page_addr =>
              let src_addr := u64 (page_addr + page_offset) in
              let st :=
                CoreMemory.set_gpu_host st
                  (CoreMemory.Rasterizer_FlushRegion src_addr copy_amount
                     (CoreMemory.gpu st, CoreMemory.host st)) in
              '(bytes, st) ← CoreMemory.ReadBlockUnsafe src_addr copy_amount st;
              dest ← write_at dest pos bytes;
              Some (dest, st)
          | None => Some (dest, st)
          end;
        ReadBlock_loop fuel m (u64 (page_index + 1)) 0 (remaining_size - copy_amount)
          (pos + Z.to_nat copy_amount)%nat dest st
    end.

Definition ReadBlock (m : t) (gpu_src_addr : Z) (dest_buffer : list Z) (size : Z)
  (st : CoreMemory.State) : option (list Z * CoreMemory.State) :=
  ReadBlock_loop (S (Z.to_nat size)) m
    (Z.shiftr gpu_src_addr page_bits) (Z.land gpu_src_addr page_mask) size
    0%nat dest_buffer st.

(** The loop of [ReadBlockUnsafe]: no flush, and a page without a CPU
    address is zero-filled. *)
Fixpoint ReadBlockUnsafe_loop (fuel : nat) (m : t)
  (page_index page_offset remaining_size : Z)
  (pos : nat) (dest : list Z) (st : CoreMemory.State)
  : option (list Z * CoreMemory.State) :=
  if remaining_size <=? 0 then Some (dest, st)
  else
    match fuel with
    | O => None
    | S fuel =>
        let copy_amount := Z.min (u64 (page_size - page_offset)) remaining_size in
        '(dest, st) ←
          match GpuToCpuAddress m (u64 (Z.shiftl page_index page_bits)) with
          | Some page_addr =>
              let src_addr := u64 (page_addr + page_offset) in
              '(bytes, st) ← CoreMemory.ReadBlockUnsafe src_addr copy_amount st;
              dest ← write_at dest pos bytes;
              Some (dest, st)
          | None =>
              dest ← write_at dest pos (replicate (Z.to_nat copy_amount) 0);
              Some (dest, st)
          end;
        ReadBlockUnsafe_loop fuel m (u64 (page_index + 1)) 0
          (remaining_size - copy_amount) (pos + Z.to_nat copy_amount)%nat dest st
    end.

Definition ReadBlockUnsafe (m : t) (gpu_src_addr : Z) (dest_buffer : list Z) (size : Z)
  (st : CoreMemory.State) : option (list Z * CoreMemory.State) :=
  ReadBlockUnsafe_loop (S (Z.to_nat size)) m
    (Z.shiftr gpu_src_addr page_bits) (Z.land gpu_src_addr page_mask) size
    0%nat dest_buffer st.

(** The loop of [WriteBlockUnsafe]: [src_buffer] is what is left of the
    source buffer; a page without a CPU address is skipped, and so is its
    part of the buffer.  The lines logged by the guest memory are returned
    in order. *)
Fixpoint WriteBlockUnsafe_loop (fuel : nat) (m : t)
  (page_index page_offset remaining_size : Z) (src_buffer : list Z)
  (st : CoreMemory.State) : option (list CoreMemory.BlockLogEntry * CoreMemory.State) :=
  if remaining_size <=? 0 then Some ([], st)
  else
    match fuel with
    | O => None
    | S fuel =>
        let copy_amount := Z.min (u64 (page_size - page_offset)) remaining_size in
        '(lines, st) ←
          match GpuToCpuAddress m (u64 (Z.shiftl page_index page_bits)) with
          | Some page_addr =>
              let dest_addr := u64 (page_addr + page_offset) in
              CoreMemory.WriteBlockUnsafe dest_addr src_buffer copy_amount st
          | None => Some ([], st)
          end;
        '(rest, st) ←
          WriteBlockUnsafe_loop fuel m (u64 (page_index + 1)) 0
            (remaining_size - copy_amount) (drop (Z.to_nat copy_amount) src_buffer) st;
        Some (lines ++ rest, st)
    end.

Definition WriteBlockUnsafe (m : t) (gpu_dest_addr : Z) (src_buffer : list Z) (size : Z)
  (st : CoreMemory.State) : option (list CoreMemory.BlockLogEntry * CoreMemory.State) :=
  WriteBlockUnsafe_loop (S (Z.to_nat size)) m
    (Z.shiftr gpu_dest_addr page_bits) (Z.land gpu_dest_addr page_mask) size
    src_buffer st.

(** [CopyBlockUnsafe], through a temporary buffer of [size] zeros. *)
Definition CopyBlockUnsafe (m : t) (gpu_dest_addr gpu_src_addr size : Z)
  (st : CoreMemory.State) : option (list CoreMemory.BlockLogEntry * CoreMemory.State) :=
  let tmp_buffer := replicate (Z.to_nat size) 0 in
  '(tmp_buffer, st) ← ReadBlockUnsafe m gpu_src_addr tmp_buffer size st;
  WriteBlockUnsafe m gpu_dest_addr tmp_buffer size st.

End WithSystem.
End WithLayout.

End MemoryManager.

(** ** The texture cache: video_core/texture_cache/texture_cache.h *)

Module TextureCache.
Import Machine.

(** Modelled from the spec: the surface descriptor of
    video_core/texture_cache/surface_params.h and the enumerations of
    video_core/surface.h (not in src).  Pixel formats are the enumeration's
    values. *)
Inductive SurfaceTarget :=
  Texture1D | Texture2D | Texture3D | Texture1DArray | Texture2DArray
| TextureCubemap | TextureCubeArray | TextureBuffer.

Definition SurfaceTarget_eqb (a b : SurfaceTarget) : bool :=
  match a, b with
  | Texture1D, Texture1D | Texture2D, Texture2D | Texture3D, Texture3D
  | Texture1DArray, Texture1DArray | Texture2DArray, Texture2DArray
  | TextureCubemap, TextureCubemap | TextureCubeArray, TextureCubeArray
  | TextureBuffer, TextureBuffer => true
  | _, _ => false
  end.

Record SurfaceParams := {
  target : SurfaceTarget;
  pixel_format : Z;
  surface_type : Z;
  is_tiled : bool;
  block_width : Z;
  block_height : Z;
  block_depth : Z;
  tile_width_spacing : Z;
  width : Z;
  height : Z;
  depth : Z;
  pitch : Z;
  num_levels : Z;
  emulated_levels : Z
}.

Inductive MatchTopologyResult := TopologyNone | TopologyFullMatch | CompressUnmatch.
Inductive MatchStructureResult := StructureNone | StructureFullMatch | SemiMatch.

(** A view refers to the surface it belongs to; the main view covers the
    whole surface. *)
Inductive View :=
| MainView (surface : nat)
| Overview (surface : nat) (params : SurfaceParams)
| Subview (surface : nat) (params : SurfaceParams) (gpu_addr size : Z).

(** Modelled from the spec: the attributes of a surface,
    video_core/texture_cache/surface_base.h (not in src).  A [TSurface] is a
    shared pointer: the model holds the objects in a store and passes their
    handles. *)
Record Surface := {
  params : SurfaceParams;
  gpu_addr : Z;
  cpu_addr : Z;
  guest_memory_size : Z;
  is_modified : bool;
  modification_tick : Z;
  is_registered : bool;
  is_picked : bool;
  is_memory_marked : bool;
  is_sync_pending : bool
}.

Definition GetCpuAddrEnd (s : Surface) : Z := u64 (cpu_addr s + guest_memory_size s).

Definition Overlaps (s : Surface) (start end_ : Z) : bool :=
  (cpu_addr s <? end_) && (start <? GetCpuAddrEnd s).

Definition MatchFormat (s : Surface) (format : Z) : bool := pixel_format (params s) =? format.

Definition MatchTarget (s : Surface) (t : SurfaceTarget) : bool :=
  SurfaceTarget_eqb (target (params s)) t.

Definition MarkAsPicked (picked : bool) (s : Surface) : Surface :=
  {| params := params s; gpu_addr := gpu_addr s; cpu_addr := cpu_addr s;
     guest_memory_size := guest_memory_size s; is_modified := is_modified s;
     modification_tick := modification_tick s; is_registered := is_registered s;
     is_picked := picked; is_memory_marked := is_memory_marked s;
     is_sync_pending := is_sync_pending s |}.

Definition MarkAsModified (modified : bool) (tick : Z) (s : Surface) : Surface :=
  {| params := params s; gpu_addr := gpu_addr s; cpu_addr := cpu_addr s;
     guest_memory_size := guest_memory_size s; is_modified := modified;
     modification_tick := tick; is_registered := is_registered s;
     is_picked := is_picked s; is_memory_marked := is_memory_marked s;
     is_sync_pending := is_sync_pending s |}.

(** [SetCpuAddr], [MarkAsRegistered(true)] and [SetMemoryMarked(true)], the
    three setters [Register] applies. *)
Definition mark_registered (addr : Z) (s : Surface) : Surface :=
  {| params := params s; gpu_addr := gpu_addr s; cpu_addr := addr;
     guest_memory_size := guest_memory_size s; is_modified := is_modified s;
     modification_tick := modification_tick s; is_registered := true;
     is_picked := is_picked s; is_memory_marked := true;
     is_sync_pending := is_sync_pending s |}.

(** Calls that leave the cache: to the host backend of a surface and to the
    rasterizer. *)
Inductive Event :=
| DownloadTexture (surface : nat)
| FlushBuffer (surface : nat)
| UpdatePagesCachedCount (addr size delta : Z)
| LogCritical (gpu_addr : Z).

Definition registry_page_bits : Z := 20.

(** The cache: the surface objects, the page-bucketed registry, the L1 map
    of exact addresses, the tick counter and the calls made so far, oldest
    first. *)
Record t := {
  surfaces : gmap nat Surface;
  registry : gmap Z (list nat);
  l1_cache : gmap Z nat;
  ticks : Z;
  events : list Event
}.

Definition set_surfaces (tc : t) (m : gmap nat Surface) : t :=
  {| surfaces := m; registry := registry tc; l1_cache := l1_cache tc;
     ticks := ticks tc; events := events tc |}.

Definition update_surface (f : Surface → Surface) (id : nat) (tc : t) : t :=
  set_surfaces tc (alter f id (surfaces tc)).

Definition emit (e : Event) (tc : t) : t :=
  {| surfaces := surfaces tc; registry := registry tc; l1_cache := l1_cache tc;
     ticks := ticks tc; events := events tc ++ [e] |}.

(** [Tick]: [++ticks]. *)
Definition Tick (tc : t) : Z * t :=
  let n := u64 (ticks tc + 1) in
  (n, {| surfaces := surfaces tc; registry := registry tc; l1_cache := l1_cache tc;
         ticks := n; events := events tc |}).

(** The inner loop of [GetSurfacesInRegion] over one bucket: [acc] is the
    vector being filled. *)
Fixpoint pick_bucket (bucket : list nat) (addr addr_end : Z)
  (acc : list nat) (tc : t) : list nat * t :=
  match bucket with
  | [] => (acc, tc)
  | id :: rest =>
      match surfaces tc !! id with
      | None => pick_bucket rest addr addr_end acc tc
      | Some s =>
          if is_picked s || negb (Overlaps s addr addr_end)
          then pick_bucket rest addr addr_end acc tc
          else pick_bucket rest addr addr_end (acc ++ [id])
                 (update_surface (MarkAsPicked true) id tc)
      end
  end.

(** The outer loop, over [count] buckets from [start]. *)
Fixpoint pick_pages (count : nat) (start : Z) (addr addr_end : Z)
  (acc : list nat) (tc : t) : list nat * t :=
  match count with
  | O => (acc, tc)
  | S k =>
      let '(acc, tc) :=
        match registry tc !! start with
        | None => (acc, tc)
        | Some bucket => pick_bucket bucket addr addr_end acc tc
        end in
      pick_pages k (u64 (start + 1)) addr addr_end acc tc
  end.

Definition unpick_all (ids : list nat) (tc : t) : t :=
  foldl (fun tc id => update_surface (MarkAsPicked false) id tc) tc ids.

Definition GetSurfacesInRegion (addr size : Z) (tc : t) : list nat * t :=
  if size =? 0 then ([], tc)
  else
    let cpu_addr_end := u64 (addr + size) in
    let end_ := Z.shiftr (u64 (cpu_addr_end - 1)) registry_page_bits in
    let start := Z.shiftr addr registry_page_bits in
    let '(found, tc) :=
      pick_pages (Z.to_nat (end_ - start + 1)) start addr cpu_addr_end [] tc in
    (found, unpick_all found tc).

(** [FlushSurface]: an unmodified surface is left alone; a modified one is
    downloaded, written back to guest memory and marked unmodified at a new
    tick. *)
Definition FlushSurface (id : nat) (tc : t) : t :=
  match surfaces tc !! id with
  | None => tc
  | Some s =>
      if negb (is_modified s) then tc
      else
        let tc := emit (DownloadTexture id) tc in
        let tc := emit (FlushBuffer id) tc in
        let '(tick, tc) := Tick tc in
        update_surface (MarkAsModified false tick) id tc
  end.

Definition GetModificationTick (tc : t) (id : nat) : Z :=
  match surfaces tc !! id with Some s => modification_tick s | None => 0 end.

Definition IsModified (tc : t) (id : nat) : bool :=
  match surfaces tc !! id with Some s => is_modified s | None => false end.

(** The surfaces downloaded by the calls in [l], in call order. *)
Definition downloads (l : list Event) : list nat :=
  omap (fun e => match e with DownloadTexture id => Some id | _ => None end) l.

Section WithSort.

(** [std::sort] with a comparator: the standard fixes that the result is a
    permutation ordered by the comparator, and nothing about elements the
    comparator does not separate. *)
Variable std_sort : (nat → nat → bool) → list nat → list nat.

Definition FlushRegion (addr size : Z) (tc : t) : t :=
  let '(found, tc) := GetSurfacesInRegion addr size tc in
  match found with
  | [] => tc
  | _ =>
      let sorted :=
        std_sort (fun a b => GetModificationTick tc a <? GetModificationTick tc b) found in
      foldl (fun tc id => FlushSurface id tc) tc sorted
  end.

End WithSort.

(** [tc'] is [tc] up to the traversal guard of the surfaces. *)
Definition same_except_picked (tc tc' : t) : Prop :=
  registry tc' = registry tc ∧ l1_cache tc' = l1_cache tc
  ∧ ticks tc' = ticks tc ∧ events tc' = events tc
  ∧ ∀ id, MarkAsPicked false <$> surfaces tc' !! id
          = MarkAsPicked false <$> surfaces tc !! id.

(** The vector filled so far has no surface twice, and every surface in it
    carries the guard. *)
Definition all_picked (acc : list nat) (tc : t) : Prop :=
  NoDup acc
  ∧ ∀ id, id ∈ acc → ∃ s, surfaces tc !! id = Some s ∧ is_picked s = true.

(** What [std::sort] guarantees of its result when the comparator orders
    the elements by a key, as the comparator of [FlushRegion] does: a
    permutation in which no element is followed by one of smaller key. *)
Definition sorts (sort : (nat → nat → bool) → list nat → list nat) : Prop :=
  ∀ (key : nat → Z) l,
    Permutation (sort (fun a b => key a <? key b) l) l
    ∧ StronglySorted (fun a b => (key b <? key a) = false)
        (sort (fun a b => key a <? key b) l).

(** Insertion sort, one function that meets the guarantee. *)
Fixpoint insert_by (lt : nat → nat → bool) (x : nat) (l : list nat) : list nat :=
  match l with
  | [] => [x]
  | y :: rest => if lt x y then x :: y :: rest else y :: insert_by lt x rest
  end.

Definition insertion_sort (lt : nat → nat → bool) (l : list nat) : list nat :=
  foldr (insert_by lt) [] l.

(** [RegisterInnerCache]. *)
Fixpoint register_pages (count : nat) (start : Z) (id : nat) (reg : gmap Z (list nat))
  : gmap Z (list nat) :=
  match count with
  | O => reg
  | S k =>
      register_pages k (u64 (start + 1)) id
        (<[start := default [] (reg !! start) ++ [id]]> reg)
  end.

Definition RegisterInnerCache (id : nat) (tc : t) : t :=
  match surfaces tc !! id with
  | None => tc
  | Some s =>
      let start := Z.shiftr (cpu_addr s) registry_page_bits in
      let end_ := Z.shiftr (u64 (GetCpuAddrEnd s - 1)) registry_page_bits in
      {| surfaces := surfaces tc;
         registry := register_pages (Z.to_nat (end_ - start + 1)) start id (registry tc);
         l1_cache := <[cpu_addr s := id]> (l1_cache tc);
         ticks := ticks tc; events := events tc |}
  end.

(** [reg.erase(std::find(reg.begin(), reg.end(), surface))]: the first
    occurrence is removed; erasing the end iterator has no result. *)
Fixpoint erase_first (id : nat) (reg : list nat) : option (list nat) :=
  match reg with
  | [] => None
  | x :: rest =>
      if decide (x = id) then Some rest else cons x <$> erase_first id rest
  end.

(** [UnregisterInnerCache]; [registry[start]] creates an empty bucket where
    there is none. *)
Fixpoint unregister_pages (count : nat) (start : Z) (id : nat) (reg : gmap Z (list nat))
  : option (gmap Z (list nat)) :=
  match count with
  | O => Some reg
  | S k =>
      bucket ← erase_first id (default [] (reg !! start));
      unregister_pages k (u64 (start + 1)) id (<[start := bucket]> reg)
  end.

Definition UnregisterInnerCache (id : nat) (tc : t) : option t :=
  match surfaces tc !! id with
  | None => Some tc
  | Some s =>
      let start := Z.shiftr (cpu_addr s) registry_page_bits in
      let end_ := Z.shiftr (u64 (GetCpuAddrEnd s - 1)) registry_page_bits in
      reg ← unregister_pages (Z.to_nat (end_ - start + 1)) start id (registry tc);
      Some {| surfaces := surfaces tc;
              registry := reg;
              l1_cache := delete (cpu_addr s) (l1_cache tc);
              ticks := ticks tc; events := events tc |}
  end.

(** [MustFlushRegion]. *)
Definition MustFlushRegion (addr size : Z) (tc : t) : bool * t :=
  let '(found, tc) := GetSurfacesInRegion addr size tc in
  (existsb (IsModified tc) found, tc).

(** [TryFindFramebufferSurface]: the first surface in the bucket of the
    address's page that starts at the address; [None] is the null
    pointer. *)
Definition TryFindFramebufferSurface (addr : Z) (tc : t) : option nat :=
  if addr =? 0 then None
  else
    match registry tc !! Z.shiftr addr registry_page_bits with
    | None => None
    | Some list =>
        List.find
          (fun id =>
             match surfaces tc !! id with
             | Some s => cpu_addr s =? addr
             | None => false
             end) list
    end.

(** Where a surface lies in guest memory, and its traversal guard: all
    that a region query reads of it. *)
Definition placement (s : Surface) : Z * Z * bool :=
  (cpu_addr s, guest_memory_size s, is_picked s).

(** Between two calls no surface carries the traversal guard. *)
Definition at_rest (tc : t) : Prop :=
  ∀ id s, surfaces tc !! id = Some s → is_picked s = false.

(** While a traversal runs, the surfaces in the vector carry the guard and
    nothing else differs from the cache [tc0] it started from. *)
Definition picking (acc : list nat) (tc0 tc : t) : Prop :=
  registry tc = registry tc0 ∧ l1_cache tc = l1_cache tc0
  ∧ ticks tc = ticks tc0 ∧ events tc = events tc0
  ∧ ∀ id, surfaces tc !! id
          = if bool_decide (id ∈ acc) then MarkAsPicked true <$> surfaces tc0 !! id
            else surfaces tc0 !! id.

(** The surface [id] is filed under a page of the region and overlaps
    it. *)
Definition in_region (tc : t) (addr size : Z) (id : nat) : Prop :=
  ∃ page bucket s,
    Z.shiftr addr registry_page_bits ≤ page
      ≤ Z.shiftr (addr + size - 1) registry_page_bits
    ∧ registry tc !! page = Some bucket ∧ id ∈ bucket
    ∧ surfaces tc !! id = Some s ∧ Overlaps s addr (addr + size) = true.

Section WithGpuMemory.
Context `{MemoryManager.Layout}.

(** [Register]; [gpu_memory] is the GPU memory manager the cache refers
    to. *)
Definition Register (gpu_memory : MemoryManager.t) (id : nat) (tc : t) : t :=
  match surfaces tc !! id with
  | None => tc
  | Some s =>
      match MemoryManager.GpuToCpuAddress gpu_memory (gpu_addr s) with
      | None => emit (LogCritical (gpu_addr s)) tc
      | Some addr =>
          let tc := update_surface (mark_registered addr) id tc in
          let tc := RegisterInnerCache id tc in
          emit (UpdatePagesCachedCount addr (guest_memory_size s) 1) tc
      end
  end.

End WithGpuMemory.

(** What [GetSurface] calls and this development takes as given: the
    comparisons of surface_base.h and surface_params.h, the values of the
    pixel formats the constructor names, and the functions of the slow paths (recycling, rebuilding,
    reconstruction, 3D slices, views), which create surfaces through the
    host backend. *)
Class Collaborators := {
  MatchesTopology : Surface → SurfaceParams → MatchTopologyResult;
  MatchesStructure : Surface → SurfaceParams → MatchStructureResult;
  GetGuestSizeInBytes : SurfaceParams → Z;
  Invalid : Z;
  D16_UNORM : Z;
  R16_UNORM : Z;
  D32_FLOAT : Z;
  R32_FLOAT : Z;
  D32_FLOAT_S8_UINT : Z;
  R32G32_FLOAT : Z;
  IsInside : Surface → Z → Z → bool;
  ConvertWidth : Z → Z → Z → Z;
  ConvertHeight : Z → Z → Z → Z;
  EmplaceOverview : nat → SurfaceParams → t → View * t;
  EmplaceView : nat → SurfaceParams → Z → Z → t → option View * t;
  RecycleSurface :
    list nat → SurfaceParams → Z → bool → MatchTopologyResult → t → (nat * View) * t;
  RebuildSurface : nat → SurfaceParams → bool → t → (nat * View) * t;
  InitializeSurface : Z → SurfaceParams → bool → t → (nat * View) * t;
  Manage3DSurfaces :
    list nat → SurfaceParams → Z → Z → bool → t → option (nat * View) * t;
  TryReconstructSurface : list nat → SurfaceParams → Z → t → option (nat * View) * t
}.

Definition MatchTopologyResult_eqb (a b : MatchTopologyResult) : bool :=
  match a, b with
  | TopologyNone, TopologyNone | TopologyFullMatch, TopologyFullMatch
  | CompressUnmatch, CompressUnmatch => true
  | _, _ => false
  end.

Definition MatchStructureResult_eqb (a b : MatchStructureResult) : bool :=
  match a, b with
  | StructureNone, StructureNone | StructureFullMatch, StructureFullMatch
  | SemiMatch, SemiMatch => true
  | _, _ => false
  end.

Definition set_format_and_size (p : SurfaceParams) (w h format : Z) : SurfaceParams :=
  {| target := target p; pixel_format := format; surface_type := surface_type p;
     is_tiled := is_tiled p; block_width := block_width p;
     block_height := block_height p; block_depth := block_depth p;
     tile_width_spacing := tile_width_spacing p; width := w; height := h;
     depth := depth p; pitch := pitch p; num_levels := num_levels p;
     emulated_levels := emulated_levels p |}.

Section WithCollaborators.
Context `{Collaborators}.

(** The sibling table as the constructor fills it. *)
Definition make_siblings (a b : Z) (table : gmap Z Z) : gmap Z Z :=
  <[b := a]> (<[a := b]> table).

Definition siblings_table : gmap Z Z :=
  make_siblings D32_FLOAT_S8_UINT R32G32_FLOAT
    (make_siblings D32_FLOAT R32_FLOAT
       (make_siblings D16_UNORM R16_UNORM ∅)).

Definition GetSiblingFormat (format : Z) : Z := default Invalid (siblings_table !! format).

(** [ManageStructuralMatch]. *)
Definition ManageStructuralMatch (id : nat) (current_surface : Surface)
  (new_params : SurfaceParams) (is_render : bool) (tc : t) : (nat * View) * t :=
  let is_mirage := negb (MatchFormat current_surface (pixel_format new_params)) in
  let matches_target := MatchTarget current_surface (target new_params) in
  let match_check (_ : unit) : (nat * View) * t :=
    if matches_target then ((id, MainView id), tc)
    else let '(view, tc) := EmplaceOverview id new_params tc in ((id, view), tc) in
  if negb is_mirage then match_check ()
  else if negb is_render
          && (GetSiblingFormat (pixel_format (params current_surface))
              =? pixel_format new_params)
  then match_check ()
  else RebuildSurface id new_params is_render tc.

(** Steps 2 and 3 of [GetSurface]. *)
Definition GetSurface_overlaps (gpu_address cpu_address : Z) (new_params : SurfaceParams)
  (preserve_contents is_render : bool) (tc : t) : option ((nat * View) * t) :=
  let candidate_size := GetGuestSizeInBytes new_params in
  let '(overlaps, tc) := GetSurfacesInRegion cpu_address candidate_size tc in
  match overlaps with
  | [] => Some (InitializeSurface gpu_address new_params preserve_contents tc)
  | first :: others =>
      objects ← mapM (fun id => surfaces tc !! id) overlaps;
      match
        List.find
          (fun s => negb (MatchTopologyResult_eqb (MatchesTopology s new_params)
                            TopologyFullMatch)) objects
      with
      | Some s =>
          Some (RecycleSurface overlaps new_params gpu_address preserve_contents
                  (MatchesTopology s new_params) tc)
      | None =>
          let '(managed, tc) :=
            if 0 <? block_depth new_params
            then Manage3DSurfaces overlaps new_params gpu_address cpu_address
                   preserve_contents tc
            else (None, tc) in
          match managed with
          | Some result => Some (result, tc)
          | None =>
              let recycle tc :=
                RecycleSurface overlaps new_params gpu_address preserve_contents
                  TopologyFullMatch tc in
              match others with
              | [] =>
                  current_surface ← surfaces tc !! first;
                  if negb (IsInside current_surface gpu_address
                             (u64 (gpu_address + candidate_size)))
                  then
                    let '(view, tc) :=
                      TryReconstructSurface overlaps new_params gpu_address tc in
                    match view with
                    | Some result => Some (result, tc)
                    | None => Some (recycle tc)
                    end
                  else
                    let '(view, tc) :=
                      EmplaceView first new_params gpu_address candidate_size tc in
                    match view with
                    | Some view =>
                        if negb (MatchFormat current_surface (pixel_format new_params))
                        then
                          let cur := params current_surface in
                          let wh := ConvertWidth (width cur) (pixel_format cur)
                                      (pixel_format new_params) in
                          let hh := ConvertHeight (height cur) (pixel_format cur)
                                      (pixel_format new_params) in
                          let '((rebuilt, _), tc) :=
                            RebuildSurface first
                              (set_format_and_size cur wh hh (pixel_format new_params))
                              is_render tc in
                          let '(mirage_view, tc) :=
                            EmplaceView rebuilt new_params gpu_address candidate_size tc in
                          match mirage_view with
                          | Some v => Some ((rebuilt, v), tc)
                          | None => Some (recycle tc)
                          end
                        else Some ((first, view), tc)
                    | None => Some (recycle tc)
                    end
              | _ :: _ =>
                  let '(view, tc) :=
                    TryReconstructSurface overlaps new_params gpu_address tc in
                  match view with
                  | Some result => Some (result, tc)
                  | None => Some (recycle tc)
                  end
              end
          end
      end
  end.

(** [GetSurface].  [None] is a handle without an object behind it, which
    shared ownership excludes. *)
Definition GetSurface (gpu_address cpu_address : Z) (new_params : SurfaceParams)
  (preserve_contents is_render : bool) (tc : t) : option ((nat * View) * t) :=
  let slow (_ : unit) :=
    GetSurface_overlaps gpu_address cpu_address new_params preserve_contents is_render tc in
  match l1_cache tc !! cpu_address with
  | Some id =>
      current_surface ← surfaces tc !! id;
      let topological_result := MatchesTopology current_surface new_params in
      if negb (MatchTopologyResult_eqb topological_result TopologyFullMatch) then
        Some (RecycleSurface [id] new_params gpu_address preserve_contents
                topological_result tc)
      else
        let struct_result := MatchesStructure current_surface new_params in
        if negb (MatchStructureResult_eqb struct_result StructureNone) then
          let old_params := params current_surface in
          let not_3d :=
            negb (SurfaceTarget_eqb (target new_params) Texture3D)
            && negb (SurfaceTarget_eqb (target old_params) Texture3D) in
          if not_3d || MatchTarget current_surface (target new_params) then
            if MatchStructureResult_eqb struct_result StructureFullMatch
            then Some (ManageStructuralMatch id current_surface new_params is_render tc)
            else Some (RebuildSurface id new_params is_render tc)
          else slow ()
        else slow ()
  | None => slow ()
  end.

End WithCollaborators.

End TextureCache.

(** ** Concrete systems and states *)

Module Scenarios.
Import Machine.

(** Where the device memory sits in the host address space. *)
Definition host_base : Z := 2 ^ 40.

(** A system whose GPU holds nothing to write back: flushes and
    invalidations leave guest memory as it is.  CPU pages are 4 KiB. *)
Definition idle_system : CoreMemory.System :=
  {| CoreMemory.PAGE_BITS := 12;
     CoreMemory.GPU := unit;
     CoreMemory.IsPoweredOn := true;
     CoreMemory.DeviceMemory_GetPointer := fun paddr => host_base + paddr;
     CoreMemory.GPU_FlushRegion := fun _ _ gh => gh;
     CoreMemory.GPU_InvalidateRegion := fun _ _ g => g;
     CoreMemory.GPU_FlushAndInvalidateRegion := fun _ _ gh => gh;
     CoreMemory.Rasterizer_FlushRegion := fun _ _ gh => gh;
     CoreMemory.Rasterizer_InvalidateRegion := fun _ _ g => g |}.

(** A system whose rasterizer holds one modified byte of a cached surface
    and writes it back to guest memory when a region is flushed. *)
Definition writeback_system : CoreMemory.System :=
  {| CoreMemory.PAGE_BITS := 12;
     CoreMemory.GPU := unit;
     CoreMemory.IsPoweredOn := true;
     CoreMemory.DeviceMemory_GetPointer := fun paddr => host_base + paddr;
     CoreMemory.GPU_FlushRegion := fun _ _ gh => gh;
     CoreMemory.GPU_InvalidateRegion := fun _ _ g => g;
     CoreMemory.GPU_FlushAndInvalidateRegion := fun _ _ gh => gh;
     CoreMemory.Rasterizer_FlushRegion :=
       fun _ _ gh => (fst gh, CoreMemory.poke (snd gh) (host_base + 12288) 171);
     CoreMemory.Rasterizer_InvalidateRegion := fun _ _ g => g |}.

(** GPU pages of 64 KiB. *)
Definition gpu_64k : MemoryManager.Layout := {| MemoryManager.page_bits := 16 |}.

(** A process with sixteen pages of address space, nothing mapped, and
    zeroed device memory. *)
Definition blank `{CoreMemory.System} (g : CoreMemory.GPU) : CoreMemory.State :=
  {| CoreMemory.current_page_table := CoreMemory.empty_table 16;
     CoreMemory.host := fun _ => 0;
     CoreMemory.gpu := g;
     CoreMemory.log := [] |}.

(** The same process with the guest page [0x1000,0x2000) mapped onto the
    device memory at physical address [0x3000]. *)
Definition one_page `{CoreMemory.System} (g : CoreMemory.GPU) : CoreMemory.State :=
  default (blank g) (CoreMemory.MapMemoryRegion 4096 4096 12288 (blank g)).

(** The mapped page with the byte [0xAB] stored at its first address. *)
Definition one_byte `{CoreMemory.System} (g : CoreMemory.GPU) : CoreMemory.State :=
  default (one_page g) (CoreMemory.Write8 4096 171 (one_page g)).

Definition idle_blank : CoreMemory.State := blank (H := idle_system) tt.
Definition idle_page : CoreMemory.State := one_page (H := idle_system) tt.
Definition idle_byte : CoreMemory.State := one_byte (H := idle_system) tt.
Definition writeback_page : CoreMemory.State := one_page (H := writeback_system) tt.

(** Two guest pages, [0x1000,0x3000), mapped in one run onto the device
    memory at physical address [0x3000]. *)
Definition idle_two_pages : CoreMemory.State :=
  default idle_blank (CoreMemory.MapMemoryRegion 4096 8192 12288 idle_blank).

(** The guest page marked as cached by the rasterizer. *)
Definition idle_cached : CoreMemory.State :=
  default idle_page (CoreMemory.RasterizerMarkRegionCached 4096 4096 true idle_page).

(** The guest page unmapped again. *)
Definition idle_unmapped : CoreMemory.State :=
  default idle_page (CoreMemory.UnmapRegion 4096 4096 idle_page).

(** A GPU page table with no entry. *)
Definition no_mapping : MemoryManager.t :=
  {| MemoryManager.page_table := ∅ |}.

(** The GPU page at [0x10000] mapped onto the guest page above. *)
Definition one_mapping : MemoryManager.t :=
  default no_mapping
    (snd <$> MemoryManager.Map (H := gpu_64k) 4096 65536 4096 no_mapping).

(** A GPU address space of eight pages that starts at the second one. *)
Definition small_space : MemoryManager.AddressSpace :=
  {| MemoryManager.address_space_start := 65536;
     MemoryManager.address_space_size := 524288;
     MemoryManager.AlignUp := fun value size =>
       if value mod size =? 0 then value else value - value mod size + size |}.

(** The next GPU page mapped as well, onto the guest page [0x2000]. *)
Definition two_mappings : MemoryManager.t :=
  default one_mapping
    (snd <$> MemoryManager.Map (H := gpu_64k) 8192 131072 65536 one_mapping).

(** What [Unmap] of the mapped page leaves. *)
Definition unmapped_again : MemoryManager.t :=
  match MemoryManager.Unmap (H := gpu_64k) 65536 4096 one_mapping idle_page with
  | inr (m, _) => m
  | inl _ => one_mapping
  end.

(** Comparisons that accept a candidate only when its descriptor agrees
    with the surface's in every field they look at; the slow paths, which no
    statement below reaches, hand back the first overlap. *)
Definition strict_matchers : TextureCache.Collaborators :=
  {| TextureCache.MatchesTopology := fun s p =>
       if Bool.eqb (TextureCache.is_tiled (TextureCache.params s)) (TextureCache.is_tiled p)
       then TextureCache.TopologyFullMatch else TextureCache.TopologyNone;
     TextureCache.MatchesStructure := fun s p =>
       if (TextureCache.width (TextureCache.params s) =? TextureCache.width p)
          && (TextureCache.height (TextureCache.params s) =? TextureCache.height p)
          && (TextureCache.num_levels (TextureCache.params s) =? TextureCache.num_levels p)
       then TextureCache.StructureFullMatch else TextureCache.StructureNone;
     TextureCache.GetGuestSizeInBytes := fun p =>
       TextureCache.width p * TextureCache.height p * 4;
     TextureCache.Invalid := 0;
     TextureCache.D16_UNORM := 1;
     TextureCache.R16_UNORM := 2;
     TextureCache.D32_FLOAT := 3;
     TextureCache.R32_FLOAT := 4;
     TextureCache.D32_FLOAT_S8_UINT := 5;
     TextureCache.R32G32_FLOAT := 6;
     TextureCache.IsInside := fun _ _ _ => true;
     TextureCache.ConvertWidth := fun w _ _ => w;
     TextureCache.ConvertHeight := fun h _ _ => h;
     TextureCache.EmplaceOverview := fun id p tc => (TextureCache.Overview id p, tc);
     TextureCache.EmplaceView := fun id p a n tc => (Some (TextureCache.Subview id p a n), tc);
     TextureCache.RecycleSurface := fun overlaps _ _ _ _ tc =>
       ((hd 0%nat overlaps, TextureCache.MainView (hd 0%nat overlaps)), tc);
     TextureCache.RebuildSurface := fun id _ _ tc => ((id, TextureCache.MainView id), tc);
     TextureCache.InitializeSurface := fun _ _ _ tc => ((0%nat, TextureCache.MainView 0), tc);
     TextureCache.Manage3DSurfaces := fun _ _ _ _ _ tc => (None, tc);
     TextureCache.TryReconstructSurface := fun _ _ _ tc => (None, tc) |}.

(** A 64x64 tiled 2D colour surface at GPU address [0x10000]. *)
Definition colour_64x64 : TextureCache.SurfaceParams :=
  {| TextureCache.target := TextureCache.Texture2D;
     TextureCache.pixel_format := 7;
     TextureCache.surface_type := 0;
     TextureCache.is_tiled := true;
     TextureCache.block_width := 0;
     TextureCache.block_height := 4;
     TextureCache.block_depth := 0;
     TextureCache.tile_width_spacing := 1;
     TextureCache.width := 64;
     TextureCache.height := 64;
     TextureCache.depth := 1;
     TextureCache.pitch := 0;
     TextureCache.num_levels := 1;
     TextureCache.emulated_levels := 1 |}.

Definition new_surface (gpu_address : Z) (modified : bool) (tick : Z)
  : TextureCache.Surface :=
  {| TextureCache.params := colour_64x64;
     TextureCache.gpu_addr := gpu_address;
     TextureCache.cpu_addr := 0;
     TextureCache.guest_memory_size := 16384;
     TextureCache.is_modified := modified;
     TextureCache.modification_tick := tick;
     TextureCache.is_registered := false;
     TextureCache.is_picked := false;
     TextureCache.is_memory_marked := false;
     TextureCache.is_sync_pending := false |}.

(** A cache that holds one surface object, not registered yet. *)
Definition one_surface : TextureCache.t :=
  {| TextureCache.surfaces := {[ 0%nat := new_surface 65536 false 0 ]};
     TextureCache.registry := ∅;
     TextureCache.l1_cache := ∅;
     TextureCache.ticks := 0;
     TextureCache.events := [] |}.

(** Three surfaces registered on the guest page [0x1000,0x5000): the first
    modified at tick 5, the second at tick 3, the third not modified. *)
Definition three_surfaces : TextureCache.t :=
  let objects : gmap nat TextureCache.Surface :=
    {[ 0%nat := new_surface 65536 true 5;
       1%nat := new_surface 65536 true 3;
       2%nat := new_surface 65536 false 9 ]} in
  foldl (fun tc id => TextureCache.Register (H := gpu_64k) one_mapping id tc)
    {| TextureCache.surfaces := objects;
       TextureCache.registry := ∅;
       TextureCache.l1_cache := ∅;
       TextureCache.ticks := 9;
       TextureCache.events := [] |}
    [0%nat; 1%nat; 2%nat].

End Scenarios.

(** * Statements *)

(** ** The 2D blit engine *)

Section Fermi2DFacts.
Import Machine Fermi2D.



End Fermi2DFacts.

(** ** The scheduler's chunks *)

Section SchedulerFacts.
Import Machine VKScheduler.

Lemma CommandChunk_Record_fresh (command : Command) :
  0 < sizeof_FuncType command < sizeof_data →
  CommandChunk_Record command fresh_chunk
  = (true, {| commands := [command]; command_offset := sizeof_FuncType command |}).
Proof.
  intros Hsize. unfold CommandChunk_Record, fresh_chunk, u64; cbn.
  unfold sizeof_data in *.
  rewrite Z.mod_small by lia.
  destruct (Z.ltb_spec (32768 - sizeof_FuncType command) 0); [lia | reflexivity].
Qed.

(** C9: a command within the static size bound is always recorded: either
    the current chunk takes it, or that chunk goes to the worker queue and
    the fresh chunk takes it, which cannot fail; every command recorded
    before is still held, in order, and the call returns without waiting. *)
Theorem Record_never_drops (command : Command) (s : t) :
  0 < sizeof_FuncType command < sizeof_data →
  ∃ s', Record_ command s = (true, s')
    ∧ recorded s' = recorded s ++ [command]
    ∧ fst (CommandChunk_Record command fresh_chunk) = true
    ∧ ((fst (CommandChunk_Record command (chunk s)) = true
        ∧ chunk_queue s' = chunk_queue s
        ∧ commands (chunk s') = commands (chunk s) ++ [command])
       ∨ (fst (CommandChunk_Record command (chunk s)) = false
          ∧ chunk_queue s' = chunk_queue s ++ [chunk s]
          ∧ chunk s' = {| commands := [command];
                          command_offset := sizeof_FuncType command |})).
Proof.
  intros Hsize.
  pose proof (CommandChunk_Record_fresh command Hsize) as Hfresh.
  unfold Record_.
  destruct (CommandChunk_Record command (chunk s)) as [ok c] eqn:Hfirst.
  destruct ok.
  - eexists; split; [reflexivity |].
    unfold CommandChunk_Record in Hfirst.
    destruct (_ <? _) in Hfirst; [discriminate |].
    injection Hfirst as <-.
    unfold recorded; cbn. rewrite Hfresh; cbn.
    split; [by rewrite (assoc_L (++)) |]. split; [reflexivity |]. by left.
  - cbn [DispatchWork chunk chunk_queue]. rewrite Hfresh.
    eexists; split; [reflexivity |].
    unfold CommandChunk_Record in Hfirst.
    destruct (_ <? _) in Hfirst; [| discriminate].
    unfold recorded; cbn.
    rewrite map_app, concat_app; cbn. rewrite app_nil_r.
    split; [by rewrite <- !(assoc_L (++)) |]. split; [reflexivity |]. by right.
Qed.

Lemma Record_never_drops_when_full :
  ∃ s', Record_ {| sizeof_FuncType := 24; closure := 2 |} nearly_full = (true, s')
    ∧ recorded s' = recorded nearly_full ++ [ {| sizeof_FuncType := 24; closure := 2 |} ]
    ∧ fst (CommandChunk_Record {| sizeof_FuncType := 24; closure := 2 |} fresh_chunk) = true
    ∧ ((fst (CommandChunk_Record {| sizeof_FuncType := 24; closure := 2 |}
               (chunk nearly_full)) = true
        ∧ chunk_queue s' = chunk_queue nearly_full
        ∧ commands (chunk s')
          = commands (chunk nearly_full) ++ [ {| sizeof_FuncType := 24; closure := 2 |} ])
       ∨ (fst (CommandChunk_Record {| sizeof_FuncType := 24; closure := 2 |}
                 (chunk nearly_full)) = false
          ∧ chunk_queue s' = chunk_queue nearly_full ++ [chunk nearly_full]
          ∧ chunk s' = {| commands := [ {| sizeof_FuncType := 24; closure := 2 |} ];
                          command_offset := 24 |})).
Proof.
  apply (Record_never_drops {| sizeof_FuncType := 24; closure := 2 |} nearly_full).
  unfold sizeof_data; cbn; lia.
Defined.

End SchedulerFacts.

(** ** The resource pool *)

Section ResourcePoolFacts.
Import ResourcePool.

(** What one scan returns: the first slot of the range whose tick the GPU
    has reached, re-tagged, or nothing when the range has none. *)
Lemma search_loop_spec (sem : MasterSemaphore) (tks : list Z) (steps : nat) :
  ∀ iterator, (iterator + steps ≤ length tks)%nat →
    (∃ i tick,
        search_loop sem tks iterator steps
        = Some (Some i, <[i := CurrentTick sem]> tks)
        ∧ (iterator ≤ i < iterator + steps)%nat
        ∧ tks !! i = Some tick ∧ IsFree sem tick = true)
    ∨ (search_loop sem tks iterator steps = Some (None, tks)
       ∧ ∀ j tick, (iterator ≤ j < iterator + steps)%nat →
                   tks !! j = Some tick → IsFree sem tick = false).
Proof.
  induction steps as [| steps IH]; intros iterator Hrange; cbn.
  - right. split; [reflexivity |]. intros; lia.
  - destruct (lookup_lt_is_Some_2 tks iterator) as [tick Htick]; [lia |].
    rewrite Htick.
    destruct (IsFree sem tick) eqn:Hfree.
    + left. exists iterator, tick. repeat split; auto; lia.
    + destruct (IH (S iterator)) as [(i & t & Hs & Hi & Ht & Hf) | [Hs Hnone]]; [lia | |].
      * left. exists i, t. repeat split; auto; lia.
      * right. split; [assumption |].
        intros j t Hj Hjt.
        destruct (decide (j = iterator)) as [-> |].
        -- congruence.
        -- apply (Hnone j t); [lia | assumption].
Qed.

(** C5: with a positive growth step (and the hint inside the pool, which
    the function re-establishes), [CommitResource] returns without waiting;
    the slot it returns either carried a tick the refreshed semaphore has
    confirmed, or is the first slot of the region the pool was just grown
    by, exactly [grow_step] slots, when no slot was free; the slot is
    re-tagged with the current tick and the hint moves to the slot after
    it. *)
Theorem CommitResource_returns_free_slot
  (counter : Z) (sem : MasterSemaphore) (pool : ResourcePool.t) :
  (0 < grow_step pool)%nat →
  (free_iterator pool ≤ length (ticks pool))%nat →
  ∃ i pool',
    CommitResource counter sem pool = Some (i, Refresh counter sem, pool')
    ∧ ((∃ tick, ticks pool !! i = Some tick
                ∧ tick ≤ gpu_tick (Refresh counter sem)
                ∧ ticks pool' = <[i := CurrentTick sem]> (ticks pool)
                ∧ length (ticks pool') = length (ticks pool)
                ∧ allocate_calls pool' = allocate_calls pool)
       ∨ (i = length (ticks pool)
          ∧ (∀ j tick, ticks pool !! j = Some tick →
                       gpu_tick (Refresh counter sem) < tick)
          ∧ ticks pool'
            = <[i := CurrentTick sem]> (ticks pool ++ replicate (grow_step pool) 0)
          ∧ length (ticks pool') = (length (ticks pool) + grow_step pool)%nat
          ∧ allocate_calls pool'
            = allocate_calls pool ++ [(i, (i + grow_step pool)%nat)]))
    ∧ ticks pool' !! i = Some (CurrentTick sem)
    ∧ free_iterator pool' = ((i + 1) mod length (ticks pool'))%nat
    ∧ (free_iterator pool' < length (ticks pool'))%nat
    ∧ grow_step pool' = grow_step pool.
Proof.
  intros Hgrow Hhint.
  unfold CommitResource.
  set (sem' := Refresh counter sem).
  assert (Hcur : CurrentTick sem' = CurrentTick sem) by reflexivity.
  assert (Hfree : ∀ tick, IsFree sem' tick = true → tick ≤ gpu_tick sem').
  { intros tick. unfold IsFree. apply Z.leb_le. }
  assert (Hbusy : ∀ tick, IsFree sem' tick = false → gpu_tick sem' < tick).
  { intros tick. unfold IsFree. intros Hb. apply Z.leb_gt in Hb. lia. }
  assert (Hfound : ∀ i tick,
    ticks pool !! i = Some tick → IsFree sem' tick = true →
    ∃ i0 pool',
      (if decide (length (ticks (set_ticks pool (<[i := CurrentTick sem']> (ticks pool))))
                  = 0%nat)
       then None
       else Some (i, sem',
                  set_free_iterator
                    (set_ticks pool (<[i := CurrentTick sem']> (ticks pool)))
                    ((i + 1)
                     mod length (ticks (set_ticks pool
                                          (<[i := CurrentTick sem']> (ticks pool)))))%nat))
      = Some (i0, sem', pool')
      ∧ ((∃ tick, ticks pool !! i0 = Some tick
                  ∧ tick ≤ gpu_tick sem'
                  ∧ ticks pool' = <[i0 := CurrentTick sem]> (ticks pool)
                  ∧ length (ticks pool') = length (ticks pool)
                  ∧ allocate_calls pool' = allocate_calls pool)
         ∨ (i0 = length (ticks pool)
            ∧ (∀ j tick, ticks pool !! j = Some tick → gpu_tick sem' < tick)
            ∧ ticks pool'
              = <[i0 := CurrentTick sem]> (ticks pool ++ replicate (grow_step pool) 0)
            ∧ length (ticks pool') = (length (ticks pool) + grow_step pool)%nat
            ∧ allocate_calls pool'
              = allocate_calls pool ++ [(i0, (i0 + grow_step pool)%nat)]))
      ∧ ticks pool' !! i0 = Some (CurrentTick sem)
      ∧ free_iterator pool' = ((i0 + 1) mod length (ticks pool'))%nat
      ∧ (free_iterator pool' < length (ticks pool'))%nat
      ∧ grow_step pool' = grow_step pool).
  { intros i tick Hi Hfr.
    pose proof (lookup_lt_Some _ _ _ Hi) as Hlt.
    cbn [ticks set_ticks]. rewrite length_insert.
    destruct (decide (length (ticks pool) = 0%nat)); [lia |].
    eexists _, _. split; [reflexivity |]. cbn. rewrite length_insert.
    split; [left; exists tick; repeat split; auto |].
    split; [apply list_lookup_insert_eq; lia |].
    split; [reflexivity |].
    split; [apply Nat.mod_upper_bound; lia | reflexivity]. }
  unfold search.
  destruct (search_loop_spec sem' (ticks pool)
              (length (ticks pool) - free_iterator pool) (free_iterator pool))
    as [(i & tick & Hs & Hi & Ht & Hf) | [Hs Hnone1]]; [lia | |]; rewrite Hs; cbn.
  { apply (Hfound i tick Ht Hf). }
  destruct (search_loop_spec sem' (ticks pool) (free_iterator pool - 0) 0%nat)
    as [(i & tick & Hs2 & Hi & Ht & Hf) | [Hs2 Hnone2]]; [lia | |]; rewrite Hs2; cbn.
  { apply (Hfound i tick Ht Hf). }
  rewrite length_app, length_replicate.
  destruct (decide (length (ticks pool) < length (ticks pool) + grow_step pool)%nat);
    [| lia].
  cbn. rewrite length_insert, length_app, length_replicate.
  destruct (decide ((length (ticks pool) + grow_step pool)%nat = 0%nat)); [lia |].
  eexists _, _. split; [reflexivity |]. cbn.
  rewrite length_insert, length_app, length_replicate.
  split.
  { right. repeat split; auto.
    intros j tick Hj. apply Hbusy.
    pose proof (lookup_lt_Some _ _ _ Hj) as Hlt.
    destruct (decide (j < free_iterator pool)%nat).
    - apply (Hnone2 j tick); [lia | assumption].
    - apply (Hnone1 j tick); [lia | assumption]. }
  split; [apply list_lookup_insert_eq; rewrite length_app, length_replicate; lia |].
  split; [reflexivity |].
  split; [apply Nat.mod_upper_bound; lia | reflexivity].
Qed.

Lemma CommitResource_grows_busy_pool :
  ∃ i pool',
    CommitResource 4 {| gpu_tick := 0; current_tick := 9 |} busy_pool
    = Some (i, Refresh 4 {| gpu_tick := 0; current_tick := 9 |}, pool')
    ∧ ((∃ tick, ticks busy_pool !! i = Some tick
                ∧ tick ≤ gpu_tick (Refresh 4 {| gpu_tick := 0; current_tick := 9 |})
                ∧ ticks pool' = <[i := 9]> (ticks busy_pool)
                ∧ length (ticks pool') = length (ticks busy_pool)
                ∧ allocate_calls pool' = allocate_calls busy_pool)
       ∨ (i = length (ticks busy_pool)
          ∧ (∀ j tick, ticks busy_pool !! j = Some tick →
                       gpu_tick (Refresh 4 {| gpu_tick := 0; current_tick := 9 |}) < tick)
          ∧ ticks pool' = <[i := 9]> (ticks busy_pool ++ replicate (grow_step busy_pool) 0)
          ∧ length (ticks pool') = (length (ticks busy_pool) + grow_step busy_pool)%nat
          ∧ allocate_calls pool'
            = allocate_calls busy_pool ++ [(i, (i + grow_step busy_pool)%nat)]))
    ∧ ticks pool' !! i = Some 9
    ∧ free_iterator pool' = ((i + 1) mod length (ticks pool'))%nat
    ∧ (free_iterator pool' < length (ticks pool'))%nat
    ∧ grow_step pool' = grow_step busy_pool.
Proof.
  apply (CommitResource_returns_free_slot 4 {| gpu_tick := 0; current_tick := 9 |} busy_pool);
    cbn; lia.
Defined.

End ResourcePoolFacts.

(** ** The guest memory core *)

Section CoreMemoryFacts.
Import Machine CoreMemory.
Context `{System}.

(** *** Bytes and words *)

Lemma u8_range (x : Z) : 0 ≤ u8 x < 256.
Proof. unfold u8. apply Z.mod_pos_bound. lia. Qed.

Lemma u8_u8 (x : Z) : u8 (u8 x) = u8 x.
Proof. unfold u8. apply Z.mod_mod. lia. Qed.

Lemma u64_u64_add (a b : Z) : u64 (u64 a + b) = u64 (a + b).
Proof. unfold u64. apply Zplus_mod_idemp_l. Qed.

Lemma u64_add_u64 (a b : Z) : u64 (a + u64 b) = u64 (a + b).
Proof. unfold u64. apply Zplus_mod_idemp_r. Qed.

Lemma u64_idem (a : Z) : u64 (u64 a) = u64 a.
Proof. unfold u64. apply Z.mod_mod. lia. Qed.

Lemma truncate_range (n : nat) (x : Z) : 0 ≤ truncate n x < 2 ^ (8 * Z.of_nat n).
Proof. unfold truncate. apply Z.mod_pos_bound. apply Z.pow_pos_nonneg; lia. Qed.

Lemma truncate_testbit (n : nat) (x i : Z) :
  0 ≤ i →
  Z.testbit (truncate n x) i = (i <? 8 * Z.of_nat n) && Z.testbit x i.
Proof.
  intros Hi. unfold truncate.
  destruct (Z.ltb_spec i (8 * Z.of_nat n)).
  - rewrite Z.mod_pow2_bits_low by lia. reflexivity.
  - rewrite Z.mod_pow2_bits_high by lia. reflexivity.
Qed.

Lemma u8_testbit (x i : Z) : 0 ≤ i → Z.testbit (u8 x) i = (i <? 8) && Z.testbit x i.
Proof. intros Hi. apply (truncate_testbit 1 x i Hi). Qed.

(** A loaded word has [8 n] bits. *)
Lemma load_testbit_high (mem : HostMemory) (n : nat) :
  ∀ ptr i, 8 * Z.of_nat n ≤ i → Z.testbit (load mem ptr n) i = false.
Proof.
  induction n as [| n IH]; intros ptr i Hi; cbn [load].
  - apply Z.bits_0.
  - rewrite Z.lor_spec, u8_testbit by lia.
    destruct (Z.ltb_spec i 8); [lia |]. cbn.
    rewrite Z.shiftl_spec by lia. apply IH. lia.
Qed.

Lemma load_nonneg (mem : HostMemory) (n : nat) : ∀ ptr, 0 ≤ load mem ptr n.
Proof.
  induction n as [| n IH]; intros ptr; cbn [load]; [lia |].
  apply Z.lor_nonneg. split; [apply u8_range |].
  apply Z.shiftl_nonneg. apply IH.
Qed.

Lemma truncate_load (mem : HostMemory) (n : nat) (ptr : Z) :
  truncate n (load mem ptr n) = load mem ptr n.
Proof.
  apply Z.bits_inj'. intros i Hi. rewrite truncate_testbit by lia.
  destruct (Z.ltb_spec i (8 * Z.of_nat n)); [reflexivity |].
  cbn. symmetry. apply load_testbit_high. lia.
Qed.

Lemma u64_range (x : Z) : 0 ≤ u64 x < 2 ^ 64.
Proof. unfold u64. apply Z.mod_pos_bound. lia. Qed.

Lemma u64_fixed (x : Z) : 0 ≤ x < 2 ^ 64 → u64 x = x.
Proof. intros. unfold u64. apply Z.mod_small; lia. Qed.

(** A load of [a + b] bytes is the load of [a] bytes and, above it, the
    load of the [b] bytes that follow. *)
Lemma load_split (mem : HostMemory) (a b : nat) :
  ∀ ptr, 0 ≤ ptr < 2 ^ 64 →
         load mem ptr (a + b)
         = Z.lor (load mem ptr a)
             (Z.shiftl (load mem (u64 (ptr + Z.of_nat a)) b) (8 * Z.of_nat a)).
Proof.
  induction a as [| a IH]; intros ptr Hptr.
  - cbn [load Nat.add Z.of_nat].
    rewrite Z.add_0_r, Z.shiftl_0_r, Z.lor_0_l, u64_fixed by lia. reflexivity.
  - cbn [load Nat.add].
    rewrite IH by apply u64_range.
    rewrite Z.shiftl_lor, Z.shiftl_shiftl by lia.
    rewrite u64_u64_add, Z.lor_assoc.
    replace (ptr + 1 + Z.of_nat a) with (ptr + Z.of_nat (S a)) by lia.
    replace (8 * Z.of_nat a + 8) with (8 * Z.of_nat (S a)) by lia.
    reflexivity.
Qed.

(** A store of [n] bytes only uses the low [8 n] bits of the value. *)
Lemma store_truncate (n : nat) :
  ∀ mem ptr value, store mem ptr n (truncate n value) = store mem ptr n value.
Proof.
  induction n as [| n IH]; intros mem ptr value; cbn [store]; [reflexivity |].
  assert (Hlow : u8 (truncate (S n) value) = u8 value).
  { apply Z.bits_inj'. intros i Hi.
    rewrite !u8_testbit, truncate_testbit by lia.
    destruct (Z.ltb_spec i 8); [| reflexivity].
    destruct (Z.ltb_spec i (8 * Z.of_nat (S n))); [reflexivity | lia]. }
  assert (Hhigh : Z.shiftr (truncate (S n) value) 8 = truncate n (Z.shiftr value 8)).
  { apply Z.bits_inj'. intros i Hi.
    rewrite Z.shiftr_spec, !truncate_testbit, Z.shiftr_spec by lia.
    f_equal.
    destruct (Z.ltb_spec (i + 8) (8 * Z.of_nat (S n)));
      destruct (Z.ltb_spec i (8 * Z.of_nat n)); try reflexivity; lia. }
  rewrite Hlow, Hhigh. apply IH.
Qed.

(** A store of [a + b] bytes is the store of the low [a] bytes followed by
    the store of the next [b]. *)
Lemma store_split (a b : nat) :
  ∀ mem ptr value, 0 ≤ ptr < 2 ^ 64 →
    store mem ptr (a + b) value
    = store (store mem ptr a value) (u64 (ptr + Z.of_nat a)) b
        (Z.shiftr value (8 * Z.of_nat a)).
Proof.
  induction a as [| a IH]; intros mem ptr value Hptr.
  - cbn [store Nat.add Z.of_nat].
    rewrite Z.add_0_r, Z.shiftr_0_r, u64_fixed by lia. reflexivity.
  - cbn [store Nat.add].
    rewrite IH by apply u64_range.
    rewrite u64_u64_add, Z.shiftr_shiftr by lia.
    replace (ptr + 1 + Z.of_nat a) with (ptr + Z.of_nat (S a)) by lia.
    replace (8 + 8 * Z.of_nat a) with (8 * Z.of_nat (S a)) by lia.
    reflexivity.
Qed.

Lemma u64_add_ne (ptr d : Z) : 0 ≤ ptr < 2 ^ 64 → 0 < d < 2 ^ 64 → u64 (ptr + d) ≠ ptr.
Proof.
  intros Hptr Hd. unfold u64.
  destruct (Z_lt_le_dec (ptr + d) (2 ^ 64)).
  - rewrite Z.mod_small; lia.
  - replace (ptr + d) with ((ptr + d - 2 ^ 64) + 1 * 2 ^ 64) by lia.
    rewrite Z_mod_plus_full, Z.mod_small; lia.
Qed.

(** A store leaves the bytes outside its range alone. *)
Lemma store_outside (n : nat) :
  ∀ mem ptr value a,
    0 ≤ ptr < 2 ^ 64 →
    (∀ i, 0 ≤ i < Z.of_nat n → u64 (ptr + i) ≠ a) →
    store mem ptr n value a = mem a.
Proof.
  induction n as [| n IH]; intros mem ptr value a Hptr Hout; cbn [store]; [reflexivity |].
  rewrite IH.
  - unfold poke. destruct (Z.eqb_spec a ptr) as [-> |]; [| reflexivity].
    exfalso. apply (Hout 0); [lia |].
    rewrite Z.add_0_r. apply u64_fixed, Hptr.
  - apply u64_range.
  - intros i Hi. rewrite u64_u64_add.
    replace (ptr + 1 + i) with (ptr + (i + 1)) by lia.
    apply Hout. lia.
Qed.

(** What was stored is what is loaded. *)
Lemma load_store (n : nat) :
  ∀ mem ptr value,
    0 ≤ ptr < 2 ^ 64 → Z.of_nat n ≤ 2 ^ 64 →
    load (store mem ptr n value) ptr n = truncate n value.
Proof.
  induction n as [| n IH]; intros mem ptr value Hptr Hn.
  - cbn. unfold truncate. cbn. symmetry. apply Z.mod_1_r.
  - cbn [load store].
    rewrite IH by (try apply u64_range; lia).
    rewrite store_outside; [| apply u64_range |].
    + unfold poke. rewrite Z.eqb_refl.
      apply Z.bits_inj'. intros i Hi.
      rewrite Z.lor_spec, u8_testbit, u8_testbit, truncate_testbit by lia.
      destruct (Z.ltb_spec i 8).
      * rewrite Z.shiftl_spec_low by lia.
        destruct (Z.ltb_spec i (8 * Z.of_nat (S n))); [| lia].
        cbn. by rewrite orb_false_r.
      * rewrite Z.shiftl_spec, truncate_testbit, Z.shiftr_spec by lia.
        replace (i - 8 + 8) with i by lia. cbn.
        f_equal.
        destruct (Z.ltb_spec (i - 8) (8 * Z.of_nat n));
          destruct (Z.ltb_spec i (8 * Z.of_nat (S n))); try reflexivity; lia.
    + intros i Hi. rewrite u64_u64_add.
      replace (ptr + 1 + i) with (ptr + (1 + i)) by lia.
      apply u64_add_ne; lia.
Qed.

(** *** Page-table entries *)

Lemma unmapped_has_no_pointer (pt : PageTable) (page : Z) :
  pointers_are_memory pt →
  attribute_at pt page = Some Unmapped → pointer_at pt page = Some 0.
Proof.
  unfold attribute_at, pointer_at. intros Hwf.
  destruct (in_table pt page); [| discriminate].
  intros [= Hattr]. f_equal.
  destruct (decide (default 0 (pointers pt !! page) = 0)) as [| Hptr]; [assumption |].
  apply Hwf in Hptr. congruence.
Qed.

Lemma pointer_in_table (pt : PageTable) (page ptr : Z) :
  pointer_at pt page = Some ptr →
  ∃ type, attribute_at pt page = Some type.
Proof.
  unfold attribute_at, pointer_at.
  destruct (in_table pt page); [eauto | discriminate].
Qed.

(** *** The typed accessors on an unmapped page *)

Lemma Read_unmapped (n : nat) (vaddr : Z) (st : State) :
  pointers_are_memory (current_page_table st) →
  attribute_at (current_page_table st) (Z.shiftr vaddr PAGE_BITS) = Some Unmapped →
  Read n vaddr st = Some (0, log_error st (UnmappedRead (8 * Z.of_nat n) vaddr)).
Proof.
  intros Hwf Hattr. unfold Read.
  rewrite (unmapped_has_no_pointer _ _ Hwf Hattr), Hattr. reflexivity.
Qed.

Lemma Write_unmapped (n : nat) (vaddr data : Z) (st : State) :
  pointers_are_memory (current_page_table st) →
  attribute_at (current_page_table st) (Z.shiftr vaddr PAGE_BITS) = Some Unmapped →
  Write n vaddr data st
  = Some (log_error st (UnmappedWrite (8 * Z.of_nat n) (u32 data) vaddr)).
Proof.
  intros Hwf Hattr. unfold Write.
  rewrite (unmapped_has_no_pointer _ _ Hwf Hattr), Hattr. reflexivity.
Qed.

Lemma log_error_only_logged (st : State) (e : LogEntry) : only_logged st (log_error st e).
Proof.
  unfold only_logged; cbn. repeat split. exists [e]. split; [discriminate | reflexivity].
Qed.

Lemma only_logged_trans (st1 st2 st3 : State) :
  only_logged st1 st2 → only_logged st2 st3 → only_logged st1 st3.
Proof.
  intros (Hpt1 & Hh1 & Hg1 & l1 & Hl1 & Hlog1) (Hpt2 & Hh2 & Hg2 & l2 & Hl2 & Hlog2).
  unfold only_logged. rewrite Hpt2, Hh2, Hg2, Hlog2, Hlog1.
  repeat split; auto.
  exists (l1 ++ l2). split; [| by rewrite (assoc_L (++))].
  destruct l1; [congruence | discriminate].
Qed.

Lemma bytes_in_first (type : PageType) (st : State) (addr : Z) (n : nat) :
  0 ≤ addr < 2 ^ 64 → (0 < n)%nat →
  bytes_in type st addr n →
  attribute_at (current_page_table st) (Z.shiftr addr PAGE_BITS) = Some type.
Proof.
  intros Haddr Hn Hbytes. specialize (Hbytes 0).
  rewrite Z.add_0_r, u64_fixed in Hbytes by lia. apply Hbytes. lia.
Qed.

(** The second half of a split access, in a state with the same page
    table. *)
Lemma bytes_in_rest (type : PageType) (st st' : State) (addr : Z) (a b : nat) :
  current_page_table st' = current_page_table st →
  bytes_in type st addr (a + b) →
  bytes_in type st' (u64 (addr + Z.of_nat a)) b.
Proof.
  intros Hpt Hbytes i Hi. rewrite Hpt, u64_u64_add.
  replace (addr + Z.of_nat a + i) with (addr + (Z.of_nat a + i)) by lia.
  apply Hbytes. lia.
Qed.

Lemma bytes_in_prefix (type : PageType) (st : State) (addr : Z) (a b : nat) :
  bytes_in type st addr (a + b) → bytes_in type st addr a.
Proof. intros Hbytes i Hi. apply Hbytes. lia. Qed.

Lemma Read_reads_nothing (n : nat) : (0 < n)%nat → reads_nothing (Read n) n.
Proof.
  intros Hn st addr Hwf Haddr Hbytes.
  rewrite Read_unmapped by eauto using bytes_in_first.
  eexists. split; [reflexivity | apply log_error_only_logged].
Qed.

(** An unaligned access is split into two halves read one after the other
    and combined by a shift. *)
Lemma split_reads_nothing (half : Z → State → option (Z * State)) (a : nat)
  (wrap : Z → Z) (st : State) (addr : Z) :
  reads_nothing half a →
  wrap 0 = 0 →
  pointers_are_memory (current_page_table st) →
  0 ≤ addr < 2 ^ 64 →
  bytes_in Unmapped st addr (a + a) →
  ∃ st', ('(lo, st) ← half addr st;
          '(hi, st) ← half (u64 (addr + Z.of_nat a)) st;
          Some (wrap (Z.lor (Z.shiftl hi (8 * Z.of_nat a)) lo), st))
         = Some (0, st')
         ∧ only_logged st st'.
Proof.
  intros Hhalf Hwrap Hwf Haddr Hbytes.
  destruct (Hhalf st addr Hwf Haddr (bytes_in_prefix _ _ _ _ _ Hbytes))
    as (st1 & Hr1 & Hl1).
  rewrite Hr1; cbn.
  destruct (Hhalf st1 (u64 (addr + Z.of_nat a))) as (st2 & Hr2 & Hl2).
  - destruct Hl1 as (-> & _). exact Hwf.
  - apply u64_range.
  - apply (bytes_in_rest Unmapped st); [apply Hl1 | exact Hbytes].
  - rewrite Hr2; cbn. exists st2.
    rewrite Z.shiftl_0_l, Z.lor_0_r, Hwrap.
    split; [reflexivity | eapply only_logged_trans; eauto].
Qed.

Lemma Read16_reads_nothing : reads_nothing Read16 2.
Proof.
  intros st addr Hwf Haddr Hbytes. unfold Read16.
  destruct (Z.land addr 1 =? 0).
  - apply Read_reads_nothing; auto; lia.
  - apply (split_reads_nothing (Read 1) 1 u16); auto.
    apply Read_reads_nothing; lia.
Qed.

Lemma Read32_reads_nothing : reads_nothing Read32 4.
Proof.
  intros st addr Hwf Haddr Hbytes. unfold Read32.
  destruct (Z.land addr 3 =? 0).
  - apply Read_reads_nothing; auto; lia.
  - apply (split_reads_nothing Read16 2 u32); auto.
    apply Read16_reads_nothing.
Qed.

Lemma Read64_reads_nothing : reads_nothing Read64 8.
Proof.
  intros st addr Hwf Haddr Hbytes. unfold Read64.
  destruct (Z.land addr 7 =? 0).
  - apply Read_reads_nothing; auto; lia.
  - apply (split_reads_nothing Read32 4 u64); auto.
    apply Read32_reads_nothing.
Qed.

Lemma Write_writes_nothing (n : nat) : (0 < n)%nat → writes_nothing (Write n) n.
Proof.
  intros Hn st addr data Hwf Haddr Hbytes.
  rewrite Write_unmapped by eauto using bytes_in_first.
  eexists. split; [reflexivity | apply log_error_only_logged].
Qed.

Lemma split_writes_nothing (half : Z → Z → State → option State) (a : nat)
  (lo hi : Z) (st : State) (addr : Z) :
  writes_nothing half a →
  pointers_are_memory (current_page_table st) →
  0 ≤ addr < 2 ^ 64 →
  bytes_in Unmapped st addr (a + a) →
  ∃ st', (st ← half addr lo st; half (u64 (addr + Z.of_nat a)) hi st) = Some st'
         ∧ only_logged st st'.
Proof.
  intros Hhalf Hwf Haddr Hbytes.
  destruct (Hhalf st addr lo Hwf Haddr (bytes_in_prefix _ _ _ _ _ Hbytes))
    as (st1 & Hw1 & Hl1).
  rewrite Hw1; cbn.
  destruct (Hhalf st1 (u64 (addr + Z.of_nat a)) hi) as (st2 & Hw2 & Hl2).
  - destruct Hl1 as (-> & _). exact Hwf.
  - apply u64_range.
  - apply (bytes_in_rest Unmapped st); [apply Hl1 | exact Hbytes].
  - exists st2. split; [exact Hw2 | eapply only_logged_trans; eauto].
Qed.

Lemma Write16_writes_nothing : writes_nothing Write16 2.
Proof.
  intros st addr data Hwf Haddr Hbytes. unfold Write16.
  destruct (Z.land addr 1 =? 0).
  - apply Write_writes_nothing; auto; lia.
  - apply (split_writes_nothing (Write 1) 1); auto.
    apply Write_writes_nothing; lia.
Qed.

Lemma Write32_writes_nothing : writes_nothing Write32 4.
Proof.
  intros st addr data Hwf Haddr Hbytes. unfold Write32.
  destruct (Z.land addr 3 =? 0).
  - apply Write_writes_nothing; auto; lia.
  - apply (split_writes_nothing Write16 2); auto.
    apply Write16_writes_nothing.
Qed.

Lemma Write64_writes_nothing : writes_nothing Write64 8.
Proof.
  intros st addr data Hwf Haddr Hbytes. unfold Write64.
  destruct (Z.land addr 7 =? 0).
  - apply Write_writes_nothing; auto; lia.
  - apply (split_writes_nothing Write32 4); auto.
    apply Write32_writes_nothing.
Qed.

(** *** The typed accessors through a page pointer *)

Lemma bytes_through_first (ptr : Z) (st : State) (addr : Z) (n : nat) :
  0 ≤ addr < 2 ^ 64 → (0 < n)%nat →
  bytes_through ptr st addr n →
  pointer_at (current_page_table st) (Z.shiftr addr PAGE_BITS) = Some ptr.
Proof.
  intros Haddr Hn Hbytes. specialize (Hbytes 0).
  rewrite Z.add_0_r, u64_fixed in Hbytes by lia. apply Hbytes. lia.
Qed.

Lemma bytes_through_rest (ptr : Z) (st st' : State) (addr : Z) (a b : nat) :
  current_page_table st' = current_page_table st →
  bytes_through ptr st addr (a + b) →
  bytes_through ptr st' (u64 (addr + Z.of_nat a)) b.
Proof.
  intros Hpt Hbytes i Hi. rewrite Hpt, u64_u64_add.
  replace (addr + Z.of_nat a + i) with (addr + (Z.of_nat a + i)) by lia.
  apply Hbytes. lia.
Qed.

Lemma bytes_through_prefix (ptr : Z) (st : State) (addr : Z) (a b : nat) :
  bytes_through ptr st addr (a + b) → bytes_through ptr st addr a.
Proof. intros Hbytes i Hi. apply Hbytes. lia. Qed.

Lemma Read_through_pointer (n : nat) (vaddr ptr : Z) (st : State) :
  ptr ≠ 0 →
  pointer_at (current_page_table st) (Z.shiftr vaddr PAGE_BITS) = Some ptr →
  Read n vaddr st = Some (load (host st) (u64 (ptr + vaddr)) n, st).
Proof.
  intros Hptr Hat. unfold Read. rewrite Hat; cbn.
  destruct (Z.eqb_spec ptr 0); [contradiction | reflexivity].
Qed.

Lemma Write_through_pointer (n : nat) (vaddr data ptr : Z) (st : State) :
  ptr ≠ 0 →
  pointer_at (current_page_table st) (Z.shiftr vaddr PAGE_BITS) = Some ptr →
  Write n vaddr data st
  = Some (set_host st (store (host st) (u64 (ptr + vaddr)) n data)).
Proof.
  intros Hptr Hat. unfold Write. rewrite Hat; cbn.
  destruct (Z.eqb_spec ptr 0); [contradiction | reflexivity].
Qed.

Lemma Read_reads_memory (n : nat) : (0 < n)%nat → reads_memory (Read n) n.
Proof.
  intros Hn st addr ptr Hptr Haddr Hbytes.
  apply Read_through_pointer; eauto using bytes_through_first.
Qed.

Lemma Write_writes_memory (n : nat) : (0 < n)%nat → writes_memory (Write n) n.
Proof.
  intros Hn st addr data ptr Hptr Haddr Hbytes.
  apply Write_through_pointer; eauto using bytes_through_first.
Qed.

Lemma split_reads_memory (half : Z → State → option (Z * State)) (a : nat)
  (wrap : Z → Z) (st : State) (addr ptr : Z) :
  reads_memory half a →
  (∀ x, wrap x = truncate (a + a) x) →
  ptr ≠ 0 → 0 ≤ addr < 2 ^ 64 →
  bytes_through ptr st addr (a + a) →
  ('(lo, st) ← half addr st;
   '(hi, st) ← half (u64 (addr + Z.of_nat a)) st;
   Some (wrap (Z.lor (Z.shiftl hi (8 * Z.of_nat a)) lo), st))
  = Some (load (host st) (u64 (ptr + addr)) (a + a), st).
Proof.
  intros Hhalf Hwrap Hptr Haddr Hbytes.
  rewrite (Hhalf st addr ptr) by eauto using bytes_through_prefix. cbn.
  rewrite (Hhalf st (u64 (addr + Z.of_nat a)) ptr);
    [| assumption | apply u64_range
     | by apply (bytes_through_rest ptr st st addr a a)].
  cbn. rewrite Hwrap. do 2 f_equal.
  assert (Hq : u64 (ptr + u64 (addr + Z.of_nat a))
               = u64 (u64 (ptr + addr) + Z.of_nat a))
    by (rewrite u64_add_u64, u64_u64_add; f_equal; lia).
  rewrite Hq, Z.lor_comm, <- load_split by apply u64_range.
  apply truncate_load.
Qed.

Lemma split_writes_memory (half : Z → Z → State → option State) (a : nat)
  (lo hi data : Z) (st : State) (addr ptr : Z) :
  writes_memory half a →
  lo = truncate a data → hi = truncate a (Z.shiftr data (8 * Z.of_nat a)) →
  ptr ≠ 0 → 0 ≤ addr < 2 ^ 64 →
  bytes_through ptr st addr (a + a) →
  (st ← half addr lo st; half (u64 (addr + Z.of_nat a)) hi st)
  = Some (set_host st (store (host st) (u64 (ptr + addr)) (a + a) data)).
Proof.
  intros Hhalf -> -> Hptr Haddr Hbytes.
  rewrite (Hhalf st addr _ ptr) by eauto using bytes_through_prefix. cbn.
  rewrite (Hhalf _ (u64 (addr + Z.of_nat a)) _ ptr);
    [| assumption | apply u64_range
     | by apply (bytes_through_rest ptr st _ addr a a)].
  f_equal. unfold set_host; cbn. f_equal.
  assert (Hq : u64 (ptr + u64 (addr + Z.of_nat a))
               = u64 (u64 (ptr + addr) + Z.of_nat a))
    by (rewrite u64_add_u64, u64_u64_add; f_equal; lia).
  rewrite !store_truncate, store_split, Hq by apply u64_range.
  reflexivity.
Qed.

Lemma Read16_reads_memory : reads_memory Read16 2.
Proof.
  intros st addr ptr Hptr Haddr Hbytes. unfold Read16.
  destruct (Z.land addr 1 =? 0).
  - apply Read_reads_memory; auto; lia.
  - apply (split_reads_memory (Read 1) 1 u16); auto.
    apply Read_reads_memory; lia.
Qed.

Lemma Read32_reads_memory : reads_memory Read32 4.
Proof.
  intros st addr ptr Hptr Haddr Hbytes. unfold Read32.
  destruct (Z.land addr 3 =? 0).
  - apply Read_reads_memory; auto; lia.
  - apply (split_reads_memory Read16 2 u32); auto.
    apply Read16_reads_memory.
Qed.

Lemma Read64_reads_memory : reads_memory Read64 8.
Proof.
  intros st addr ptr Hptr Haddr Hbytes. unfold Read64.
  destruct (Z.land addr 7 =? 0).
  - apply Read_reads_memory; auto; lia.
  - apply (split_reads_memory Read32 4 u64); auto.
    apply Read32_reads_memory.
Qed.

Lemma Write16_writes_memory : writes_memory Write16 2.
Proof.
  intros st addr data ptr Hptr Haddr Hbytes. unfold Write16.
  destruct (Z.land addr 1 =? 0).
  - apply Write_writes_memory; auto; lia.
  - apply (split_writes_memory (Write 1) 1); auto.
    apply Write_writes_memory; lia.
Qed.

Lemma Write32_writes_memory : writes_memory Write32 4.
Proof.
  intros st addr data ptr Hptr Haddr Hbytes. unfold Write32.
  destruct (Z.land addr 3 =? 0).
  - apply Write_writes_memory; auto; lia.
  - apply (split_writes_memory Write16 2); auto.
    apply Write16_writes_memory.
Qed.

Lemma Write64_writes_memory : writes_memory Write64 8.
Proof.
  intros st addr data ptr Hptr Haddr Hbytes. unfold Write64.
  destruct (Z.land addr 7 =? 0).
  - apply Write_writes_memory; auto; lia.
  - apply (split_writes_memory Write32 4); auto.
    apply Write32_writes_memory.
Qed.

(** *** The page table stays well formed *)

Lemma empty_table_pointers_are_memory (size : Z) : pointers_are_memory (empty_table size).
Proof. intros page. cbn. rewrite lookup_empty. cbn. congruence. Qed.

Lemma set_entry_keeps (pt : PageTable) (page ptr : Z) (type : PageType) (back : Z) :
  pointers_are_memory pt → (ptr ≠ 0 → type = Memory) →
  pointers_are_memory (set_entry pt page ptr type back).
Proof.
  intros Hwf Htype p. cbn.
  destruct (decide (page = p)) as [-> | Hne].
  - rewrite !lookup_insert_eq. cbn. exact Htype.
  - rewrite !lookup_insert_ne by assumption. apply Hwf.
Qed.

Lemma MapPages_clear_keeps (type : PageType) (count : nat) :
  ∀ base pt pt',
    pointers_are_memory pt →
    MapPages_clear count base type pt = Some pt' → pointers_are_memory pt'.
Proof.
  induction count as [| count IH]; intros base pt pt' Hwf; cbn.
  - by intros [= <-].
  - destruct (in_table pt base); [| discriminate].
    apply IH. apply set_entry_keeps; [assumption | congruence].
Qed.

Lemma MapPages_fill_keeps (count : nat) :
  ∀ base target pt pt',
    pointers_are_memory pt →
    MapPages_fill count base target Memory pt = Some pt' → pointers_are_memory pt'.
Proof.
  induction count as [| count IH]; intros base target pt pt' Hwf; cbn.
  - by intros [= <-].
  - destruct (in_table pt base); [| discriminate].
    destruct (_ =? 0); [discriminate |].
    apply IH. apply set_entry_keeps; auto.
Qed.

Lemma MapPages_flush_table (count : nat) :
  ∀ page st st',
    MapPages_flush count page st = Some st' →
    current_page_table st' = current_page_table st.
Proof.
  induction count as [| count IH]; intros page st st'; cbn.
  - by intros [= <-].
  - destruct (attribute_at _ _) as [type |]; [| discriminate]. cbn.
    intros Hrest. apply IH in Hrest. rewrite Hrest.
    by destruct (PageType_eqb type RasterizerCachedMemory).
Qed.

Lemma MapPages_keeps (base size target : Z) (type : PageType) (st st' : State) :
  target = 0 ∨ type = Memory →
  pointers_are_memory (current_page_table st) →
  MapPages base size target type st = Some st' →
  pointers_are_memory (current_page_table st').
Proof.
  intros Hcase Hwf. unfold MapPages.
  destruct (if IsPoweredOn then _ else _) as [st1 |] eqn:Hflush; [| discriminate].
  assert (Hpt : current_page_table st1 = current_page_table st).
  { destruct IsPoweredOn; [by eapply MapPages_flush_table | by injection Hflush as <-]. }
  cbn. rewrite Hpt.
  destruct (_ <? _); [discriminate |].
  destruct (Z.eqb_spec target 0) as [-> | Hne].
  - destruct (PageType_eqb type Memory); [discriminate |].
    destruct (MapPages_clear _ _ _ _) as [pt |] eqn:Hclear; [| discriminate].
    cbn. intros [= <-]. cbn. by eapply MapPages_clear_keeps.
  - destruct Hcase as [-> | ->]; [contradiction |].
    destruct (MapPages_fill _ _ _ _ _) as [pt |] eqn:Hfill; [| discriminate].
    cbn. intros [= <-]. cbn. by eapply MapPages_fill_keeps.
Qed.

Lemma MapMemoryRegion_keeps (base size target : Z) (st st' : State) :
  pointers_are_memory (current_page_table st) →
  MapMemoryRegion base size target st = Some st' →
  pointers_are_memory (current_page_table st').
Proof.
  intros Hwf. unfold MapMemoryRegion.
  destruct (negb _); [discriminate |]. destruct (negb _); [discriminate |].
  apply MapPages_keeps; auto.
Qed.

Lemma UnmapRegion_keeps (base size : Z) (st st' : State) :
  pointers_are_memory (current_page_table st) →
  UnmapRegion base size st = Some st' →
  pointers_are_memory (current_page_table st').
Proof.
  intros Hwf. unfold UnmapRegion.
  destruct (negb _); [discriminate |]. destruct (negb _); [discriminate |].
  apply MapPages_keeps; auto.
Qed.

Lemma mark_page_keeps (vaddr : Z) (cached : bool) (st st' : State) :
  pointers_are_memory (current_page_table st) →
  mark_page vaddr cached st = Some st' →
  pointers_are_memory (current_page_table st').
Proof.
  intros Hwf. unfold mark_page.
  destruct (attribute_at _ _) as [type |] eqn:Hattr; [| discriminate]. cbn.
  unfold attribute_at in Hattr.
  destruct (in_table _ _); [| discriminate]. injection Hattr as Hattr.
  destruct cached, type; try discriminate; try (by intros [= <-]).
  - intros [= <-]. intros p. cbn.
    destruct (decide (Z.shiftr vaddr PAGE_BITS = p)) as [<- | Hne].
    + rewrite lookup_insert_eq. cbn. congruence.
    + rewrite !lookup_insert_ne by assumption. apply Hwf.
  - destruct (GetPointerFromRasterizerCachedMemory _ _) as [pointer |]; [| discriminate].
    cbn. destruct (pointer =? 0); intros [= <-]; intros p; cbn.
    + destruct (decide (Z.shiftr vaddr PAGE_BITS = p)) as [<- | Hne].
      * intros Hptr. apply Hwf in Hptr. congruence.
      * rewrite lookup_insert_ne by assumption. apply Hwf.
    + destruct (decide (Z.shiftr vaddr PAGE_BITS = p)) as [<- | Hne].
      * by rewrite !lookup_insert_eq.
      * rewrite !lookup_insert_ne by assumption. apply Hwf.
Qed.

Lemma RasterizerMarkRegionCached_keeps (vaddr size : Z) (cached : bool) (st st' : State) :
  pointers_are_memory (current_page_table st) →
  RasterizerMarkRegionCached vaddr size cached st = Some st' →
  pointers_are_memory (current_page_table st').
Proof.
  unfold RasterizerMarkRegionCached.
  destruct (vaddr =? 0); [by intros ? [= <-] |].
  generalize (Z.to_nat
    (u64 (Z.shiftr (u64 (vaddr + size - 1)) PAGE_BITS - Z.shiftr vaddr PAGE_BITS + 1))).
  intros count. revert vaddr st.
  induction count as [| count IH]; intros vaddr st Hwf; cbn.
  - by intros [= <-].
  - destruct (mark_page vaddr cached st) as [st1 |] eqn:Hpage; [| discriminate].
    cbn. apply IH. by eapply mark_page_keeps.
Qed.

(** *** The claims on the typed accessors *)

Lemma ReadN_reads_nothing (n : nat) :
  n = 1%nat ∨ n = 2%nat ∨ n = 4%nat ∨ n = 8%nat → reads_nothing (ReadN n) n.
Proof.
  intros [-> | [-> | [-> | ->]]]; cbn [ReadN].
  - apply Read_reads_nothing; lia.
  - apply Read16_reads_nothing.
  - apply Read32_reads_nothing.
  - apply Read64_reads_nothing.
Qed.

Lemma WriteN_writes_nothing (n : nat) :
  n = 1%nat ∨ n = 2%nat ∨ n = 4%nat ∨ n = 8%nat → writes_nothing (WriteN n) n.
Proof.
  intros [-> | [-> | [-> | ->]]]; cbn [WriteN].
  - apply Write_writes_nothing; lia.
  - apply Write16_writes_nothing.
  - apply Write32_writes_nothing.
  - apply Write64_writes_nothing.
Qed.

Lemma ReadN_reads_memory (n : nat) :
  n = 1%nat ∨ n = 2%nat ∨ n = 4%nat ∨ n = 8%nat → reads_memory (ReadN n) n.
Proof.
  intros [-> | [-> | [-> | ->]]]; cbn [ReadN].
  - apply Read_reads_memory; lia.
  - apply Read16_reads_memory.
  - apply Read32_reads_memory.
  - apply Read64_reads_memory.
Qed.

Lemma WriteN_writes_memory (n : nat) :
  n = 1%nat ∨ n = 2%nat ∨ n = 4%nat ∨ n = 8%nat → writes_memory (WriteN n) n.
Proof.
  intros [-> | [-> | [-> | ->]]]; cbn [WriteN].
  - apply Write_writes_memory; lia.
  - apply Write16_writes_memory.
  - apply Write32_writes_memory.
  - apply Write64_writes_memory.
Qed.

(** An aligned access is one typed access. *)
Lemma ReadN_aligned (n : nat) (addr : Z) (st : State) :
  n = 1%nat ∨ n = 2%nat ∨ n = 4%nat ∨ n = 8%nat →
  Z.land addr (Z.of_nat n - 1) = 0 → ReadN n addr st = Read n addr st.
Proof.
  intros [-> | [-> | [-> | ->]]] Hal; cbn [ReadN]; [reflexivity | ..].
  - change (Z.land addr 1 = 0) in Hal. unfold Read16. by rewrite Hal.
  - change (Z.land addr 3 = 0) in Hal. unfold Read32. by rewrite Hal.
  - change (Z.land addr 7 = 0) in Hal. unfold Read64. by rewrite Hal.
Qed.

Lemma WriteN_aligned (n : nat) (addr data : Z) (st : State) :
  n = 1%nat ∨ n = 2%nat ∨ n = 4%nat ∨ n = 8%nat →
  Z.land addr (Z.of_nat n - 1) = 0 → WriteN n addr data st = Write n addr data st.
Proof.
  intros [-> | [-> | [-> | ->]]] Hal; cbn [WriteN]; [reflexivity | ..].
  - change (Z.land addr 1 = 0) in Hal. unfold Write16. by rewrite Hal.
  - change (Z.land addr 3 = 0) in Hal. unfold Write32. by rewrite Hal.
  - change (Z.land addr 7 = 0) in Hal. unfold Write64. by rewrite Hal.
Qed.

(** C4, as amended: in a well-formed page table, an access of [n] bytes all
    of whose bytes lie in unmapped pages, and every naturally aligned access
    to an unmapped page, reads as zero and writes nothing: page table, host
    memory and GPU state are as before, only the error log grows, and the
    call returns; an access whose bytes all go through page entries holding
    one non-null pointer (a [Memory] page, or pages mapped in one run) loads
    and stores the [n] little-endian bytes at that pointer plus the
    address. *)
Theorem unmapped_accesses_are_harmless (n : nat) (st : State) (addr data : Z) :
  n = 1%nat ∨ n = 2%nat ∨ n = 4%nat ∨ n = 8%nat →
  pointers_are_memory (current_page_table st) →
  0 ≤ addr < 2 ^ 64 →
  (bytes_in Unmapped st addr n →
   ∃ st1 st2, ReadN n addr st = Some (0, st1) ∧ only_logged st st1
              ∧ WriteN n addr data st = Some st2 ∧ only_logged st st2)
  ∧ (Z.land addr (Z.of_nat n - 1) = 0 →
     attribute_at (current_page_table st) (Z.shiftr addr PAGE_BITS) = Some Unmapped →
     ∃ st1 st2, ReadN n addr st = Some (0, st1) ∧ only_logged st st1
                ∧ WriteN n addr data st = Some st2 ∧ only_logged st st2)
  ∧ (∀ ptr, ptr ≠ 0 → bytes_through ptr st addr n →
       ReadN n addr st = Some (load (host st) (u64 (ptr + addr)) n, st)
       ∧ WriteN n addr data st
         = Some (set_host st (store (host st) (u64 (ptr + addr)) n data))
       ∧ load (store (host st) (u64 (ptr + addr)) n data) (u64 (ptr + addr)) n
         = truncate n data).
Proof.
  intros Hn Hwf Haddr. split; [| split].
  - intros Hbytes.
    destruct (ReadN_reads_nothing n Hn st addr Hwf Haddr Hbytes) as (st1 & Hr & Hl1).
    destruct (WriteN_writes_nothing n Hn st addr data Hwf Haddr Hbytes)
      as (st2 & Hw & Hl2).
    eauto 10.
  - intros Hal Hattr.
    rewrite ReadN_aligned, WriteN_aligned, Read_unmapped, Write_unmapped by assumption.
    eexists _, _. eauto using log_error_only_logged.
  - intros ptr Hptr Hbytes.
    split; [by apply ReadN_reads_memory |].
    split; [by apply WriteN_writes_memory |].
    apply load_store; [apply u64_range |].
    destruct Hn as [-> | [-> | [-> | ->]]]; cbn; lia.
Qed.

(** C2: [WriteExclusive] on an unmapped page reports success and changes
    nothing but the error log; through a page pointer it succeeds exactly
    when the bytes in memory equal the expected value, and exactly then the
    new value is what memory holds. *)
Theorem WriteExclusive_compare_and_swap
  (n : nat) (st : State) (vaddr data expected : Z) :
  n = 1%nat ∨ n = 2%nat ∨ n = 4%nat ∨ n = 8%nat →
  pointers_are_memory (current_page_table st) →
  (attribute_at (current_page_table st) (Z.shiftr vaddr PAGE_BITS) = Some Unmapped →
   ∃ st', WriteExclusive n vaddr data expected st = Some (true, st')
          ∧ only_logged st st')
  ∧ (∀ ptr, ptr ≠ 0 →
       pointer_at (current_page_table st) (Z.shiftr vaddr PAGE_BITS) = Some ptr →
       ∃ ok st',
         WriteExclusive n vaddr data expected st = Some (ok, st')
         ∧ (ok = true ↔ load (host st) (u64 (ptr + vaddr)) n = truncate n expected)
         ∧ (ok = true →
            st' = set_host st (store (host st) (u64 (ptr + vaddr)) n data)
            ∧ load (host st') (u64 (ptr + vaddr)) n = truncate n data)
         ∧ (ok = false → st' = set_host st (host st))).
Proof.
  intros Hn Hwf. split.
  - intros Hattr. unfold WriteExclusive.
    rewrite (unmapped_has_no_pointer _ _ Hwf Hattr), Hattr. cbn.
    eexists. split; [reflexivity | apply log_error_only_logged].
  - intros ptr Hptr Hat. unfold WriteExclusive. rewrite Hat. cbn.
    destruct (Z.eqb_spec ptr 0); [contradiction |]. cbn.
    unfold AtomicCompareAndSwap.
    destruct (Z.eqb_spec (load (host st) (u64 (ptr + vaddr)) n) (truncate n expected))
      as [Heq | Hne].
    + eexists _, _. split; [reflexivity |].
      split; [tauto |]. split; [| discriminate].
      intros _. split; [reflexivity |]. cbn.
      apply load_store; [apply u64_range |].
      destruct Hn as [-> | [-> | [-> | ->]]]; cbn; lia.
    + eexists _, _. split; [reflexivity |].
      split; [split; [discriminate | contradiction] |].
      split; [discriminate | reflexivity].
Qed.

(** *** Block reads *)

(** A block read sees the page table and the host memory, not the state of
    the GPU. *)
Lemma ReadBlockUnsafe_loop_same_guest (src_addr size : Z) (fuel : nat) :
  ∀ page_index page_offset remaining st1 st2,
    same_guest st1 st2 →
    same_bytes
      (ReadBlockUnsafe_loop fuel src_addr size page_index page_offset remaining st1)
      (ReadBlockUnsafe_loop fuel src_addr size page_index page_offset remaining st2).
Proof.
  induction fuel as [| fuel IH];
    intros page_index page_offset remaining st1 st2 Hsame; cbn.
  - destruct (remaining <=? 0); cbn; auto.
  - destruct (remaining <=? 0); [cbn; auto |].
    destruct st1 as [pt1 host1 gpu1 log1], st2 as [pt2 host2 gpu2 log2].
    destruct Hsame as (Hpt & Hhost & Hlog); cbn in Hpt, Hhost, Hlog; subst.
    cbn [current_page_table host].
    destruct (attribute_at pt2 page_index) as [type |]; cbn; [| exact I].
    set (amount := Z.min (u64 (PAGE_SIZE - page_offset)) remaining).
    assert (Hstep : ∀ chunk sa sb,
      same_guest sa sb →
      same_bytes
        ('(rest, st) ← ReadBlockUnsafe_loop fuel src_addr size (u64 (page_index + 1)) 0
                         (remaining - amount) sa;
         Some (chunk ++ rest, st))
        ('(rest, st) ← ReadBlockUnsafe_loop fuel src_addr size (u64 (page_index + 1)) 0
                         (remaining - amount) sb;
         Some (chunk ++ rest, st))).
    { intros chunk sa sb Hab.
      specialize (IH (u64 (page_index + 1)) 0 (remaining - amount) sa sb Hab).
      destruct (ReadBlockUnsafe_loop fuel _ _ _ _ _ sa) as [[ra sa'] |],
               (ReadBlockUnsafe_loop fuel _ _ _ _ _ sb) as [[rb sb'] |];
        cbn in *; try tauto.
      destruct IH as [-> ?]. auto. }
    destruct type; cbn; try exact I.
    + apply Hstep. by repeat split.
    + destruct (pointer_at pt2 page_index); cbn; [| exact I].
      apply Hstep. by repeat split.
    + unfold GetPointerFromRasterizerCachedMemory; cbn.
      destruct (backing_addr_at pt2 _) as [paddr |]; cbn; [| exact I].
      destruct (paddr =? 0); cbn; [exact I |].
      destruct (_ =? 0); cbn; [exact I |].
      apply Hstep. by repeat split.
Qed.

Lemma ReadBlockUnsafe_same_guest (src_addr size : Z) (st1 st2 : State) :
  same_guest st1 st2 →
  same_bytes (ReadBlockUnsafe src_addr size st1) (ReadBlockUnsafe src_addr size st2).
Proof. apply ReadBlockUnsafe_loop_same_guest. Qed.

End CoreMemoryFacts.

Section CoreMemoryScenarios.
Import Machine CoreMemory Scenarios.
#[local] Existing Instance idle_system.

Lemma one_page_well_formed `{System} (g : GPU) :
  pointers_are_memory (current_page_table (one_page g)).
Proof.
  unfold one_page.
  destruct (MapMemoryRegion 4096 4096 12288 (blank g)) as [st |] eqn:Hmap; cbn.
  - eapply MapMemoryRegion_keeps; [| exact Hmap]. apply empty_table_pointers_are_memory.
  - apply empty_table_pointers_are_memory.
Qed.

Lemma unmapped_accesses_at_page_zero :
  (bytes_in Unmapped idle_page 6 2 →
   ∃ st1 st2, ReadN 2 6 idle_page = Some (0, st1) ∧ only_logged idle_page st1
              ∧ WriteN 2 6 48879 idle_page = Some st2 ∧ only_logged idle_page st2)
  ∧ (Z.land 6 (Z.of_nat 2 - 1) = 0 →
     attribute_at (current_page_table idle_page) (Z.shiftr 6 PAGE_BITS) = Some Unmapped →
     ∃ st1 st2, ReadN 2 6 idle_page = Some (0, st1) ∧ only_logged idle_page st1
                ∧ WriteN 2 6 48879 idle_page = Some st2 ∧ only_logged idle_page st2)
  ∧ (∀ ptr, ptr ≠ 0 → bytes_through ptr idle_page 6 2 →
       ReadN 2 6 idle_page = Some (load (host idle_page) (u64 (ptr + 6)) 2, idle_page)
       ∧ WriteN 2 6 48879 idle_page
         = Some (set_host idle_page (store (host idle_page) (u64 (ptr + 6)) 2 48879))
       ∧ load (store (host idle_page) (u64 (ptr + 6)) 2 48879) (u64 (ptr + 6)) 2
         = truncate 2 48879).
Proof.
  apply (unmapped_accesses_are_harmless 2 idle_page 6 48879).
  - right; left; reflexivity.
  - apply one_page_well_formed.
  - lia.
Defined.

Lemma WriteExclusive_at_mapped_word :
  (attribute_at (current_page_table idle_page) (Z.shiftr 4100 PAGE_BITS) = Some Unmapped →
   ∃ st', WriteExclusive 4 4100 7 0 idle_page = Some (true, st')
          ∧ only_logged idle_page st')
  ∧ (∀ ptr, ptr ≠ 0 →
       pointer_at (current_page_table idle_page) (Z.shiftr 4100 PAGE_BITS) = Some ptr →
       ∃ ok st',
         WriteExclusive 4 4100 7 0 idle_page = Some (ok, st')
         ∧ (ok = true ↔ load (host idle_page) (u64 (ptr + 4100)) 4 = truncate 4 0)
         ∧ (ok = true →
            st' = set_host idle_page (store (host idle_page) (u64 (ptr + 4100)) 4 7)
            ∧ load (host st') (u64 (ptr + 4100)) 4 = truncate 4 7)
         ∧ (ok = false → st' = set_host idle_page (host idle_page))).
Proof.
  apply (WriteExclusive_compare_and_swap 4 idle_page 4100 7 0).
  - right; right; left; reflexivity.
  - apply one_page_well_formed.
Defined.

(** The scenario of the specification: map the guest page [0x1000,0x2000),
    write and read back a word, unmap, read zero with one line logged. *)
Example guest_page_scenario :
  fst <$> (st ← MapMemoryRegion 0x1000 0x1000 0x3000 idle_blank;
           st ← Write32 0x1004 0xdeadbeef st;
           Read32 0x1004 st)
  = Some 0xdeadbeef
  ∧ (λ r, (r.1, log r.2))
      <$> (st ← MapMemoryRegion 0x1000 0x1000 0x3000 idle_blank;
           st ← Write32 0x1004 0xdeadbeef st;
           st ← UnmapRegion 0x1000 0x1000 st;
           Read32 0x1004 st)
    = Some (0, [UnmappedRead 32 0x1004]).
Proof. split; vm_compute; reflexivity. Qed.

(** Exclusive stores on the mapped word and on an unmapped one. *)
Example exclusive_store_scenario :
  fst <$> WriteExclusive32 4100 7 0 idle_page = Some true
  ∧ fst <$> (WriteExclusive32 4100 7 0 idle_page ≫= λ r, Read32 4100 r.2) = Some 7
  ∧ fst <$> WriteExclusive32 4100 7 1 idle_page = Some false
  ∧ fst <$> (WriteExclusive32 4100 7 1 idle_page ≫= λ r, Read32 4100 r.2) = Some 0
  ∧ fst <$> WriteExclusive32 8 7 1 idle_page = Some true
  ∧ fst <$> (WriteExclusive32 8 7 1 idle_page ≫= λ r, Read32 8 r.2) = Some 0.
Proof. repeat split; vm_compute; reflexivity. Qed.

(** The claim C4 as stated does not hold of an unaligned access that starts
    in an unmapped page and ends in a mapped one: the page of address
    [0xFFF] is unmapped, yet [Read16] returns the byte of the next page in
    its high half, and [Write16] stores there. *)
Lemma unaligned_access_reaches_next_page :
  pointers_are_memory (current_page_table idle_byte)
  ∧ attribute_at (current_page_table idle_byte) (Z.shiftr 4095 PAGE_BITS) = Some Unmapped
  ∧ fst <$> ReadN 2 4095 idle_byte = Some 43776
  ∧ host idle_byte (host_base + 12288) = 171
  ∧ (λ st, host st (host_base + 12288)) <$> WriteN 2 4095 52719 idle_byte = Some 205.
Proof.
  split; [apply (one_page_well_formed (H := idle_system) tt) |].
  repeat split; vm_compute; reflexivity.
Qed.

End CoreMemoryScenarios.

(** ** The GPU memory manager *)

Section MemoryManagerFacts.
Import Machine MemoryManager.
Context `{Layout}.
Hypothesis page_bits_range : 0 ≤ page_bits < 64.

Lemma page_size_pow2 : page_size = 2 ^ page_bits.
Proof. unfold page_size. rewrite Z.shiftl_1_l. reflexivity. Qed.

Lemma page_size_pos : 0 < page_size.
Proof. rewrite page_size_pow2. apply Z.pow_pos_nonneg; lia. Qed.

Lemma page_size_le : page_size ≤ 2 ^ 63.
Proof. rewrite page_size_pow2. apply Z.pow_le_mono_r; lia. Qed.

Lemma PageEntryIndex_div (a : Z) : PageEntryIndex a = a / page_size.
Proof.
  unfold PageEntryIndex. rewrite Z.shiftr_div_pow2, page_size_pow2 by lia. reflexivity.
Qed.

Lemma land_page_mask (a : Z) : Z.land a page_mask = a mod page_size.
Proof.
  unfold page_mask. rewrite page_size_pow2.
  replace (2 ^ page_bits - 1) with (Z.ones page_bits)
    by (rewrite Z.ones_equiv; lia).
  apply Z.land_ones; lia.
Qed.

Lemma u64_small (x : Z) : 0 ≤ x < 2 ^ 64 → u64 x = x.
Proof. intros. unfold u64. apply Z.mod_small; lia. Qed.

(** The loop of [UpdateRange] ends, and leaves the entries below the first
    page it visits as they were. *)
Lemma UpdateRange_loop_below (gpu_addr : Z) (e : PageEntry) (size : Z) (fuel : nat) :
  ∀ offset remaining m,
    0 ≤ gpu_addr → gpu_addr + size ≤ 2 ^ 64 → size + page_size ≤ 2 ^ 64 →
    0 ≤ offset →
    (Z.to_nat (size - offset) ≤ fuel)%nat →
    ∃ m', UpdateRange_loop fuel gpu_addr e size offset remaining m = Some m'
          ∧ ∀ idx, idx < PageEntryIndex (gpu_addr + offset) →
                   page_table m' !! idx = page_table m !! idx.
Proof.
  pose proof page_size_pos as Hps.
  induction fuel as [| fuel IH]; intros offset remaining m Hg Hgs Hsz Ho Hfuel; cbn.
  - destruct (Z.ltb_spec offset size); [lia |]. eauto.
  - destruct (Z.ltb_spec offset size) as [Hlt |]; [| eauto].
    rewrite (u64_small (offset + page_size)) by lia.
    rewrite (u64_small (gpu_addr + offset)) by lia.
    match goal with
    | |- context [UpdateRange_loop fuel _ _ _ _ ?r ?m0] =>
        destruct (IH (offset + page_size) r m0) as (m' & Hm' & Hbelow); try lia
    end.
    exists m'. split; [exact Hm' |].
    intros idx Hidx.
    rewrite Hbelow.
    + destruct (remaining <? page_size); cbn;
        rewrite lookup_insert_ne; auto; lia.
    + rewrite PageEntryIndex_div in *.
      assert ((gpu_addr + offset) / page_size ≤ (gpu_addr + (offset + page_size)) / page_size)
        by (apply Z.div_le_mono; lia).
      lia.
Qed.

(** After the loop, every address of the range it covered finds the entry
    written for its page. *)
Lemma UpdateRange_loop_inside (gpu_addr : Z) (e : PageEntry) (size : Z) (fuel : nat) :
  ∀ offset remaining m m',
    0 ≤ gpu_addr → gpu_addr + size ≤ 2 ^ 64 → size + page_size ≤ 2 ^ 64 →
    gpu_addr mod page_size = 0 →
    0 ≤ offset → offset mod page_size = 0 →
    (Z.to_nat (size - offset) ≤ fuel)%nat →
    UpdateRange_loop fuel gpu_addr e size offset remaining m = Some m' →
    ∀ k, offset ≤ k < size →
         GetPageEntry m' (gpu_addr + k)
         = PageEntry_plus e (page_size * (k / page_size)).
Proof.
  pose proof page_size_pos as Hps.
  induction fuel as [| fuel IH];
    intros offset remaining m m' Hg Hgs Hsz Hal Ho Hoal Hfuel; cbn.
  - destruct (Z.ltb_spec offset size); [lia |]. intros _ k Hk. lia.
  - destruct (Z.ltb_spec offset size) as [Hlt |]; [| intros _ k Hk; lia].
    rewrite (u64_small (offset + page_size)) by lia.
    rewrite (u64_small (gpu_addr + offset)) by lia.
    intros Hloop k Hk.
    assert (Hoal' : (offset + page_size) mod page_size = 0).
    { rewrite <- Z.add_mod_idemp_r, Z.mod_same, Z.add_0_r by lia. exact Hoal. }
    destruct (Z.lt_ge_cases k (offset + page_size)) as [Hfirst | Hlater].
    + (* the page written by this iteration *)
      match type of Hloop with
      | UpdateRange_loop fuel _ _ _ _ ?r ?m0 = _ =>
          destruct (UpdateRange_loop_below gpu_addr e size fuel
                      (offset + page_size) r m0) as (m2 & Hm2 & Hbelow); try lia
      end.
      rewrite Hloop in Hm2. injection Hm2 as <-.
      unfold GetPageEntry.
      apply Z.mod_divide in Hal; [| lia]. destruct Hal as [G ->].
      apply Z.mod_divide in Hoal; [| lia]. destruct Hoal as [j ->].
      assert (Hkq : k / page_size = j).
      { symmetry. apply (Z.div_unique k page_size j (k - j * page_size)); lia. }
      assert (Hidx : PageEntryIndex (G * page_size + k) = G + j).
      { rewrite PageEntryIndex_div, Z.div_add_l, Hkq by lia. reflexivity. }
      assert (Hthis : PageEntryIndex (G * page_size + j * page_size) = G + j).
      { rewrite PageEntryIndex_div, <- Z.mul_add_distr_r, Z.div_mul; lia. }
      assert (Hnext : PageEntryIndex (G * page_size + (j * page_size + page_size))
                      = G + j + 1).
      { rewrite PageEntryIndex_div, Z.add_assoc, <- Z.mul_add_distr_r.
        rewrite <- (Z.mul_1_l page_size) at 2.
        rewrite <- Z.mul_add_distr_r, Z.div_mul; lia. }
      rewrite Hbelow.
      * rewrite Hidx.
        destruct (remaining <? page_size); cbn;
          rewrite Hthis, lookup_insert_eq; cbn; f_equal; rewrite Hkq; lia.
      * rewrite Hidx, Hnext. lia.
    + refine (IH (offset + page_size) _ _ m' Hg Hgs Hsz Hal _ Hoal' _ Hloop k _); lia.
Qed.





Section WithSystem.
Context `{CoreMemory.System}.


(** Whether an address translates depends on its page only. *)
Lemma GpuToCpuAddress_same_page (m : MemoryManager.t) (a b : Z) :
  PageEntryIndex a = PageEntryIndex b →
  is_Some (GpuToCpuAddress m a) → is_Some (GpuToCpuAddress m b).
Proof.
  unfold GpuToCpuAddress, GetPageEntry. intros ->.
  destruct (negb _); [by intros [? [=]] | eauto].
Qed.

Lemma ReadBlock_loop_done (m : MemoryManager.t) (fuel : nat)
  (page_index page_offset remaining : Z) (pos : nat) (dest : list Z)
  (st : CoreMemory.State) :
  remaining ≤ 0 →
  ReadBlock_loop fuel m page_index page_offset remaining pos dest st = Some (dest, st).
Proof.
  intros Hdone. destruct fuel; cbn; destruct (Z.leb_spec remaining 0); auto; lia.
Qed.

Lemma ReadBlockUnsafe_loop_done (m : MemoryManager.t) (fuel : nat)
  (page_index page_offset remaining : Z) (pos : nat) (dest : list Z)
  (st : CoreMemory.State) :
  remaining ≤ 0 →
  ReadBlockUnsafe_loop fuel m page_index page_offset remaining pos dest st
  = Some (dest, st).
Proof.
  intros Hdone. destruct fuel; cbn; destruct (Z.leb_spec remaining 0); auto; lia.
Qed.

(** Chunk by chunk, the two block reads fill the destination alike when
    the pages translate and the flush writes nothing back. *)
Lemma ReadBlock_loop_matches (m : MemoryManager.t) (fuel : nat) :
  (∀ addr size g mem, snd (CoreMemory.Rasterizer_FlushRegion addr size (g, mem)) = mem) →
  ∀ page_index page_offset remaining pos dest st1 st2,
    CoreMemory.same_guest st1 st2 →
    0 ≤ page_index → 0 ≤ page_offset < page_size →
    page_index * page_size + page_offset + remaining ≤ 2 ^ 64 →
    (∀ k, 0 ≤ k < remaining →
          is_Some (GpuToCpuAddress m (page_index * page_size + page_offset + k))) →
    CoreMemory.same_bytes
      (ReadBlock_loop fuel m page_index page_offset remaining pos dest st1)
      (ReadBlockUnsafe_loop fuel m page_index page_offset remaining pos dest st2).
Proof.
  intros Hflush.
  pose proof page_size_pos as Hps. pose proof page_size_le as Hpsle.
  induction fuel as [| fuel IH];
    intros page_index page_offset remaining pos dest st1 st2 Hsame Hpi Hpo Hend Hvalid;
    cbn.
  - destruct (remaining <=? 0); cbn; auto.
  - destruct (Z.leb_spec remaining 0) as [| Hrem]; [cbn; auto |].
    set (amount := Z.min (u64 (page_size - page_offset)) remaining).
    assert (Hamount : amount = Z.min (page_size - page_offset) remaining).
    { unfold amount. rewrite u64_small by lia. reflexivity. }
    rewrite Z.shiftl_mul_pow2, <- page_size_pow2 by lia.
    rewrite (u64_small (page_index * page_size)) by nia.
    destruct (GpuToCpuAddress_same_page m (page_index * page_size + page_offset + 0)
                (page_index * page_size)) as [page_addr Hpage].
    { rewrite !PageEntryIndex_div, Z.add_0_r, Z.div_add_l, Z.div_mul, Z.div_small by lia.
      lia. }
    { apply Hvalid. lia. }
    rewrite Hpage.
    match goal with
    | |- context [CoreMemory.ReadBlockUnsafe ?a ?n (CoreMemory.set_gpu_host st1 ?gh)] =>
        pose proof (ReadBlockUnsafe_same_guest a n
                      (CoreMemory.set_gpu_host st1 gh) st2) as Hread
    end.
    assert (Hflushed : ∀ a n,
      CoreMemory.same_guest
        (CoreMemory.set_gpu_host st1
           (CoreMemory.Rasterizer_FlushRegion a n (CoreMemory.gpu st1, CoreMemory.host st1)))
        st2).
    { intros a n. destruct Hsame as (Hpt & Hhost & Hlog).
      repeat split; cbn; auto. rewrite Hflush. exact Hhost. }
    specialize (Hread (Hflushed _ _)).
    destruct (CoreMemory.ReadBlockUnsafe _ _ (CoreMemory.set_gpu_host _ _))
      as [[bytes1 sa] |];
      destruct (CoreMemory.ReadBlockUnsafe _ _ st2) as [[bytes2 sb] |]; cbn in *;
      try contradiction; [| exact I].
    destruct Hread as [-> Hab].
    destruct (write_at dest pos bytes2) as [dest' |]; cbn; [| exact I].
    destruct (Z.le_gt_cases (remaining - amount) 0) as [Hlast | Hmore].
    + rewrite ReadBlock_loop_done, ReadBlockUnsafe_loop_done by assumption.
      cbn. auto.
    + rewrite (u64_small (page_index + 1)) by nia.
      apply IH; auto; try lia.
      intros k Hk.
      replace ((page_index + 1) * page_size + 0 + k)
        with (page_index * page_size + page_offset + (amount + k)) by lia.
      apply Hvalid. lia.
Qed.

(** C8, as amended: when every page of the range has a CPU address and the
    rasterizer's flush writes nothing back to guest memory, [ReadBlock] and
    [ReadBlockUnsafe] leave the same bytes in the destination buffer. *)
Theorem ReadBlock_matches_ReadBlockUnsafe
  (m : MemoryManager.t) (st : CoreMemory.State)
  (gpu_src_addr : Z) (dest_buffer : list Z) (size : Z) :
  (∀ addr n g mem, snd (CoreMemory.Rasterizer_FlushRegion addr n (g, mem)) = mem) →
  0 ≤ gpu_src_addr → gpu_src_addr + size ≤ 2 ^ 64 →
  (∀ k, 0 ≤ k < size → is_Some (GpuToCpuAddress m (gpu_src_addr + k))) →
  fst <$> ReadBlock m gpu_src_addr dest_buffer size st
  = fst <$> ReadBlockUnsafe m gpu_src_addr dest_buffer size st.
Proof.
  intros Hflush Hg Hend Hvalid.
  pose proof page_size_pos as Hps.
  assert (Hnz : page_size ≠ 0) by lia.
  pose proof (Z.div_mod gpu_src_addr page_size Hnz) as Hdm.
  pose proof (Z.mod_pos_bound gpu_src_addr page_size Hps) as Hmod.
  assert (Hdiv : 0 ≤ gpu_src_addr / page_size) by (apply Z.div_pos; lia).
  unfold ReadBlock, ReadBlockUnsafe.
  pose proof (ReadBlock_loop_matches m (S (Z.to_nat size)) Hflush
                (Z.shiftr gpu_src_addr page_bits) (Z.land gpu_src_addr page_mask)
                size 0%nat dest_buffer st st) as Hloop.
  fold (PageEntryIndex gpu_src_addr) in Hloop |- *.
  rewrite PageEntryIndex_div, land_page_mask in Hloop |- *.
  destruct (ReadBlock_loop _ _ _ _ _ _ _ _) as [[d1 s1] |];
    destruct (ReadBlockUnsafe_loop _ _ _ _ _ _ _ _) as [[d2 s2] |]; cbn in *;
    try reflexivity.
  - f_equal. apply Hloop; try lia; [by repeat split |].
    intros k Hk.
    replace (gpu_src_addr / page_size * page_size + gpu_src_addr mod page_size + k)
      with (gpu_src_addr + k) by lia.
    by apply Hvalid.
  - exfalso. apply Hloop; try lia; [by repeat split |].
    intros k Hk.
    replace (gpu_src_addr / page_size * page_size + gpu_src_addr mod page_size + k)
      with (gpu_src_addr + k) by lia.
    by apply Hvalid.
  - exfalso. apply Hloop; try lia; [by repeat split |].
    intros k Hk.
    replace (gpu_src_addr / page_size * page_size + gpu_src_addr mod page_size + k)
      with (gpu_src_addr + k) by lia.
    by apply Hvalid.
Qed.

End WithSystem.

End MemoryManagerFacts.

Section MemoryManagerScenarios.
Import Machine MemoryManager Scenarios.

Lemma gpu_64k_page_bits : 0 ≤ page_bits (Layout := gpu_64k) < 64.
Proof. cbn. lia. Qed.

Lemma gpu_64k_page_size : page_size (H := gpu_64k) = 65536.
Proof. reflexivity. Qed.



(** The two outcomes on the mapped page, evaluated: the first [Unmap]
    completes, the second ends in the empty optional. *)
Example Unmap_twice :
  (λ r, match r with
        | inr (m', st') =>
            Some (GetPageEntry (H := gpu_64k) m' 65536,
                  match Unmap (H := gpu_64k) 65536 4096 m' st' with
                  | inl e => Some e
                  | inr _ => None
                  end)
        | inl _ => None
        end) (Unmap (H := gpu_64k) 65536 4096 one_mapping idle_page)
  = Some (Unmapped, Some EmptyOptionalDereferenced).
Proof. vm_compute. reflexivity. Qed.

Lemma ReadBlock_matches_on_the_mapped_page :
  fst <$> ReadBlock (H := gpu_64k) one_mapping 65536 [1; 2; 3] 3 idle_byte
  = fst <$> ReadBlockUnsafe (H := gpu_64k) one_mapping 65536 [1; 2; 3] 3 idle_byte.
Proof.
  apply (ReadBlock_matches_ReadBlockUnsafe (H := gpu_64k) gpu_64k_page_bits
           one_mapping idle_byte 65536 [1; 2; 3] 3).
  - intros addr n g mem. reflexivity.
  - lia.
  - lia.
  - intros k Hk.
    assert (k = 0 ∨ k = 1 ∨ k = 2) as [-> | [-> | ->]] by lia;
      vm_compute; eauto.
Defined.

Example ReadBlock_on_the_mapped_page :
  fst <$> ReadBlock (H := gpu_64k) one_mapping 65536 [1; 2; 3] 3 idle_byte
  = Some [171; 0; 0].
Proof. vm_compute. reflexivity. Qed.

(** The claim C8 as stated fails twice.  On a page without a CPU address
    [ReadBlock] leaves the destination as it was while [ReadBlockUnsafe]
    fills it with zeros; and when the rasterizer has a modified byte to write
    back, [ReadBlock] reads it and [ReadBlockUnsafe] reads the stale
    memory. *)
Lemma ReadBlock_differs_from_ReadBlockUnsafe :
  (fst <$> ReadBlock (H := gpu_64k) no_mapping 0 [1; 2; 3] 3 idle_page = Some [1; 2; 3]
   ∧ fst <$> ReadBlockUnsafe (H := gpu_64k) no_mapping 0 [1; 2; 3] 3 idle_page
     = Some [0; 0; 0])
  ∧ (fst <$> ReadBlock (H := gpu_64k) one_mapping 65536 [1; 2; 3] 3 writeback_page
     = Some [171; 0; 0]
     ∧ fst <$> ReadBlockUnsafe (H := gpu_64k) one_mapping 65536 [1; 2; 3] 3 writeback_page
       = Some [0; 0; 0]).
Proof. repeat split; vm_compute; reflexivity. Qed.

End MemoryManagerScenarios.

(** ** The texture cache *)

Section TextureCacheFacts.
Import Machine TextureCache.

Lemma same_except_picked_refl (tc : TextureCache.t) : same_except_picked tc tc.
Proof. by repeat split. Qed.

Lemma same_except_picked_trans (tc1 tc2 tc3 : TextureCache.t) :
  same_except_picked tc1 tc2 → same_except_picked tc2 tc3 → same_except_picked tc1 tc3.
Proof.
  intros (Hr1 & Hl1 & Ht1 & He1 & Hs1) (Hr2 & Hl2 & Ht2 & He2 & Hs2).
  repeat split; try congruence; intros id; by rewrite Hs2, Hs1.
Qed.

Lemma MarkAsPicked_twice (a b : bool) (s : Surface) :
  MarkAsPicked a (MarkAsPicked b s) = MarkAsPicked a s.
Proof. reflexivity. Qed.

Lemma update_picked_same (picked : bool) (id : nat) (tc : TextureCache.t) :
  same_except_picked tc (update_surface (MarkAsPicked picked) id tc).
Proof.
  repeat split. intros x. cbn.
  rewrite lookup_alter. case_decide as Hx; [subst x | reflexivity].
  destruct (surfaces tc !! id); reflexivity.
Qed.



(** *** Gathering the surfaces of a region *)

Lemma pick_bucket_spec (addr addr_end : Z) (bucket : list nat) :
  ∀ acc tc,
    all_picked acc tc →
    all_picked (pick_bucket bucket addr addr_end acc tc).1
               (pick_bucket bucket addr addr_end acc tc).2
    ∧ same_except_picked tc (pick_bucket bucket addr addr_end acc tc).2.
Proof.
  induction bucket as [| id rest IH]; intros acc tc Hacc; cbn.
  - split; [assumption | apply same_except_picked_refl].
  - destruct (surfaces tc !! id) as [s |] eqn:Hs; [| by apply IH].
    destruct (is_picked s || negb (Overlaps s addr addr_end)) eqn:Hskip; [by apply IH |].
    apply orb_false_elim in Hskip as [Hpicked _].
    destruct (IH (acc ++ [id]) (update_surface (MarkAsPicked true) id tc)) as [Hinv Hsame].
    + destruct Hacc as [Hnodup Hall]. split.
      * apply NoDup_app. repeat split; [assumption | | apply NoDup_singleton].
        intros x Hx Hx'. apply list_elem_of_singleton in Hx' as ->.
        destruct (Hall id Hx) as (s' & Hs' & Hp). congruence.
      * intros x Hx. cbn. rewrite lookup_alter.
        case_decide as Hid.
        -- subst x. rewrite Hs. cbn. eauto.
        -- apply elem_of_app in Hx as [Hx | Hx].
           ++ by apply Hall.
           ++ apply list_elem_of_singleton in Hx. congruence.
    + split; [assumption |].
      eapply same_except_picked_trans; [apply update_picked_same | exact Hsame].
Qed.

Lemma pick_pages_spec (addr addr_end : Z) (count : nat) :
  ∀ start acc tc,
    all_picked acc tc →
    all_picked (pick_pages count start addr addr_end acc tc).1
               (pick_pages count start addr addr_end acc tc).2
    ∧ same_except_picked tc (pick_pages count start addr addr_end acc tc).2.
Proof.
  induction count as [| count IH]; intros start acc tc Hacc; cbn.
  - split; [assumption | apply same_except_picked_refl].
  - destruct (registry tc !! start) as [bucket |]; [| by apply IH].
    destruct (pick_bucket_spec addr addr_end bucket acc tc Hacc) as [Hinv Hsame].
    destruct (pick_bucket bucket addr addr_end acc tc) as [acc1 tc1]; cbn in *.
    destruct (IH (u64 (start + 1)) acc1 tc1 Hinv) as [Hinv2 Hsame2].
    split; [assumption | eapply same_except_picked_trans; eauto].
Qed.

Lemma unpick_all_same (ids : list nat) :
  ∀ tc, same_except_picked tc (unpick_all ids tc).
Proof.
  unfold unpick_all.
  induction ids as [| id ids IH]; intros tc; cbn.
  - apply same_except_picked_refl.
  - eapply same_except_picked_trans; [apply update_picked_same | apply IH].
Qed.

Lemma GetSurfacesInRegion_spec (addr size : Z) (tc : TextureCache.t) :
  NoDup (GetSurfacesInRegion addr size tc).1
  ∧ same_except_picked tc (GetSurfacesInRegion addr size tc).2.
Proof.
  unfold GetSurfacesInRegion.
  destruct (size =? 0); cbn.
  - split; [apply NoDup_nil_2 | apply same_except_picked_refl].
  - match goal with
    | |- context [pick_pages ?c ?s ?a ?e [] tc] =>
        destruct (pick_pages_spec a e c s [] tc) as [[Hnodup _] Hsame];
          [split; [apply NoDup_nil_2 | intros ? Hin; by apply elem_of_nil in Hin] |];
          destruct (pick_pages c s a e [] tc) as [found tc1]
    end.
    cbn in *. split; [assumption |].
    eapply same_except_picked_trans; [exact Hsame | apply unpick_all_same].
Qed.

(** *** Flushing *)

Lemma FlushSurface_unmodified (id : nat) (tc : TextureCache.t) :
  IsModified tc id = false → FlushSurface id tc = tc.
Proof.
  unfold IsModified, FlushSurface.
  destruct (surfaces tc !! id) as [s |]; [| reflexivity].
  by intros ->.
Qed.

Lemma FlushSurface_modified (id : nat) (tc : TextureCache.t) :
  IsModified tc id = true →
  downloads (events (FlushSurface id tc)) = downloads (events tc) ++ [id]
  ∧ IsModified (FlushSurface id tc) id = false
  ∧ ∀ c, c ≠ id → IsModified (FlushSurface id tc) c = IsModified tc c.
Proof.
  unfold IsModified, FlushSurface.
  destruct (surfaces tc !! id) as [s |] eqn:Hs; [| discriminate].
  intros ->. cbn. split; [| split].
  - unfold downloads. rewrite <- (assoc_L (++)), omap_app. reflexivity.
  - rewrite lookup_alter. case_decide; [| congruence]. by rewrite Hs.
  - intros c Hc. rewrite lookup_alter. case_decide; [congruence | reflexivity].
Qed.

(** Flushing a list without repetition downloads its modified surfaces, in
    the order of the list. *)
Lemma flush_all_downloads (l : list nat) :
  ∀ tc, NoDup l →
        downloads (events (foldl (λ tc id, FlushSurface id tc) tc l))
        = downloads (events tc) ++ List.filter (IsModified tc) l.
Proof.
  induction l as [| id l IH]; intros tc Hnodup; cbn.
  - by rewrite app_nil_r.
  - apply NoDup_cons in Hnodup as [Hnotin Hnodup].
    rewrite IH by assumption.
    destruct (IsModified tc id) eqn:Hmod.
    + destruct (FlushSurface_modified id tc Hmod) as (Hd & _ & Hother).
      rewrite Hd, <- (assoc_L (++)). cbn. do 2 f_equal.
      apply List.filter_ext_in. intros c Hc. apply Hother.
      intros ->. apply Hnotin. by apply list_elem_of_In.
    + by rewrite FlushSurface_unmodified.
Qed.





(** *** Insertion sort meets the guarantee *)

Lemma insert_by_permutation (lt : nat → nat → bool) (x : nat) (l : list nat) :
  Permutation (insert_by lt x l) (x :: l).
Proof.
  induction l as [| y l IH]; cbn; [reflexivity |].
  destruct (lt x y); [reflexivity |].
  rewrite IH. apply perm_swap.
Qed.

Lemma insert_by_sorted (key : nat → Z) (x : nat) (l : list nat) :
  StronglySorted (λ a b, (key b <? key a) = false) l →
  StronglySorted (λ a b, (key b <? key a) = false)
    (insert_by (λ a b, key a <? key b) x l).
Proof.
  induction l as [| y l IH]; cbn; intros Hsorted.
  - repeat constructor.
  - apply StronglySorted_inv in Hsorted as [Hsorted Hall].
    destruct (Z.ltb_spec (key x) (key y)) as [Hlt | Hge].
    + constructor; [by constructor |].
      constructor; [apply Z.ltb_ge; lia |].
      rewrite List.Forall_forall in Hall |- *.
      intros z Hz. specialize (Hall z Hz).
      apply Z.ltb_ge in Hall. apply Z.ltb_ge. lia.
    + constructor; [by apply IH |].
      rewrite List.Forall_forall in Hall |- *.
      intros z Hz.
      apply (Permutation_in z (insert_by_permutation _ x l)) in Hz.
      destruct Hz as [<- | Hz]; [apply Z.ltb_ge; lia | by apply Hall].
Qed.

Lemma insertion_sort_sorts : sorts insertion_sort.
Proof.
  intros key l. unfold insertion_sort.
  induction l as [| x l [IHperm IHsorted]]; cbn.
  - split; [reflexivity | constructor].
  - split; [by rewrite insert_by_permutation, IHperm | by apply insert_by_sorted].
Qed.

End TextureCacheFacts.

Section TextureCacheLookup.
Import Machine TextureCache.
Context `{MemoryManager.Layout} `{Collaborators}.

Lemma SurfaceTarget_eqb_refl (a : SurfaceTarget) : SurfaceTarget_eqb a a = true.
Proof. by destruct a. Qed.

(** C1: a surface that has just been registered is found by [GetSurface]
    through the L1 map when the candidate has the surface's own descriptor:
    the call returns that surface with its main view and leaves the cache as
    it is, so nothing is allocated, rebuilt or registered.  The comparisons
    of surface_base.h are taken to accept a surface's own descriptor in
    full. *)
Theorem GetSurface_hits_registered_surface
  (gpu_memory : MemoryManager.t) (tc : TextureCache.t) (id : nat) (s : Surface)
  (cpu_address : Z) (preserve_contents is_render : bool) :
  (∀ x, MatchesTopology x (params x) = TopologyFullMatch) →
  (∀ x, MatchesStructure x (params x) = StructureFullMatch) →
  surfaces tc !! id = Some s →
  MemoryManager.GpuToCpuAddress gpu_memory (gpu_addr s) = Some cpu_address →
  l1_cache (Register gpu_memory id tc) !! cpu_address = Some id
  ∧ GetSurface (gpu_addr s) cpu_address (params s) preserve_contents is_render
      (Register gpu_memory id tc)
    = Some ((id, MainView id), Register gpu_memory id tc).
Proof.
  intros Htopology Hstructure Hs Hcpu.
  unfold Register. rewrite Hs, Hcpu.
  unfold RegisterInnerCache. cbn.
  rewrite lookup_alter. case_decide; [| congruence]. rewrite Hs. cbn.
  rewrite lookup_insert_eq. split; [reflexivity |].
  unfold GetSurface. cbn.
  rewrite lookup_insert_eq, lookup_alter. case_decide; [| congruence].
  rewrite Hs. cbn.
  pose proof (Htopology (mark_registered cpu_address s)) as Ht.
  pose proof (Hstructure (mark_registered cpu_address s)) as Hst.
  cbn in Ht, Hst. rewrite Ht. cbn. rewrite Hst. cbn.
  unfold MatchTarget; cbn. rewrite SurfaceTarget_eqb_refl, orb_true_r.
  unfold ManageStructuralMatch, MatchFormat, MatchTarget; cbn.
  rewrite Z.eqb_refl, SurfaceTarget_eqb_refl. reflexivity.
Qed.

End TextureCacheLookup.

Section TextureCacheScenarios.
Import Machine TextureCache Scenarios.

Lemma GetSurface_hits_the_colour_surface :
  l1_cache (Register (H := gpu_64k) one_mapping 0%nat one_surface) !! 4096 = Some 0%nat
  ∧ GetSurface (H := strict_matchers) (gpu_addr (new_surface 65536 false 0)) 4096
      (params (new_surface 65536 false 0)) true false
      (Register (H := gpu_64k) one_mapping 0%nat one_surface)
    = Some ((0%nat, MainView 0), Register (H := gpu_64k) one_mapping 0%nat one_surface).
Proof.
  apply (GetSurface_hits_registered_surface (H := gpu_64k) (H0 := strict_matchers)
           one_mapping one_surface 0%nat (new_surface 65536 false 0) 4096 true false).
  - intros x. cbn. by rewrite eqb_reflx.
  - intros x. cbn. by rewrite !Z.eqb_refl.
  - reflexivity.
  - reflexivity.
Defined.


(** The three surfaces, evaluated: all overlap the region, the second
    (tick 3) is downloaded before the first (tick 5), the unmodified third is
    not downloaded. *)
Example FlushRegion_of_three_surfaces_runs :
  (GetSurfacesInRegion 4096 100 three_surfaces).1 = [0; 1; 2]%nat
  ∧ downloads (events (FlushRegion insertion_sort 4096 100 three_surfaces))
    = [1; 0]%nat.
Proof. split; vm_compute; reflexivity. Qed.

End TextureCacheScenarios.

(** * Further properties of the embedded code *)

(** ** The resource pool: the order of the scan *)

Section ResourcePoolScan.
Import ResourcePool.

(** One scan stops at the first slot of its range that is free. *)
Lemma search_loop_scan (sem : MasterSemaphore) (tks : list Z) (steps : nat) :
  ∀ iterator, (iterator + steps ≤ length tks)%nat →
    match search_loop sem tks iterator steps with
    | Some (Some i, tks') =>
        (iterator ≤ i < iterator + steps)%nat
        ∧ tks' = <[i := CurrentTick sem]> tks
        ∧ (∃ tick, tks !! i = Some tick ∧ IsFree sem tick = true)
        ∧ ∀ j tick, (iterator ≤ j < i)%nat → tks !! j = Some tick →
                    IsFree sem tick = false
    | Some (None, tks') =>
        tks' = tks
        ∧ ∀ j tick, (iterator ≤ j < iterator + steps)%nat → tks !! j = Some tick →
                    IsFree sem tick = false
    | None => False
    end.
Proof.
  induction steps as [| steps IH]; intros iterator Hrange; cbn.
  - split; [reflexivity |]. intros; lia.
  - destruct (lookup_lt_is_Some_2 tks iterator) as [tick Htick]; [lia |].
    rewrite Htick.
    destruct (IsFree sem tick) eqn:Hfree.
    + split; [lia |]. split; [reflexivity |]. split; [eauto |]. intros; lia.
    + specialize (IH (S iterator) ltac:(lia)).
      destruct (search_loop sem tks (S iterator) steps) as [[[i |] tks'] |];
        [| | contradiction].
      * destruct IH as (Hi & Htks & Hfound & Hbefore).
        split; [lia |]. split; [assumption |]. split; [assumption |].
        intros j t Hj Hjt.
        destruct (decide (j = iterator)) as [-> |]; [congruence |].
        apply (Hbefore j t); [lia | assumption].
      * destruct IH as (Htks & Hnone). split; [assumption |].
        intros j t Hj Hjt.
        destruct (decide (j = iterator)) as [-> |]; [congruence |].
        apply (Hnone j t); [lia | assumption].
Qed.

(** When [CommitResource] reuses a slot, it is the first free one in the
    cyclic order that starts at the hint: every slot the scan passed before
    it carries a tick the GPU has not reached. *)
Theorem CommitResource_takes_first_free
  (counter : Z) (sem sem' : MasterSemaphore) (pool pool' : ResourcePool.t) (i : nat) :
  (free_iterator pool ≤ length (ticks pool))%nat →
  CommitResource counter sem pool = Some (i, sem', pool') →
  (i < length (ticks pool))%nat →
  ∀ j tick,
    ticks pool !! j = Some tick →
    (free_iterator pool ≤ j < i)%nat
    ∨ (i < free_iterator pool)%nat ∧ ((free_iterator pool ≤ j)%nat ∨ (j < i)%nat) →
    counter < tick.
Proof.
  intros Hhint Hcommit Hreuse j tick Hj Hbefore.
  assert (Hbusy : IsFree (Refresh counter sem) tick = false → counter < tick).
  { unfold IsFree; cbn. intros Hb. apply Z.leb_gt in Hb. lia. }
  pose proof (lookup_lt_Some _ _ _ Hj) as Hjlt.
  unfold CommitResource, search in Hcommit.
  pose proof (search_loop_scan (Refresh counter sem) (ticks pool)
                (length (ticks pool) - free_iterator pool) (free_iterator pool)
                ltac:(lia)) as Hfirst.
  destruct (search_loop _ _ (free_iterator pool) _) as [[[i1 |] tks1] |];
    [| | contradiction]; cbn in Hcommit.
  - destruct Hfirst as (Hi1 & -> & _ & Hpassed).
    cbn in Hcommit. rewrite length_insert in Hcommit.
    destruct (decide (length (ticks pool) = 0%nat)); [discriminate |].
    injection Hcommit as <- _ _.
    apply Hbusy. destruct Hbefore as [Hb | [Hb _]]; [| lia].
    by apply (Hpassed j tick).
  - destruct Hfirst as (-> & Hnone1).
    pose proof (search_loop_scan (Refresh counter sem) (ticks pool)
                  (free_iterator pool - 0) 0%nat ltac:(lia)) as Hsecond.
    destruct (search_loop _ _ 0%nat _) as [[[i2 |] tks2] |];
      [| | contradiction]; cbn in Hcommit.
    + destruct Hsecond as (Hi2 & -> & _ & Hpassed).
      cbn in Hcommit. rewrite length_insert in Hcommit.
      destruct (decide (length (ticks pool) = 0%nat)); [discriminate |].
      injection Hcommit as <- _ _.
      apply Hbusy. destruct Hbefore as [Hb | [_ [Hb | Hb]]]; [lia | |].
      * apply (Hnone1 j tick); [lia | assumption].
      * apply (Hpassed j tick); [lia | assumption].
    + destruct Hsecond as (-> & Hnone2).
      rewrite length_app, length_replicate in Hcommit.
      destruct (decide (length (ticks pool) < length (ticks pool) + grow_step pool)%nat);
        [| discriminate].
      cbn in Hcommit.
      destruct (decide _) in Hcommit; [discriminate |].
      injection Hcommit as <- _ _. lia.
Qed.

Lemma CommitResource_takes_first_free_wraps :
  ticks wrapping_pool !! 3%nat = Some 9 ∧ 8 < 9.
Proof.
  split; [reflexivity |].
  apply (CommitResource_takes_first_free 8 {| gpu_tick := 0; current_tick := 9 |}
           {| gpu_tick := 8; current_tick := 9 |} wrapping_pool
           {| grow_step := 2; free_iterator := 1; ticks := [9; 9; 9; 9];
              allocate_calls := [] |} 0
           ltac:(cbn; lia) ltac:(vm_compute; reflexivity) ltac:(cbn; lia)
           3%nat 9 ltac:(reflexivity)).
  right. cbn. lia.
Defined.

End ResourcePoolScan.

(** ** The scheduler's chunks: the arena is never overrun *)

Section SchedulerArena.
Import Machine VKScheduler.

(** A command is placed only where it fits: after a successful
    [CommandChunk::Record] the object lies within the arena, the fill level
    is still the total size of the commands, and the chunk is not empty;
    a refused command leaves the chunk as it was. *)
Theorem CommandChunk_Record_stays_in_arena (command : Command) (c : CommandChunk) :
  0 < sizeof_FuncType command < sizeof_data →
  arena_ok c →
  match CommandChunk_Record command c with
  | (true, c') =>
      command_offset c + sizeof_FuncType command ≤ sizeof_data
      ∧ command_offset c' = command_offset c + sizeof_FuncType command
      ∧ arena_ok c' ∧ Empty c' = false
  | (false, c') =>
      c' = c ∧ sizeof_data < command_offset c + sizeof_FuncType command
  end.
Proof.
  intros Hsize (Hsum & Hrange). unfold CommandChunk_Record, u64.
  unfold sizeof_data in *.
  rewrite Z.mod_small by lia.
  destruct (Z.ltb_spec (32768 - sizeof_FuncType command) (command_offset c)).
  - split; [reflexivity | lia].
  - cbn. split; [lia |]. split; [reflexivity |]. split.
    + unfold arena_ok, sizeof_data. split; cbn; [| lia].
      rewrite Hsum. clear. induction (commands c) as [| x l IH]; cbn; [lia |].
      rewrite <- IH. lia.
    + unfold Empty; cbn. apply Z.eqb_neq. lia.
Qed.

Lemma CommandChunk_Record_refuses_when_full :
  match CommandChunk_Record {| sizeof_FuncType := 24; closure := 2 |}
          (chunk nearly_full) with
  | (true, c') =>
      command_offset (chunk nearly_full) + 24 ≤ sizeof_data
      ∧ command_offset c' = command_offset (chunk nearly_full) + 24
      ∧ arena_ok c' ∧ Empty c' = false
  | (false, c') =>
      c' = chunk nearly_full
      ∧ sizeof_data < command_offset (chunk nearly_full) + 24
  end.
Proof.
  apply (CommandChunk_Record_stays_in_arena
           {| sizeof_FuncType := 24; closure := 2 |} (chunk nearly_full)).
  - unfold sizeof_data; cbn; lia.
  - unfold arena_ok, sizeof_data; cbn; lia.
Defined.

End SchedulerArena.

(** ** The 2D blit engine: clipping in general *)

Section Fermi2DClipping.
Import Machine Fermi2D.

Lemma u32_small (x : Z) : 0 ≤ x < 2 ^ 32 → u32 x = x.
Proof. intros. unfold u32. apply Z.mod_small. lia. Qed.

Lemma s32_small (x : Z) : - 2 ^ 31 ≤ x < 2 ^ 31 → s32 x = x.
Proof.
  intros Hx. unfold s32, u32.
  destruct (Z_lt_le_dec x 0) as [Hneg | Hpos].
  - assert (Hmod : x mod 2 ^ 32 = x + 2 ^ 32).
    { symmetry. apply (Z.mod_unique _ _ (-1)); lia. }
    rewrite Hmod. destruct (Z.ltb_spec (x + 2 ^ 32) (2 ^ 31)); lia.
  - rewrite Z.mod_small by lia. destruct (Z.ltb_spec x (2 ^ 31)); lia.
Qed.

(** [DelimitLine] in range: the excess is what the source line exceeds the
    surface by, and the destination length is scaled down, never up. *)
Lemma DelimitLine_in_range (src_1 src_2 dst_1 dst_2 src_line : Z) :
  0 ≤ src_1 < src_2 → src_2 < 2 ^ 31 →
  0 ≤ dst_1 ≤ dst_2 → dst_2 < 2 ^ 31 →
  src_1 ≤ src_line < 2 ^ 31 →
  (src_2 - src_1) * (dst_2 - dst_1) < 2 ^ 32 →
  ∃ w e, DelimitLine src_1 src_2 dst_1 dst_2 src_line = Some (w, e)
    ∧ e = Z.max 0 (src_2 - src_line)
    ∧ src_2 - e = Z.min src_2 src_line
    ∧ 0 ≤ w ≤ dst_2 - dst_1
    ∧ (src_1 < src_line → 0 < dst_2 - dst_1 → 0 < w)
    ∧ (src_1 = src_line → w = 0).
Proof.
  intros Hs Hs2 Hd Hd2 Hline Hprod. unfold DelimitLine.
  rewrite (u32_small (src_2 - src_1)) by lia.
  rewrite (u32_small (dst_2 - dst_1)) by lia.
  replace (src_2 - src_1 - src_line + src_1) with (src_2 - src_line) by lia.
  rewrite s32_small by lia.
  set (e := Z.max 0 (src_2 - src_line)).
  set (la := src_2 - src_1). set (lb := dst_2 - dst_1).
  assert (He : 0 ≤ e ≤ la) by (unfold e, la; lia).
  assert (Hla : 0 < la) by (unfold la; lia).
  assert (Hlb : 0 ≤ lb) by (unfold lb; lia).
  rewrite (u32_small e) by lia.
  assert (Hmul : 0 ≤ e * lb < 2 ^ 32) by nia.
  rewrite (u32_small (e * lb)) by exact Hmul.
  assert (Hq0 : 0 ≤ e * lb / la) by (apply Z.div_pos; lia).
  assert (Hq1 : e * lb / la ≤ lb) by (apply Z.div_le_upper_bound; nia).
  rewrite (u32_small (lb - e * lb / la)) by lia.
  destruct (Z.eqb_spec la 0) as [Hz | _]; [lia |].
  eexists _, _. split; [reflexivity |].
  split; [reflexivity |]. split; [unfold e; lia |]. split; [lia |]. split.
  - intros Hin Hpos.
    assert (e * lb / la < lb); [| lia].
    apply Z.div_lt_upper_bound; [lia |]. unfold e, la in *. nia.
  - intros Heq.
    assert (e = la) as -> by (unfold e, la; lia).
    rewrite (Z.mul_comm la lb), Z.div_mul by lia. lia.
Qed.

(** The two passes over one axis, as [HandleSurfaceCopy] chains them. *)
Lemma two_passes_in_range (s1 s2 d1 len s_line d_line : Z) :
  axis_in_range s1 s2 d1 len s_line d_line → s1 < s_line →
  ∃ w1 e1 w2 e2,
    DelimitLine s1 s2 d1 (u32 (d1 + len)) s_line = Some (w1, e1)
    ∧ DelimitLine d1 (u32 (w1 + d1)) s1 (u32 (s2 - e1)) d_line = Some (w2, e2)
    ∧ s1 ≤ u32 (w2 + s1) ≤ Z.min s2 s_line
    ∧ d1 ≤ u32 (u32 (w1 + d1) - e2) ≤ Z.min (d1 + len) d_line.
Proof.
  intros (Hs & Hs2 & Hsl & Hd & Hlen & Hd2 & Hdl & Hprod) Hin.
  rewrite (u32_small (d1 + len)) by lia.
  assert (Hp1 : (s2 - s1) * (d1 + len - d1) < 2 ^ 32).
  { replace (d1 + len - d1) with len by lia. exact Hprod. }
  destruct (DelimitLine_in_range s1 s2 d1 (d1 + len) s_line
              ltac:(lia) ltac:(lia) ltac:(lia) ltac:(lia) ltac:(lia) Hp1)
    as (w1 & e1 & -> & He1 & Hmin1 & Hw1 & Hpos1 & _).
  specialize (Hpos1 Hin ltac:(lia)).
  exists w1, e1.
  rewrite (u32_small (w1 + d1)) by lia.
  rewrite (u32_small (s2 - e1)) by lia.
  assert (Hp2 : (w1 + d1 - d1) * (s2 - e1 - s1) < 2 ^ 32) by nia.
  destruct (DelimitLine_in_range d1 (w1 + d1) s1 (s2 - e1) d_line
              ltac:(lia) ltac:(lia) ltac:(lia) ltac:(lia) ltac:(lia) Hp2)
    as (w2 & e2 & -> & He2 & Hmin2 & Hw2 & _ & _).
  exists w2, e2. split; [reflexivity |]. split; [reflexivity |].
  rewrite (u32_small (w2 + s1)) by lia.
  rewrite (u32_small (w1 + d1 - e2)) by lia.
  lia.
Qed.

(** A source line that starts at the edge of its surface leaves nothing of
    the destination line, and the second pass divides by that zero length. *)
Lemma second_pass_divides_by_zero (s1 s2 d1 len d_line : Z) :
  axis_in_range s1 s2 d1 len s1 d_line →
  ∃ w1 e1,
    DelimitLine s1 s2 d1 (u32 (d1 + len)) s1 = Some (w1, e1)
    ∧ DelimitLine d1 (u32 (w1 + d1)) s1 (u32 (s2 - e1)) d_line = None.
Proof.
  intros (Hs & Hs2 & Hsl & Hd & Hlen & Hd2 & Hdl & Hprod).
  rewrite (u32_small (d1 + len)) by lia.
  assert (Hp1 : (s2 - s1) * (d1 + len - d1) < 2 ^ 32).
  { replace (d1 + len - d1) with len by lia. exact Hprod. }
  destruct (DelimitLine_in_range s1 s2 d1 (d1 + len) s1
              ltac:(lia) ltac:(lia) ltac:(lia) ltac:(lia) ltac:(lia) Hp1)
    as (w1 & e1 & -> & He1 & Hmin1 & Hw1 & _ & Hzero).
  rewrite (Hzero eq_refl).
  exists 0, e1. split; [reflexivity |].
  unfold DelimitLine.
  rewrite (u32_small (0 + d1)) by lia.
  replace (0 + d1 - d1) with 0 by lia. reflexivity.
Qed.

(** A blit in range on both axes, whose source rectangle starts strictly
    inside the source surface, reaches the rasterizer, and with rectangles
    that lie within both surfaces and within the rectangles asked for. *)
Theorem HandleSurfaceCopy_stays_within_surfaces (regs : Regs) :
  operation regs = SrcCopy →
  axis_in_range (src_blit_x1 regs) (src_blit_x2 regs) (blit_dst_x regs)
    (blit_dst_width regs) (width (src regs)) (width (dst regs)) →
  axis_in_range (src_blit_y1 regs) (src_blit_y2 regs) (blit_dst_y regs)
    (blit_dst_height regs) (height (src regs)) (height (dst regs)) →
  src_blit_x1 regs < width (src regs) →
  src_blit_y1 regs < height (src regs) →
  ∃ cfg, HandleSurfaceCopy regs = Some cfg
    ∧ left (src_rect cfg) = src_blit_x1 regs
    ∧ top (src_rect cfg) = src_blit_y1 regs
    ∧ left (dst_rect cfg) = blit_dst_x regs
    ∧ top (dst_rect cfg) = blit_dst_y regs
    ∧ left (src_rect cfg) ≤ right (src_rect cfg)
        ≤ Z.min (src_blit_x2 regs) (width (src regs))
    ∧ top (src_rect cfg) ≤ bottom (src_rect cfg)
        ≤ Z.min (src_blit_y2 regs) (height (src regs))
    ∧ left (dst_rect cfg) ≤ right (dst_rect cfg)
        ≤ Z.min (blit_dst_x regs + blit_dst_width regs) (width (dst regs))
    ∧ top (dst_rect cfg) ≤ bottom (dst_rect cfg)
        ≤ Z.min (blit_dst_y regs + blit_dst_height regs) (height (dst regs)).
Proof.
  intros Hop Hx Hy Hxin Hyin.
  destruct (two_passes_in_range _ _ _ _ _ _ Hx Hxin)
    as (w1 & e1 & w2 & e2 & Hx1 & Hx2 & Hsx & Hdx).
  destruct (two_passes_in_range _ _ _ _ _ _ Hy Hyin)
    as (h1 & f1 & h2 & f2 & Hy1 & Hy2 & Hsy & Hdy).
  unfold HandleSurfaceCopy. rewrite Hop. cbn [Operation_eqb negb].
  unfold src_blit_x1, src_blit_x2, src_blit_y1, src_blit_y2 in *.
  destruct (blit_control_origin regs);
    rewrite Hx1; cbn [mbind option_bind]; rewrite Hy1; cbn [mbind option_bind];
    rewrite Hx2; cbn [mbind option_bind]; rewrite Hy2; cbn [mbind option_bind];
    (eexists; split; [reflexivity |]); cbn;
    repeat (split; [first [reflexivity | lia] |]); lia.
Qed.

Lemma HandleSurfaceCopy_cuts_both_rectangles :
  ∃ cfg, HandleSurfaceCopy cut_regs = Some cfg
    ∧ left (src_rect cfg) = src_blit_x1 cut_regs
    ∧ top (src_rect cfg) = src_blit_y1 cut_regs
    ∧ left (dst_rect cfg) = blit_dst_x cut_regs
    ∧ top (dst_rect cfg) = blit_dst_y cut_regs
    ∧ left (src_rect cfg) ≤ right (src_rect cfg)
        ≤ Z.min (src_blit_x2 cut_regs) (width (src cut_regs))
    ∧ top (src_rect cfg) ≤ bottom (src_rect cfg)
        ≤ Z.min (src_blit_y2 cut_regs) (height (src cut_regs))
    ∧ left (dst_rect cfg) ≤ right (dst_rect cfg)
        ≤ Z.min (blit_dst_x cut_regs + blit_dst_width cut_regs) (width (dst cut_regs))
    ∧ top (dst_rect cfg) ≤ bottom (dst_rect cfg)
        ≤ Z.min (blit_dst_y cut_regs + blit_dst_height cut_regs)
            (height (dst cut_regs)).
Proof.
  apply (HandleSurfaceCopy_stays_within_surfaces cut_regs).
  - reflexivity.
  - vm_compute. repeat split; congruence.
  - vm_compute. repeat split; congruence.
  - vm_compute. reflexivity.
  - vm_compute. reflexivity.
Defined.

(** A blit whose source rectangle starts exactly at the right edge of the
    source surface never reaches the rasterizer: clipping against the
    source leaves a destination line of length zero, and the pass that
    clips against the destination divides by it. *)
Theorem HandleSurfaceCopy_divides_by_zero_at_the_edge (regs : Regs) :
  axis_in_range (src_blit_x1 regs) (src_blit_x2 regs) (blit_dst_x regs)
    (blit_dst_width regs) (width (src regs)) (width (dst regs)) →
  width (src regs) = src_blit_x1 regs →
  HandleSurfaceCopy regs = None.
Proof.
  intros Hx Hedge. rewrite Hedge in Hx.
  destruct (second_pass_divides_by_zero _ _ _ _ _ Hx) as (w1 & e1 & Hx1 & Hx2).
  unfold HandleSurfaceCopy.
  destruct (negb _); [reflexivity |].
  rewrite Hedge.
  unfold src_blit_x1, src_blit_x2 in *.
  destruct (blit_control_origin regs);
    rewrite Hx1; cbn [mbind option_bind];
    (destruct (DelimitLine _ _ (blit_dst_y regs) _ _) as [[h1 f1] |];
       [| reflexivity]); cbn [mbind option_bind];
    rewrite Hx2; reflexivity.
Qed.

Lemma HandleSurfaceCopy_divides_by_zero_scenario :
  HandleSurfaceCopy edge_regs = None.
Proof.
  apply (HandleSurfaceCopy_divides_by_zero_at_the_edge edge_regs).
  - vm_compute. repeat split; congruence.
  - vm_compute. reflexivity.
Defined.

End Fermi2DClipping.

(** ** The GPU memory manager: ranges *)

Section MemoryManagerRanges.
Import Machine MemoryManager.
Context `{Layout}.
Hypothesis page_bits_range : 0 ≤ page_bits < 64.

(** The loop of [UpdateRange] leaves the entries above the last page of
    the range as they were. *)
Lemma UpdateRange_loop_above (gpu_addr : Z) (e : PageEntry) (size : Z) (fuel : nat) :
  ∀ offset remaining m m',
    0 ≤ gpu_addr → gpu_addr + size ≤ 2 ^ 64 → size + page_size ≤ 2 ^ 64 →
    0 ≤ offset →
    UpdateRange_loop fuel gpu_addr e size offset remaining m = Some m' →
    ∀ idx, PageEntryIndex (gpu_addr + size - 1) < idx →
           page_table m' !! idx = page_table m !! idx.
Proof.
  pose proof (page_size_pos page_bits_range) as Hps.
  induction fuel as [| fuel IH]; intros offset remaining m m' Hg Hgs Hsz Ho; cbn.
  - destruct (offset <? size); [discriminate |]. by intros [= <-].
  - destruct (Z.ltb_spec offset size) as [Hlt |]; [| by intros [= <-]].
    rewrite (u64_small (offset + page_size)) by lia.
    rewrite (u64_small (gpu_addr + offset)) by lia.
    intros Hloop idx Hidx.
    assert (Hnext : 0 ≤ offset + page_size) by lia.
    rewrite (IH _ _ _ _ Hg Hgs Hsz Hnext Hloop idx Hidx).
    assert (PageEntryIndex (gpu_addr + offset) ≤ PageEntryIndex (gpu_addr + size - 1)).
    { rewrite !(PageEntryIndex_div page_bits_range). apply Z.div_le_mono; lia. }
    destruct (remaining <? page_size); cbn; rewrite lookup_insert_ne; auto; lia.
Qed.

(** The entries outside the range of [UpdateRange] are what they were. *)
Lemma UpdateRange_frame
  (m m' : MemoryManager.t) (e : PageEntry) (gpu_addr size r a : Z) :
  0 ≤ gpu_addr → gpu_addr + size ≤ 2 ^ 64 → size + page_size ≤ 2 ^ 64 →
  UpdateRange gpu_addr e size m = Some (r, m') →
  PageEntryIndex a < PageEntryIndex gpu_addr
  ∨ PageEntryIndex (gpu_addr + size - 1) < PageEntryIndex a →
  r = gpu_addr ∧ GetPageEntry m' a = GetPageEntry m a.
Proof.
  intros Hg Hgs Hsz Hupdate Hout. unfold UpdateRange in Hupdate.
  destruct (UpdateRange_loop _ _ _ _ _ _ _) as [m2 |] eqn:Hloop; [| discriminate].
  cbn in Hupdate. injection Hupdate as <- <-.
  split; [reflexivity |].
  unfold GetPageEntry. f_equal. destruct Hout as [Hbelow | Habove].
  - destruct (UpdateRange_loop_below page_bits_range gpu_addr e size (Z.to_nat size)
                0 size m) as (m3 & Hm3 & Hkeeps); try lia.
    rewrite Hloop in Hm3. injection Hm3 as <-.
    apply Hkeeps. by rewrite Z.add_0_r.
  - by apply (UpdateRange_loop_above gpu_addr e size (Z.to_nat size) 0 size m m2).
Qed.

(** [Map] touches the pages of its range only: an address on a page before
    the first or after the last page of the range translates as it did. *)
Theorem Map_touches_only_its_range
  (m m' : MemoryManager.t) (cpu_addr gpu_addr size r a : Z) :
  0 ≤ gpu_addr → gpu_addr + size ≤ 2 ^ 64 → size + page_size ≤ 2 ^ 64 →
  Map cpu_addr gpu_addr size m = Some (r, m') →
  PageEntryIndex a < PageEntryIndex gpu_addr
  ∨ PageEntryIndex (gpu_addr + size - 1) < PageEntryIndex a →
  r = gpu_addr
  ∧ GetPageEntry m' a = GetPageEntry m a
  ∧ GpuToCpuAddress m' a = GpuToCpuAddress m a.
Proof.
  intros Hg Hgs Hsz Hmap Hout.
  destruct (UpdateRange_frame m m' (Valid cpu_addr) gpu_addr size r a
              Hg Hgs Hsz Hmap Hout) as [-> Hsame].
  split; [reflexivity |]. split; [exact Hsame |].
  unfold GpuToCpuAddress. by rewrite Hsame.
Qed.

(** Two addresses of one page, seen from a page-aligned base. *)
Lemma page_of_offset (gpu_addr k : Z) :
  0 ≤ gpu_addr → gpu_addr mod page_size = 0 → 0 ≤ k →
  PageEntryIndex (gpu_addr + k) = PageEntryIndex (gpu_addr + page_size * (k / page_size)).
Proof.
  intros Hg Hal Hk.
  pose proof (page_size_pos page_bits_range) as Hps.
  rewrite !(PageEntryIndex_div page_bits_range).
  apply Z.mod_divide in Hal; [| lia]. destruct Hal as [G ->].
  rewrite !Z.div_add_l by lia. f_equal.
  rewrite (Z.mul_comm page_size), Z.div_mul by lia. reflexivity.
Qed.

(** The check loop of [AllocateFixed] ends, and says whether every page it
    looked at is unmapped. *)
Lemma AllocateFixed_loop_spec (gpu_addr size : Z) (m : MemoryManager.t) (fuel : nat) :
  ∀ offset,
    0 ≤ gpu_addr → gpu_addr + size ≤ 2 ^ 64 → size + page_size ≤ 2 ^ 64 →
    0 ≤ offset →
    (Z.to_nat (size - offset) ≤ fuel)%nat →
    ∃ free, AllocateFixed_loop fuel gpu_addr size offset m = Some free
      ∧ (free = true ↔
         ∀ j, 0 ≤ j → offset + page_size * j < size →
              IsUnmapped (GetPageEntry m (gpu_addr + (offset + page_size * j))) = true).
Proof.
  pose proof (page_size_pos page_bits_range) as Hps.
  induction fuel as [| fuel IH]; intros offset Hg Hgs Hsz Ho Hfuel; cbn.
  - destruct (Z.ltb_spec offset size); [lia |].
    exists true. split; [reflexivity |]. split; [| reflexivity]. intros _ j Hj Hlt. nia.
  - destruct (Z.ltb_spec offset size) as [Hlt |].
    2:{ exists true. split; [reflexivity |]. split; [| reflexivity]. intros _ j Hj ?. nia. }
    rewrite (u64_small (offset + page_size)) by lia.
    rewrite (u64_small (gpu_addr + offset)) by lia.
    destruct (IsUnmapped (GetPageEntry m (gpu_addr + offset))) eqn:Hfirst; cbn.
    + assert (Hnext : 0 ≤ offset + page_size) by lia.
      assert (Hfuel' : (Z.to_nat (size - (offset + page_size)) ≤ fuel)%nat) by lia.
      destruct (IH (offset + page_size) Hg Hgs Hsz Hnext Hfuel')
        as (free & -> & Hfree).
      exists free. split; [reflexivity |].
      rewrite Hfree. split.
      * intros Hrest j Hj Hjlt.
        destruct (Z.eq_dec j 0) as [-> | Hnz].
        -- by rewrite Z.mul_0_r, Z.add_0_r.
        -- specialize (Hrest (j - 1) ltac:(lia) ltac:(lia)).
           replace (offset + page_size + page_size * (j - 1))
             with (offset + page_size * j) in Hrest by lia.
           exact Hrest.
      * intros Hall j Hj Hjlt.
        specialize (Hall (j + 1) ltac:(lia) ltac:(lia)).
        replace (offset + page_size * (j + 1))
          with (offset + page_size + page_size * j) in Hall by lia.
        exact Hall.
    + exists false. split; [reflexivity |]. split; [discriminate |].
      intros Hall. specialize (Hall 0 ltac:(lia) ltac:(lia)).
      rewrite Z.mul_0_r, Z.add_0_r in Hall. congruence.
Qed.

(** [AllocateFixed] on a page-aligned range whose pages are all unmapped
    reserves it: every address of the range then finds an [Allocated]
    placeholder, which has no CPU address, and a second [AllocateFixed] of
    the range is refused. *)
Theorem AllocateFixed_reserves_free_range (m : MemoryManager.t) (gpu_addr size : Z) :
  0 ≤ gpu_addr → gpu_addr + size ≤ 2 ^ 64 → size + page_size ≤ 2 ^ 64 →
  gpu_addr mod page_size = 0 →
  (∀ k, 0 ≤ k < size → IsUnmapped (GetPageEntry m (gpu_addr + k)) = true) →
  ∃ m', AllocateFixed gpu_addr size m = Some (Some gpu_addr, m')
    ∧ (∀ k, 0 ≤ k < size →
            GetPageEntry m' (gpu_addr + k) = Allocated
            ∧ GpuToCpuAddress m' (gpu_addr + k) = None)
    ∧ (0 < size → AllocateFixed gpu_addr size m' = Some (None, m')).
Proof.
  intros Hg Hgs Hsz Hal Hfree.
  pose proof (page_size_pos page_bits_range) as Hps.
  unfold AllocateFixed.
  destruct (AllocateFixed_loop_spec gpu_addr size m (Z.to_nat size) 0
              Hg Hgs Hsz ltac:(lia) ltac:(lia)) as (free & -> & Hiff).
  assert (free = true) as ->.
  { apply Hiff. intros j Hj Hlt. apply Hfree. nia. }
  cbn [mbind option_bind].
  unfold UpdateRange.
  destruct (UpdateRange_loop_below page_bits_range gpu_addr Allocated size (Z.to_nat size)
              0 size m) as (m' & Hm' & _); try lia.
  rewrite Hm'. cbn. exists m'. split; [reflexivity |].
  assert (Hallocated : ∀ k, 0 ≤ k < size → GetPageEntry m' (gpu_addr + k) = Allocated).
  { intros k Hk.
    rewrite (UpdateRange_loop_inside page_bits_range gpu_addr Allocated size
               (Z.to_nat size) 0 size m m'); try lia; try assumption;
      [reflexivity | apply Z.mod_0_l; lia]. }
  split.
  - intros k Hk. split; [by apply Hallocated |].
    unfold GpuToCpuAddress. by rewrite Hallocated.
  - intros Hpos.
    destruct (AllocateFixed_loop_spec gpu_addr size m' (Z.to_nat size) 0
                Hg Hgs Hsz ltac:(lia) ltac:(lia)) as (free & -> & Hiff').
    destruct free; [| reflexivity].
    destruct Hiff' as [Hall _].
    specialize (Hall eq_refl 0 ltac:(lia) ltac:(lia)).
    replace (gpu_addr + (0 + page_size * 0)) with (gpu_addr + 0) in Hall by lia.
    rewrite (Hallocated 0) in Hall by lia. discriminate.
Qed.

(** [AllocateFixed] refuses a page-aligned range as soon as one page of it
    is mapped or reserved, and then changes nothing. *)
Theorem AllocateFixed_refuses_taken_range (m : MemoryManager.t) (gpu_addr size k : Z) :
  0 ≤ gpu_addr → gpu_addr + size ≤ 2 ^ 64 → size + page_size ≤ 2 ^ 64 →
  gpu_addr mod page_size = 0 →
  0 ≤ k < size →
  IsUnmapped (GetPageEntry m (gpu_addr + k)) = false →
  AllocateFixed gpu_addr size m = Some (None, m).
Proof.
  intros Hg Hgs Hsz Hal Hk Htaken.
  pose proof (page_size_pos page_bits_range) as Hps.
  unfold AllocateFixed.
  destruct (AllocateFixed_loop_spec gpu_addr size m (Z.to_nat size) 0
              Hg Hgs Hsz ltac:(lia) ltac:(lia)) as (free & -> & Hiff).
  destruct free; [| reflexivity].
  destruct Hiff as [Hall _].
  assert (Hq : 0 ≤ k / page_size) by (apply Z.div_pos; lia).
  assert (Hqk : page_size * (k / page_size) ≤ k) by (apply Z.mul_div_le; lia).
  specialize (Hall eq_refl (k / page_size) Hq ltac:(lia)).
  unfold GetPageEntry in *.
  rewrite Z.add_0_l, <- (page_of_offset gpu_addr k) in Hall by lia.
  congruence.
Qed.

Section WithSystem.
Context `{CoreMemory.System}.

(** A completed [Unmap] of a page-aligned range leaves every address of
    the range unmapped and without a CPU address, and the pages outside
    the range as they were. *)
Theorem Unmap_clears_whole_range
  (m m' : MemoryManager.t) (st st' : CoreMemory.State) (gpu_addr size : Z) :
  0 ≤ gpu_addr → gpu_addr + size ≤ 2 ^ 64 → size + page_size ≤ 2 ^ 64 →
  gpu_addr mod page_size = 0 →
  Unmap gpu_addr size m st = inr (m', st') →
  (∀ k, 0 ≤ k < size →
        GetPageEntry m' (gpu_addr + k) = Unmapped
        ∧ GpuToCpuAddress m' (gpu_addr + k) = None)
  ∧ (∀ a, PageEntryIndex a < PageEntryIndex gpu_addr
          ∨ PageEntryIndex (gpu_addr + size - 1) < PageEntryIndex a →
          GetPageEntry m' a = GetPageEntry m a).
Proof.
  intros Hg Hgs Hsz Hal Hunmap.
  pose proof (page_size_pos page_bits_range) as Hps.
  unfold Unmap in Hunmap.
  destruct (Z.eqb_spec size 0) as [-> | Hnz].
  { injection Hunmap as <- _. split; [intros; lia | reflexivity]. }
  destruct (GpuToCpuAddress m gpu_addr); [| discriminate].
  destruct (UpdateRange gpu_addr Unmapped size m) as [[r m2] |] eqn:Hrange;
    [| discriminate].
  injection Hunmap as <- _.
  split.
  - unfold UpdateRange in Hrange.
    destruct (UpdateRange_loop _ _ _ _ _ _ _) as [m3 |] eqn:Hloop; [| discriminate].
    cbn in Hrange. injection Hrange as _ <-.
    assert (Hunmapped : ∀ k, 0 ≤ k < size → GetPageEntry m3 (gpu_addr + k) = Unmapped).
    { intros k Hk.
      rewrite (UpdateRange_loop_inside page_bits_range gpu_addr Unmapped size
                 (Z.to_nat size) 0 size m m3); try lia; try assumption;
        [reflexivity | apply Z.mod_0_l; lia]. }
    intros k Hk. split; [by apply Hunmapped |].
    unfold GpuToCpuAddress. by rewrite Hunmapped.
  - intros a Hout.
    apply (UpdateRange_frame m m2 Unmapped gpu_addr size r a Hg Hgs Hsz Hrange Hout).
Qed.

End WithSystem.
End MemoryManagerRanges.

Section MemoryManagerRangeScenarios.
Import Machine MemoryManager Scenarios.

Lemma Map_of_the_next_page_keeps_the_first :
  131072 = 131072
  ∧ GetPageEntry (H := gpu_64k) two_mappings 65536
    = GetPageEntry (H := gpu_64k) one_mapping 65536
  ∧ GpuToCpuAddress (H := gpu_64k) two_mappings 65536
    = GpuToCpuAddress (H := gpu_64k) one_mapping 65536.
Proof.
  apply (Map_touches_only_its_range (H := gpu_64k) gpu_64k_page_bits
           one_mapping two_mappings 8192 131072 65536 131072 65536).
  - lia.
  - lia.
  - rewrite gpu_64k_page_size. lia.
  - vm_compute. reflexivity.
  - left. vm_compute. reflexivity.
Defined.

Lemma AllocateFixed_reserves_two_pages :
  ∃ m', AllocateFixed (H := gpu_64k) 65536 131072 no_mapping = Some (Some 65536, m')
    ∧ (∀ k, 0 ≤ k < 131072 →
            GetPageEntry (H := gpu_64k) m' (65536 + k) = Allocated
            ∧ GpuToCpuAddress (H := gpu_64k) m' (65536 + k) = None)
    ∧ (0 < 131072 → AllocateFixed (H := gpu_64k) 65536 131072 m' = Some (None, m')).
Proof.
  apply (AllocateFixed_reserves_free_range (H := gpu_64k) gpu_64k_page_bits
           no_mapping 65536 131072).
  - lia.
  - lia.
  - rewrite gpu_64k_page_size. lia.
  - reflexivity.
  - intros k Hk. unfold GetPageEntry, no_mapping. cbn.
    rewrite lookup_empty. reflexivity.
Defined.

Lemma AllocateFixed_refuses_the_mapped_page :
  AllocateFixed (H := gpu_64k) 0 131072 one_mapping = Some (None, one_mapping).
Proof.
  apply (AllocateFixed_refuses_taken_range (H := gpu_64k) gpu_64k_page_bits
           one_mapping 0 131072 65536).
  - lia.
  - lia.
  - rewrite gpu_64k_page_size. lia.
  - reflexivity.
  - lia.
  - vm_compute. reflexivity.
Defined.

Lemma Unmap_clears_the_mapped_page :
  (∀ k, 0 ≤ k < 4096 →
        GetPageEntry (H := gpu_64k) unmapped_again (65536 + k) = Unmapped
        ∧ GpuToCpuAddress (H := gpu_64k) unmapped_again (65536 + k) = None)
  ∧ (∀ a, PageEntryIndex (H := gpu_64k) a < PageEntryIndex (H := gpu_64k) 65536
          ∨ PageEntryIndex (H := gpu_64k) (65536 + 4096 - 1)
            < PageEntryIndex (H := gpu_64k) a →
          GetPageEntry (H := gpu_64k) unmapped_again a
          = GetPageEntry (H := gpu_64k) one_mapping a).
Proof.
  apply (Unmap_clears_whole_range (H := gpu_64k) gpu_64k_page_bits
           one_mapping unmapped_again idle_page idle_page 65536 4096).
  - lia.
  - lia.
  - rewrite gpu_64k_page_size. lia.
  - reflexivity.
  - reflexivity.
Defined.

End MemoryManagerRangeScenarios.

(** ** Guest memory: mapping and unmapping regions *)

Section CoreMemoryRegions.
Import Machine CoreMemory.
Context `{System}.
Hypothesis PAGE_BITS_range : 0 ≤ PAGE_BITS < 64.

Lemma PAGE_SIZE_pow2 : PAGE_SIZE = 2 ^ PAGE_BITS.
Proof. unfold PAGE_SIZE. rewrite Z.shiftl_1_l. reflexivity. Qed.

Lemma PAGE_SIZE_pos : 0 < PAGE_SIZE.
Proof. rewrite PAGE_SIZE_pow2. apply Z.pow_pos_nonneg; lia. Qed.

Lemma shiftr_PAGE_BITS (a : Z) : Z.shiftr a PAGE_BITS = a / PAGE_SIZE.
Proof. rewrite Z.shiftr_div_pow2, PAGE_SIZE_pow2 by lia. reflexivity. Qed.

Lemma shiftl_PAGE_BITS (a : Z) : Z.shiftl a PAGE_BITS = a * PAGE_SIZE.
Proof. rewrite Z.shiftl_mul_pow2, PAGE_SIZE_pow2 by lia. reflexivity. Qed.

Lemma land_PAGE_MASK (a : Z) : Z.land a PAGE_MASK = a mod PAGE_SIZE.
Proof.
  unfold PAGE_MASK. rewrite PAGE_SIZE_pow2.
  replace (2 ^ PAGE_BITS - 1) with (Z.ones PAGE_BITS) by (rewrite Z.ones_equiv; lia).
  apply Z.land_ones; lia.
Qed.

(** The page of an address of a page-aligned region is one of the pages of
    the region. *)
Lemma page_in_region (base size v : Z) :
  base mod PAGE_SIZE = 0 → size mod PAGE_SIZE = 0 →
  base ≤ v < base + size →
  base / PAGE_SIZE ≤ v / PAGE_SIZE < base / PAGE_SIZE + size / PAGE_SIZE.
Proof.
  pose proof PAGE_SIZE_pos as Hps. intros Hbase Hsize Hv.
  apply Z.mod_divide in Hbase; [| lia]. destruct Hbase as [B ->].
  apply Z.mod_divide in Hsize; [| lia]. destruct Hsize as [S ->].
  rewrite !Z.div_mul by lia.
  split.
  - apply Z.div_le_lower_bound; lia.
  - apply Z.div_lt_upper_bound; lia.
Qed.

(** What the loop of [MapPages] without a target leaves in the table. *)
Lemma MapPages_clear_spec (type : PageType) (count : nat) :
  ∀ base pt pt',
    table_size pt < 2 ^ 64 →
    MapPages_clear count base type pt = Some pt' →
    table_size pt' = table_size pt
    ∧ (∀ p, base ≤ p < base + Z.of_nat count →
            in_table pt p = true
            ∧ pointers pt' !! p = Some 0
            ∧ attributes pt' !! p = Some type
            ∧ backing_addr pt' !! p = Some 0)
    ∧ (∀ p, p < base ∨ base + Z.of_nat count ≤ p →
            pointers pt' !! p = pointers pt !! p
            ∧ attributes pt' !! p = attributes pt !! p
            ∧ backing_addr pt' !! p = backing_addr pt !! p).
Proof.
  induction count as [| count IH]; intros base pt pt' Hsize; cbn [MapPages_clear].
  - intros [= <-]. split; [reflexivity |]. split; [intros; lia | auto].
  - destruct (in_table pt base) eqn:Hin; [| discriminate].
    assert (Hbase : 0 ≤ base < table_size pt).
    { unfold in_table in Hin. apply andb_true_iff in Hin as [H1 H2].
      apply Z.leb_le in H1. apply Z.ltb_lt in H2. lia. }
    rewrite (u64_fixed (base + 1)) by lia.
    intros Hrest.
    destruct (IH (base + 1) (set_entry pt base 0 type 0) pt' Hsize Hrest)
      as (Hts & Hinside & Houtside).
    split; [exact Hts |]. split.
    + intros p Hp. destruct (decide (p = base)) as [-> | Hne].
      * destruct (Houtside base ltac:(lia)) as (Hp1 & Hp2 & Hp3).
        rewrite Hp1, Hp2, Hp3. cbn. rewrite !lookup_insert_eq. auto.
      * destruct (Hinside p ltac:(lia)) as (Hp0 & Hp1 & Hp2 & Hp3). auto.
    + intros p Hp. destruct (Houtside p ltac:(lia)) as (Hp1 & Hp2 & Hp3).
      rewrite Hp1, Hp2, Hp3. cbn. rewrite !lookup_insert_ne by lia. auto.
Qed.

(** What the loop of [MapPages] with a target leaves in the table. *)
Lemma MapPages_fill_spec (type : PageType) (count : nat) :
  ∀ base target pt pt',
    table_size pt < 2 ^ 64 → 0 ≤ target < 2 ^ 64 →
    MapPages_fill count base target type pt = Some pt' →
    table_size pt' = table_size pt
    ∧ (∀ p, base ≤ p < base + Z.of_nat count →
            in_table pt p = true
            ∧ pointers pt' !! p
              = Some (u64 (DeviceMemory_GetPointer (u64 (target + PAGE_SIZE * (p - base)))
                           - Z.shiftl p PAGE_BITS))
            ∧ u64 (DeviceMemory_GetPointer (u64 (target + PAGE_SIZE * (p - base)))
                   - Z.shiftl p PAGE_BITS) ≠ 0
            ∧ attributes pt' !! p = Some type
            ∧ backing_addr pt' !! p
              = Some (u64 (u64 (target + PAGE_SIZE * (p - base)) - Z.shiftl p PAGE_BITS)))
    ∧ (∀ p, p < base ∨ base + Z.of_nat count ≤ p →
            pointers pt' !! p = pointers pt !! p
            ∧ attributes pt' !! p = attributes pt !! p
            ∧ backing_addr pt' !! p = backing_addr pt !! p).
Proof.
  induction count as [| count IH]; intros base target pt pt' Hsize Htarget;
    cbn [MapPages_fill].
  - intros [= <-]. split; [reflexivity |]. split; [intros; lia | auto].
  - destruct (in_table pt base) eqn:Hin; [| discriminate].
    assert (Hbase : 0 ≤ base < table_size pt).
    { unfold in_table in Hin. apply andb_true_iff in Hin as [H1 H2].
      apply Z.leb_le in H1. apply Z.ltb_lt in H2. lia. }
    rewrite (u64_fixed (base + 1)) by lia.
    destruct (Z.eqb_spec (u64 (DeviceMemory_GetPointer target - Z.shiftl base PAGE_BITS)) 0)
      as [| Hptr]; [discriminate |].
    intros Hrest.
    destruct (IH _ _ _ _ (Hsize : table_size (set_entry pt base _ type _) < 2 ^ 64)
                (u64_range _) Hrest) as (Hts & Hinside & Houtside).
    split; [exact Hts |]. split.
    + intros p Hp. destruct (decide (p = base)) as [-> | Hne].
      * destruct (Houtside base ltac:(lia)) as (Hp1 & Hp2 & Hp3).
        rewrite Hp1, Hp2, Hp3. cbn. rewrite !lookup_insert_eq.
        replace (target + PAGE_SIZE * (base - base)) with target by lia.
        rewrite (u64_fixed target) by lia. auto.
      * destruct (Hinside p ltac:(lia)) as (Hp0 & Hp1 & Hp2 & Hp3 & Hp4).
        rewrite u64_u64_add in Hp1, Hp2, Hp4.
        replace (target + PAGE_SIZE + PAGE_SIZE * (p - (base + 1)))
          with (target + PAGE_SIZE * (p - base)) in Hp1, Hp2, Hp4 by lia.
        auto.
    + intros p Hp. destruct (Houtside p ltac:(lia)) as (Hp1 & Hp2 & Hp3).
      rewrite Hp1, Hp2, Hp3. cbn. rewrite !lookup_insert_ne by lia. auto.
Qed.

(** [MapPages] changes the table only through its second loop. *)
Lemma MapPages_table (base size target : Z) (type : PageType) (st st' : State) :
  MapPages base size target type st = Some st' →
  if target =? 0
  then MapPages_clear (Z.to_nat size) base type (current_page_table st)
       = Some (current_page_table st')
  else MapPages_fill (Z.to_nat size) base target type (current_page_table st)
       = Some (current_page_table st').
Proof.
  unfold MapPages.
  destruct (if IsPoweredOn then _ else _) as [st1 |] eqn:Hflush; [| discriminate].
  assert (Hpt : current_page_table st1 = current_page_table st).
  { destruct IsPoweredOn; [by eapply MapPages_flush_table | by injection Hflush as <-]. }
  cbn. rewrite Hpt.
  destruct (_ <? _); [discriminate |].
  destruct (target =? 0).
  - destruct (PageType_eqb type Memory); [discriminate |].
    destruct (MapPages_clear _ _ _ _) as [pt |]; [| discriminate].
    cbn. by intros [= <-].
  - destruct (MapPages_fill _ _ _ _ _) as [pt |]; [| discriminate].
    cbn. by intros [= <-].
Qed.

(** While the table is well formed it stays so: mapping a region,
    unmapping one, and marking a region as cached or uncached all keep
    every entry that holds a pointer a [Memory] entry, and the typed
    accessors do not touch the table. *)
Theorem page_table_stays_well_formed (st : State) :
  pointers_are_memory (current_page_table st) →
  (∀ base size target st',
     MapMemoryRegion base size target st = Some st' →
     pointers_are_memory (current_page_table st'))
  ∧ (∀ base size st',
       UnmapRegion base size st = Some st' →
       pointers_are_memory (current_page_table st'))
  ∧ (∀ vaddr size cached st',
       RasterizerMarkRegionCached vaddr size cached st = Some st' →
       pointers_are_memory (current_page_table st'))
  ∧ (∀ n vaddr value st',
       Read n vaddr st = Some (value, st') →
       current_page_table st' = current_page_table st)
  ∧ (∀ n vaddr data st',
       Write n vaddr data st = Some st' →
       current_page_table st' = current_page_table st).
Proof.
  intros Hwf.
  split; [intros; by eapply MapMemoryRegion_keeps |].
  split; [intros; by eapply UnmapRegion_keeps |].
  split; [intros; by eapply RasterizerMarkRegionCached_keeps |].
  split.
  - intros n vaddr value st'. unfold Read.
    destruct (pointer_at _ _) as [ptr |]; [| discriminate]. cbn.
    destruct (negb _); [by intros [= _ <-] |].
    destruct (attribute_at _ _) as [[] |]; try discriminate; cbn.
    + by intros [= _ <-].
    + destruct (GetPointerFromRasterizerCachedMemory _ _) as [p |]; [| discriminate].
      cbn. destruct (p =? 0); [discriminate |]. by intros [= _ <-].
  - intros n vaddr data st'. unfold Write.
    destruct (pointer_at _ _) as [ptr |]; [| discriminate]. cbn.
    destruct (negb _); [by intros [= <-] |].
    destruct (attribute_at _ _) as [[] |]; try discriminate; cbn.
    + by intros [= <-].
    + destruct (GetPointerFromRasterizerCachedMemory _ _) as [p |]; [| discriminate].
      cbn. destruct (p =? 0); [discriminate |]. by intros [= <-].
Qed.

(** After [UnmapRegion] every address of the region lies in an unmapped
    page without a pointer: reading it gives zero and writing it stores
    nothing, each with one line in the error log. *)
Theorem UnmapRegion_then_unmapped (base size v : Z) (st st' : State) :
  table_size (current_page_table st) < 2 ^ 64 →
  UnmapRegion base size st = Some st' →
  base ≤ v < base + size →
  attribute_at (current_page_table st') (Z.shiftr v PAGE_BITS) = Some Unmapped
  ∧ pointer_at (current_page_table st') (Z.shiftr v PAGE_BITS) = Some 0
  ∧ (∀ n, Read n v st' = Some (0, log_error st' (UnmappedRead (8 * Z.of_nat n) v)))
  ∧ (∀ n data, Write n v data st'
               = Some (log_error st' (UnmappedWrite (8 * Z.of_nat n) (u32 data) v))).
Proof.
  intros Hts Hunmap Hv. pose proof PAGE_SIZE_pos as Hps.
  unfold UnmapRegion in Hunmap.
  rewrite !land_PAGE_MASK in Hunmap.
  destruct (Z.eqb_spec (size mod PAGE_SIZE) 0) as [Hsize |]; [| discriminate].
  destruct (Z.eqb_spec (base mod PAGE_SIZE) 0) as [Hbase |]; [| discriminate].
  cbn in Hunmap. apply MapPages_table in Hunmap. cbn in Hunmap.
  destruct (MapPages_clear_spec _ _ _ _ _ Hts Hunmap) as (Hsame & Hinside & _).
  pose proof (page_in_region base size v Hbase Hsize Hv) as Hpage.
  assert (Hcount : 0 ≤ size / PAGE_SIZE) by lia.
  rewrite Z2Nat.id in Hinside by exact Hcount.
  destruct (Hinside (v / PAGE_SIZE) Hpage) as (Hin & Hp & Ha & _).
  assert (Hin' : in_table (current_page_table st') (v / PAGE_SIZE) = true).
  { unfold in_table in *. by rewrite Hsame. }
  assert (Hattr : attribute_at (current_page_table st') (Z.shiftr v PAGE_BITS)
                  = Some Unmapped).
  { rewrite shiftr_PAGE_BITS. unfold attribute_at. by rewrite Hin', Ha. }
  assert (Hptr : pointer_at (current_page_table st') (Z.shiftr v PAGE_BITS) = Some 0).
  { rewrite shiftr_PAGE_BITS. unfold pointer_at. by rewrite Hin', Hp. }
  split; [exact Hattr |]. split; [exact Hptr |]. split.
  - intros n. unfold Read. rewrite Hptr, Hattr. reflexivity.
  - intros n data. unfold Write. rewrite Hptr, Hattr. reflexivity.
Qed.

(** After [MapMemoryRegion] every address of the region reads through the
    page pointer: the bytes come from the device memory at the target of
    the address's page plus the offset of the address in its page. *)
Theorem MapMemoryRegion_then_Read (base size target v : Z) (st st' : State) :
  table_size (current_page_table st) < 2 ^ 64 →
  0 ≤ target < 2 ^ 64 →
  MapMemoryRegion base size target st = Some st' →
  base ≤ v < base + size →
  attribute_at (current_page_table st') (Z.shiftr v PAGE_BITS) = Some Memory
  ∧ ∀ n, Read n v st'
         = Some (load (host st')
                   (u64 (DeviceMemory_GetPointer
                           (u64 (target + (v - v mod PAGE_SIZE - base)))
                         + v mod PAGE_SIZE)) n,
                 st').
Proof.
  intros Hts Htarget Hmap Hv. pose proof PAGE_SIZE_pos as Hps.
  assert (Hne0 : PAGE_SIZE ≠ 0) by lia.
  unfold MapMemoryRegion in Hmap.
  rewrite !land_PAGE_MASK in Hmap.
  destruct (Z.eqb_spec (size mod PAGE_SIZE) 0) as [Hsize |]; [| discriminate].
  destruct (Z.eqb_spec (base mod PAGE_SIZE) 0) as [Hbase |]; [| discriminate].
  cbn in Hmap.
  assert (Hnz : (target =? 0) = false).
  { destruct (Z.eqb_spec target 0) as [-> |]; [| reflexivity].
    unfold MapPages in Hmap.
    destruct (if IsPoweredOn then _ else _); [| discriminate]. cbn in Hmap.
    destruct (_ <? _); discriminate. }
  apply MapPages_table in Hmap. rewrite Hnz in Hmap.
  destruct (MapPages_fill_spec _ _ _ _ _ _ Hts Htarget Hmap) as (Hsame & Hinside & _).
  pose proof (page_in_region base size v Hbase Hsize Hv) as Hpage.
  assert (Hcount : 0 ≤ size / PAGE_SIZE) by lia.
  rewrite Z2Nat.id in Hinside by exact Hcount.
  destruct (Hinside (v / PAGE_SIZE) Hpage) as (Hin & Hp & Hnonnull & Ha & _).
  assert (Hin' : in_table (current_page_table st') (v / PAGE_SIZE) = true).
  { unfold in_table in *. by rewrite Hsame. }
  assert (Hoff : PAGE_SIZE * (v / PAGE_SIZE - base / PAGE_SIZE)
                 = v - v mod PAGE_SIZE - base).
  { pose proof (Z.div_mod v PAGE_SIZE Hne0).
    pose proof (Z.div_mod base PAGE_SIZE Hne0). lia. }
  rewrite Hoff in Hp, Hnonnull.
  assert (Hshift : Z.shiftl (v / PAGE_SIZE) PAGE_BITS = v - v mod PAGE_SIZE).
  { rewrite shiftl_PAGE_BITS. pose proof (Z.div_mod v PAGE_SIZE Hne0). lia. }
  rewrite Hshift in Hp, Hnonnull.
  split.
  - rewrite shiftr_PAGE_BITS. unfold attribute_at. by rewrite Hin', Ha.
  - intros n. unfold Read. rewrite shiftr_PAGE_BITS. unfold pointer_at.
    rewrite Hin', Hp. cbn.
    destruct (Z.eqb_spec (u64 (DeviceMemory_GetPointer
                 (u64 (target + (v - v mod PAGE_SIZE - base)))
                 - (v - v mod PAGE_SIZE))) 0) as [Hz |]; [contradiction |].
    cbn. do 3 f_equal. rewrite u64_u64_add. f_equal. lia.
Qed.

End CoreMemoryRegions.

Section CoreMemoryRegionScenarios.
Import Machine CoreMemory Scenarios.
#[local] Existing Instance idle_system.

Lemma idle_PAGE_BITS : 0 ≤ PAGE_BITS < 64.
Proof. cbn. lia. Qed.

Lemma page_table_of_one_page_stays_well_formed :
  (∀ base size target st',
     MapMemoryRegion base size target idle_page = Some st' →
     pointers_are_memory (current_page_table st'))
  ∧ (∀ base size st',
       UnmapRegion base size idle_page = Some st' →
       pointers_are_memory (current_page_table st'))
  ∧ (∀ vaddr size cached st',
       RasterizerMarkRegionCached vaddr size cached idle_page = Some st' →
       pointers_are_memory (current_page_table st'))
  ∧ (∀ n vaddr value st',
       Read n vaddr idle_page = Some (value, st') →
       current_page_table st' = current_page_table idle_page)
  ∧ (∀ n vaddr data st',
       Write n vaddr data idle_page = Some st' →
       current_page_table st' = current_page_table idle_page).
Proof.
  apply (page_table_stays_well_formed idle_page).
  apply (one_page_well_formed (H := idle_system) tt).
Defined.

Lemma UnmapRegion_of_the_mapped_page :
  attribute_at (current_page_table idle_unmapped) (Z.shiftr 4100 PAGE_BITS) = Some Unmapped
  ∧ pointer_at (current_page_table idle_unmapped) (Z.shiftr 4100 PAGE_BITS) = Some 0
  ∧ (∀ n, Read n 4100 idle_unmapped
          = Some (0, log_error idle_unmapped (UnmappedRead (8 * Z.of_nat n) 4100)))
  ∧ (∀ n data, Write n 4100 data idle_unmapped
               = Some (log_error idle_unmapped
                         (UnmappedWrite (8 * Z.of_nat n) (u32 data) 4100))).
Proof.
  apply (UnmapRegion_then_unmapped idle_PAGE_BITS 4096 4096 4100 idle_page idle_unmapped).
  - vm_compute. reflexivity.
  - reflexivity.
  - lia.
Defined.

Lemma MapMemoryRegion_of_one_page :
  attribute_at (current_page_table idle_page) (Z.shiftr 4100 PAGE_BITS) = Some Memory
  ∧ ∀ n, Read n 4100 idle_page
         = Some (load (host idle_page)
                   (u64 (DeviceMemory_GetPointer
                           (u64 (12288 + (4100 - 4100 mod PAGE_SIZE - 4096)))
                         + 4100 mod PAGE_SIZE)) n,
                 idle_page).
Proof.
  apply (MapMemoryRegion_then_Read idle_PAGE_BITS 4096 4096 12288 4100
           idle_blank idle_page).
  - vm_compute. reflexivity.
  - lia.
  - reflexivity.
  - lia.
Defined.

End CoreMemoryRegionScenarios.

(** ** Guest memory: pointers, strings and bytes that a store leaves *)

Section CoreMemoryPointers.
Import Machine CoreMemory.
Context `{System}.

(** A load reads the bytes of its range only. *)
Lemma load_outside (m : nat) :
  ∀ mem mem' q,
    (∀ j, 0 ≤ j < Z.of_nat m → mem' (u64 (q + j)) = mem (u64 (q + j))) →
    0 ≤ q < 2 ^ 64 →
    load mem' q m = load mem q m.
Proof.
  induction m as [| m IH]; intros mem mem' q Hsame Hq; cbn [load]; [reflexivity |].
  rewrite (IH mem mem' (u64 (q + 1))).
  - pose proof (Hsame 0 ltac:(lia)) as H0.
    rewrite Z.add_0_r, (u64_fixed q) in H0 by lia. by rewrite H0.
  - intros j Hj. rewrite u64_u64_add.
    replace (q + 1 + j) with (q + (j + 1)) by lia. apply Hsame. lia.
  - apply u64_range.
Qed.

(** A store through one page pointer leaves what a load through another
    (or the same) pointer reads, when the two host ranges are disjoint:
    after [WriteN] the [ReadN] of the other bytes returns what it returned
    before. *)
Theorem WriteN_leaves_other_bytes
  (n m : nat) (st : State) (addr other data ptr ptr' : Z) :
  n = 1%nat ∨ n = 2%nat ∨ n = 4%nat ∨ n = 8%nat →
  m = 1%nat ∨ m = 2%nat ∨ m = 4%nat ∨ m = 8%nat →
  ptr ≠ 0 → ptr' ≠ 0 →
  0 ≤ addr < 2 ^ 64 → 0 ≤ other < 2 ^ 64 →
  bytes_through ptr st addr n →
  bytes_through ptr' st other m →
  (∀ i j, 0 ≤ i < Z.of_nat n → 0 ≤ j < Z.of_nat m →
          u64 (ptr + addr + i) ≠ u64 (ptr' + other + j)) →
  ∃ st' value,
    WriteN n addr data st = Some st'
    ∧ ReadN m other st = Some (value, st)
    ∧ ReadN m other st' = Some (value, st').
Proof.
  intros Hn Hm Hptr Hptr' Haddr Hother Hthrough Hthrough' Hdisjoint.
  rewrite (WriteN_writes_memory n Hn st addr data ptr Hptr Haddr Hthrough).
  rewrite (ReadN_reads_memory m Hm st other ptr' Hptr' Hother Hthrough').
  eexists _, _. split; [reflexivity |]. split; [reflexivity |].
  rewrite (ReadN_reads_memory m Hm (set_host st _) other ptr' Hptr' Hother Hthrough').
  cbn. do 2 f_equal.
  apply load_outside; [| apply u64_range].
  intros j Hj. apply store_outside; [apply u64_range |].
  intros i Hi. rewrite !u64_u64_add. by apply Hdisjoint.
Qed.

(** Where [GetPointer] points is where the typed read reads: a guest
    address with a host pointer is a valid virtual address, and [Read]
    returns the bytes at that pointer, after the flush of the region when
    the page is rasterizer cached, without a word in the error log. *)
Theorem GetPointer_is_where_Read_reads (n : nat) (st : State) (vaddr p : Z) :
  GetPointer st vaddr = Some p → p ≠ 0 →
  IsValidVirtualAddress (current_page_table st) vaddr = Some true
  ∧ ∃ st', Read n vaddr st = Some (load (host st') p n, st')
           ∧ current_page_table st' = current_page_table st
           ∧ log st' = log st
           ∧ (pointer_at (current_page_table st) (Z.shiftr vaddr PAGE_BITS) ≠ Some 0 →
              st' = st).
Proof.
  unfold GetPointer, IsValidVirtualAddress, Read.
  destruct (pointer_at _ _) as [ptr |]; [| discriminate]. cbn.
  destruct (Z.eqb_spec ptr 0) as [-> | Hptr]; cbn.
  - destruct (attribute_at _ _) as [type |]; [| discriminate]. cbn.
    destruct type; cbn; try (intros [= <-]; contradiction).
    intros -> Hp. cbn. split; [reflexivity |].
    destruct (Z.eqb_spec p 0); [contradiction |].
    exists (set_gpu_host st (GPU_FlushRegion vaddr (Z.of_nat n) (gpu st, host st))).
    split; [reflexivity |]. split; [reflexivity |]. split; [reflexivity |].
    intros Hne. contradiction.
  - intros [= <-] _. split; [reflexivity |].
    exists st. split; [reflexivity |]. auto.
Qed.

(** An address that is not valid has no host pointer. *)
Lemma invalid_address_has_no_pointer (st : State) (vaddr : Z) :
  IsValidVirtualAddress (current_page_table st) vaddr = Some false →
  GetPointer st vaddr = Some 0.
Proof.
  unfold GetPointer, IsValidVirtualAddress.
  destruct (pointer_at _ _) as [ptr |]; [| discriminate]. cbn.
  destruct (negb _); [discriminate |].
  destruct (attribute_at _ _) as [type |]; [| discriminate]. cbn.
  by destruct type.
Qed.

Lemma Read_range (n : nat) (vaddr value : Z) (st st' : State) :
  Read n vaddr st = Some (value, st') → 0 ≤ value.
Proof.
  unfold Read.
  destruct (pointer_at _ _) as [ptr |]; [| discriminate]. cbn.
  destruct (negb _); [intros [= <- _]; apply load_nonneg |].
  destruct (attribute_at _ _) as [[] |]; try discriminate; cbn.
  - intros [= <- _]. lia.
  - destruct (GetPointerFromRasterizerCachedMemory _ _) as [q |]; [| discriminate].
    cbn. destruct (q =? 0); [discriminate |]. intros [= <- _]. apply load_nonneg.
Qed.

(** The loop of [ReadCString] pushes at most [count] characters, none of
    them NUL. *)
Lemma ReadCString_loop_spec (count : nat) :
  ∀ vaddr st s st',
    ReadCString_loop count vaddr st = Some (s, st') →
    (length s ≤ count)%nat ∧ Forall (λ c, c ≠ 0) s.
Proof.
  induction count as [| count IH]; intros vaddr st s st'; cbn [ReadCString_loop].
  - intros [= <- _]. split; [cbn; lia | constructor].
  - destruct (Read8 vaddr st) as [[c st1] |]; [| discriminate]. cbn.
    destruct (Z.eqb_spec c 0) as [| Hc].
    + intros [= <- _]. split; [cbn; lia | constructor].
    + destruct (ReadCString_loop count _ st1) as [[rest st2] |] eqn:Hrest;
        [| discriminate].
      cbn. intros [= <- _].
      destruct (IH _ _ _ _ Hrest) as [Hlen Hall].
      split; [cbn; lia | by constructor].
Qed.

(** Through one page pointer the loop reads the bytes in order up to the
    first NUL. *)
Lemma ReadCString_loop_memory (ptr : Z) (count : nat) :
  ∀ vaddr st,
    ptr ≠ 0 → 0 ≤ vaddr < 2 ^ 64 →
    bytes_through ptr st vaddr count →
    ∃ s, ReadCString_loop count vaddr st = Some (s, st)
      ∧ (∀ i, (i < length s)%nat →
              s !! i = Some (u8 (host st (u64 (ptr + vaddr + Z.of_nat i)))))
      ∧ ((length s < count)%nat →
         u8 (host st (u64 (ptr + vaddr + Z.of_nat (length s)))) = 0).
Proof.
  induction count as [| count IH]; intros vaddr st Hptr Hvaddr Hthrough;
    cbn [ReadCString_loop].
  - exists []. split; [reflexivity |]. split; cbn; intros; lia.
  - unfold Read8.
    rewrite (Read_through_pointer 1 vaddr ptr st Hptr)
      by (apply (bytes_through_first ptr st vaddr (S count)); [lia | lia | exact Hthrough]).
    cbn [mbind option_bind load].
    rewrite Z.shiftl_0_l, Z.lor_0_r.
    destruct (Z.eqb_spec (u8 (host st (u64 (ptr + vaddr)))) 0) as [Hz | Hnz].
    + exists []. split; [reflexivity |]. split; [cbn; intros; lia |].
      intros _. cbn. by rewrite Z.add_0_r.
    + destruct (IH (u64 (vaddr + 1)) st Hptr (u64_range _)) as (rest & -> & Hchars & Hend).
      { apply (bytes_through_rest ptr st st vaddr 1 count eq_refl Hthrough). }
      assert (Hnext : ∀ k, u64 (ptr + u64 (vaddr + 1) + k) = u64 (ptr + vaddr + (k + 1))).
      { intros k.
        replace (ptr + u64 (vaddr + 1) + k) with (ptr + k + u64 (vaddr + 1)) by lia.
        rewrite u64_add_u64. f_equal. lia. }
      cbn [mbind option_bind]. eexists. split; [reflexivity |]. split.
      * intros [| i] Hi.
        -- cbn. by rewrite Z.add_0_r.
        -- cbn [lookup list_lookup]. cbn [length] in Hi.
           rewrite Hchars, Hnext by lia.
           replace (Z.of_nat (S i)) with (Z.of_nat i + 1) by lia. reflexivity.
      * intros Hlen. cbn [length] in *.
        assert (Hshort : (length rest < count)%nat) by lia.
        specialize (Hend Hshort). rewrite Hnext in Hend.
        replace (Z.of_nat (S (length rest))) with (Z.of_nat (length rest) + 1) by lia.
        exact Hend.
Qed.

(** [ReadCString] returns at most [max_length] characters and none of them
    is NUL.  At an unmapped address of a well-formed table the very first
    [Read8] gives zero, so the string is empty and the error log has one
    more line.  Through one page pointer the string is the bytes of guest
    memory in order, and when it is shorter than [max_length] the byte
    after it is the NUL. *)
Theorem ReadCString_stops_at_NUL (vaddr max_length : Z) (st : State) :
  0 < max_length → 0 ≤ vaddr < 2 ^ 64 →
  (∀ s st', ReadCString vaddr max_length st = Some (s, st') →
            Z.of_nat (length s) ≤ max_length ∧ Forall (λ c, c ≠ 0) s)
  ∧ (pointers_are_memory (current_page_table st) →
     attribute_at (current_page_table st) (Z.shiftr vaddr PAGE_BITS) = Some Unmapped →
     ReadCString vaddr max_length st
     = Some ([], log_error st (UnmappedRead 8 vaddr)))
  ∧ (∀ ptr, ptr ≠ 0 → bytes_through ptr st vaddr (Z.to_nat max_length) →
       ∃ s, ReadCString vaddr max_length st = Some (s, st)
         ∧ (∀ i, (i < length s)%nat →
                 s !! i = Some (u8 (host st (u64 (ptr + vaddr + Z.of_nat i)))))
         ∧ (Z.of_nat (length s) < max_length →
            u8 (host st (u64 (ptr + vaddr + Z.of_nat (length s)))) = 0)).
Proof.
  intros Hmax Hvaddr. split; [| split].
  - intros s st' Hread. unfold ReadCString in Hread.
    apply ReadCString_loop_spec in Hread as [Hlen Hall].
    split; [lia | exact Hall].
  - intros Hwf Hattr. unfold ReadCString.
    destruct (Z.to_nat max_length) as [| count] eqn:Hcount; [lia |].
    cbn [ReadCString_loop]. unfold Read8.
    rewrite (Read_unmapped 1 vaddr st Hwf Hattr). reflexivity.
  - intros ptr Hptr Hthrough. unfold ReadCString.
    destruct (ReadCString_loop_memory ptr (Z.to_nat max_length) vaddr st
                Hptr Hvaddr Hthrough) as (s & Hread & Hchars & Hend).
    exists s. split; [exact Hread |]. split; [exact Hchars |].
    intros Hlen. apply Hend. lia.
Qed.

End CoreMemoryPointers.

Section CoreMemoryPointerScenarios.
Import Machine CoreMemory Scenarios.
#[local] Existing Instance idle_system.

Lemma WriteN_leaves_the_next_halfword :
  ∃ st' value,
    WriteN 4 4100 3735928559 idle_page = Some st'
    ∧ ReadN 2 4110 idle_page = Some (value, idle_page)
    ∧ ReadN 2 4110 st' = Some (value, st').
Proof.
  apply (WriteN_leaves_other_bytes 4 2 idle_page 4100 4110 3735928559
           (host_base + 8192) (host_base + 8192)).
  - right; right; left; reflexivity.
  - right; left; reflexivity.
  - vm_compute. discriminate.
  - vm_compute. discriminate.
  - lia.
  - lia.
  - intros i Hi.
    assert (i = 0 ∨ i = 1 ∨ i = 2 ∨ i = 3) as [-> | [-> | [-> | ->]]] by lia;
      reflexivity.
  - intros i Hi. assert (i = 0 ∨ i = 1) as [-> | ->] by lia; reflexivity.
  - intros i j Hi Hj. unfold host_base, u64.
    rewrite !Z.mod_small by lia. lia.
Defined.

Lemma GetPointer_of_the_stored_byte :
  IsValidVirtualAddress (current_page_table idle_byte) 4096 = Some true
  ∧ ∃ st', Read 1 4096 idle_byte = Some (load (host st') (host_base + 12288) 1, st')
           ∧ current_page_table st' = current_page_table idle_byte
           ∧ log st' = log idle_byte
           ∧ (pointer_at (current_page_table idle_byte) (Z.shiftr 4096 PAGE_BITS) ≠ Some 0 →
              st' = idle_byte).
Proof.
  apply (GetPointer_is_where_Read_reads 1 idle_byte 4096 (host_base + 12288)).
  - reflexivity.
  - vm_compute. discriminate.
Defined.

Lemma ReadCString_of_an_unmapped_address :
  (∀ s st', ReadCString 8 16 idle_page = Some (s, st') →
            Z.of_nat (length s) ≤ 16 ∧ Forall (λ c, c ≠ 0) s)
  ∧ (pointers_are_memory (current_page_table idle_page) →
     attribute_at (current_page_table idle_page) (Z.shiftr 8 PAGE_BITS) = Some Unmapped →
     ReadCString 8 16 idle_page = Some ([], log_error idle_page (UnmappedRead 8 8)))
  ∧ (∀ ptr, ptr ≠ 0 → bytes_through ptr idle_page 8 (Z.to_nat 16) →
       ∃ s, ReadCString 8 16 idle_page = Some (s, idle_page)
         ∧ (∀ i, (i < length s)%nat →
                 s !! i = Some (u8 (host idle_page (u64 (ptr + 8 + Z.of_nat i)))))
         ∧ (Z.of_nat (length s) < 16 →
            u8 (host idle_page (u64 (ptr + 8 + Z.of_nat (length s)))) = 0)).
Proof.
  apply (ReadCString_stops_at_NUL 8 16 idle_page); lia.
Defined.

End CoreMemoryPointerScenarios.

(** ** Guest memory: block reads and writes *)

Section CoreMemoryBlocks.
Import Machine CoreMemory.
Context `{System}.
Hypothesis PAGE_BITS_range : 0 ≤ PAGE_BITS < 64.

Lemma PAGE_SIZE_le : PAGE_SIZE ≤ 2 ^ 63.
Proof. rewrite PAGE_SIZE_pow2. apply Z.pow_le_mono_r; lia. Qed.

Lemma load_bytes_app (mem : HostMemory) (n m : nat) :
  ∀ p, 0 ≤ p < 2 ^ 64 →
       load_bytes mem p (n + m)
       = load_bytes mem p n ++ load_bytes mem (u64 (p + Z.of_nat n)) m.
Proof.
  induction n as [| n IH]; intros p Hp.
  - cbn. rewrite Z.add_0_r, u64_fixed by lia. reflexivity.
  - cbn [load_bytes Nat.add app]. rewrite IH by apply u64_range.
    rewrite u64_u64_add.
    replace (p + 1 + Z.of_nat n) with (p + Z.of_nat (S n)) by lia. reflexivity.
Qed.

Lemma store_bytes_app (l1 l2 : list Z) :
  ∀ mem p, 0 ≤ p < 2 ^ 64 →
           store_bytes mem p (l1 ++ l2)
           = store_bytes (store_bytes mem p l1) (u64 (p + Z.of_nat (length l1))) l2.
Proof.
  induction l1 as [| b l1 IH]; intros mem p Hp.
  - cbn. rewrite Z.add_0_r, u64_fixed by lia. reflexivity.
  - cbn [store_bytes app length]. rewrite IH by apply u64_range.
    rewrite u64_u64_add.
    replace (p + 1 + Z.of_nat (length l1)) with (p + Z.of_nat (S (length l1))) by lia.
    reflexivity.
Qed.

Lemma store_bytes_outside (bytes : list Z) :
  ∀ mem p a,
    0 ≤ p < 2 ^ 64 →
    (∀ i, 0 ≤ i < Z.of_nat (length bytes) → u64 (p + i) ≠ a) →
    store_bytes mem p bytes a = mem a.
Proof.
  induction bytes as [| b bytes IH]; intros mem p a Hp Hout; cbn [store_bytes];
    [reflexivity |].
  rewrite IH.
  - unfold poke. destruct (Z.eqb_spec a p) as [-> |]; [| reflexivity].
    exfalso. apply (Hout 0); [cbn; lia |].
    rewrite Z.add_0_r. apply u64_fixed, Hp.
  - apply u64_range.
  - intros i Hi. rewrite u64_u64_add.
    replace (p + 1 + i) with (p + (i + 1)) by lia.
    apply Hout. cbn [length]. lia.
Qed.

(** What [memcpy] stored is what [memcpy] reads back. *)
Lemma load_bytes_store_bytes (bytes : list Z) :
  ∀ mem p,
    0 ≤ p < 2 ^ 64 → Z.of_nat (length bytes) ≤ 2 ^ 64 →
    load_bytes (store_bytes mem p bytes) p (length bytes) = map u8 bytes.
Proof.
  induction bytes as [| b bytes IH]; intros mem p Hp Hlen; [reflexivity |].
  cbn [length load_bytes store_bytes map]. cbn [length] in Hlen.
  rewrite IH by (try apply u64_range; lia).
  rewrite store_bytes_outside; [| apply u64_range |].
  - unfold poke. rewrite Z.eqb_refl, u8_u8. reflexivity.
  - intros i Hi. rewrite u64_u64_add.
    replace (p + 1 + i) with (p + (1 + i)) by lia.
    apply u64_add_ne; lia.
Qed.

Lemma load_bytes_length (mem : HostMemory) (n : nat) :
  ∀ p, length (load_bytes mem p n) = n.
Proof. induction n as [| n IH]; intros p; cbn; [reflexivity | by rewrite IH]. Qed.

Lemma load_bytes_lookup (mem : HostMemory) (n i : nat) :
  ∀ p, (i < n)%nat → 0 ≤ p < 2 ^ 64 →
       load_bytes mem p n !! i = Some (u8 (mem (u64 (p + Z.of_nat i)))).
Proof.
  revert i. induction n as [| n IH]; intros i p Hi Hp; [lia |].
  destruct i as [| i]; cbn [load_bytes lookup list_lookup].
  - rewrite Z.add_0_r, u64_fixed by lia. reflexivity.
  - rewrite IH by (try apply u64_range; lia).
    rewrite u64_u64_add.
    replace (p + 1 + Z.of_nat i) with (p + Z.of_nat (S i)) by lia. reflexivity.
Qed.

(** The page of an address, from its page index and offset. *)
Lemma page_of_index (page_index page_offset : Z) :
  0 ≤ page_offset < PAGE_SIZE →
  Z.shiftr (page_index * PAGE_SIZE + page_offset) PAGE_BITS = page_index.
Proof.
  intros Hoff. pose proof (PAGE_SIZE_pos PAGE_BITS_range) as Hps.
  rewrite (shiftr_PAGE_BITS PAGE_BITS_range), Z.div_add_l, Z.div_small by lia. lia.
Qed.

Lemma ReadBlockUnsafe_loop_no_bytes (fuel : nat) (src_addr size page_index page_offset : Z)
  (st : State) :
  ReadBlockUnsafe_loop fuel src_addr size page_index page_offset 0 st = Some ([], st).
Proof. destruct fuel; reflexivity. Qed.

Lemma WriteBlock_loop_done (invalidate : bool) (fuel : nat)
  (dest_addr size page_index page_offset : Z) (src_buffer : list Z) (st : State) :
  WriteBlock_loop invalidate fuel dest_addr size page_index page_offset 0 src_buffer st
  = Some ([], st).
Proof. destruct fuel; reflexivity. Qed.

(** One chunk: its length, and where the next one starts. *)
Lemma chunk_cases (page_index page_offset remaining_size : Z) :
  0 ≤ page_index → 0 ≤ page_offset < PAGE_SIZE → 0 < remaining_size →
  page_index * PAGE_SIZE + page_offset + remaining_size ≤ 2 ^ 64 →
  let copy_amount := Z.min (u64 (PAGE_SIZE - page_offset)) remaining_size in
  0 < copy_amount ≤ remaining_size
  ∧ page_offset + copy_amount ≤ PAGE_SIZE
  ∧ (copy_amount = remaining_size
     ∨ (copy_amount < remaining_size
        ∧ u64 (page_index + 1) = page_index + 1
        ∧ (page_index + 1) * PAGE_SIZE + 0
          = page_index * PAGE_SIZE + page_offset + copy_amount)).
Proof.
  intros Hpage Hoff Hrem Hend. cbn zeta.
  pose proof (PAGE_SIZE_pos PAGE_BITS_range) as Hps. pose proof PAGE_SIZE_le as Hle.
  rewrite (u64_fixed (PAGE_SIZE - page_offset)) by lia.
  destruct (Z.min_spec (PAGE_SIZE - page_offset) remaining_size) as [[Hlt ->] | [Hge ->]].
  - split; [lia |]. split; [lia |]. right. split; [lia |].
    split; [apply u64_fixed; nia | lia].
  - split; [lia |]. split; [lia |]. left. reflexivity.
Qed.

(** Through one pointer the chunks of [ReadBlockUnsafe] add up to one flat
    copy. *)
Lemma ReadBlockUnsafe_loop_flat (ptr src_addr size : Z) (fuel : nat) :
  ∀ page_index page_offset remaining_size st,
    0 ≤ page_index → 0 ≤ page_offset < PAGE_SIZE → 0 ≤ remaining_size →
    page_index * PAGE_SIZE + page_offset + remaining_size ≤ 2 ^ 64 →
    (Z.to_nat remaining_size ≤ fuel)%nat →
    block_through ptr st (page_index * PAGE_SIZE + page_offset) remaining_size →
    ReadBlockUnsafe_loop fuel src_addr size page_index page_offset remaining_size st
    = Some (load_bytes (host st) (u64 (ptr + (page_index * PAGE_SIZE + page_offset)))
              (Z.to_nat remaining_size), st).
Proof.
  induction fuel as [| fuel IH];
    intros page_index page_offset remaining_size st Hpage Hoff Hrem Hend Hfuel Hthrough.
  - assert (remaining_size = 0) as -> by lia. reflexivity.
  - destruct (Z.eq_dec remaining_size 0) as [-> | Hnz]; [reflexivity |].
    cbn [ReadBlockUnsafe_loop].
    destruct (Z.leb_spec remaining_size 0); [lia |].
    destruct (chunk_cases page_index page_offset remaining_size Hpage Hoff
                ltac:(lia) Hend) as (Hcopy & Hfits & Hcases).
    set (copy_amount := Z.min (u64 (PAGE_SIZE - page_offset)) remaining_size) in *.
    destruct (Hthrough 0 ltac:(lia)) as [Hattr Hptr].
    rewrite Z.add_0_r, page_of_index in Hattr, Hptr by lia.
    rewrite Hattr, Hptr. cbn [mbind option_bind].
    rewrite (shiftl_PAGE_BITS PAGE_BITS_range).
    replace (ptr + page_offset + page_index * PAGE_SIZE)
      with (ptr + (page_index * PAGE_SIZE + page_offset)) by lia.
    destruct Hcases as [Hlast | (Hmore & Hnext & Haddr)].
    + rewrite Hlast, Z.sub_diag, ReadBlockUnsafe_loop_no_bytes. cbn.
      by rewrite app_nil_r.
    + pose proof (PAGE_SIZE_pos PAGE_BITS_range) as Hps.
      assert (Hrest : block_through ptr st ((page_index + 1) * PAGE_SIZE + 0)
                        (remaining_size - copy_amount)).
      { intros i Hi. rewrite Haddr.
        replace (page_index * PAGE_SIZE + page_offset + copy_amount + i)
          with (page_index * PAGE_SIZE + page_offset + (copy_amount + i)) by lia.
        apply Hthrough. lia. }
      rewrite Hnext.
      rewrite (IH (page_index + 1) 0 (remaining_size - copy_amount) st
                 ltac:(lia) ltac:(lia) ltac:(lia) ltac:(lia) ltac:(lia) Hrest).
      cbn [mbind option_bind]. f_equal. f_equal.
      replace (Z.to_nat remaining_size)
        with (Z.to_nat copy_amount + Z.to_nat (remaining_size - copy_amount))%nat by lia.
      rewrite load_bytes_app by apply u64_range.
      rewrite u64_u64_add, Z2Nat.id, Haddr by lia.
      replace (ptr + (page_index * PAGE_SIZE + page_offset) + copy_amount)
        with (ptr + (page_index * PAGE_SIZE + page_offset + copy_amount)) by lia.
      reflexivity.
Qed.

(** Through one pointer the chunks of [WriteBlock] and [WriteBlockUnsafe]
    add up to one flat copy, and nothing is logged. *)
Lemma WriteBlock_loop_flat (invalidate : bool) (ptr dest_addr size : Z) (fuel : nat) :
  ∀ page_index page_offset remaining_size src_buffer st,
    0 ≤ page_index → 0 ≤ page_offset < PAGE_SIZE → 0 ≤ remaining_size →
    page_index * PAGE_SIZE + page_offset + remaining_size ≤ 2 ^ 64 →
    (Z.to_nat remaining_size ≤ fuel)%nat →
    (Z.to_nat remaining_size ≤ length src_buffer)%nat →
    block_through ptr st (page_index * PAGE_SIZE + page_offset) remaining_size →
    WriteBlock_loop invalidate fuel dest_addr size page_index page_offset remaining_size
      src_buffer st
    = Some ([], set_host st
                  (store_bytes (host st)
                     (u64 (ptr + (page_index * PAGE_SIZE + page_offset)))
                     (take (Z.to_nat remaining_size) src_buffer))).
Proof.
  induction fuel as [| fuel IH];
    intros page_index page_offset remaining_size src_buffer st
      Hpage Hoff Hrem Hend Hfuel Hlen Hthrough.
  - assert (remaining_size = 0) as -> by lia. cbn. by destruct st.
  - destruct (Z.eq_dec remaining_size 0) as [-> | Hnz]; [cbn; by destruct st |].
    cbn [WriteBlock_loop].
    destruct (Z.leb_spec remaining_size 0); [lia |].
    destruct (chunk_cases page_index page_offset remaining_size Hpage Hoff
                ltac:(lia) Hend) as (Hcopy & Hfits & Hcases).
    set (copy_amount := Z.min (u64 (PAGE_SIZE - page_offset)) remaining_size) in *.
    destruct (Hthrough 0 ltac:(lia)) as [Hattr Hptr].
    rewrite Z.add_0_r, page_of_index in Hattr, Hptr by lia.
    rewrite Hattr, Hptr. cbn [mbind option_bind].
    rewrite (shiftl_PAGE_BITS PAGE_BITS_range).
    replace (ptr + page_offset + page_index * PAGE_SIZE)
      with (ptr + (page_index * PAGE_SIZE + page_offset)) by lia.
    destruct Hcases as [Hlast | (Hmore & Hnext & Haddr)].
    + rewrite Hlast, Z.sub_diag, WriteBlock_loop_done. reflexivity.
    + pose proof (PAGE_SIZE_pos PAGE_BITS_range) as Hps.
      set (chunk := take (Z.to_nat copy_amount) src_buffer).
      set (st1 := set_host st
                    (store_bytes (host st)
                       (u64 (ptr + (page_index * PAGE_SIZE + page_offset))) chunk)).
      assert (Hrest : block_through ptr st1 ((page_index + 1) * PAGE_SIZE + 0)
                        (remaining_size - copy_amount)).
      { intros i Hi. rewrite Haddr.
        replace (page_index * PAGE_SIZE + page_offset + copy_amount + i)
          with (page_index * PAGE_SIZE + page_offset + (copy_amount + i)) by lia.
        apply Hthrough. lia. }
      assert (Hdrop : (Z.to_nat (remaining_size - copy_amount)
                       ≤ length (drop (Z.to_nat copy_amount) src_buffer))%nat).
      { rewrite length_drop. lia. }
      rewrite Hnext.
      rewrite (IH (page_index + 1) 0 (remaining_size - copy_amount) _ st1
                 ltac:(lia) ltac:(lia) ltac:(lia) ltac:(lia) ltac:(lia) Hdrop Hrest).
      cbn [mbind option_bind app]. unfold st1. cbn [set_host host current_page_table gpu log].
      do 3 f_equal.
      replace (Z.to_nat remaining_size)
        with (Z.to_nat copy_amount + Z.to_nat (remaining_size - copy_amount))%nat by lia.
      rewrite <- take_take_drop, store_bytes_app by apply u64_range.
      unfold chunk. rewrite length_take_le by lia.
      rewrite u64_u64_add, Z2Nat.id, Haddr by lia.
      replace (ptr + (page_index * PAGE_SIZE + page_offset) + copy_amount)
        with (ptr + (page_index * PAGE_SIZE + page_offset + copy_amount)) by lia.
      reflexivity.
Qed.

(** The page index and offset that the block functions start from. *)
Lemma start_of_block (addr : Z) :
  0 ≤ addr →
  0 ≤ Z.shiftr addr PAGE_BITS
  ∧ 0 ≤ Z.land addr PAGE_MASK < PAGE_SIZE
  ∧ Z.shiftr addr PAGE_BITS * PAGE_SIZE + Z.land addr PAGE_MASK = addr.
Proof.
  intros Haddr. pose proof (PAGE_SIZE_pos PAGE_BITS_range) as Hps.
  rewrite (shiftr_PAGE_BITS PAGE_BITS_range), (land_PAGE_MASK PAGE_BITS_range).
  assert (Hne : PAGE_SIZE ≠ 0) by lia.
  pose proof (Z.div_mod addr PAGE_SIZE Hne).
  pose proof (Z.mod_pos_bound addr PAGE_SIZE Hps).
  split; [apply Z.div_pos; lia |]. split; [lia | lia].
Qed.

Lemma ReadBlockUnsafe_is_a_flat_copy_aux (ptr src_addr size : Z) (st : State) :
  0 ≤ src_addr → 0 ≤ size → src_addr + size ≤ 2 ^ 64 →
  block_through ptr st src_addr size →
  ReadBlockUnsafe src_addr size st
  = Some (load_bytes (host st) (u64 (ptr + src_addr)) (Z.to_nat size), st).
Proof.
  intros Haddr Hsize Hend Hthrough.
  destruct (start_of_block src_addr Haddr) as (Hpage & Hoff & Hsum).
  unfold ReadBlockUnsafe.
  rewrite (ReadBlockUnsafe_loop_flat ptr); try lia.
  - by rewrite Hsum.
  - by rewrite Hsum.
Qed.

(** A block that lies in [Memory] pages reached through one pointer is
    read as one flat copy of host memory, whatever page boundaries it
    crosses, and the read changes nothing; when the pointer is not null
    every byte of the block is the byte that [Read8] returns at its
    address. *)
Theorem ReadBlockUnsafe_is_a_flat_copy (ptr src_addr size : Z) (st : State) :
  0 ≤ src_addr → 0 ≤ size → src_addr + size ≤ 2 ^ 64 →
  block_through ptr st src_addr size →
  ∃ bytes,
    ReadBlockUnsafe src_addr size st = Some (bytes, st)
    ∧ bytes = load_bytes (host st) (u64 (ptr + src_addr)) (Z.to_nat size)
    ∧ Z.of_nat (length bytes) = size
    ∧ (ptr ≠ 0 →
       ∀ i, 0 ≤ i < size →
            (λ b, (b, st)) <$> bytes !! Z.to_nat i = Read8 (src_addr + i) st).
Proof.
  intros Haddr Hsize Hend Hthrough.
  eexists. split; [by apply ReadBlockUnsafe_is_a_flat_copy_aux |].
  split; [reflexivity |]. split.
  - rewrite load_bytes_length. lia.
  - intros Hptr i Hi. unfold Read8.
    rewrite (Read_through_pointer 1 (src_addr + i) ptr st Hptr)
      by apply (Hthrough i Hi).
    rewrite (load_bytes_lookup (host st) (Z.to_nat size) (Z.to_nat i))
      by (try apply u64_range; lia).
    cbn [fmap option_fmap option_map load].
    rewrite Z.shiftl_0_l, Z.lor_0_r, u64_u64_add, Z2Nat.id by lia.
    replace (ptr + src_addr + i) with (ptr + (src_addr + i)) by lia.
    reflexivity.
Qed.

(** What [WriteBlock] or [WriteBlockUnsafe] wrote to a block that lies in
    [Memory] pages reached through one pointer, [ReadBlockUnsafe] reads
    back, whatever page boundaries the block crosses; the write logs
    nothing and touches host memory only. *)
Theorem WriteBlock_then_ReadBlockUnsafe
  (ptr dest_addr : Z) (src_buffer : list Z) (st : State) :
  0 ≤ dest_addr → dest_addr + Z.of_nat (length src_buffer) ≤ 2 ^ 64 →
  block_through ptr st dest_addr (Z.of_nat (length src_buffer)) →
  let size := Z.of_nat (length src_buffer) in
  let st' := set_host st (store_bytes (host st) (u64 (ptr + dest_addr)) src_buffer) in
  WriteBlock dest_addr src_buffer size st = Some ([], st')
  ∧ WriteBlockUnsafe dest_addr src_buffer size st = Some ([], st')
  ∧ ReadBlockUnsafe dest_addr size st' = Some (map u8 src_buffer, st').
Proof.
  intros Haddr Hend Hthrough size st'.
  destruct (start_of_block dest_addr Haddr) as (Hpage & Hoff & Hsum).
  assert (Hwrite : ∀ invalidate,
    WriteBlock_loop invalidate (Z.to_nat size) dest_addr size
      (Z.shiftr dest_addr PAGE_BITS) (Z.land dest_addr PAGE_MASK) size src_buffer st
    = Some ([], st')).
  { intros invalidate.
    rewrite (WriteBlock_loop_flat invalidate ptr); unfold size; try lia.
    - rewrite Hsum, Nat2Z.id, firstn_all. reflexivity.
    - by rewrite Hsum. }
  unfold WriteBlock, WriteBlockUnsafe.
  destruct (decide (Z.to_nat size ≤ length src_buffer)%nat) as [_ | Hshort];
    [| unfold size in Hshort; lia].
  split; [apply Hwrite |]. split; [apply Hwrite |].
  rewrite (ReadBlockUnsafe_is_a_flat_copy_aux ptr dest_addr size st').
  - unfold st', size. cbn [host set_host]. rewrite Nat2Z.id.
    rewrite load_bytes_store_bytes; [reflexivity | apply u64_range | lia].
  - exact Haddr.
  - unfold size. lia.
  - exact Hend.
  - exact Hthrough.
Qed.

(** Over unmapped pages the chunks of [ReadBlockUnsafe] are zeros, and
    only the error log changes. *)
Lemma ReadBlockUnsafe_loop_unmapped (src_addr size : Z) (fuel : nat) :
  ∀ page_index page_offset remaining_size st,
    0 ≤ page_index → 0 ≤ page_offset < PAGE_SIZE → 0 ≤ remaining_size →
    page_index * PAGE_SIZE + page_offset + remaining_size ≤ 2 ^ 64 →
    (Z.to_nat remaining_size ≤ fuel)%nat →
    block_unmapped st (page_index * PAGE_SIZE + page_offset) remaining_size →
    ∃ st',
      ReadBlockUnsafe_loop fuel src_addr size page_index page_offset remaining_size st
      = Some (replicate (Z.to_nat remaining_size) 0, st')
      ∧ current_page_table st' = current_page_table st
      ∧ host st' = host st ∧ gpu st' = gpu st
      ∧ ∃ entries, log st' = log st ++ entries ∧ (0 < remaining_size → entries ≠ []).
Proof.
  induction fuel as [| fuel IH];
    intros page_index page_offset remaining_size st Hpage Hoff Hrem Hend Hfuel Hunmapped.
  - assert (remaining_size = 0) as -> by lia.
    exists st. repeat split; try reflexivity.
    exists []. split; [by rewrite app_nil_r | lia].
  - destruct (Z.eq_dec remaining_size 0) as [-> | Hnz].
    { exists st. repeat split; try reflexivity.
      exists []. split; [by rewrite app_nil_r | lia]. }
    cbn [ReadBlockUnsafe_loop].
    destruct (Z.leb_spec remaining_size 0); [lia |].
    destruct (chunk_cases page_index page_offset remaining_size Hpage Hoff
                ltac:(lia) Hend) as (Hcopy & Hfits & Hcases).
    set (copy_amount := Z.min (u64 (PAGE_SIZE - page_offset)) remaining_size) in *.
    pose proof (Hunmapped 0 ltac:(lia)) as Hattr.
    rewrite Z.add_0_r, page_of_index in Hattr by lia.
    rewrite Hattr. cbn [mbind option_bind].
    set (st1 := log_error st _).
    destruct Hcases as [Hlast | (Hmore & Hnext & Haddr)].
    + rewrite Hlast, Z.sub_diag, ReadBlockUnsafe_loop_no_bytes. cbn [mbind option_bind].
      exists st1. rewrite app_nil_r. repeat split; try reflexivity.
      eexists. split; [reflexivity | intros _; discriminate].
    + pose proof (PAGE_SIZE_pos PAGE_BITS_range) as Hps.
      assert (Hrest : block_unmapped st1 ((page_index + 1) * PAGE_SIZE + 0)
                        (remaining_size - copy_amount)).
      { intros i Hi. rewrite Haddr.
        replace (page_index * PAGE_SIZE + page_offset + copy_amount + i)
          with (page_index * PAGE_SIZE + page_offset + (copy_amount + i)) by lia.
        apply Hunmapped. lia. }
      rewrite Hnext.
      destruct (IH (page_index + 1) 0 (remaining_size - copy_amount) st1
                  ltac:(lia) ltac:(lia) ltac:(lia) ltac:(lia) ltac:(lia) Hrest)
        as (st' & -> & Htable & Hhost & Hgpu & entries & Hlog & _).
      cbn [mbind option_bind]. exists st'.
      split.
      { rewrite <- replicate_add. do 3 f_equal. lia. }
      split; [exact Htable |]. split; [exact Hhost |]. split; [exact Hgpu |].
      eexists. split.
      * rewrite Hlog. unfold st1. cbn [log log_error]. rewrite <- (assoc_L (++)).
        reflexivity.
      * intros _. discriminate.
Qed.

(** Over unmapped pages the block writers store nothing and log. *)
Lemma WriteBlock_loop_unmapped (invalidate : bool) (dest_addr size : Z) (fuel : nat) :
  ∀ page_index page_offset remaining_size src_buffer st,
    0 ≤ page_index → 0 ≤ page_offset < PAGE_SIZE → 0 ≤ remaining_size →
    page_index * PAGE_SIZE + page_offset + remaining_size ≤ 2 ^ 64 →
    (Z.to_nat remaining_size ≤ fuel)%nat →
    block_unmapped st (page_index * PAGE_SIZE + page_offset) remaining_size →
    ∃ lines,
      WriteBlock_loop invalidate fuel dest_addr size page_index page_offset
        remaining_size src_buffer st = Some (lines, st)
      ∧ WriteBlock_loop (negb invalidate) fuel dest_addr size page_index page_offset
          remaining_size src_buffer st = Some (lines, st)
      ∧ (0 < remaining_size → lines ≠ []).
Proof.
  induction fuel as [| fuel IH];
    intros page_index page_offset remaining_size src_buffer st
      Hpage Hoff Hrem Hend Hfuel Hunmapped.
  - assert (remaining_size = 0) as -> by lia.
    exists []. split; [reflexivity |]. split; [reflexivity | lia].
  - destruct (Z.eq_dec remaining_size 0) as [-> | Hnz].
    { exists []. split; [reflexivity |]. split; [reflexivity | lia]. }
    cbn [WriteBlock_loop].
    destruct (Z.leb_spec remaining_size 0); [lia |].
    destruct (chunk_cases page_index page_offset remaining_size Hpage Hoff
                ltac:(lia) Hend) as (Hcopy & Hfits & Hcases).
    set (copy_amount := Z.min (u64 (PAGE_SIZE - page_offset)) remaining_size) in *.
    pose proof (Hunmapped 0 ltac:(lia)) as Hattr.
    rewrite Z.add_0_r, page_of_index in Hattr by lia.
    rewrite Hattr. cbn [mbind option_bind].
    destruct Hcases as [Hlast | (Hmore & Hnext & Haddr)].
    + rewrite Hlast, Z.sub_diag, !WriteBlock_loop_done. cbn [mbind option_bind].
      eexists. split; [reflexivity |]. split; [reflexivity |]. intros _. discriminate.
    + pose proof (PAGE_SIZE_pos PAGE_BITS_range) as Hps.
      assert (Hrest : block_unmapped st ((page_index + 1) * PAGE_SIZE + 0)
                        (remaining_size - copy_amount)).
      { intros i Hi. rewrite Haddr.
        replace (page_index * PAGE_SIZE + page_offset + copy_amount + i)
          with (page_index * PAGE_SIZE + page_offset + (copy_amount + i)) by lia.
        apply Hunmapped. lia. }
      rewrite Hnext.
      destruct (IH (page_index + 1) 0 (remaining_size - copy_amount)
                  (drop (Z.to_nat copy_amount) src_buffer) st
                  ltac:(lia) ltac:(lia) ltac:(lia) ltac:(lia) ltac:(lia) Hrest)
        as (lines & -> & -> & _).
      cbn [mbind option_bind].
      eexists. split; [reflexivity |]. split; [reflexivity |]. intros _. discriminate.
Qed.

(** A block that lies in unmapped pages reads as zeros, one for every byte
    asked for, and a block write to it stores nothing; the read changes the
    error log only, and the write reports at least one line. *)
Theorem blocks_on_unmapped_pages (addr size : Z) (st : State) :
  0 ≤ addr → 0 < size → addr + size ≤ 2 ^ 64 →
  block_unmapped st addr size →
  (∃ st', ReadBlockUnsafe addr size st = Some (replicate (Z.to_nat size) 0, st')
          ∧ only_logged st st')
  ∧ (∀ src_buffer, (Z.to_nat size ≤ length src_buffer)%nat →
       ∃ lines, WriteBlock addr src_buffer size st = Some (lines, st)
                ∧ WriteBlockUnsafe addr src_buffer size st = Some (lines, st)
                ∧ lines ≠ []).
Proof.
  intros Haddr Hsize Hend Hunmapped.
  destruct (start_of_block addr Haddr) as (Hpage & Hoff & Hsum).
  rewrite <- Hsum in Hunmapped, Hend.
  split.
  - destruct (ReadBlockUnsafe_loop_unmapped addr size (Z.to_nat size) _ _ size st
                Hpage Hoff ltac:(lia) Hend ltac:(lia) Hunmapped)
      as (st' & Hread & Htable & Hhost & Hgpu & entries & Hlog & Hentries).
    exists st'. split; [exact Hread |].
    split; [exact Htable |]. split; [exact Hhost |]. split; [exact Hgpu |].
    exists entries. split; [by apply Hentries | exact Hlog].
  - intros src_buffer Hlen. unfold WriteBlock, WriteBlockUnsafe.
    destruct (decide (Z.to_nat size ≤ length src_buffer)%nat); [| contradiction].
    destruct (WriteBlock_loop_unmapped true addr size (Z.to_nat size) _ _ size
                src_buffer st Hpage Hoff ltac:(lia) Hend ltac:(lia) Hunmapped)
      as (lines & Hsafe & Hunsafe & Hlines).
    exists lines. split; [exact Hsafe |]. split; [exact Hunsafe |]. by apply Hlines.
Qed.

End CoreMemoryBlocks.

Section CoreMemoryBlockScenarios.
Import Machine CoreMemory Scenarios.
#[local] Existing Instance idle_system.

Lemma block_across_two_pages :
  block_through (host_base + 8192) idle_two_pages 8190 (Z.of_nat 4).
Proof.
  intros i Hi.
  assert (i = 0 ∨ i = 1 ∨ i = 2 ∨ i = 3) as [-> | [-> | [-> | ->]]] by lia;
    split; reflexivity.
Qed.

Lemma ReadBlockUnsafe_across_two_pages :
  ∃ bytes,
    ReadBlockUnsafe 8190 4 idle_two_pages = Some (bytes, idle_two_pages)
    ∧ bytes = load_bytes (host idle_two_pages) (u64 (host_base + 8192 + 8190)) (Z.to_nat 4)
    ∧ Z.of_nat (length bytes) = 4
    ∧ (host_base + 8192 ≠ 0 →
       ∀ i, 0 ≤ i < 4 →
            (λ b, (b, idle_two_pages)) <$> bytes !! Z.to_nat i
            = Read8 (8190 + i) idle_two_pages).
Proof.
  apply (ReadBlockUnsafe_is_a_flat_copy idle_PAGE_BITS (host_base + 8192) 8190 4
           idle_two_pages).
  - lia.
  - lia.
  - lia.
  - apply block_across_two_pages.
Defined.

Lemma WriteBlock_across_two_pages :
  let size := Z.of_nat (length [1; 2; 3; 4]) in
  let st' :=
    set_host idle_two_pages
      (store_bytes (host idle_two_pages) (u64 (host_base + 8192 + 8190)) [1; 2; 3; 4]) in
  WriteBlock 8190 [1; 2; 3; 4] size idle_two_pages = Some ([], st')
  ∧ WriteBlockUnsafe 8190 [1; 2; 3; 4] size idle_two_pages = Some ([], st')
  ∧ ReadBlockUnsafe 8190 size st' = Some (map u8 [1; 2; 3; 4], st').
Proof.
  apply (WriteBlock_then_ReadBlockUnsafe idle_PAGE_BITS (host_base + 8192) 8190
           [1; 2; 3; 4] idle_two_pages).
  - lia.
  - cbn. lia.
  - apply block_across_two_pages.
Defined.

Lemma blocks_on_two_unmapped_pages :
  (∃ st', ReadBlockUnsafe 12286 4 idle_page = Some (replicate (Z.to_nat 4) 0, st')
          ∧ only_logged idle_page st')
  ∧ (∀ src_buffer, (Z.to_nat 4 ≤ length src_buffer)%nat →
       ∃ lines, WriteBlock 12286 src_buffer 4 idle_page = Some (lines, idle_page)
                ∧ WriteBlockUnsafe 12286 src_buffer 4 idle_page = Some (lines, idle_page)
                ∧ lines ≠ []).
Proof.
  apply (blocks_on_unmapped_pages idle_PAGE_BITS 12286 4 idle_page).
  - lia.
  - lia.
  - lia.
  - intros i Hi.
    assert (i = 0 ∨ i = 1 ∨ i = 2 ∨ i = 3) as [-> | [-> | [-> | ->]]] by lia;
      reflexivity.
Defined.

End CoreMemoryBlockScenarios.

(** ** The GPU memory manager: finding free ranges *)

Section MemoryManagerFreeRanges.
Import Machine MemoryManager.
Context `{Layout} `{AddressSpace}.
Hypothesis page_bits_range : 0 ≤ page_bits < 64.

(** The search ends, and an address it returns starts a run of unmapped
    pages, inside the address space, that is at least [size] long. *)
Lemma FindFreeRange_loop_spec (m : MemoryManager.t) (size align : Z) (fuel : nat) :
  0 < align → 0 ≤ address_space_start →
  address_space_size + page_size + align < 2 ^ 64 →
  ∀ gpu_addr available_size pages,
    address_space_start ≤ gpu_addr →
    available_size = page_size * pages → 0 ≤ pages →
    available_size = 0 ∨ available_size < size →
    gpu_addr + available_size ≤ address_space_size + page_size + align →
    (∀ j, 0 ≤ j < pages →
          IsUnmapped (GetPageEntry m (gpu_addr + page_size * j)) = true
          ∧ gpu_addr + page_size * j < address_space_size) →
    (Z.to_nat (address_space_size - (gpu_addr + available_size)) ≤ fuel)%nat →
    ∃ r, FindFreeRange_loop fuel m size align gpu_addr available_size = Some r
      ∧ ∀ a, r = Some a →
             address_space_start ≤ a
             ∧ ∃ found, size ≤ page_size * found ∧ 0 < found
                 ∧ ∀ j, 0 ≤ j < found →
                        IsUnmapped (GetPageEntry m (a + page_size * j)) = true
                        ∧ a + page_size * j < address_space_size.
Proof.
  intros Halign Hstart Hspace.
  pose proof (page_size_pos page_bits_range) as Hps.
  induction fuel as [| fuel IH];
    intros gpu_addr available_size pages Hgpu Havail Hpages Hless Hbound Hfree Hfuel;
    cbn [FindFreeRange_loop];
    rewrite (u64_small (gpu_addr + available_size)) by lia;
    (destruct (Z.ltb_spec (gpu_addr + available_size) address_space_size) as [Hin | Hout];
     [| exists None; split; [reflexivity | discriminate]]).
  { exfalso. lia. }
  destruct (IsUnmapped (GetPageEntry m (gpu_addr + available_size))) eqn:Hpage.
  - rewrite (u64_small (available_size + page_size)) by lia.
    assert (Hfree' : ∀ j, 0 ≤ j < pages + 1 →
              IsUnmapped (GetPageEntry m (gpu_addr + page_size * j)) = true
              ∧ gpu_addr + page_size * j < address_space_size).
    { intros j Hj. destruct (Z.eq_dec j pages) as [-> | Hne].
      - rewrite <- Havail. auto.
      - apply Hfree. lia. }
    destruct (Z.leb_spec size (available_size + page_size)) as [Henough | Hmore].
    + exists (Some gpu_addr). split; [reflexivity |].
      intros a [= <-]. split; [exact Hgpu |].
      exists (pages + 1). split; [lia |]. split; [lia | exact Hfree'].
    + apply (IH gpu_addr (available_size + page_size) (pages + 1)); try lia.
      exact Hfree'.
  - rewrite (u64_small (available_size + page_size)) by lia.
    rewrite (u64_small (gpu_addr + (available_size + page_size))) by lia.
    destruct (Z.eqb_spec align 0) as [| _]; [lia |].
    set (next := gpu_addr + (available_size + page_size)).
    pose proof (Z.mod_pos_bound next align Halign) as Hrem.
    assert (Hnext0 : 0 ≤ next) by (unfold next; lia).
    pose proof (Z.mod_le next align Hnext0 Halign) as Hrem'.
    assert (Hnext : ∀ g, next ≤ g → g ≤ next + align →
              ∃ r, FindFreeRange_loop fuel m size align g 0 = Some r
                ∧ ∀ a, r = Some a →
                       address_space_start ≤ a
                       ∧ ∃ found, size ≤ page_size * found ∧ 0 < found
                           ∧ ∀ j, 0 ≤ j < found →
                                  IsUnmapped (GetPageEntry m (a + page_size * j)) = true
                                  ∧ a + page_size * j < address_space_size).
    { intros g Hlow Hhigh. unfold next in *.
      apply (IH g 0 0); lia. }
    destruct (Z.eqb_spec (next mod align) 0) as [Hzero | Hnonzero]; cbn [negb].
    + apply Hnext; lia.
    + rewrite (u64_small (next - next mod align)) by (unfold next in *; lia).
      rewrite (u64_small (next - next mod align + align)) by (unfold next in *; lia).
      apply Hnext; lia.
Qed.

(** [FindFreeRange] returns, and the address it finds, if any, lies in the
    address space and starts a run of unmapped pages that covers [size]
    bytes: [AllocateFixed] accepts it. *)
Theorem FindFreeRange_finds_free_pages (m : MemoryManager.t) (size align : Z) :
  0 ≤ size →
  0 ≤ address_space_start ≤ address_space_size →
  0 < (if align =? 0 then page_size else AlignUp align page_size) →
  address_space_size + 2 * page_size
  + (if align =? 0 then page_size else AlignUp align page_size) < 2 ^ 64 →
  ∃ r, FindFreeRange size align m = Some r
    ∧ ∀ a, r = Some a →
           address_space_start ≤ a
           ∧ (∀ j, 0 ≤ j → page_size * j < size →
                   IsUnmapped (GetPageEntry m (a + page_size * j)) = true
                   ∧ a + page_size * j < address_space_size)
           ∧ ∃ m', AllocateFixed a size m = Some (Some a, m').
Proof.
  intros Hsize Hstart Halign Hspace.
  pose proof (page_size_pos page_bits_range) as Hps.
  unfold FindFreeRange.
  set (align' := if align =? 0 then page_size else AlignUp align page_size) in *.
  assert (Hspace' : address_space_size + page_size + align' < 2 ^ 64) by lia.
  assert (Hnone : ∀ j, 0 ≤ j < 0 →
            IsUnmapped (GetPageEntry m (address_space_start + page_size * j)) = true
            ∧ address_space_start + page_size * j < address_space_size) by (intros; lia).
  assert (H1 : address_space_start ≤ address_space_start) by lia.
  assert (H2 : 0 = page_size * 0) by lia.
  assert (H3 : 0 ≤ 0) by lia.
  assert (H4 : 0 = 0 ∨ 0 < size) by lia.
  assert (H5 : address_space_start + 0 ≤ address_space_size + page_size + align') by lia.
  assert (H6 : (Z.to_nat (address_space_size - (address_space_start + 0))
                ≤ Z.to_nat address_space_size)%nat) by lia.
  destruct (FindFreeRange_loop_spec m size align' (Z.to_nat address_space_size)
              Halign (proj1 Hstart) Hspace' address_space_start 0 0
              H1 H2 H3 H4 H5 Hnone H6) as (r & Hr & Hfound).
  clear H1 H2 H3 H4 H5 H6.
  exists r. split; [exact Hr |].
  intros a Ha. destruct (Hfound a Ha) as (Hlow & found & Hcovers & Hpos & Hfree).
  assert (Hpages : ∀ j, 0 ≤ j → page_size * j < size →
            IsUnmapped (GetPageEntry m (a + page_size * j)) = true
            ∧ a + page_size * j < address_space_size).
  { intros j Hj Hlt. apply Hfree. nia. }
  split; [exact Hlow |]. split; [exact Hpages |].
  pose proof (Hfree (found - 1) ltac:(lia)) as [_ Hlast].
  assert (Hend : a + size ≤ address_space_size + page_size) by nia.
  unfold AllocateFixed.
  destruct (AllocateFixed_loop_spec page_bits_range a size m (Z.to_nat size) 0)
    as (free & -> & Hiff); try lia.
  assert (free = true) as ->.
  { apply Hiff. intros j Hj Hlt. rewrite Z.add_0_l. apply Hpages; lia. }
  cbn [mbind option_bind]. unfold UpdateRange.
  destruct (UpdateRange_loop_below page_bits_range a Allocated size (Z.to_nat size)
              0 size m) as (m' & -> & _); try lia.
  cbn. eauto.
Qed.

(** [Allocate] and [MapAllocate] fail only when [FindFreeRange] finds
    nothing: the result of [AllocateFixed] that [Allocate] dereferences is
    never empty.  What they return is the address found, and [MapAllocate]
    takes over unmapped pages only. *)
Theorem Allocate_takes_the_free_range (m : MemoryManager.t) (cpu_addr size align : Z) :
  0 ≤ size →
  0 ≤ address_space_start ≤ address_space_size →
  0 < (if align =? 0 then page_size else AlignUp align page_size) →
  address_space_size + 2 * page_size
  + (if align =? 0 then page_size else AlignUp align page_size) < 2 ^ 64 →
  (FindFreeRange size align m = Some None
   ∧ Allocate size align m = inl EmptyOptionalDereferenced
   ∧ MapAllocate cpu_addr size align m = inl EmptyOptionalDereferenced)
  ∨ ∃ a m1 m2,
      FindFreeRange size align m = Some (Some a)
      ∧ Allocate size align m = inr (a, m1)
      ∧ MapAllocate cpu_addr size align m = inr (a, m2)
      ∧ ∀ j, 0 ≤ j → page_size * j < size →
             GetPageEntry m (a + page_size * j) = Unmapped.
Proof.
  intros Hsize Hstart Halign Hspace.
  pose proof (page_size_pos page_bits_range) as Hps.
  unfold FindFreeRange.
  set (align' := if align =? 0 then page_size else AlignUp align page_size) in *.
  assert (Hspace' : address_space_size + page_size + align' < 2 ^ 64) by lia.
  assert (Hnone : ∀ j, 0 ≤ j < 0 →
            IsUnmapped (GetPageEntry m (address_space_start + page_size * j)) = true
            ∧ address_space_start + page_size * j < address_space_size) by (intros; lia).
  assert (H1 : address_space_start ≤ address_space_start) by lia.
  assert (H2 : 0 = page_size * 0) by lia.
  assert (H3 : 0 ≤ 0) by lia.
  assert (H4 : 0 = 0 ∨ 0 < size) by lia.
  assert (H5 : address_space_start + 0 ≤ address_space_size + page_size + align') by lia.
  assert (H6 : (Z.to_nat (address_space_size - (address_space_start + 0))
                ≤ Z.to_nat address_space_size)%nat) by lia.
  destruct (FindFreeRange_loop_spec m size align' (Z.to_nat address_space_size)
              Halign (proj1 Hstart) Hspace' address_space_start 0 0
              H1 H2 H3 H4 H5 Hnone H6) as (r & Hr & Hfound).
  clear H1 H2 H3 H4 H5 H6.
  unfold Allocate, MapAllocate, FindFreeRange. fold align'. rewrite Hr.
  destruct r as [a |]; [right | left; auto].
  destruct (Hfound a eq_refl) as (Hlow & found & Hcovers & Hpos & Hfree).
  assert (Hpages : ∀ j, 0 ≤ j → page_size * j < size →
            IsUnmapped (GetPageEntry m (a + page_size * j)) = true).
  { intros j Hj Hlt. apply Hfree. nia. }
  pose proof (Hfree (found - 1) ltac:(lia)) as [_ Hlast].
  assert (Hend : a + size ≤ address_space_size + page_size) by nia.
  unfold AllocateFixed, Map.
  destruct (AllocateFixed_loop_spec page_bits_range a size m (Z.to_nat size) 0)
    as (free & -> & Hiff); try lia.
  assert (free = true) as ->.
  { apply Hiff. intros j Hj Hlt. rewrite Z.add_0_l. apply Hpages; lia. }
  cbn [mbind option_bind]. unfold UpdateRange.
  destruct (UpdateRange_loop_below page_bits_range a Allocated size (Z.to_nat size)
              0 size m) as (m1 & -> & _); try lia.
  destruct (UpdateRange_loop_below page_bits_range a (Valid cpu_addr) size (Z.to_nat size)
              0 size m) as (m2 & -> & _); try lia.
  cbn. exists a, m1, m2. repeat split; try reflexivity.
  intros j Hj Hlt. specialize (Hpages j Hj Hlt).
  by destruct (GetPageEntry m (a + page_size * j)).
Qed.

End MemoryManagerFreeRanges.

Section MemoryManagerFreeRangeScenarios.
Import Machine MemoryManager Scenarios.

Lemma FindFreeRange_skips_the_mapped_page :
  ∃ r, FindFreeRange (H := gpu_64k) (H0 := small_space) 100000 0 one_mapping = Some r
    ∧ ∀ a, r = Some a →
           address_space_start (AddressSpace := small_space) ≤ a
           ∧ (∀ j, 0 ≤ j → page_size (H := gpu_64k) * j < 100000 →
                   IsUnmapped (GetPageEntry (H := gpu_64k) one_mapping
                                 (a + page_size (H := gpu_64k) * j)) = true
                   ∧ a + page_size (H := gpu_64k) * j
                     < address_space_size (AddressSpace := small_space))
           ∧ ∃ m', AllocateFixed (H := gpu_64k) a 100000 one_mapping = Some (Some a, m').
Proof.
  apply (FindFreeRange_finds_free_pages (H := gpu_64k) (H0 := small_space)
           gpu_64k_page_bits one_mapping 100000 0).
  - lia.
  - cbn. lia.
  - reflexivity.
  - reflexivity.
Defined.

Lemma Allocate_after_the_mapped_page :
  (FindFreeRange (H := gpu_64k) (H0 := small_space) 100000 0 one_mapping = Some None
   ∧ Allocate (H := gpu_64k) (H0 := small_space) 100000 0 one_mapping
     = inl EmptyOptionalDereferenced
   ∧ MapAllocate (H := gpu_64k) (H0 := small_space) 8192 100000 0 one_mapping
     = inl EmptyOptionalDereferenced)
  ∨ ∃ a m1 m2,
      FindFreeRange (H := gpu_64k) (H0 := small_space) 100000 0 one_mapping = Some (Some a)
      ∧ Allocate (H := gpu_64k) (H0 := small_space) 100000 0 one_mapping = inr (a, m1)
      ∧ MapAllocate (H := gpu_64k) (H0 := small_space) 8192 100000 0 one_mapping
        = inr (a, m2)
      ∧ ∀ j, 0 ≤ j → page_size (H := gpu_64k) * j < 100000 →
             GetPageEntry (H := gpu_64k) one_mapping (a + page_size (H := gpu_64k) * j)
             = Unmapped.
Proof.
  apply (Allocate_takes_the_free_range (H := gpu_64k) (H0 := small_space)
           gpu_64k_page_bits one_mapping 8192 100000 0).
  - lia.
  - cbn. lia.
  - reflexivity.
  - reflexivity.
Defined.

(** The search on the scenario, evaluated: the first page of the address
    space is mapped, so the range found starts at the next one. *)
Example FindFreeRange_on_one_mapping :
  FindFreeRange (H := gpu_64k) (H0 := small_space) 100000 0 one_mapping
  = Some (Some 131072).
Proof. vm_compute. reflexivity. Qed.

End MemoryManagerFreeRangeScenarios.

(** ** The GPU memory manager: granular ranges *)

Section MemoryManagerGranular.
Import Machine MemoryManager.
Context `{Layout} `{CoreMemory.System}.
Hypothesis PAGE_BITS_range : 0 ≤ CoreMemory.PAGE_BITS < 64.

(** A range that [IsGranularRange] accepts starts at a GPU address with a
    CPU address, and all its bytes, counted from that CPU address, lie in
    one CPU page; a range whose start has no CPU address is refused. *)
Theorem IsGranularRange_stays_in_one_page (m : MemoryManager.t) (gpu_addr size : Z) :
  0 ≤ size < 2 ^ 63 →
  (GpuToCpuAddress m gpu_addr = None → IsGranularRange m gpu_addr size = false)
  ∧ (IsGranularRange m gpu_addr size = true →
     ∃ cpu_addr,
       GpuToCpuAddress m gpu_addr = Some cpu_addr
       ∧ ∀ i, 0 ≤ i < size →
              Z.shiftr (cpu_addr + i) CoreMemory.PAGE_BITS
              = Z.shiftr cpu_addr CoreMemory.PAGE_BITS).
Proof.
  intros Hsize. unfold IsGranularRange. split.
  - by intros ->.
  - destruct (GpuToCpuAddress m gpu_addr) as [cpu_addr |] eqn:Hcpu; [| discriminate].
    intros Hpage. exists cpu_addr. split; [reflexivity |].
    pose proof (PAGE_SIZE_pos PAGE_BITS_range) as Hps.
    pose proof (PAGE_SIZE_le PAGE_BITS_range) as Hle.
    assert (Hcpu0 : 0 ≤ cpu_addr).
    { unfold GpuToCpuAddress in Hcpu. destruct (negb _); [discriminate |].
      injection Hcpu as <-. apply u64_range. }
    rewrite (land_PAGE_MASK PAGE_BITS_range) in Hpage.
    pose proof (Z.mod_pos_bound cpu_addr CoreMemory.PAGE_SIZE Hps) as Hmod.
    rewrite u64_small in Hpage by lia.
    apply Z.leb_le in Hpage.
    intros i Hi.
    rewrite !(shiftr_PAGE_BITS PAGE_BITS_range).
    assert (Hne : CoreMemory.PAGE_SIZE ≠ 0) by lia.
    pose proof (Z.div_mod cpu_addr CoreMemory.PAGE_SIZE Hne) as Hdm.
    symmetry.
    apply (Z.div_unique (cpu_addr + i) CoreMemory.PAGE_SIZE
             (cpu_addr / CoreMemory.PAGE_SIZE) (cpu_addr mod CoreMemory.PAGE_SIZE + i));
      lia.
Qed.

End MemoryManagerGranular.

Section MemoryManagerGranularScenarios.
Import Machine MemoryManager Scenarios.
#[local] Existing Instance idle_system.

Lemma IsGranularRange_of_the_mapped_page :
  (GpuToCpuAddress (H := gpu_64k) one_mapping 65536 = None →
   IsGranularRange (H := gpu_64k) one_mapping 65536 4096 = false)
  ∧ (IsGranularRange (H := gpu_64k) one_mapping 65536 4096 = true →
     ∃ cpu_addr,
       GpuToCpuAddress (H := gpu_64k) one_mapping 65536 = Some cpu_addr
       ∧ ∀ i, 0 ≤ i < 4096 →
              Z.shiftr (cpu_addr + i) CoreMemory.PAGE_BITS
              = Z.shiftr cpu_addr CoreMemory.PAGE_BITS).
Proof.
  apply (IsGranularRange_stays_in_one_page (H := gpu_64k) idle_PAGE_BITS
           one_mapping 65536 4096).
  lia.
Defined.

Example IsGranularRange_scenario :
  IsGranularRange (H := gpu_64k) one_mapping 65536 4096 = true
  ∧ IsGranularRange (H := gpu_64k) one_mapping 65537 4096 = false
  ∧ IsGranularRange (H := gpu_64k) one_mapping 0 1 = false.
Proof. vm_compute. auto. Qed.

End MemoryManagerGranularScenarios.

(** ** The texture cache: what a region query finds *)

Section TextureCacheRegions.
Import Machine TextureCache.

Lemma MarkAsPicked_false_at_rest (s : Surface) :
  is_picked s = false → MarkAsPicked false s = s.
Proof. destruct s; cbn; intros ->; reflexivity. Qed.

Lemma picking_start (tc : TextureCache.t) : picking [] tc tc.
Proof.
  repeat split; intros id;
    (case_bool_decide as Hin; [by apply elem_of_nil in Hin | reflexivity]).
Qed.

(** One bucket: the vector gains the surfaces of the bucket that overlap
    the region and are not in it yet. *)
Lemma pick_bucket_picking (tc0 : TextureCache.t) (addr addr_end : Z) (bucket : list nat) :
  at_rest tc0 →
  ∀ acc tc,
    picking acc tc0 tc →
    picking (pick_bucket bucket addr addr_end acc tc).1 tc0
            (pick_bucket bucket addr addr_end acc tc).2
    ∧ ∀ id, id ∈ (pick_bucket bucket addr addr_end acc tc).1
            ↔ id ∈ acc
              ∨ (id ∈ bucket
                 ∧ ∃ s, surfaces tc0 !! id = Some s ∧ Overlaps s addr addr_end = true).
Proof.
  intros Hrest. induction bucket as [| x rest IH]; intros acc tc Hp; cbn [pick_bucket].
  - split; [exact Hp |]. intros id. split; [auto |].
    intros [Hin | [Hin _]]; [exact Hin | by apply elem_of_nil in Hin].
  - pose proof Hp as (Hreg & Hl1 & Hticks & Hevents & Hsurf).
    rewrite (Hsurf x).
    assert (Hskip :
      (x ∈ acc ∨ ∀ s, surfaces tc0 !! x = Some s → Overlaps s addr addr_end = false) →
      picking (pick_bucket rest addr addr_end acc tc).1 tc0
              (pick_bucket rest addr addr_end acc tc).2
      ∧ ∀ id, id ∈ (pick_bucket rest addr addr_end acc tc).1
              ↔ id ∈ acc
                ∨ (id ∈ x :: rest
                   ∧ ∃ s, surfaces tc0 !! id = Some s ∧ Overlaps s addr addr_end = true)).
    { intros Hwhy. destruct (IH acc tc Hp) as [Hp' Hmem]. split; [exact Hp' |].
      intros id. rewrite Hmem, elem_of_cons. split.
      - intros [? | [? ?]]; [by left | right; split; [by right | assumption]].
      - intros [? | [[-> | ?] (s & Hs & Ho)]]; [by left | | right; eauto].
        destruct Hwhy as [? | Hno]; [by left |].
        rewrite (Hno s Hs) in Ho. discriminate. }
    case_bool_decide as Hin.
    + destruct (surfaces tc0 !! x) as [s0 |]; cbn [fmap option_fmap option_map].
      * cbn [is_picked MarkAsPicked orb]. apply Hskip. by left.
      * apply Hskip. by left.
    + destruct (surfaces tc0 !! x) as [s0 |] eqn:Hx; [| apply Hskip; right; by intros].
      rewrite (Hrest x s0 Hx). cbn [orb].
      destruct (Overlaps s0 addr addr_end) eqn:Hover; cbn [negb].
      2:{ apply Hskip. right. intros s [= <-]. exact Hover. }
      assert (Hp' : picking (acc ++ [x]) tc0 (update_surface (MarkAsPicked true) x tc)).
      { repeat split; try assumption. intros id. cbn.
        rewrite lookup_alter. destruct (decide (x = id)) as [<- | Hne].
        - rewrite (Hsurf x), bool_decide_eq_false_2 by exact Hin.
          rewrite bool_decide_eq_true_2; [reflexivity |].
          rewrite elem_of_app, list_elem_of_singleton. by right.
        - rewrite (Hsurf id).
          assert (Hiff : id ∈ acc ++ [x] ↔ id ∈ acc).
          { rewrite elem_of_app, list_elem_of_singleton.
            split; [intros [? | ->]; [assumption | contradiction] | by left]. }
          by rewrite (bool_decide_ext _ _ Hiff). }
      destruct (IH _ _ Hp') as [Hp'' Hmem]. split; [exact Hp'' |].
      intros id. rewrite Hmem, elem_of_app, list_elem_of_singleton, elem_of_cons.
      split.
      * intros [[? | ->] | [? ?]]; [by left | right; split; [by left | eauto] |].
        right. split; [by right | assumption].
      * intros [? | [[-> | ?] ?]]; [by left; left | by left; right | by right].
Qed.

(** The buckets of [count] pages from [start]. *)
Lemma pick_pages_picking (tc0 : TextureCache.t) (addr addr_end : Z) (count : nat) :
  at_rest tc0 →
  ∀ start acc tc,
    0 ≤ start → start + Z.of_nat count < 2 ^ 64 →
    picking acc tc0 tc →
    picking (pick_pages count start addr addr_end acc tc).1 tc0
            (pick_pages count start addr addr_end acc tc).2
    ∧ ∀ id, id ∈ (pick_pages count start addr addr_end acc tc).1
            ↔ id ∈ acc
              ∨ ∃ page bucket s,
                  start ≤ page < start + Z.of_nat count
                  ∧ registry tc0 !! page = Some bucket ∧ id ∈ bucket
                  ∧ surfaces tc0 !! id = Some s ∧ Overlaps s addr addr_end = true.
Proof.
  intros Hrest. induction count as [| count IH]; intros start acc tc Hstart Hend Hp;
    cbn [pick_pages].
  - split; [exact Hp |]. intros id. split; [auto |].
    intros [? | (page & ? & ? & ? & _)]; [assumption | lia].
  - rewrite (u64_small (start + 1)) by lia.
    assert (Hstart' : 0 ≤ start + 1) by lia.
    assert (Hend' : start + 1 + Z.of_nat count < 2 ^ 64) by lia.
    pose proof Hp as (Hreg & _). rewrite Hreg.
    destruct (registry tc0 !! start) as [bucket |] eqn:Hbucket.
    + destruct (pick_bucket_picking tc0 addr addr_end bucket Hrest acc tc Hp)
        as [Hp1 Hmem1].
      destruct (pick_bucket bucket addr addr_end acc tc) as [acc1 tc1]. cbn [fst snd] in *.
      destruct (IH (start + 1) acc1 tc1 Hstart' Hend' Hp1) as [Hp2 Hmem2].
      split; [exact Hp2 |].
      intros id. rewrite Hmem2, Hmem1. split.
      * intros [[? | (Hin & s & Hs & Ho)] | (page & b & s & Hpage & ?)].
        -- by left.
        -- right. exists start, bucket, s. repeat split; try assumption; lia.
        -- right. exists page, b, s. split; [lia | assumption].
      * intros [? | (page & b & s & Hpage & Hb & Hin & Hs & Ho)]; [by left; left |].
        destruct (Z.eq_dec page start) as [-> | Hne].
        -- left. right. rewrite Hbucket in Hb. injection Hb as <-. eauto.
        -- right. exists page, b, s. repeat split; try assumption; lia.
    + destruct (IH (start + 1) acc tc Hstart' Hend' Hp) as [Hp2 Hmem2].
      split; [exact Hp2 |].
      intros id. rewrite Hmem2. split.
      * intros [? | (page & b & s & Hpage & ?)]; [by left |].
        right. exists page, b, s. split; [lia | assumption].
      * intros [? | (page & b & s & Hpage & Hb & ?)]; [by left |].
        destruct (Z.eq_dec page start) as [-> | Hne]; [congruence |].
        right. exists page, b, s. split; [lia | split; assumption].
Qed.

Lemma unpick_all_lookup (ids : list nat) :
  ∀ tc,
    registry (unpick_all ids tc) = registry tc
    ∧ l1_cache (unpick_all ids tc) = l1_cache tc
    ∧ ticks (unpick_all ids tc) = ticks tc
    ∧ events (unpick_all ids tc) = events tc
    ∧ ∀ id, surfaces (unpick_all ids tc) !! id
            = if bool_decide (id ∈ ids) then MarkAsPicked false <$> surfaces tc !! id
              else surfaces tc !! id.
Proof.
  induction ids as [| x ids IH]; intros tc.
  - repeat split; intros id;
      (case_bool_decide as Hin; [by apply elem_of_nil in Hin | reflexivity]).
  - change (unpick_all (x :: ids) tc)
      with (unpick_all ids (update_surface (MarkAsPicked false) x tc)).
    destruct (IH (update_surface (MarkAsPicked false) x tc))
      as (Hreg & Hl1 & Hticks & Hevents & Hsurf).
    repeat split; try assumption.
    intros id. rewrite Hsurf. cbn. rewrite lookup_alter.
    destruct (decide (x = id)) as [<- | Hne].
    + rewrite (bool_decide_eq_true_2 (x ∈ x :: ids)) by (apply elem_of_cons; by left).
      case_bool_decide; [| reflexivity].
      destruct (surfaces tc !! x); [| reflexivity]. cbn. by rewrite MarkAsPicked_twice.
    + assert (Hiff : id ∈ x :: ids ↔ id ∈ ids).
      { rewrite elem_of_cons.
        split; [intros [-> | ?]; [contradiction | assumption] | by right]. }
      by rewrite (bool_decide_ext _ _ Hiff).
Qed.

Lemma GetSurfacesInRegion_at_rest (addr size : Z) (tc : TextureCache.t) :
  at_rest tc →
  0 ≤ addr → 0 < size → addr + size < 2 ^ 64 →
  (GetSurfacesInRegion addr size tc).2 = tc
  ∧ NoDup (GetSurfacesInRegion addr size tc).1
  ∧ ∀ id, id ∈ (GetSurfacesInRegion addr size tc).1 ↔ in_region tc addr size id.
Proof.
  intros Hrest Haddr Hsize Hend.
  split; [| split; [apply GetSurfacesInRegion_spec |]].
  all: unfold GetSurfacesInRegion.
  all: destruct (Z.eqb_spec size 0) as [| _]; [lia |].
  all: rewrite (u64_small (addr + size)), (u64_small (addr + size - 1)) by lia.
  all: set (start := Z.shiftr addr registry_page_bits).
  all: set (end_ := Z.shiftr (addr + size - 1) registry_page_bits).
  all: assert (Hpages : 0 ≤ start ≤ end_ ∧ end_ < 2 ^ 44).
  1,3: unfold start, end_, registry_page_bits;
       rewrite !Z.shiftr_div_pow2 by lia;
       split; [split; [apply Z.div_pos; lia | apply Z.div_le_mono; lia] |];
       apply Z.div_lt_upper_bound; lia.
  all: destruct (pick_pages_picking tc addr (addr + size) (Z.to_nat (end_ - start + 1))
                   Hrest start [] tc ltac:(lia) ltac:(lia) (picking_start tc))
         as [Hp Hmem].
  all: destruct (pick_pages _ start addr (addr + size) [] tc) as [found tc1].
  all: cbn [fst snd] in *.
  - destruct Hp as (Hreg & Hl1 & Hticks & Hevents & Hsurf).
    destruct (unpick_all_lookup found tc1) as (Hreg' & Hl1' & Hticks' & Hevents' & Hsurf').
    assert (Hs : surfaces (unpick_all found tc1) = surfaces tc).
    { apply map_eq. intros id. rewrite Hsurf', (Hsurf id).
      case_bool_decide; [| reflexivity].
      destruct (surfaces tc !! id) as [s |] eqn:Hid; [| reflexivity]. cbn.
      rewrite MarkAsPicked_twice, MarkAsPicked_false_at_rest; [reflexivity |].
      by apply (Hrest id). }
    destruct (unpick_all found tc1), tc. cbn in *. congruence.
  - intros id. rewrite Hmem. unfold in_region. fold start end_. split.
    + intros [Hin | (page & bucket & s & Hpage & ?)]; [by apply elem_of_nil in Hin |].
      exists page, bucket, s. split; [lia | assumption].
    + intros (page & bucket & s & Hpage & ?). right.
      exists page, bucket, s. split; [lia | assumption].
Qed.

(** The traversal guard is an implementation detail: a region query on a
    cache at rest leaves the cache exactly as it was, and returns, each
    once, exactly the surfaces that are filed under a page of the region and
    overlap it. *)
Theorem GetSurfacesInRegion_finds_what_overlaps
  (addr size : Z) (tc : TextureCache.t) :
  at_rest tc →
  0 ≤ addr → 0 < size → addr + size < 2 ^ 64 →
  (GetSurfacesInRegion addr size tc).2 = tc
  ∧ NoDup (GetSurfacesInRegion addr size tc).1
  ∧ ∀ id, id ∈ (GetSurfacesInRegion addr size tc).1 ↔ in_region tc addr size id.
Proof. apply GetSurfacesInRegion_at_rest. Qed.

Lemma registry_page_le (a b : Z) :
  a ≤ b → Z.shiftr a registry_page_bits ≤ Z.shiftr b registry_page_bits.
Proof.
  intros Hab. unfold registry_page_bits. rewrite !Z.shiftr_div_pow2 by lia.
  apply Z.div_le_mono; lia.
Qed.

Lemma registry_page_range (a : Z) :
  0 ≤ a < 2 ^ 64 → 0 ≤ Z.shiftr a registry_page_bits < 2 ^ 44.
Proof.
  intros Ha. unfold registry_page_bits. rewrite Z.shiftr_div_pow2 by lia.
  split; [apply Z.div_pos; lia | apply Z.div_lt_upper_bound; lia].
Qed.

(** What [RegisterInnerCache] leaves in the registry. *)
Lemma register_pages_spec (id : nat) (count : nat) :
  ∀ start reg,
    0 ≤ start → start + Z.of_nat count < 2 ^ 64 →
    (∀ p, start ≤ p < start + Z.of_nat count →
          register_pages count start id reg !! p = Some (default [] (reg !! p) ++ [id]))
    ∧ (∀ p, ¬ (start ≤ p < start + Z.of_nat count) →
            register_pages count start id reg !! p = reg !! p).
Proof.
  induction count as [| count IH]; intros start reg Hstart Hend; cbn [register_pages].
  - split; [intros; lia | reflexivity].
  - rewrite (u64_small (start + 1)) by lia.
    assert (Hstart' : 0 ≤ start + 1) by lia.
    assert (Hend' : start + 1 + Z.of_nat count < 2 ^ 64) by lia.
    destruct (IH (start + 1) (<[start := default [] (reg !! start) ++ [id]]> reg)
                Hstart' Hend') as [Hin Hout].
    split.
    + intros p Hp. destruct (Z.eq_dec p start) as [-> | Hne].
      * rewrite Hout by lia. by rewrite lookup_insert_eq.
      * rewrite Hin by lia. by rewrite lookup_insert_ne.
    + intros p Hp. rewrite Hout by lia. rewrite lookup_insert_ne; [reflexivity | lia].
Qed.

Section WithGpuMemory.
Context `{MemoryManager.Layout}.

(** A surface registered at a mapped GPU address is found: the cache is
    still at rest, the surface carries its CPU address and is on record in
    the L1 map, every region query that overlaps its guest memory returns
    it, and the framebuffer lookup at its CPU address returns a surface
    that starts there. *)
Theorem Register_makes_the_surface_findable
  (gpu_memory : MemoryManager.t) (id : nat) (tc : TextureCache.t) (s : Surface)
  (cpu : Z) :
  at_rest tc →
  surfaces tc !! id = Some s →
  MemoryManager.GpuToCpuAddress gpu_memory (gpu_addr s) = Some cpu →
  0 < cpu → 0 < guest_memory_size s → cpu + guest_memory_size s < 2 ^ 64 →
  at_rest (Register gpu_memory id tc)
  ∧ surfaces (Register gpu_memory id tc) !! id = Some (mark_registered cpu s)
  ∧ l1_cache (Register gpu_memory id tc) !! cpu = Some id
  ∧ (∀ addr size,
       0 ≤ addr → 0 < size → addr + size < 2 ^ 64 →
       cpu < addr + size → addr < cpu + guest_memory_size s →
       id ∈ (GetSurfacesInRegion addr size (Register gpu_memory id tc)).1)
  ∧ ∃ id' s',
      TryFindFramebufferSurface cpu (Register gpu_memory id tc) = Some id'
      ∧ surfaces (Register gpu_memory id tc) !! id' = Some s'
      ∧ cpu_addr s' = cpu.
Proof.
  intros Hrest Hid Hcpu Hpos Hsize Hend.
  unfold Register. rewrite Hid, Hcpu.
  set (tc1 := update_surface (mark_registered cpu) id tc).
  assert (Hid1 : surfaces tc1 !! id = Some (mark_registered cpu s)).
  { unfold tc1. cbn. by rewrite lookup_alter_eq, Hid. }
  unfold RegisterInnerCache. rewrite Hid1.
  unfold GetCpuAddrEnd. cbn [cpu_addr mark_registered guest_memory_size].
  rewrite (u64_small (cpu + guest_memory_size s)) by lia.
  rewrite (u64_small (cpu + guest_memory_size s - 1)) by lia.
  set (start := Z.shiftr cpu registry_page_bits).
  set (end_ := Z.shiftr (cpu + guest_memory_size s - 1) registry_page_bits).
  pose proof (registry_page_range cpu ltac:(lia)) as Hstart. fold start in Hstart.
  pose proof (registry_page_range (cpu + guest_memory_size s - 1) ltac:(lia)) as Hend_.
  fold end_ in Hend_.
  pose proof (registry_page_le cpu (cpu + guest_memory_size s - 1) ltac:(lia)) as Hle.
  fold start end_ in Hle.
  assert (Hcount : Z.of_nat (Z.to_nat (end_ - start + 1)) = end_ - start + 1) by lia.
  destruct (register_pages_spec id (Z.to_nat (end_ - start + 1)) start (registry tc1)
              ltac:(lia) ltac:(lia)) as [Hfiled _].
  set (tc' := emit _ _).
  assert (Hsurf' : surfaces tc' = surfaces tc1) by reflexivity.
  assert (Hrest' : at_rest tc').
  { intros c sc. rewrite Hsurf'. unfold tc1. cbn. rewrite lookup_alter.
    destruct (decide (id = c)) as [<- | _].
    - rewrite Hid. intros [= <-]. cbn. by apply (Hrest id).
    - apply Hrest. }
  split; [exact Hrest' |]. split; [by rewrite Hsurf' |].
  split; [apply lookup_insert_eq |]. split.
  - intros addr size Haddr Hsz Hqend Hlow Hhigh.
    apply (GetSurfacesInRegion_at_rest addr size tc' Hrest' Haddr Hsz Hqend).
    set (x := Z.max cpu addr).
    exists (Z.shiftr x registry_page_bits),
      (default [] (registry tc1 !! Z.shiftr x registry_page_bits) ++ [id]),
      (mark_registered cpu s).
    split; [split; apply registry_page_le; lia |].
    split.
    { apply Hfiled. rewrite Hcount.
      pose proof (registry_page_le cpu x ltac:(lia)).
      pose proof (registry_page_le x (cpu + guest_memory_size s - 1) ltac:(lia)).
      fold start in H0. fold end_ in H1. lia. }
    split; [rewrite elem_of_app, list_elem_of_singleton; by right |].
    split; [by rewrite Hsurf' |].
    unfold Overlaps, GetCpuAddrEnd. cbn.
    rewrite (u64_small (cpu + guest_memory_size s)) by lia.
    apply andb_true_iff. split; apply Z.ltb_lt; lia.
  - unfold TryFindFramebufferSurface.
    destruct (Z.eqb_spec cpu 0) as [| _]; [lia |].
    change (registry tc') with
      (register_pages (Z.to_nat (end_ - start + 1)) start id (registry tc1)).
    fold start. rewrite Hfiled by lia.
    set (starts_here := λ c : nat, match surfaces tc' !! c with
                                   | Some sc => cpu_addr sc =? cpu
                                   | None => false
                                   end).
    destruct (List.find starts_here (default [] (registry tc1 !! start) ++ [id]))
      as [id' |] eqn:Hfind.
    + apply find_some in Hfind as [_ Hhere]. unfold starts_here in Hhere.
      destruct (surfaces tc' !! id') as [s' |] eqn:Hs'; [| discriminate].
      exists id', s'. split; [reflexivity |]. split; [exact Hs' |]. by apply Z.eqb_eq.
    + exfalso.
      pose proof (find_none _ _ Hfind id) as Hnot.
      rewrite <- list_elem_of_In, elem_of_app, list_elem_of_singleton in Hnot.
      specialize (Hnot (or_intror eq_refl)).
      unfold starts_here in Hnot. rewrite Hsurf', Hid1 in Hnot. cbn in Hnot.
      by rewrite Z.eqb_refl in Hnot.
Qed.

End WithGpuMemory.

(** *** Flushing a region *)

Lemma FlushSurface_placement (id : nat) (tc : TextureCache.t) :
  registry (FlushSurface id tc) = registry tc
  ∧ ∀ c, placement <$> surfaces (FlushSurface id tc) !! c
         = placement <$> surfaces tc !! c.
Proof.
  unfold FlushSurface.
  destruct (surfaces tc !! id) as [s |] eqn:Hid; [| by split].
  destruct (is_modified s); cbn; [| by split].
  split; [reflexivity |]. intros c. rewrite lookup_alter.
  destruct (decide (id = c)) as [<- | _]; [| reflexivity].
  rewrite Hid. reflexivity.
Qed.

Lemma FlushSurface_clears (id : nat) (tc : TextureCache.t) :
  IsModified (FlushSurface id tc) id = false
  ∧ ∀ c, c ≠ id → IsModified (FlushSurface id tc) c = IsModified tc c.
Proof.
  destruct (IsModified tc id) eqn:Hmod.
  - destruct (FlushSurface_modified id tc Hmod) as (_ & Hid & Hothers). by split.
  - rewrite (FlushSurface_unmodified id tc Hmod). by split.
Qed.

Lemma flush_all_spec (l : list nat) :
  ∀ tc,
    registry (foldl (λ tc id, FlushSurface id tc) tc l) = registry tc
    ∧ (∀ c, placement <$> surfaces (foldl (λ tc id, FlushSurface id tc) tc l) !! c
            = placement <$> surfaces tc !! c)
    ∧ (∀ c, c ∈ l → IsModified (foldl (λ tc id, FlushSurface id tc) tc l) c = false)
    ∧ (∀ c, c ∉ l → IsModified (foldl (λ tc id, FlushSurface id tc) tc l) c
                    = IsModified tc c).
Proof.
  induction l as [| x l IH]; intros tc; cbn [foldl].
  - split; [reflexivity |]. split; [reflexivity |]. split; [| reflexivity].
    intros c Hc. by apply elem_of_nil in Hc.
  - destruct (IH (FlushSurface x tc)) as (Hreg & Hplace & Hin & Hout).
    destruct (FlushSurface_placement x tc) as [Hreg1 Hplace1].
    destruct (FlushSurface_clears x tc) as [Hx Hothers].
    split; [by rewrite Hreg |]. split; [intros c; by rewrite Hplace |]. split.
    + intros c Hc. destruct (decide (c ∈ l)) as [Hl | Hl]; [by apply Hin |].
      apply elem_of_cons in Hc as [-> | ?]; [| contradiction].
      by rewrite Hout.
    + intros c Hc. apply not_elem_of_cons in Hc as [Hne Hl].
      rewrite Hout by exact Hl. by apply Hothers.
Qed.

Lemma Overlaps_placement (s s' : Surface) (start end_ : Z) :
  placement s' = placement s → Overlaps s' start end_ = Overlaps s start end_.
Proof.
  unfold placement, Overlaps, GetCpuAddrEnd. by intros [= -> -> _].
Qed.

Lemma in_region_placement (tc tc' : TextureCache.t) (addr size : Z) (id : nat) :
  registry tc' = registry tc →
  (∀ c, placement <$> surfaces tc' !! c = placement <$> surfaces tc !! c) →
  in_region tc addr size id → in_region tc' addr size id.
Proof.
  intros Hreg Hplace (page & bucket & s & Hpage & Hbucket & Hin & Hs & Hover).
  pose proof (Hplace id) as Hid. rewrite Hs in Hid.
  destruct (surfaces tc' !! id) as [s' |] eqn:Hs'; [| discriminate].
  assert (Hpl : placement s' = placement s) by (cbn in Hid; congruence).
  exists page, bucket, s'. rewrite Hreg.
  split; [exact Hpage |]. split; [exact Hbucket |]. split; [exact Hin |].
  split; [exact Hs' |]. by rewrite (Overlaps_placement s s').
Qed.

Lemma at_rest_placement (tc tc' : TextureCache.t) :
  (∀ c, placement <$> surfaces tc' !! c = placement <$> surfaces tc !! c) →
  at_rest tc → at_rest tc'.
Proof.
  intros Hplace Hrest c s' Hs'.
  pose proof (Hplace c) as Hc. rewrite Hs' in Hc.
  destruct (surfaces tc !! c) as [s |] eqn:Hs; [| discriminate].
  assert (Hpl : placement s' = placement s) by (cbn in Hc; congruence).
  unfold placement in Hpl. injection Hpl as _ _ ->. by apply (Hrest c).
Qed.

(** What [FlushRegion] does to a cache at rest: it flushes the surfaces of
    the region, in the order [std::sort] gives them. *)
Lemma FlushRegion_at_rest
  (std_sort : (nat → nat → bool) → list nat → list nat)
  (addr size : Z) (tc : TextureCache.t) :
  sorts std_sort → at_rest tc →
  0 ≤ addr → 0 < size → addr + size < 2 ^ 64 →
  ∃ flushed,
    FlushRegion std_sort addr size tc = foldl (λ tc id, FlushSurface id tc) tc flushed
    ∧ NoDup flushed
    ∧ ∀ id, id ∈ flushed ↔ in_region tc addr size id.
Proof.
  intros Hsorts Hrest Haddr Hsize Hend.
  destruct (GetSurfacesInRegion_at_rest addr size tc Hrest Haddr Hsize Hend)
    as (Hsame & Hnodup & Hmem).
  unfold FlushRegion.
  destruct (GetSurfacesInRegion addr size tc) as [found tc1]. cbn [fst snd] in *.
  subst tc1.
  destruct found as [| first others].
  - exists []. split; [reflexivity |]. split; [constructor | exact Hmem].
  - destruct (Hsorts (GetModificationTick tc) (first :: others)) as [Hperm _].
    eexists. split; [reflexivity |]. split.
    + by rewrite Hperm.
    + intros id. rewrite <- Hmem. by rewrite Hperm.
Qed.

(** [MustFlushRegion] says whether [FlushRegion] has anything to download;
    after [FlushRegion] it says no, the cache is at rest again, and a second
    [FlushRegion] of the region downloads nothing. *)
Theorem FlushRegion_leaves_the_region_clean
  (std_sort : (nat → nat → bool) → list nat → list nat)
  (addr size : Z) (tc : TextureCache.t) :
  sorts std_sort → at_rest tc →
  0 ≤ addr → 0 < size → addr + size < 2 ^ 64 →
  at_rest (FlushRegion std_sort addr size tc)
  ∧ ((MustFlushRegion addr size tc).1 = true
     ↔ downloads (events (FlushRegion std_sort addr size tc)) ≠ downloads (events tc))
  ∧ (MustFlushRegion addr size (FlushRegion std_sort addr size tc)).1 = false
  ∧ downloads (events (FlushRegion std_sort addr size
                         (FlushRegion std_sort addr size tc)))
    = downloads (events (FlushRegion std_sort addr size tc)).
Proof.
  intros Hsorts Hrest Haddr Hsize Hend.
  destruct (FlushRegion_at_rest std_sort addr size tc Hsorts Hrest Haddr Hsize Hend)
    as (flushed & -> & Hnodup & Hflushed).
  set (tc' := foldl (λ tc id, FlushSurface id tc) tc flushed).
  destruct (flush_all_spec flushed tc) as (Hreg & Hplace & Hcleared & _).
  fold tc' in Hreg, Hplace, Hcleared.
  assert (Hrest' : at_rest tc') by (by apply (at_rest_placement tc)).
  assert (Hregion : ∀ id, in_region tc' addr size id → id ∈ flushed).
  { intros id Hin. apply Hflushed.
    apply (in_region_placement tc' tc); [by rewrite Hreg | intros c; by rewrite Hplace |].
    exact Hin. }
  split; [exact Hrest' |]. split; [| split].
  - unfold MustFlushRegion.
    destruct (GetSurfacesInRegion_at_rest addr size tc Hrest Haddr Hsize Hend)
      as (Hsame & _ & Hmem).
    destruct (GetSurfacesInRegion addr size tc) as [found tc1]. cbn [fst snd] in *.
    subst tc1. unfold tc'. rewrite flush_all_downloads by exact Hnodup.
    rewrite existsb_exists. split.
    + intros (x & Hx & Hmod) Heq.
      apply list_elem_of_In, Hmem, Hflushed in Hx.
      assert (Hin : x ∈ List.filter (IsModified tc) flushed).
      { apply list_elem_of_In, filter_In. split; [by apply list_elem_of_In | exact Hmod]. }
      rewrite <- (app_nil_r (downloads (events tc))) in Heq at 2.
      apply app_inv_head in Heq. rewrite Heq in Hin. by apply elem_of_nil in Hin.
    + intros Hne.
      destruct (List.filter (IsModified tc) flushed) as [| x rest] eqn:Hfilter.
      { by rewrite app_nil_r in Hne. }
      assert (Hx : In x (List.filter (IsModified tc) flushed)) by (rewrite Hfilter; by left).
      apply filter_In in Hx as [Hx Hmod].
      exists x. split; [| exact Hmod].
      by apply list_elem_of_In, Hmem, Hflushed, list_elem_of_In.
  - unfold MustFlushRegion.
    destruct (GetSurfacesInRegion_at_rest addr size tc' Hrest' Haddr Hsize Hend)
      as (Hsame & _ & Hmem).
    destruct (GetSurfacesInRegion addr size tc') as [found tc1]. cbn [fst snd] in *.
    subst tc1.
    destruct (existsb (IsModified tc') found) eqn:Hany; [| reflexivity].
    apply existsb_exists in Hany as (x & Hx & Hmod).
    apply list_elem_of_In, Hmem, Hregion, Hcleared in Hx. congruence.
  - destruct (FlushRegion_at_rest std_sort addr size tc' Hsorts Hrest' Haddr Hsize Hend)
      as (again & -> & Hnodup' & Hagain).
    rewrite flush_all_downloads by exact Hnodup'.
    assert (Hnone : List.filter (IsModified tc') again = []).
    { destruct (List.filter (IsModified tc') again) as [| x rest] eqn:Hfilter;
        [reflexivity |].
      assert (Hx : In x (List.filter (IsModified tc') again)) by (rewrite Hfilter; by left).
      apply filter_In in Hx as [Hx Hmod].
      apply list_elem_of_In, Hagain, Hregion, Hcleared in Hx. congruence. }
    by rewrite Hnone, app_nil_r.
Qed.

(** *** Taking a surface out of the registry *)

Lemma erase_first_last (id : nat) (bucket : list nat) :
  id ∉ bucket → erase_first id (bucket ++ [id]) = Some bucket.
Proof.
  induction bucket as [| x bucket IH]; intros Hnot; cbn.
  - by rewrite decide_True.
  - apply not_elem_of_cons in Hnot as [Hne Hnot].
    rewrite decide_False by congruence. by rewrite IH.
Qed.

Lemma unregister_pages_spec (id : nat) (count : nat) :
  ∀ start reg,
    0 ≤ start → start + Z.of_nat count < 2 ^ 64 →
    (∀ p, start ≤ p < start + Z.of_nat count →
          ∃ bucket, reg !! p = Some (bucket ++ [id]) ∧ id ∉ bucket) →
    ∃ reg',
      unregister_pages count start id reg = Some reg'
      ∧ (∀ p, start ≤ p < start + Z.of_nat count →
              ∃ bucket, reg !! p = Some (bucket ++ [id]) ∧ reg' !! p = Some bucket)
      ∧ (∀ p, ¬ (start ≤ p < start + Z.of_nat count) → reg' !! p = reg !! p).
Proof.
  induction count as [| count IH]; intros start reg Hstart Hend Hfiled;
    cbn [unregister_pages].
  - exists reg. split; [reflexivity |]. split; [intros; lia | reflexivity].
  - assert (Hfirst : start ≤ start < start + Z.of_nat (S count)) by lia.
    destruct (Hfiled start Hfirst) as (bucket & Hbucket & Hnot).
    rewrite Hbucket.
    change (default [] (Some (bucket ++ [id]))) with (bucket ++ [id]).
    rewrite (erase_first_last id bucket Hnot).
    cbn [mbind option_bind].
    rewrite (u64_small (start + 1)) by lia.
    assert (Hstart' : 0 ≤ start + 1) by lia.
    assert (Hend' : start + 1 + Z.of_nat count < 2 ^ 64) by lia.
    destruct (IH (start + 1) (<[start := bucket]> reg) Hstart' Hend')
      as (reg' & Hreg' & Hin & Hout).
    { intros p Hp. rewrite lookup_insert_ne by lia. apply Hfiled. lia. }
    exists reg'. split; [exact Hreg' |]. split.
    + intros p Hp. destruct (Z.eq_dec p start) as [-> | Hne].
      * exists bucket. split; [exact Hbucket |].
        rewrite Hout by lia. apply lookup_insert_eq.
      * destruct (Hin p ltac:(lia)) as (b & Hb & Hb').
        rewrite lookup_insert_ne in Hb by lia. eauto.
    + intros p Hp. rewrite Hout by lia. apply lookup_insert_ne. lia.
Qed.

(** [UnregisterInnerCache] undoes [RegisterInnerCache]: for a surface that
    was not on file, filing it and taking it out again leaves every bucket
    with the surfaces it had, drops the L1 entry of its address, and changes
    nothing else; no region query on the result returns the surface. *)
Theorem UnregisterInnerCache_undoes_RegisterInnerCache
  (id : nat) (tc : TextureCache.t) (s : Surface) :
  surfaces tc !! id = Some s →
  (∀ page bucket, registry tc !! page = Some bucket → id ∉ bucket) →
  0 ≤ cpu_addr s → 0 < guest_memory_size s →
  cpu_addr s + guest_memory_size s < 2 ^ 64 →
  ∃ tc',
    UnregisterInnerCache id (RegisterInnerCache id tc) = Some tc'
    ∧ surfaces tc' = surfaces tc ∧ ticks tc' = ticks tc ∧ events tc' = events tc
    ∧ l1_cache tc' = delete (cpu_addr s) (l1_cache tc)
    ∧ (∀ page, default [] (registry tc' !! page) = default [] (registry tc !! page))
    ∧ (at_rest tc →
       ∀ addr size, 0 ≤ addr → 0 < size → addr + size < 2 ^ 64 →
                    id ∉ (GetSurfacesInRegion addr size tc').1).
Proof.
  intros Hid Hfresh Hcpu Hsize Hend.
  unfold RegisterInnerCache. rewrite Hid.
  unfold UnregisterInnerCache. cbn [surfaces]. rewrite Hid.
  unfold GetCpuAddrEnd.
  rewrite (u64_small (cpu_addr s + guest_memory_size s)) by lia.
  rewrite (u64_small (cpu_addr s + guest_memory_size s - 1)) by lia.
  set (start := Z.shiftr (cpu_addr s) registry_page_bits).
  set (end_ := Z.shiftr (cpu_addr s + guest_memory_size s - 1) registry_page_bits).
  pose proof (registry_page_range (cpu_addr s) ltac:(lia)) as Hstart.
  fold start in Hstart.
  pose proof (registry_page_range (cpu_addr s + guest_memory_size s - 1) ltac:(lia))
    as Hend_.
  fold end_ in Hend_.
  pose proof (registry_page_le (cpu_addr s) (cpu_addr s + guest_memory_size s - 1)
                ltac:(lia)) as Hle.
  fold start end_ in Hle.
  set (count := Z.to_nat (end_ - start + 1)).
  assert (Hcount : Z.of_nat count = end_ - start + 1) by (unfold count; lia).
  destruct (register_pages_spec id count start (registry tc) ltac:(lia) ltac:(lia))
    as [Hfiled Hothers].
  cbn [registry l1_cache ticks events].
  destruct (unregister_pages_spec id count start
              (register_pages count start id (registry tc)) ltac:(lia) ltac:(lia))
    as (reg' & -> & Hin & Hout).
  { intros p Hp. exists (default [] (registry tc !! p)).
    split; [by apply Hfiled |].
    destruct (registry tc !! p) as [bucket |] eqn:Hbucket; cbn.
    - by apply (Hfresh p).
    - apply not_elem_of_nil. }
  cbn [mbind option_bind].
  assert (Hbuckets : ∀ page, default [] (reg' !! page) = default [] (registry tc !! page)).
  { intros page.
    destruct (decide (start ≤ page < start + Z.of_nat count)) as [Hp | Hp].
    - destruct (Hin page Hp) as (bucket & Hb & ->).
      rewrite (Hfiled page Hp) in Hb. injection Hb as Hb.
      apply app_inv_tail in Hb. by rewrite Hb.
    - by rewrite (Hout page Hp), (Hothers page Hp). }
  eexists. split; [reflexivity |]. cbn [surfaces ticks events l1_cache registry].
  split; [reflexivity |]. split; [reflexivity |]. split; [reflexivity |].
  split; [apply delete_insert_eq |]. split; [exact Hbuckets |].
  intros Hrest addr size Haddr Hsz Hqend Hfound.
  apply GetSurfacesInRegion_at_rest in Hfound; [| exact Hrest | lia | lia | lia].
  destruct Hfound as (page & bucket & s' & _ & Hbucket & Hmember & _).
  cbn [registry] in Hbucket.
  pose proof (Hbuckets page) as Hpage. rewrite Hbucket in Hpage. cbn in Hpage.
  destruct (registry tc !! page) as [old |] eqn:Hold; cbn in Hpage; subst bucket.
  - by apply (Hfresh page old).
  - by apply elem_of_nil in Hmember.
Qed.

End TextureCacheRegions.

Section TextureCacheRegionScenarios.
Import Machine TextureCache Scenarios.

Lemma at_rest_by_evaluation (tc : TextureCache.t) :
  bool_decide (map_Forall (λ _ s, is_picked s = false) (surfaces tc)) = true →
  at_rest tc.
Proof.
  intros Hall id s Hs. apply bool_decide_eq_true_1 in Hall.
  exact (map_Forall_lookup_1 _ _ id s Hall Hs).
Qed.

Lemma three_surfaces_at_rest : at_rest three_surfaces.
Proof. apply at_rest_by_evaluation. vm_compute. reflexivity. Qed.

Lemma one_surface_at_rest : at_rest one_surface.
Proof. apply at_rest_by_evaluation. vm_compute. reflexivity. Qed.

Lemma GetSurfacesInRegion_of_three_surfaces :
  (GetSurfacesInRegion 4096 16384 three_surfaces).2 = three_surfaces
  ∧ NoDup (GetSurfacesInRegion 4096 16384 three_surfaces).1
  ∧ ∀ id, id ∈ (GetSurfacesInRegion 4096 16384 three_surfaces).1
          ↔ in_region three_surfaces 4096 16384 id.
Proof.
  apply (GetSurfacesInRegion_finds_what_overlaps 4096 16384 three_surfaces).
  - apply three_surfaces_at_rest.
  - lia.
  - lia.
  - lia.
Defined.

Lemma Register_of_the_colour_surface :
  at_rest (Register (H := gpu_64k) one_mapping 0 one_surface)
  ∧ surfaces (Register (H := gpu_64k) one_mapping 0 one_surface) !! 0%nat
    = Some (mark_registered 4096 (new_surface 65536 false 0))
  ∧ l1_cache (Register (H := gpu_64k) one_mapping 0 one_surface) !! 4096 = Some 0%nat
  ∧ (∀ addr size,
       0 ≤ addr → 0 < size → addr + size < 2 ^ 64 →
       4096 < addr + size →
       addr < 4096 + guest_memory_size (new_surface 65536 false 0) →
       0%nat ∈ (GetSurfacesInRegion addr size
                  (Register (H := gpu_64k) one_mapping 0 one_surface)).1)
  ∧ ∃ id' s',
      TryFindFramebufferSurface 4096 (Register (H := gpu_64k) one_mapping 0 one_surface)
      = Some id'
      ∧ surfaces (Register (H := gpu_64k) one_mapping 0 one_surface) !! id' = Some s'
      ∧ cpu_addr s' = 4096.
Proof.
  apply (Register_makes_the_surface_findable (H := gpu_64k) one_mapping 0 one_surface
           (new_surface 65536 false 0) 4096).
  - apply one_surface_at_rest.
  - reflexivity.
  - reflexivity.
  - lia.
  - cbn. lia.
  - cbn. lia.
Defined.

Lemma FlushRegion_twice_of_three_surfaces :
  at_rest (FlushRegion insertion_sort 4096 16384 three_surfaces)
  ∧ ((MustFlushRegion 4096 16384 three_surfaces).1 = true
     ↔ downloads (events (FlushRegion insertion_sort 4096 16384 three_surfaces))
       ≠ downloads (events three_surfaces))
  ∧ (MustFlushRegion 4096 16384
       (FlushRegion insertion_sort 4096 16384 three_surfaces)).1 = false
  ∧ downloads (events (FlushRegion insertion_sort 4096 16384
                         (FlushRegion insertion_sort 4096 16384 three_surfaces)))
    = downloads (events (FlushRegion insertion_sort 4096 16384 three_surfaces)).
Proof.
  apply (FlushRegion_leaves_the_region_clean insertion_sort 4096 16384 three_surfaces).
  - apply insertion_sort_sorts.
  - apply three_surfaces_at_rest.
  - lia.
  - lia.
  - lia.
Defined.

Lemma UnregisterInnerCache_of_the_colour_surface :
  ∃ tc',
    UnregisterInnerCache 0 (RegisterInnerCache 0 one_surface) = Some tc'
    ∧ surfaces tc' = surfaces one_surface ∧ ticks tc' = ticks one_surface
    ∧ events tc' = events one_surface
    ∧ l1_cache tc' = delete (cpu_addr (new_surface 65536 false 0)) (l1_cache one_surface)
    ∧ (∀ page, default [] (registry tc' !! page)
               = default [] (registry one_surface !! page))
    ∧ (at_rest one_surface →
       ∀ addr size, 0 ≤ addr → 0 < size → addr + size < 2 ^ 64 →
                    0%nat ∉ (GetSurfacesInRegion addr size tc').1).
Proof.
  apply (UnregisterInnerCache_undoes_RegisterInnerCache 0 one_surface
           (new_surface 65536 false 0)).
  - reflexivity.
  - intros page bucket Hbucket. cbn in Hbucket. by rewrite lookup_empty in Hbucket.
  - cbn. lia.
  - cbn. lia.
  - cbn. lia.
Defined.

(** The scenario, evaluated: the query returns the three surfaces in the
    order of the bucket, one of them has to be flushed, and after the flush
    none has. *)
Example region_of_three_surfaces :
  (GetSurfacesInRegion 4096 16384 three_surfaces).1 = [0; 1; 2]%nat
  ∧ (MustFlushRegion 4096 16384 three_surfaces).1 = true
  ∧ (MustFlushRegion 4096 16384
       (FlushRegion insertion_sort 4096 16384 three_surfaces)).1 = false
  ∧ TryFindFramebufferSurface 4096 three_surfaces = Some 0%nat.
Proof. vm_compute. auto. Qed.

End TextureCacheRegionScenarios.

(** ** The resource pool: no slot is handed out twice within a tick *)

Section ResourcePoolReuse.
Import ResourcePool.

(** What a completed [CommitResource] returns and leaves. *)
Lemma CommitResource_result
  (counter : Z) (sem sem' : MasterSemaphore) (pool pool' : ResourcePool.t) (i : nat) :
  (free_iterator pool ≤ length (ticks pool))%nat →
  CommitResource counter sem pool = Some (i, sem', pool') →
  ((∃ tick, ticks pool !! i = Some tick ∧ tick ≤ counter
            ∧ ticks pool' = <[i := current_tick sem]> (ticks pool))
   ∨ (i = length (ticks pool)
      ∧ ticks pool'
        = <[i := current_tick sem]> (ticks pool ++ replicate (grow_step pool) 0)))
  ∧ ticks pool' !! i = Some (current_tick sem)
  ∧ (free_iterator pool' ≤ length (ticks pool'))%nat.
Proof.
  intros Hhint Hcommit.
  assert (Hfree : ∀ tick, IsFree (Refresh counter sem) tick = true → tick ≤ counter).
  { intros tick. unfold IsFree; cbn. apply Z.leb_le. }
  assert (Hreuse : ∀ k tick,
    ticks pool !! k = Some tick → IsFree (Refresh counter sem) tick = true →
    (if decide (length (ticks (set_ticks pool
                                 (<[k := CurrentTick (Refresh counter sem)]> (ticks pool))))
                = 0%nat)
     then None
     else Some (k, Refresh counter sem,
                set_free_iterator
                  (set_ticks pool (<[k := CurrentTick (Refresh counter sem)]> (ticks pool)))
                  ((k + 1)
                   mod length (ticks (set_ticks pool
                                        (<[k := CurrentTick (Refresh counter sem)]>
                                           (ticks pool)))))%nat))
    = Some (i, sem', pool') →
    ((∃ tick, ticks pool !! i = Some tick ∧ tick ≤ counter
              ∧ ticks pool' = <[i := current_tick sem]> (ticks pool))
     ∨ (i = length (ticks pool)
        ∧ ticks pool'
          = <[i := current_tick sem]> (ticks pool ++ replicate (grow_step pool) 0)))
    ∧ ticks pool' !! i = Some (current_tick sem)
    ∧ (free_iterator pool' ≤ length (ticks pool'))%nat).
  { intros k tick Hk Hfr.
    pose proof (lookup_lt_Some _ _ _ Hk) as Hlt.
    cbn [ticks set_ticks]. rewrite length_insert.
    destruct (decide (length (ticks pool) = 0%nat)); [lia |].
    intros [= <- _ <-]. cbn. rewrite length_insert.
    split; [left; exists tick; auto |].
    split; [apply list_lookup_insert_eq; lia |].
    pose proof (Nat.mod_upper_bound (k + 1) (length (ticks pool))). lia. }
  unfold CommitResource, search in Hcommit.
  pose proof (search_loop_scan (Refresh counter sem) (ticks pool)
                (length (ticks pool) - free_iterator pool) (free_iterator pool)
                ltac:(lia)) as Hfirst.
  destruct (search_loop _ _ (free_iterator pool) _) as [[[i1 |] tks1] |];
    [| | contradiction]; cbn [mbind option_bind] in Hcommit.
  - destruct Hfirst as (_ & -> & (tick & Htick & Hfr) & _).
    by apply (Hreuse i1 tick).
  - destruct Hfirst as (-> & _).
    pose proof (search_loop_scan (Refresh counter sem) (ticks pool)
                  (free_iterator pool - 0) 0%nat ltac:(lia)) as Hsecond.
    destruct (search_loop _ _ 0%nat _) as [[[i2 |] tks2] |];
      [| | contradiction]; cbn [mbind option_bind] in Hcommit.
    + destruct Hsecond as (_ & -> & (tick & Htick & Hfr) & _).
      by apply (Hreuse i2 tick).
    + destruct Hsecond as (-> & _). cbn in Hcommit.
      rewrite length_app, length_replicate in Hcommit.
      destruct (decide (length (ticks pool) < length (ticks pool) + grow_step pool)%nat)
        as [Hgrown |]; [| discriminate].
      cbn in Hcommit. rewrite length_insert, length_app, length_replicate in Hcommit.
      destruct (decide _) in Hcommit; [discriminate |].
      injection Hcommit as <- _ <-. cbn. rewrite length_insert, length_app, length_replicate.
      split; [right; by split |].
      split; [apply list_lookup_insert_eq; rewrite length_app, length_replicate; lia |].
      pose proof (Nat.mod_upper_bound (length (ticks pool) + 1)
                    (length (ticks pool) + grow_step pool)). lia.
Qed.

(** A slot handed out at a tick is not handed out again while the GPU has
    not reached that tick: the next [CommitResource], whatever the state of
    the semaphore then, returns another slot and leaves the tag of the first
    one in place. *)
Theorem CommitResource_never_hands_out_twice
  (counter counter' : Z) (sem sem1 sem2 sem3 : MasterSemaphore)
  (pool pool1 pool3 : ResourcePool.t) (i j : nat) :
  (free_iterator pool ≤ length (ticks pool))%nat →
  CommitResource counter sem pool = Some (i, sem1, pool1) →
  counter' < current_tick sem →
  CommitResource counter' sem2 pool1 = Some (j, sem3, pool3) →
  j ≠ i ∧ ticks pool3 !! i = Some (current_tick sem).
Proof.
  intros Hhint Hfirst Hpending Hsecond.
  destruct (CommitResource_result _ _ _ _ _ _ Hhint Hfirst) as (_ & Htag & Hhint1).
  destruct (CommitResource_result _ _ _ _ _ _ Hhint1 Hsecond) as (Hslot & _ & _).
  pose proof (lookup_lt_Some _ _ _ Htag) as Hlt.
  destruct Hslot as [(tick & Htick & Hreached & ->) | [-> ->]].
  - assert (Hne : j ≠ i).
    { intros ->. rewrite Htag in Htick. injection Htick as <-. lia. }
    split; [exact Hne |]. by rewrite list_lookup_insert_ne.
  - split; [lia |].
    rewrite list_lookup_insert_ne by lia. by rewrite lookup_app_l.
Qed.

Lemma CommitResource_twice_in_the_wrapping_pool :
  4%nat ≠ 0%nat
  ∧ ticks {| grow_step := 2; free_iterator := 5; ticks := [9; 9; 9; 9; 12; 0];
             allocate_calls := [(4%nat, 6%nat)] |} !! 0%nat = Some 9.
Proof.
  apply (CommitResource_never_hands_out_twice 8 8
           {| gpu_tick := 0; current_tick := 9 |}
           {| gpu_tick := 8; current_tick := 9 |}
           {| gpu_tick := 8; current_tick := 12 |}
           {| gpu_tick := 8; current_tick := 12 |}
           wrapping_pool
           {| grow_step := 2; free_iterator := 1; ticks := [9; 9; 9; 9];
              allocate_calls := [] |}
           {| grow_step := 2; free_iterator := 5; ticks := [9; 9; 9; 9; 12; 0];
              allocate_calls := [(4%nat, 6%nat)] |} 0 4).
  - cbn. lia.
  - vm_compute. reflexivity.
  - cbn. lia.
  - vm_compute. reflexivity.
Defined.

End ResourcePoolReuse.

(** ** Guest memory: marking regions as cached *)

Section CoreMemoryCaching.
Import Machine CoreMemory.
Context `{System}.
Hypothesis PAGE_BITS_range : 0 ≤ PAGE_BITS < 64.







End CoreMemoryCaching.

Section CoreMemoryCachingScenarios.
Import Machine CoreMemory Scenarios.
#[local] Existing Instance idle_system.


End CoreMemoryCachingScenarios.

(** ** Guest memory: zeroing, reading and copying blocks *)

Section CoreMemoryZeroBlock.
Import Machine CoreMemory.
Context `{System}.

Lemma ZeroBlock_loop_as_WriteBlock_loop (dest_addr size : Z) (fuel : nat) :
  ∀ page_index page_offset remaining_size (n : nat) st,
    (Z.to_nat remaining_size ≤ n)%nat →
    ZeroBlock_loop fuel dest_addr size page_index page_offset remaining_size st
    = zero_lines
      <$> WriteBlock_loop true fuel dest_addr size page_index page_offset remaining_size
            (replicate n 0) st.
Proof.
  induction fuel as [| fuel IH]; intros page_index page_offset remaining_size n st Hn;
    cbn [ZeroBlock_loop WriteBlock_loop].
  - by destruct (remaining_size <=? 0).
  - destruct (Z.leb_spec remaining_size 0) as [| Hrem]; [reflexivity |].
    pose proof (u64_range (PAGE_SIZE - page_offset)) as Hroom.
    set (copy_amount := Z.min (u64 (PAGE_SIZE - page_offset)) remaining_size).
    assert (Hcopy : (Z.to_nat copy_amount ≤ n)%nat) by (unfold copy_amount; lia).
    rewrite take_replicate, drop_replicate, Nat.min_l by exact Hcopy.
    assert (Hrest : (Z.to_nat (remaining_size - copy_amount) ≤ n - Z.to_nat copy_amount)%nat)
      by lia.
    destruct (attribute_at (current_page_table st) page_index) as [type |];
      [| reflexivity].
    cbn [mbind option_bind].
    destruct type; cbn [mbind option_bind]; try reflexivity.
    + rewrite (IH _ _ _ _ _ Hrest).
      by destruct (WriteBlock_loop _ _ _ _ _ _ _ _ _) as [[rest st'] |].
    + destruct (pointer_at (current_page_table st) page_index) as [ptr |];
        [| reflexivity].
      cbn [mbind option_bind].
      rewrite (IH _ _ _ _ _ Hrest).
      by destruct (WriteBlock_loop _ _ _ _ _ _ _ _ _) as [[rest st'] |].
    + destruct (GetPointerFromRasterizerCachedMemory st _) as [host_ptr |];
        [| reflexivity].
      cbn [mbind option_bind].
      destruct (host_ptr =? 0); [reflexivity |].
      cbn [mbind option_bind].
      rewrite (IH _ _ _ _ _ Hrest).
      by destruct (WriteBlock_loop _ _ _ _ _ _ _ _ _) as [[rest st'] |].
Qed.

(** [ZeroBlock] is [WriteBlock] of a buffer of zeros: on every state, over
    pages of every kind, it ends in the same state or fails as
    [WriteBlock] does, and it logs a line exactly where [WriteBlock] logs
    one, with the same addresses and size. *)
Theorem ZeroBlock_is_WriteBlock_of_zeros (dest_addr size : Z) (st : State) :
  ZeroBlock dest_addr size st
  = zero_lines <$> WriteBlock dest_addr (replicate (Z.to_nat size) 0) size st.
Proof.
  unfold ZeroBlock, WriteBlock.
  rewrite length_replicate, decide_True by reflexivity.
  by apply ZeroBlock_loop_as_WriteBlock_loop.
Qed.

End CoreMemoryZeroBlock.

Section CoreMemoryReadBlock.
Import Machine CoreMemory.
Context `{System}.
Hypothesis PAGE_BITS_range : 0 ≤ PAGE_BITS < 64.

Lemma ReadBlock_loop_no_bytes (fuel : nat) (src_addr size page_index page_offset : Z)
  (st : State) :
  ReadBlock_loop fuel src_addr size page_index page_offset 0 st = Some ([], st).
Proof. destruct fuel; reflexivity. Qed.

(** Away from rasterizer-cached pages the loops of [ReadBlock] and
    [ReadBlockUnsafe] take the same steps. *)
Lemma ReadBlock_loop_without_flush (src_addr size : Z) (fuel : nat) :
  ∀ page_index page_offset remaining_size st,
    0 ≤ page_index → 0 ≤ page_offset < PAGE_SIZE →
    page_index * PAGE_SIZE + page_offset + remaining_size ≤ 2 ^ 64 →
    (∀ i, 0 ≤ i < remaining_size →
          attribute_at (current_page_table st)
            (Z.shiftr (page_index * PAGE_SIZE + page_offset + i) PAGE_BITS)
          ≠ Some RasterizerCachedMemory) →
    ReadBlock_loop fuel src_addr size page_index page_offset remaining_size st
    = ReadBlockUnsafe_loop fuel src_addr size page_index page_offset remaining_size st.
Proof.
  induction fuel as [| fuel IH];
    intros page_index page_offset remaining_size st Hpage Hoff Hend Hplain;
    cbn [ReadBlock_loop ReadBlockUnsafe_loop]; [reflexivity |].
  destruct (Z.leb_spec remaining_size 0) as [| Hrem]; [reflexivity |].
  destruct (chunk_cases PAGE_BITS_range page_index page_offset remaining_size Hpage Hoff
              Hrem Hend) as (Hcopy & Hfits & Hcases).
  set (copy_amount := Z.min (u64 (PAGE_SIZE - page_offset)) remaining_size) in *.
  pose proof (Hplain 0 ltac:(lia)) as Hfirst.
  rewrite Z.add_0_r, (page_of_index PAGE_BITS_range) in Hfirst by lia.
  assert (Hrest : ∀ st',
    current_page_table st' = current_page_table st →
    ReadBlock_loop fuel src_addr size (u64 (page_index + 1)) 0
      (remaining_size - copy_amount) st'
    = ReadBlockUnsafe_loop fuel src_addr size (u64 (page_index + 1)) 0
        (remaining_size - copy_amount) st').
  { intros st' Htable.
    destruct Hcases as [Hlast | (Hmore & Hnext & Haddr)].
    - by rewrite Hlast, Z.sub_diag, ReadBlock_loop_no_bytes, ReadBlockUnsafe_loop_no_bytes.
    - pose proof (PAGE_SIZE_pos PAGE_BITS_range) as Hps.
      rewrite Hnext. apply IH; [lia | lia | lia |].
      intros i Hi. rewrite Htable, Haddr.
      replace (page_index * PAGE_SIZE + page_offset + copy_amount + i)
        with (page_index * PAGE_SIZE + page_offset + (copy_amount + i)) by lia.
      apply Hplain. lia. }
  destruct (attribute_at (current_page_table st) page_index) as [type |];
    [| reflexivity].
  cbn [mbind option_bind].
  destruct type; cbn [mbind option_bind]; try reflexivity.
  - by rewrite Hrest.
  - destruct (pointer_at (current_page_table st) page_index) as [ptr |]; [| reflexivity].
    cbn [mbind option_bind]. by rewrite Hrest.
  - contradiction.
Qed.

(** [ReadBlock] differs from [ReadBlockUnsafe] by the flush alone: on a
    block that touches no rasterizer-cached page the two return the same
    bytes and the same state, failures included, and on a block inside one
    rasterizer-cached page [ReadBlock] is [ReadBlockUnsafe] after the GPU
    flushed exactly the block. *)
Theorem ReadBlock_differs_by_the_flush (src_addr size : Z) (st : State) :
  0 ≤ src_addr → src_addr + size ≤ 2 ^ 64 →
  ((∀ i, 0 ≤ i < size →
         attribute_at (current_page_table st) (Z.shiftr (src_addr + i) PAGE_BITS)
         ≠ Some RasterizerCachedMemory) →
   ReadBlock src_addr size st = ReadBlockUnsafe src_addr size st)
  ∧ (0 < size → Z.land src_addr PAGE_MASK + size ≤ PAGE_SIZE →
     attribute_at (current_page_table st) (Z.shiftr src_addr PAGE_BITS)
     = Some RasterizerCachedMemory →
     ReadBlock src_addr size st
     = ReadBlockUnsafe src_addr size
         (set_gpu_host st (GPU_FlushRegion src_addr size (gpu st, host st)))).
Proof.
  intros Haddr Hend.
  destruct (start_of_block PAGE_BITS_range src_addr Haddr) as (Hpage & Hoff & Hsum).
  split.
  - intros Hplain. unfold ReadBlock, ReadBlockUnsafe.
    apply ReadBlock_loop_without_flush; [lia | lia | lia |].
    by rewrite Hsum.
  - intros Hsize Hfits Hattr. unfold ReadBlock, ReadBlockUnsafe.
    pose proof (PAGE_SIZE_le PAGE_BITS_range) as Hle.
    destruct (Z.to_nat size) as [| fuel] eqn:Hfuel; [lia |].
    cbn [ReadBlock_loop ReadBlockUnsafe_loop].
    destruct (Z.leb_spec size 0); [lia |].
    rewrite (u64_fixed (PAGE_SIZE - Z.land src_addr PAGE_MASK)) by lia.
    rewrite Z.min_r by lia.
    rewrite (shiftl_PAGE_BITS PAGE_BITS_range), Hsum, (u64_fixed src_addr) by lia.
    cbn [current_page_table set_gpu_host]. rewrite Hattr. cbn [mbind option_bind].
    unfold GetPointerFromRasterizerCachedMemory. cbn [current_page_table set_gpu_host].
    destruct (backing_addr_at (current_page_table st) (Z.shiftr src_addr PAGE_BITS))
      as [paddr |]; [| reflexivity].
    cbn [mbind option_bind].
    rewrite Z.sub_diag.
    destruct (paddr =? 0); cbn [mbind option_bind]; [reflexivity |].
    destruct (_ =? 0); cbn [mbind option_bind]; [reflexivity |].
    by rewrite ReadBlock_loop_no_bytes, ReadBlockUnsafe_loop_no_bytes.
Qed.

End CoreMemoryReadBlock.

Section CoreMemoryCopyBlock.
Import Machine CoreMemory.
Context `{System}.
Hypothesis PAGE_BITS_range : 0 ≤ PAGE_BITS < 64.

Lemma load_bytes_ext (mem1 mem2 : HostMemory) (n : nat) :
  ∀ p, 0 ≤ p < 2 ^ 64 →
       (∀ i, 0 ≤ i < Z.of_nat n → mem1 (u64 (p + i)) = mem2 (u64 (p + i))) →
       load_bytes mem1 p n = load_bytes mem2 p n.
Proof.
  induction n as [| n IH]; intros p Hp Hsame; [reflexivity |].
  cbn [load_bytes]. f_equal.
  - specialize (Hsame 0 ltac:(lia)).
    rewrite Z.add_0_r, u64_fixed in Hsame by lia. by rewrite Hsame.
  - apply IH; [apply u64_range |].
    intros i Hi. rewrite u64_u64_add.
    replace (p + 1 + i) with (p + (i + 1)) by lia. apply Hsame. lia.
Qed.

Lemma load_bytes_u8 (mem : HostMemory) (n : nat) :
  ∀ p, map u8 (load_bytes mem p n) = load_bytes mem p n.
Proof.
  induction n as [| n IH]; intros p; [reflexivity |].
  cbn [load_bytes map]. by rewrite u8_u8, IH.
Qed.

(** Buffers with no byte in common do not overlap. *)
Lemma buffers_apart (dest src n : Z) :
  (∀ i j, 0 ≤ i < n → 0 ≤ j < n → u64 (dest + i) ≠ u64 (src + j)) →
  buffers_overlap dest src n = false.
Proof.
  intros Hapart. unfold buffers_overlap.
  pose proof (u64_range (dest - src)) as Hds. pose proof (u64_range (src - dest)) as Hsd.
  apply orb_false_intro; apply Z.ltb_ge; apply Z.le_ngt; intros Hlt.
  - apply (Hapart 0 (u64 (dest - src))); [lia | lia |].
    rewrite u64_add_u64. f_equal. lia.
  - apply (Hapart (u64 (src - dest)) 0); [lia | lia |].
    rewrite u64_add_u64. f_equal. lia.
Qed.

(** Copying [a] bytes and then the [b] bytes after them is copying
    [a + b] bytes, when no byte of the source is written. *)
Lemma copy_in_two_steps (mem : HostMemory) (dest src : Z) (a b : nat) :
  0 ≤ dest < 2 ^ 64 → 0 ≤ src < 2 ^ 64 →
  (∀ i j, 0 ≤ i < Z.of_nat (a + b) → 0 ≤ j < Z.of_nat (a + b) →
          u64 (dest + i) ≠ u64 (src + j)) →
  let mem1 := store_bytes mem dest (load_bytes mem src a) in
  store_bytes mem1 (u64 (dest + Z.of_nat a)) (load_bytes mem1 (u64 (src + Z.of_nat a)) b)
  = store_bytes mem dest (load_bytes mem src (a + b)).
Proof.
  intros Hdest Hsrc Hapart mem1.
  rewrite load_bytes_app, store_bytes_app, load_bytes_length by lia.
  fold mem1. f_equal.
  apply load_bytes_ext; [apply u64_range |].
  intros j Hj. unfold mem1.
  rewrite store_bytes_outside; [reflexivity | lia |].
  intros i Hi. rewrite load_bytes_length in Hi. rewrite u64_u64_add.
  replace (src + Z.of_nat a + j) with (src + (Z.of_nat a + j)) by lia.
  apply Hapart; lia.
Qed.

Lemma WriteBlock_host_loop_done (fuel : nat)
  (dest_addr size page_index page_offset src_buffer : Z) (st : State) :
  WriteBlock_host_loop fuel dest_addr size page_index page_offset 0 src_buffer st
  = Some ([], st).
Proof. destruct fuel; reflexivity. Qed.

Lemma CopyBlock_loop_done (fuel : nat)
  (size dest_addr src_addr page_index page_offset : Z) (st : State) :
  CopyBlock_loop fuel size dest_addr src_addr page_index page_offset 0 st = Some ([], st).
Proof. destruct fuel; reflexivity. Qed.

Lemma set_host_host (st : State) : set_host st (host st) = st.
Proof. by destruct st. Qed.

(** Through one pointer, and from a source buffer in host memory that the
    block does not touch, the chunks of [WriteBlock] add up to one flat
    copy. *)
Lemma WriteBlock_host_loop_flat (ptr dest_addr size : Z) (fuel : nat) :
  ∀ page_index page_offset remaining_size src_buffer st,
    0 ≤ page_index → 0 ≤ page_offset < PAGE_SIZE → 0 ≤ remaining_size →
    page_index * PAGE_SIZE + page_offset + remaining_size ≤ 2 ^ 64 →
    0 ≤ src_buffer < 2 ^ 64 →
    (Z.to_nat remaining_size ≤ fuel)%nat →
    block_through ptr st (page_index * PAGE_SIZE + page_offset) remaining_size →
    (∀ i j, 0 ≤ i < remaining_size → 0 ≤ j < remaining_size →
            u64 (u64 (ptr + (page_index * PAGE_SIZE + page_offset)) + i)
            ≠ u64 (src_buffer + j)) →
    WriteBlock_host_loop fuel dest_addr size page_index page_offset remaining_size
      src_buffer st
    = Some ([], set_host st
                  (store_bytes (host st)
                     (u64 (ptr + (page_index * PAGE_SIZE + page_offset)))
                     (load_bytes (host st) src_buffer (Z.to_nat remaining_size)))).
Proof.
  induction fuel as [| fuel IH];
    intros page_index page_offset remaining_size src_buffer st
      Hpage Hoff Hrem Hend Hsrc Hfuel Hthrough Hapart.
  - assert (remaining_size = 0) as -> by lia. cbn. by rewrite set_host_host.
  - destruct (Z.eq_dec remaining_size 0) as [-> | Hnz]; [cbn; by rewrite set_host_host |].
    cbn [WriteBlock_host_loop].
    destruct (Z.leb_spec remaining_size 0); [lia |].
    destruct (chunk_cases PAGE_BITS_range page_index page_offset remaining_size Hpage Hoff
                ltac:(lia) Hend) as (Hcopy & Hfits & Hcases).
    set (copy_amount := Z.min (u64 (PAGE_SIZE - page_offset)) remaining_size) in *.
    destruct (Hthrough 0 ltac:(lia)) as [Hattr Hptr].
    rewrite Z.add_0_r, (page_of_index PAGE_BITS_range) in Hattr, Hptr by lia.
    rewrite Hattr, Hptr. cbn [mbind option_bind].
    rewrite (shiftl_PAGE_BITS PAGE_BITS_range).
    replace (ptr + page_offset + page_index * PAGE_SIZE)
      with (ptr + (page_index * PAGE_SIZE + page_offset)) by lia.
    set (dest_ptr := u64 (ptr + (page_index * PAGE_SIZE + page_offset))) in *.
    assert (Hdest : 0 ≤ dest_ptr < 2 ^ 64) by apply u64_range.
    unfold copy_bytes. rewrite buffers_apart by (intros i j Hi Hj; apply Hapart; lia).
    cbn [mbind option_bind].
    destruct Hcases as [Hlast | (Hmore & Hnext & Haddr)].
    + rewrite Hlast, Z.sub_diag, WriteBlock_host_loop_done. reflexivity.
    + pose proof (PAGE_SIZE_pos PAGE_BITS_range) as Hps.
      set (mem1 := store_bytes (host st) dest_ptr
                     (load_bytes (host st) src_buffer (Z.to_nat copy_amount))).
      assert (Hrest : block_through ptr (set_host st mem1) ((page_index + 1) * PAGE_SIZE + 0)
                        (remaining_size - copy_amount)).
      { intros i Hi. rewrite Haddr.
        replace (page_index * PAGE_SIZE + page_offset + copy_amount + i)
          with (page_index * PAGE_SIZE + page_offset + (copy_amount + i)) by lia.
        apply Hthrough. lia. }
      assert (Hnext_ptr : u64 (ptr + ((page_index + 1) * PAGE_SIZE + 0))
                          = u64 (dest_ptr + copy_amount)).
      { unfold dest_ptr. rewrite u64_u64_add, Haddr. f_equal. lia. }
      rewrite Hnext.
      rewrite (IH (page_index + 1) 0 (remaining_size - copy_amount)
                 (u64 (src_buffer + copy_amount)) (set_host st mem1)
                 ltac:(lia) ltac:(lia) ltac:(lia) ltac:(lia) (u64_range _) ltac:(lia) Hrest).
      * cbn [mbind option_bind app set_host host current_page_table gpu log].
        do 3 f_equal. rewrite Hnext_ptr.
        replace (Z.to_nat remaining_size)
          with (Z.to_nat copy_amount + Z.to_nat (remaining_size - copy_amount))%nat by lia.
        pose proof (copy_in_two_steps (host st) dest_ptr src_buffer
                      (Z.to_nat copy_amount) (Z.to_nat (remaining_size - copy_amount))
                      Hdest Hsrc) as Htwo.
        cbn zeta in Htwo. rewrite !Z2Nat.id in Htwo by lia.
        apply Htwo. intros i j Hi Hj. apply Hapart; lia.
      * intros i j Hi Hj. rewrite Hnext_ptr, !u64_u64_add.
        replace (dest_ptr + copy_amount + i) with (dest_ptr + (copy_amount + i)) by lia.
        replace (src_buffer + copy_amount + j) with (src_buffer + (copy_amount + j)) by lia.
        apply Hapart; lia.
Qed.

(** Between two blocks in [Memory] pages, each reached through one
    pointer, with no host byte in common, the chunks of [CopyBlock] add up
    to one flat copy. *)
Lemma CopyBlock_loop_flat (ptr_d ptr_s size : Z) (fuel : nat) :
  ∀ dest_addr src_addr page_index page_offset remaining_size st,
    0 ≤ page_index → 0 ≤ page_offset < PAGE_SIZE → 0 ≤ remaining_size →
    page_index * PAGE_SIZE + page_offset + remaining_size ≤ 2 ^ 64 →
    0 ≤ dest_addr → dest_addr + remaining_size ≤ 2 ^ 64 →
    (Z.to_nat remaining_size ≤ fuel)%nat →
    block_through ptr_s st (page_index * PAGE_SIZE + page_offset) remaining_size →
    block_through ptr_d st dest_addr remaining_size →
    (∀ i j, 0 ≤ i < remaining_size → 0 ≤ j < remaining_size →
            u64 (u64 (ptr_d + dest_addr) + i)
            ≠ u64 (u64 (ptr_s + (page_index * PAGE_SIZE + page_offset)) + j)) →
    CopyBlock_loop fuel size dest_addr src_addr page_index page_offset remaining_size st
    = Some ([], set_host st
                  (store_bytes (host st) (u64 (ptr_d + dest_addr))
                     (load_bytes (host st)
                        (u64 (ptr_s + (page_index * PAGE_SIZE + page_offset)))
                        (Z.to_nat remaining_size)))).
Proof.
  induction fuel as [| fuel IH];
    intros dest_addr src_addr page_index page_offset remaining_size st
      Hpage Hoff Hrem Hend Hdest Hdend Hfuel Hsrc_through Hdest_through Hapart.
  - assert (remaining_size = 0) as -> by lia. cbn. by rewrite set_host_host.
  - destruct (Z.eq_dec remaining_size 0) as [-> | Hnz]; [cbn; by rewrite set_host_host |].
    cbn [CopyBlock_loop].
    destruct (Z.leb_spec remaining_size 0); [lia |].
    destruct (chunk_cases PAGE_BITS_range page_index page_offset remaining_size Hpage Hoff
                ltac:(lia) Hend) as (Hcopy & Hfits & Hcases).
    set (copy_amount := Z.min (u64 (PAGE_SIZE - page_offset)) remaining_size) in *.
    destruct (Hsrc_through 0 ltac:(lia)) as [Hattr Hptr].
    rewrite Z.add_0_r, (page_of_index PAGE_BITS_range) in Hattr, Hptr by lia.
    rewrite Hattr, Hptr. cbn [mbind option_bind].
    rewrite (shiftl_PAGE_BITS PAGE_BITS_range).
    replace (ptr_s + page_offset + page_index * PAGE_SIZE)
      with (ptr_s + (page_index * PAGE_SIZE + page_offset)) by lia.
    set (src_ptr := u64 (ptr_s + (page_index * PAGE_SIZE + page_offset))) in *.
    set (dest_ptr := u64 (ptr_d + dest_addr)) in *.
    destruct (start_of_block PAGE_BITS_range dest_addr Hdest) as (Hdpage & Hdoff & Hdsum).
    assert (Hchunk : WriteBlock_host dest_addr src_ptr copy_amount st
                     = Some ([], set_host st
                                   (store_bytes (host st) dest_ptr
                                      (load_bytes (host st) src_ptr (Z.to_nat copy_amount))))).
    { unfold WriteBlock_host.
      rewrite (WriteBlock_host_loop_flat ptr_d); try lia.
      - by rewrite Hdsum.
      - apply u64_range.
      - rewrite Hdsum. intros i Hi. apply Hdest_through. lia.
      - rewrite Hdsum. intros i j Hi Hj. apply Hapart; lia. }
    rewrite Hchunk. cbn [mbind option_bind].
    destruct Hcases as [Hlast | (Hmore & Hnext & Haddr)].
    + rewrite Hlast, Z.sub_diag, CopyBlock_loop_done. reflexivity.
    + pose proof (PAGE_SIZE_pos PAGE_BITS_range) as Hps.
      set (mem1 := store_bytes (host st) dest_ptr
                     (load_bytes (host st) src_ptr (Z.to_nat copy_amount))).
      assert (Hdnext : u64 (dest_addr + copy_amount) = dest_addr + copy_amount)
        by (apply u64_fixed; lia).
      assert (Hsrc_rest : block_through ptr_s (set_host st mem1)
                            ((page_index + 1) * PAGE_SIZE + 0)
                            (remaining_size - copy_amount)).
      { intros i Hi. rewrite Haddr.
        replace (page_index * PAGE_SIZE + page_offset + copy_amount + i)
          with (page_index * PAGE_SIZE + page_offset + (copy_amount + i)) by lia.
        apply Hsrc_through. lia. }
      assert (Hdest_rest : block_through ptr_d (set_host st mem1)
                             (dest_addr + copy_amount) (remaining_size - copy_amount)).
      { intros i Hi.
        replace (dest_addr + copy_amount + i) with (dest_addr + (copy_amount + i)) by lia.
        apply Hdest_through. lia. }
      assert (Hnext_src : u64 (ptr_s + ((page_index + 1) * PAGE_SIZE + 0))
                          = u64 (src_ptr + copy_amount)).
      { unfold src_ptr. rewrite u64_u64_add, Haddr. f_equal. lia. }
      assert (Hnext_dest : u64 (ptr_d + (dest_addr + copy_amount))
                           = u64 (dest_ptr + copy_amount)).
      { unfold dest_ptr. rewrite u64_u64_add. f_equal. lia. }
      rewrite Hnext, Hdnext.
      rewrite (IH (dest_addr + copy_amount) (u64 (src_addr + copy_amount))
                 (page_index + 1) 0 (remaining_size - copy_amount) (set_host st mem1)
                 ltac:(lia) ltac:(lia) ltac:(lia) ltac:(lia) ltac:(lia) ltac:(lia)
                 ltac:(lia) Hsrc_rest Hdest_rest).
      * cbn [mbind option_bind app set_host host current_page_table gpu log].
        do 3 f_equal. rewrite Hnext_src, Hnext_dest.
        replace (Z.to_nat remaining_size)
          with (Z.to_nat copy_amount + Z.to_nat (remaining_size - copy_amount))%nat by lia.
        pose proof (copy_in_two_steps (host st) dest_ptr src_ptr
                      (Z.to_nat copy_amount) (Z.to_nat (remaining_size - copy_amount))
                      (u64_range _) (u64_range _)) as Htwo.
        cbn zeta in Htwo. rewrite !Z2Nat.id in Htwo by lia.
        apply Htwo. intros i j Hi Hj. apply Hapart; lia.
      * intros i j Hi Hj. rewrite Hnext_src, Hnext_dest, !u64_u64_add.
        replace (dest_ptr + copy_amount + i) with (dest_ptr + (copy_amount + i)) by lia.
        replace (src_ptr + copy_amount + j) with (src_ptr + (copy_amount + j)) by lia.
        apply Hapart; lia.
Qed.

(** [CopyBlock] between two blocks that lie in [Memory] pages, each
    reached through one page pointer, and that share no byte of host
    memory: afterwards the destination reads as the source read before,
    the source still reads the same, nothing is logged, and only the host
    bytes of the destination have changed, whatever page boundaries the
    two blocks cross. *)
Theorem CopyBlock_copies_between_disjoint_blocks
  (ptr_d ptr_s dest_addr src_addr size : Z) (st : State) :
  0 ≤ dest_addr → 0 ≤ src_addr → 0 ≤ size →
  dest_addr + size ≤ 2 ^ 64 → src_addr + size ≤ 2 ^ 64 →
  block_through ptr_s st src_addr size →
  block_through ptr_d st dest_addr size →
  (∀ i j, 0 ≤ i < size → 0 ≤ j < size →
          u64 (ptr_d + dest_addr + i) ≠ u64 (ptr_s + src_addr + j)) →
  ∃ bytes st',
    ReadBlockUnsafe src_addr size st = Some (bytes, st)
    ∧ CopyBlock dest_addr src_addr size st = Some ([], st')
    ∧ ReadBlockUnsafe dest_addr size st' = Some (bytes, st')
    ∧ ReadBlockUnsafe src_addr size st' = Some (bytes, st')
    ∧ current_page_table st' = current_page_table st
    ∧ gpu st' = gpu st ∧ log st' = log st
    ∧ ∀ a, (∀ i, 0 ≤ i < size → a ≠ u64 (ptr_d + dest_addr + i)) → host st' a = host st a.
Proof.
  intros Hdest Hsrc Hsize Hdend Hsend Hsrc_through Hdest_through Hapart.
  destruct (start_of_block PAGE_BITS_range src_addr Hsrc) as (Hpage & Hoff & Hsum).
  set (bytes := load_bytes (host st) (u64 (ptr_s + src_addr)) (Z.to_nat size)).
  set (st' := set_host st (store_bytes (host st) (u64 (ptr_d + dest_addr)) bytes)).
  assert (Hlen : length bytes = Z.to_nat size) by apply load_bytes_length.
  exists bytes, st'.
  split; [by apply (ReadBlockUnsafe_is_a_flat_copy_aux PAGE_BITS_range) |].
  split.
  { unfold CopyBlock.
    rewrite (CopyBlock_loop_flat ptr_d ptr_s); try lia.
    - by rewrite Hsum.
    - by rewrite Hsum.
    - exact Hdest_through.
    - rewrite Hsum. intros i j Hi Hj. rewrite !u64_u64_add. by apply Hapart. }
  split.
  { rewrite (ReadBlockUnsafe_is_a_flat_copy_aux PAGE_BITS_range ptr_d dest_addr size st')
      by assumption.
    unfold st'. cbn [host set_host]. rewrite <- Hlen.
    rewrite load_bytes_store_bytes; [| apply u64_range | lia].
    unfold bytes. by rewrite load_bytes_u8. }
  split.
  { rewrite (ReadBlockUnsafe_is_a_flat_copy_aux PAGE_BITS_range ptr_s src_addr size st')
      by assumption.
    do 2 f_equal. unfold st'. cbn [host set_host].
    apply load_bytes_ext; [apply u64_range |].
    intros j Hj. apply store_bytes_outside; [apply u64_range |].
    intros i Hi. rewrite Hlen in Hi. rewrite !u64_u64_add. apply Hapart; lia. }
  do 3 (split; [reflexivity |]).
  intros a Hout. unfold st'. cbn [host set_host].
  apply store_bytes_outside; [apply u64_range |].
  intros i Hi. rewrite Hlen in Hi. rewrite u64_u64_add.
  intros Heq. apply (Hout i); [lia | by symmetry].
Qed.

End CoreMemoryCopyBlock.

Section CoreMemoryCopyScenarios.
Import Machine CoreMemory Scenarios.
#[local] Existing Instance idle_system.

Lemma ReadBlock_of_plain_and_cached_pages :
  ReadBlock 8190 4 idle_page = ReadBlockUnsafe 8190 4 idle_page
  ∧ ReadBlock 4100 8 idle_cached
    = ReadBlockUnsafe 4100 8
        (set_gpu_host idle_cached
           (GPU_FlushRegion 4100 8 (gpu idle_cached, host idle_cached))).
Proof.
  assert (H0 : 0 ≤ 8190) by lia. assert (H1 : 8190 + 4 ≤ 2 ^ 64) by lia.
  assert (H2 : 0 ≤ 4100) by lia. assert (H3 : 4100 + 8 ≤ 2 ^ 64) by lia.
  split.
  - apply (proj1 (ReadBlock_differs_by_the_flush idle_PAGE_BITS 8190 4 idle_page H0 H1)).
    intros i Hi.
    assert (i = 0 ∨ i = 1 ∨ i = 2 ∨ i = 3) as [-> | [-> | [-> | ->]]] by lia;
      vm_compute; discriminate.
  - apply (proj2 (ReadBlock_differs_by_the_flush idle_PAGE_BITS 4100 8 idle_cached H2 H3)).
    + lia.
    + vm_compute. discriminate.
    + reflexivity.
Defined.

Lemma CopyBlock_across_two_pages :
  ∃ bytes st',
    ReadBlockUnsafe 8190 4 idle_two_pages = Some (bytes, idle_two_pages)
    ∧ CopyBlock 4200 8190 4 idle_two_pages = Some ([], st')
    ∧ ReadBlockUnsafe 4200 4 st' = Some (bytes, st')
    ∧ ReadBlockUnsafe 8190 4 st' = Some (bytes, st')
    ∧ current_page_table st' = current_page_table idle_two_pages
    ∧ gpu st' = gpu idle_two_pages ∧ log st' = log idle_two_pages
    ∧ ∀ a, (∀ i, 0 ≤ i < 4 → a ≠ u64 (host_base + 8192 + 4200 + i)) →
           host st' a = host idle_two_pages a.
Proof.
  apply (CopyBlock_copies_between_disjoint_blocks idle_PAGE_BITS
           (host_base + 8192) (host_base + 8192) 4200 8190 4 idle_two_pages).
  - lia.
  - lia.
  - lia.
  - lia.
  - lia.
  - apply block_across_two_pages.
  - intros i Hi.
    assert (i = 0 ∨ i = 1 ∨ i = 2 ∨ i = 3) as [-> | [-> | [-> | ->]]] by lia;
      split; reflexivity.
  - intros i j Hi Hj. unfold host_base, u64. rewrite !Z.mod_small by lia. lia.
Defined.

End CoreMemoryCopyScenarios.

(** ** The GPU memory manager: blocks through both page tables *)

Section MemoryManagerBlocks.
Import Machine MemoryManager.
Context `{Layout} `{CoreMemory.System}.
Hypothesis page_bits_range : 0 ≤ page_bits < 64.
Hypothesis PAGE_BITS_range : 0 ≤ CoreMemory.PAGE_BITS < 64.

Lemma shiftl_page_bits (a : Z) : Z.shiftl a page_bits = a * page_size.
Proof. rewrite Z.shiftl_mul_pow2, page_size_pow2 by lia. reflexivity. Qed.

(** One chunk of a walk over GPU pages: its length, and where the next one
    starts. *)
Lemma gpu_chunk_cases (page_index page_offset remaining_size : Z) :
  0 ≤ page_index → 0 ≤ page_offset < page_size → 0 < remaining_size →
  page_index * page_size + page_offset + remaining_size ≤ 2 ^ 64 →
  let copy_amount := Z.min (u64 (page_size - page_offset)) remaining_size in
  0 < copy_amount ≤ remaining_size
  ∧ (copy_amount = remaining_size
     ∨ (copy_amount < remaining_size
        ∧ u64 (page_index + 1) = page_index + 1
        ∧ (page_index + 1) * page_size
          = page_index * page_size + page_offset + copy_amount)).
Proof.
  intros Hpage Hoff Hrem Hend. cbn zeta.
  pose proof (page_size_pos page_bits_range) as Hps.
  pose proof (page_size_le page_bits_range) as Hle.
  rewrite (u64_small (page_size - page_offset)) by lia.
  destruct (Z.min_spec (page_size - page_offset) remaining_size) as [[Hlt ->] | [Hge ->]].
  - split; [lia |]. right. split; [lia |]. split; [apply u64_small; nia | lia].
  - split; [lia |]. left. reflexivity.
Qed.

(** The CPU address of a chunk, from the translation of its first byte. *)
Lemma page_translation (m : t) (page_index page_offset c : Z) :
  0 ≤ page_index → 0 ≤ page_offset < page_size →
  page_index * page_size + page_offset < 2 ^ 64 →
  GpuToCpuAddress m (page_index * page_size + page_offset) = Some c →
  ∃ page_addr,
    GpuToCpuAddress m (u64 (Z.shiftl page_index page_bits)) = Some page_addr
    ∧ u64 (page_addr + page_offset) = c.
Proof.
  intros Hpage Hoff Hlt.
  pose proof (page_size_pos page_bits_range) as Hps.
  rewrite shiftl_page_bits, u64_small by nia.
  unfold GpuToCpuAddress, GetPageEntry.
  rewrite !(PageEntryIndex_div page_bits_range), !(land_page_mask page_bits_range).
  assert (Hq : (page_index * page_size + page_offset) / page_size = page_index)
    by (rewrite Z.div_add_l, Z.div_small by lia; lia).
  assert (Hr : (page_index * page_size + page_offset) mod page_size = page_offset)
    by (rewrite Z.add_comm, Z.mod_add, Z.mod_small by lia; lia).
  rewrite Hq, Hr, Z.div_mul, Z.mod_mul by lia.
  destruct (negb _); [discriminate |].
  intros [= <-]. eexists. split; [reflexivity |].
  rewrite Z.add_0_r. apply u64_u64_add.
Qed.

(** [WriteBlockUnsafe] of the guest memory on a block in [Memory] pages
    that are reached through one pointer. *)
Lemma WriteBlockUnsafe_flat (ptr dest_addr size : Z) (src_buffer : list Z)
  (st : CoreMemory.State) :
  0 ≤ dest_addr → 0 ≤ size → dest_addr + size ≤ 2 ^ 64 →
  (Z.to_nat size ≤ length src_buffer)%nat →
  CoreMemory.block_through ptr st dest_addr size →
  CoreMemory.WriteBlockUnsafe dest_addr src_buffer size st
  = Some ([], CoreMemory.set_host st
                (CoreMemory.store_bytes (CoreMemory.host st) (u64 (ptr + dest_addr))
                   (take (Z.to_nat size) src_buffer))).
Proof.
  intros Haddr Hsize Hend Hlen Hthrough.
  destruct (start_of_block PAGE_BITS_range dest_addr Haddr) as (Hpage & Hoff & Hsum).
  unfold CoreMemory.WriteBlockUnsafe. rewrite decide_True by exact Hlen.
  rewrite (WriteBlock_loop_flat PAGE_BITS_range false ptr); try lia.
  - by rewrite Hsum.
  - by rewrite Hsum.
Qed.

Lemma WriteBlockUnsafe_loop_done (m : t) (fuel : nat) (page_index page_offset : Z)
  (src_buffer : list Z) (st : CoreMemory.State) :
  WriteBlockUnsafe_loop fuel m page_index page_offset 0 src_buffer st = Some ([], st).
Proof. destruct fuel; reflexivity. Qed.

(** Over GPU pages that translate to one run of CPU addresses, in [Memory]
    pages reached through one pointer, the chunks of [WriteBlockUnsafe] add
    up to one flat copy into host memory. *)
Lemma WriteBlockUnsafe_loop_flat (m : t) (ptr : Z) (fuel : nat) :
  ∀ page_index page_offset remaining_size cpu_addr src_buffer st,
    0 ≤ page_index → 0 ≤ page_offset < page_size → 0 ≤ remaining_size →
    page_index * page_size + page_offset + remaining_size ≤ 2 ^ 64 →
    0 ≤ cpu_addr → cpu_addr + remaining_size ≤ 2 ^ 64 →
    (Z.to_nat remaining_size ≤ fuel)%nat →
    (Z.to_nat remaining_size ≤ length src_buffer)%nat →
    (∀ k, 0 ≤ k < remaining_size →
          GpuToCpuAddress m (page_index * page_size + page_offset + k)
          = Some (cpu_addr + k)) →
    CoreMemory.block_through ptr st cpu_addr remaining_size →
    WriteBlockUnsafe_loop fuel m page_index page_offset remaining_size src_buffer st
    = Some ([], CoreMemory.set_host st
                  (CoreMemory.store_bytes (CoreMemory.host st) (u64 (ptr + cpu_addr))
                     (take (Z.to_nat remaining_size) src_buffer))).
Proof.
  induction fuel as [| fuel IH];
    intros page_index page_offset remaining_size cpu_addr src_buffer st
      Hpage Hoff Hrem Hend Hcpu Hcend Hfuel Hlen Hmap Hthrough.
  - assert (remaining_size = 0) as -> by lia. cbn. by destruct st.
  - destruct (Z.eq_dec remaining_size 0) as [-> | Hnz]; [cbn; by destruct st |].
    cbn [WriteBlockUnsafe_loop].
    destruct (Z.leb_spec remaining_size 0); [lia |].
    destruct (gpu_chunk_cases page_index page_offset remaining_size Hpage Hoff
                ltac:(lia) Hend) as (Hcopy & Hcases).
    set (copy_amount := Z.min (u64 (page_size - page_offset)) remaining_size) in *.
    pose proof (Hmap 0 ltac:(lia)) as Hfirst. rewrite !Z.add_0_r in Hfirst.
    destruct (page_translation m page_index page_offset cpu_addr Hpage Hoff ltac:(lia)
                Hfirst) as (page_addr & -> & ->).
    rewrite (WriteBlockUnsafe_flat ptr cpu_addr copy_amount src_buffer st);
      [| lia | lia | lia | lia | intros i Hi; apply Hthrough; lia].
    cbn [mbind option_bind].
    destruct Hcases as [Hlast | (Hmore & Hnext & Haddr)].
    + rewrite Hlast, Z.sub_diag, WriteBlockUnsafe_loop_done. reflexivity.
    + set (chunk := take (Z.to_nat copy_amount) src_buffer).
      set (st1 := CoreMemory.set_host st
                    (CoreMemory.store_bytes (CoreMemory.host st) (u64 (ptr + cpu_addr))
                       chunk)).
      assert (Hrest : CoreMemory.block_through ptr st1 (cpu_addr + copy_amount)
                        (remaining_size - copy_amount)).
      { intros i Hi.
        replace (cpu_addr + copy_amount + i) with (cpu_addr + (copy_amount + i)) by lia.
        apply Hthrough. lia. }
      assert (Hdrop : (Z.to_nat (remaining_size - copy_amount)
                       ≤ length (drop (Z.to_nat copy_amount) src_buffer))%nat).
      { rewrite length_drop. lia. }
      assert (Hmap' : ∀ k, 0 ≤ k < remaining_size - copy_amount →
                GpuToCpuAddress m ((page_index + 1) * page_size + 0 + k)
                = Some (cpu_addr + copy_amount + k)).
      { intros k Hk. rewrite Z.add_0_r, Haddr.
        replace (page_index * page_size + page_offset + copy_amount + k)
          with (page_index * page_size + page_offset + (copy_amount + k)) by lia.
        replace (cpu_addr + copy_amount + k) with (cpu_addr + (copy_amount + k)) by lia.
        apply Hmap. lia. }
      pose proof (page_size_pos page_bits_range) as Hps.
      rewrite Hnext.
      rewrite (IH (page_index + 1) 0 (remaining_size - copy_amount)
                 (cpu_addr + copy_amount) _ st1
                 ltac:(lia) ltac:(lia) ltac:(lia) ltac:(lia) ltac:(lia) ltac:(lia)
                 ltac:(lia) Hdrop Hmap' Hrest).
      cbn [mbind option_bind app]. unfold st1.
      cbn [CoreMemory.set_host CoreMemory.host CoreMemory.current_page_table
           CoreMemory.gpu CoreMemory.log].
      do 3 f_equal.
      replace (Z.to_nat remaining_size)
        with (Z.to_nat copy_amount + Z.to_nat (remaining_size - copy_amount))%nat by lia.
      rewrite <- take_take_drop, store_bytes_app by apply u64_range.
      unfold chunk. rewrite length_take_le by lia.
      rewrite u64_u64_add, Z2Nat.id by lia.
      replace (ptr + cpu_addr + copy_amount) with (ptr + (cpu_addr + copy_amount)) by lia.
      reflexivity.
Qed.

(** The same for [ReadBlockUnsafe]: the chunks fill the destination with
    one flat copy of host memory. *)
Lemma gpu_ReadBlockUnsafe_loop_flat (m : t) (ptr : Z) (fuel : nat) :
  ∀ page_index page_offset remaining_size cpu_addr pos dest st,
    0 ≤ page_index → 0 ≤ page_offset < page_size → 0 ≤ remaining_size →
    page_index * page_size + page_offset + remaining_size ≤ 2 ^ 64 →
    0 ≤ cpu_addr → cpu_addr + remaining_size ≤ 2 ^ 64 →
    (Z.to_nat remaining_size ≤ fuel)%nat →
    (pos + Z.to_nat remaining_size ≤ length dest)%nat →
    (∀ k, 0 ≤ k < remaining_size →
          GpuToCpuAddress m (page_index * page_size + page_offset + k)
          = Some (cpu_addr + k)) →
    CoreMemory.block_through ptr st cpu_addr remaining_size →
    ReadBlockUnsafe_loop fuel m page_index page_offset remaining_size pos dest st
    = Some (take pos dest
            ++ CoreMemory.load_bytes (CoreMemory.host st) (u64 (ptr + cpu_addr))
                 (Z.to_nat remaining_size)
            ++ drop (pos + Z.to_nat remaining_size) dest, st).
Proof.
  induction fuel as [| fuel IH];
    intros page_index page_offset remaining_size cpu_addr pos dest st
      Hpage Hoff Hrem Hend Hcpu Hcend Hfuel Hlen Hmap Hthrough.
  - assert (remaining_size = 0) as -> by lia.
    rewrite ReadBlockUnsafe_loop_done by lia.
    change (Z.to_nat 0) with 0%nat. cbn [CoreMemory.load_bytes app].
    by rewrite Nat.add_0_r, take_drop.
  - destruct (Z.eq_dec remaining_size 0) as [-> | Hnz].
    { rewrite ReadBlockUnsafe_loop_done by lia.
      change (Z.to_nat 0) with 0%nat. cbn [CoreMemory.load_bytes app].
      by rewrite Nat.add_0_r, take_drop. }
    cbn [ReadBlockUnsafe_loop].
    destruct (Z.leb_spec remaining_size 0); [lia |].
    destruct (gpu_chunk_cases page_index page_offset remaining_size Hpage Hoff
                ltac:(lia) Hend) as (Hcopy & Hcases).
    set (copy_amount := Z.min (u64 (page_size - page_offset)) remaining_size) in *.
    pose proof (Hmap 0 ltac:(lia)) as Hfirst. rewrite !Z.add_0_r in Hfirst.
    destruct (page_translation m page_index page_offset cpu_addr Hpage Hoff ltac:(lia)
                Hfirst) as (page_addr & -> & ->).
    rewrite (ReadBlockUnsafe_is_a_flat_copy_aux PAGE_BITS_range ptr cpu_addr copy_amount st);
      [| lia | lia | lia | intros i Hi; apply Hthrough; lia].
    cbn [mbind option_bind].
    set (bytes := CoreMemory.load_bytes (CoreMemory.host st) (u64 (ptr + cpu_addr))
                    (Z.to_nat copy_amount)).
    assert (Hbytes : length bytes = Z.to_nat copy_amount) by apply load_bytes_length.
    unfold write_at. rewrite decide_True by lia. cbn [mbind option_bind].
    rewrite Hbytes.
    set (dest1 := take pos dest ++ bytes ++ drop (pos + Z.to_nat copy_amount) dest).
    assert (Htake : take (pos + Z.to_nat copy_amount) dest1 = take pos dest ++ bytes).
    { unfold dest1. rewrite app_assoc. apply take_app_length'.
      rewrite length_app, length_take_le, Hbytes by lia. reflexivity. }
    assert (Hdrop : ∀ r, drop (pos + Z.to_nat copy_amount + r) dest1
                         = drop (pos + Z.to_nat copy_amount + r) dest).
    { intros r. unfold dest1. rewrite app_assoc.
      rewrite <- drop_drop, drop_app_length'
        by (rewrite length_app, length_take_le, Hbytes by lia; reflexivity).
      by rewrite drop_drop. }
    destruct Hcases as [Hlast | (Hmore & Hnext & Haddr)].
    + rewrite Hlast, Z.sub_diag, ReadBlockUnsafe_loop_done by lia.
      unfold dest1. by rewrite <- Hlast.
    + assert (Hrest : CoreMemory.block_through ptr st (cpu_addr + copy_amount)
                        (remaining_size - copy_amount)).
      { intros i Hi.
        replace (cpu_addr + copy_amount + i) with (cpu_addr + (copy_amount + i)) by lia.
        apply Hthrough. lia. }
      assert (Hmap' : ∀ k, 0 ≤ k < remaining_size - copy_amount →
                GpuToCpuAddress m ((page_index + 1) * page_size + 0 + k)
                = Some (cpu_addr + copy_amount + k)).
      { intros k Hk. rewrite Z.add_0_r, Haddr.
        replace (page_index * page_size + page_offset + copy_amount + k)
          with (page_index * page_size + page_offset + (copy_amount + k)) by lia.
        replace (cpu_addr + copy_amount + k) with (cpu_addr + (copy_amount + k)) by lia.
        apply Hmap. lia. }
      assert (Hlen1 : (pos + Z.to_nat copy_amount + Z.to_nat (remaining_size - copy_amount)
                       ≤ length dest1)%nat).
      { unfold dest1. rewrite !length_app, length_take_le, length_drop, Hbytes by lia. lia. }
      pose proof (page_size_pos page_bits_range) as Hps.
      rewrite Hnext.
      rewrite (IH (page_index + 1) 0 (remaining_size - copy_amount)
                 (cpu_addr + copy_amount) _ dest1 st
                 ltac:(lia) ltac:(lia) ltac:(lia) ltac:(lia) ltac:(lia) ltac:(lia)
                 ltac:(lia) Hlen1 Hmap' Hrest).
      rewrite Htake, Hdrop. f_equal. f_equal.
      replace (Z.to_nat remaining_size)
        with (Z.to_nat copy_amount + Z.to_nat (remaining_size - copy_amount))%nat by lia.
      rewrite load_bytes_app by apply u64_range.
      rewrite u64_u64_add, Z2Nat.id by lia.
      replace (ptr + cpu_addr + copy_amount) with (ptr + (cpu_addr + copy_amount)) by lia.
      rewrite <- !app_assoc, Nat.add_assoc. reflexivity.
Qed.

(** The page index and offset that the block functions start from. *)
Lemma gpu_start_of_block (addr : Z) :
  0 ≤ addr →
  0 ≤ Z.shiftr addr page_bits
  ∧ 0 ≤ Z.land addr page_mask < page_size
  ∧ Z.shiftr addr page_bits * page_size + Z.land addr page_mask = addr.
Proof.
  intros Haddr. pose proof (page_size_pos page_bits_range) as Hps.
  pose proof (PageEntryIndex_div page_bits_range addr) as Hdiv.
  unfold PageEntryIndex in Hdiv. rewrite Hdiv, (land_page_mask page_bits_range).
  assert (Hne : page_size ≠ 0) by lia.
  pose proof (Z.div_mod addr page_size Hne).
  pose proof (Z.mod_pos_bound addr page_size Hps).
  split; [apply Z.div_pos; lia |]. split; [lia | lia].
Qed.

Section FlatRange.
Variables (m : t) (ptr gpu_addr cpu_addr size : Z) (st : CoreMemory.State).
Hypothesis size_range : 0 ≤ size.
Hypothesis gpu_range : 0 ≤ gpu_addr ∧ gpu_addr + size ≤ 2 ^ 64.
Hypothesis cpu_range : 0 ≤ cpu_addr ∧ cpu_addr + size ≤ 2 ^ 64.
Hypothesis translated :
  ∀ k, 0 ≤ k < size → GpuToCpuAddress m (gpu_addr + k) = Some (cpu_addr + k).
Hypothesis through : CoreMemory.block_through ptr st cpu_addr size.

Lemma gpu_ReadBlockUnsafe_flat (dest_buffer : list Z) :
  length dest_buffer = Z.to_nat size →
  ReadBlockUnsafe m gpu_addr dest_buffer size st
  = Some (CoreMemory.load_bytes (CoreMemory.host st) (u64 (ptr + cpu_addr))
            (Z.to_nat size), st).
Proof.
  intros Hlen.
  destruct (gpu_start_of_block gpu_addr (proj1 gpu_range)) as (Hpage & Hoff & Hsum).
  unfold ReadBlockUnsafe.
  rewrite (gpu_ReadBlockUnsafe_loop_flat m ptr _ _ _ _ cpu_addr); try lia.
  - rewrite Nat.add_0_l, <- Hlen, drop_all, app_nil_r. reflexivity.
  - by rewrite Hsum.
  - exact through.
Qed.

Lemma gpu_WriteBlockUnsafe_flat (src_buffer : list Z) :
  length src_buffer = Z.to_nat size →
  WriteBlockUnsafe m gpu_addr src_buffer size st
  = Some ([], CoreMemory.set_host st
                (CoreMemory.store_bytes (CoreMemory.host st) (u64 (ptr + cpu_addr))
                   src_buffer)).
Proof.
  intros Hlen.
  destruct (gpu_start_of_block gpu_addr (proj1 gpu_range)) as (Hpage & Hoff & Hsum).
  unfold WriteBlockUnsafe.
  rewrite (WriteBlockUnsafe_loop_flat m ptr _ _ _ _ cpu_addr); try lia.
  - rewrite <- Hlen, firstn_all. reflexivity.
  - by rewrite Hsum.
  - exact through.
Qed.

End FlatRange.

(** Blocks through both page tables.  Over GPU ranges that translate to
    runs of CPU addresses in [Memory] pages, each reached through one page
    pointer: what [WriteBlockUnsafe] writes, [ReadBlockUnsafe] reads back,
    on the GPU side and on the CPU side; and [CopyBlockUnsafe], which goes
    through a temporary buffer, leaves in the destination what the source
    held before, also when the two ranges overlap.  Nothing is logged, and
    only host memory changes. *)
Theorem CopyBlockUnsafe_copies_through_a_temporary
  (m : t) (ptr_d ptr_s gpu_dest_addr gpu_src_addr cpu_dest_addr cpu_src_addr size : Z)
  (st : CoreMemory.State) :
  0 ≤ size →
  0 ≤ gpu_src_addr ∧ gpu_src_addr + size ≤ 2 ^ 64 →
  0 ≤ gpu_dest_addr ∧ gpu_dest_addr + size ≤ 2 ^ 64 →
  0 ≤ cpu_src_addr ∧ cpu_src_addr + size ≤ 2 ^ 64 →
  0 ≤ cpu_dest_addr ∧ cpu_dest_addr + size ≤ 2 ^ 64 →
  (∀ k, 0 ≤ k < size →
        GpuToCpuAddress m (gpu_src_addr + k) = Some (cpu_src_addr + k)) →
  (∀ k, 0 ≤ k < size →
        GpuToCpuAddress m (gpu_dest_addr + k) = Some (cpu_dest_addr + k)) →
  CoreMemory.block_through ptr_s st cpu_src_addr size →
  CoreMemory.block_through ptr_d st cpu_dest_addr size →
  let zeros := replicate (Z.to_nat size) 0 in
  (∀ src_buffer, length src_buffer = Z.to_nat size →
     ∃ st',
       WriteBlockUnsafe m gpu_dest_addr src_buffer size st = Some ([], st')
       ∧ ReadBlockUnsafe m gpu_dest_addr zeros size st' = Some (map u8 src_buffer, st')
       ∧ CoreMemory.ReadBlockUnsafe cpu_dest_addr size st' = Some (map u8 src_buffer, st'))
  ∧ ∃ bytes st',
      ReadBlockUnsafe m gpu_src_addr zeros size st = Some (bytes, st)
      ∧ CopyBlockUnsafe m gpu_dest_addr gpu_src_addr size st = Some ([], st')
      ∧ ReadBlockUnsafe m gpu_dest_addr zeros size st' = Some (bytes, st')
      ∧ CoreMemory.current_page_table st' = CoreMemory.current_page_table st
      ∧ CoreMemory.gpu st' = CoreMemory.gpu st
      ∧ CoreMemory.log st' = CoreMemory.log st.
Proof.
  intros Hsize Hgs Hgd Hcs Hcd Hsrc Hdest Hsrc_through Hdest_through zeros.
  assert (Hzeros : length zeros = Z.to_nat size) by apply length_replicate.
  assert (Hwritten : ∀ src_buffer, length src_buffer = Z.to_nat size →
    let st' := CoreMemory.set_host st
                 (CoreMemory.store_bytes (CoreMemory.host st) (u64 (ptr_d + cpu_dest_addr))
                    src_buffer) in
    WriteBlockUnsafe m gpu_dest_addr src_buffer size st = Some ([], st')
    ∧ ReadBlockUnsafe m gpu_dest_addr zeros size st' = Some (map u8 src_buffer, st')
    ∧ CoreMemory.ReadBlockUnsafe cpu_dest_addr size st' = Some (map u8 src_buffer, st')).
  { intros src_buffer Hlen st'.
    assert (Hback : CoreMemory.load_bytes (CoreMemory.host st') (u64 (ptr_d + cpu_dest_addr))
                      (Z.to_nat size) = map u8 src_buffer).
    { unfold st'. cbn [CoreMemory.host CoreMemory.set_host]. rewrite <- Hlen.
      apply load_bytes_store_bytes; [apply u64_range | lia]. }
    split; [by apply (gpu_WriteBlockUnsafe_flat m ptr_d gpu_dest_addr cpu_dest_addr size) |].
    split.
    - rewrite (gpu_ReadBlockUnsafe_flat m ptr_d gpu_dest_addr cpu_dest_addr size st')
        by assumption.
      by rewrite Hback.
    - rewrite (ReadBlockUnsafe_is_a_flat_copy_aux PAGE_BITS_range ptr_d cpu_dest_addr size st')
        by (try assumption; lia).
      by rewrite Hback. }
  split.
  { intros src_buffer Hlen. eexists. apply (Hwritten src_buffer Hlen). }
  set (bytes := CoreMemory.load_bytes (CoreMemory.host st) (u64 (ptr_s + cpu_src_addr))
                  (Z.to_nat size)).
  assert (Hlen : length bytes = Z.to_nat size) by apply load_bytes_length.
  assert (Hread : ReadBlockUnsafe m gpu_src_addr zeros size st = Some (bytes, st))
    by (by apply (gpu_ReadBlockUnsafe_flat m ptr_s gpu_src_addr cpu_src_addr size)).
  destruct (Hwritten bytes Hlen) as (Hwrite & Hagain & _).
  unfold bytes in Hagain at 2. rewrite load_bytes_u8 in Hagain. fold bytes in Hagain.
  eexists bytes, _. split; [exact Hread |]. split.
  { unfold CopyBlockUnsafe. fold zeros. rewrite Hread. cbn [mbind option_bind].
    exact Hwrite. }
  split; [exact Hagain |]. by repeat split.
Qed.

End MemoryManagerBlocks.

Section MemoryManagerBlockScenarios.
Import Machine MemoryManager Scenarios.
#[local] Existing Instance idle_system.

Lemma CopyBlockUnsafe_of_overlapping_ranges :
  let zeros := replicate (Z.to_nat 4) 0 in
  (∀ src_buffer, length src_buffer = Z.to_nat 4 →
     ∃ st',
       WriteBlockUnsafe (H := gpu_64k) one_mapping 69632 src_buffer 4 idle_two_pages
       = Some ([], st')
       ∧ ReadBlockUnsafe (H := gpu_64k) one_mapping 69632 zeros 4 st'
         = Some (map u8 src_buffer, st')
       ∧ CoreMemory.ReadBlockUnsafe 8192 4 st' = Some (map u8 src_buffer, st'))
  ∧ ∃ bytes st',
      ReadBlockUnsafe (H := gpu_64k) one_mapping 69630 zeros 4 idle_two_pages
      = Some (bytes, idle_two_pages)
      ∧ CopyBlockUnsafe (H := gpu_64k) one_mapping 69632 69630 4 idle_two_pages
        = Some ([], st')
      ∧ ReadBlockUnsafe (H := gpu_64k) one_mapping 69632 zeros 4 st' = Some (bytes, st')
      ∧ CoreMemory.current_page_table st' = CoreMemory.current_page_table idle_two_pages
      ∧ CoreMemory.gpu st' = CoreMemory.gpu idle_two_pages
      ∧ CoreMemory.log st' = CoreMemory.log idle_two_pages.
Proof.
  apply (CopyBlockUnsafe_copies_through_a_temporary (H := gpu_64k)
           gpu_64k_page_bits idle_PAGE_BITS one_mapping
           (host_base + 8192) (host_base + 8192) 69632 69630 8192 8190 4 idle_two_pages).
  - lia.
  - lia.
  - lia.
  - lia.
  - lia.
  - intros k Hk.
    assert (k = 0 ∨ k = 1 ∨ k = 2 ∨ k = 3) as [-> | [-> | [-> | ->]]] by lia;
      reflexivity.
  - intros k Hk.
    assert (k = 0 ∨ k = 1 ∨ k = 2 ∨ k = 3) as [-> | [-> | [-> | ->]]] by lia;
      reflexivity.
  - apply block_across_two_pages.
  - intros i Hi.
    assert (i = 0 ∨ i = 1 ∨ i = 2 ∨ i = 3) as [-> | [-> | [-> | ->]]] by lia;
      split; reflexivity.
Defined.

End MemoryManagerBlockScenarios.
